(* ===== verification/_CoqProject ===== *)
-Q . S2P
Prelude.v
Vector.v
Io.v
Bytes.v
RaptorQ.v
Chan.v
BlockEncoder.v
BlockDecoder.v
Pipeline.v
Dispatch.v
Machine.v
Random.v
Threads.v
Encoder.v
Decoder.v
EndToEnd.v
System.v
Utf8.v
Protocol.v
Path.v
Socket.v
IoStream.v
Transfer.v
TransferHost.v
Cli.v
FileTransfer.v
Commands.v
Tests.v
