(* ===== verification/Prelude.v ===== *)
(** * Garuda codec: a verification development

    Garuda sends streams of bytes over one-way, lossy, order-preserving links.  An
    encoder cuts a stream into blocks, turns each into packets with forward error
    correction (the [raptorq] crate) and writes the packets out; a decoder makes
    blocks of the packets that arrive.  Both spread the work over worker threads.
    On top of them, a file transfer sends files as datagrams of one block each.
    This development models the crates [garuda-codec-core], [garuda-file-transfer] and
    [garuda-codec] and proves what they do, part by part and together.

    ** The parts, and the files that model them

    - This file: machine integers, results and panics ([outcome]), the merging of
      concurrent streams ([interleaving]), the tactics and the hint database.
    - [Vector]: [vector.rs].  [interleave] is the iterator with the variables its
      closure captures, [interleave_step] one call of [next].
    - [Io]: [io.rs], over the interfaces [Reader] and [Writer]; [read_exact] with the
      stop flag, and the standard library's [read_exact] and [write_all].  [Stream],
      [Source] and [Sink] state what clients rely on; the scripted readers and
      writers, a cursor and a vector implement them.
    - [Bytes]: big-endian integers and fixed-size records.
    - [RaptorQ]: the error correction code as an interface ([RaptorQ]) with the laws
      the program relies on ([RaptorQLaws]), and a code that satisfies them
      ([Repetition]), on which the witnesses run.
    - [Chan]: the sending end of a channel as one thread sees it.
    - [BlockEncoder], [BlockDecoder]: [block_encoder.rs] and [block_decoder.rs], every
      operation.  The specification of the decoder's state machine is
      [decode_runs]: each maximal run of packets with one block number is decoded
      on its own.
    - [Pipeline]: the network of dispatcher, workers and forwarder that
      [start_encoding] and [start_decoding] build out of threads and bounded
      channels, as a step relation over all interleavings and failures.
    - [Dispatch]: what the two dispatchers share, cutting into records and routing by
      number modulo the number of queues.
    - [Machine]: the same threads one read, flag load or write at a time, over any
      reader and writer, with [stop] called at any moment.
    - [Random]: [random.rs].  [Threads]: join handles and shared flags.
    - [Encoder], [Decoder]: [encoder.rs] and [decoder.rs].  [dispatch],
      [forward_packets], [forward_blocks]; [start_encoding], [start_decoding], [stop]
      and [wait] on the store of [Threads]; [encoding_network] and
      [decoding_network], the networks of the threads that were started.
    - [EndToEnd]: an encoder, a lossy link and a decoder, as networks.  [System]: an
      encoder and a decoder as machines.
    - [Utf8], [Protocol]: [string.rs] and [protocol.rs].  A string is the list of its
      bytes.
    - [Socket]: [socket.rs], over the system calls ([Kernel], [KernelLaws]); [run] is any
      program on raw sockets.  [IoStream]: [io_stream.rs]; [endpoint] is what a URI
      names, [opened] a stream in the state of its host, and [pipes] a host.
    - [Path]: file names, as in the standard library.  [Transfer]: the loops of
      [transfer.rs], over any reader and writer and a map from paths to contents;
      [TransferHost]: [send] and [receive] on the streams of a host.
    - [Cli]: [main.rs], the four commands, and the loops over the sessions ([serve]).
    - [FileTransfer]: a file from [garuda send] through both codecs to [garuda receive];
      [Commands]: the same with the codecs as commands, in a shell pipeline.
    - [Tests]: the unit tests of the repository, run on the model.

    ** What the theorems show

    Together: [System.system_transmission] (from the bytes the encoder reads to those the
    decoder writes), [EndToEnd.transmission_lossy] (under every schedule of both programs
    the decoder writes exactly the blocks of which enough packets arrive, unaltered),
    [EndToEnd.transmission_exact] (a lossless link loses nothing),
    [FileTransfer.file_transfer] (a file goes through senders, codecs and receivers over
    any streams), [Commands.pipeline] (and through the four commands in a shell),
    and [EndToEnd.worker_overflow] (the limit of 128 workers these need is real).

    The threads: [Pipeline.terminates] (no deadlock, bounded runs),
    [Pipeline.out_safe] (what is written at any moment, failures included),
    [Pipeline.out_exact] (what is written when nothing fails), and their instances
    [Encoder.encoder_correct] and [Decoder.decoder_correct].  [Machine.simulation]: the
    threads down to their reads and writes implement this network;
    [Machine.machine_stops]: once [stop] is called, and without it unless the reader times
    out for ever, they all end, or bytes arrive again and again;
    [System.stop_ignored]: while bytes arrive at every read, [stop] ends nothing.

    Each part: round trips ([Protocol.header_roundtrip]), refinement of the state
    machines ([BlockDecoder.decode_stream_spec], [BlockDecoder.decode_lossy]),
    functional behaviour on every branch ([Io.read_exact_spec],
    [BlockEncoder.encode_stream_spec], [Encoder.dispatch_spec],
    [TransferHost.receive_spec], [Utf8.truncate_utf8_spec]...), equivalence with the
    standard library's loop ([Io.read_exact_std]), the form of the names on the wire
    ([Transfer.file_name_spec]), life cycles
    ([Encoder.encoder_lifecycle]), ownership ([Socket.raw_socket_lifecycle]), sessions
    ([Cli.codec_sessions]), errors ([Encoder.start_encoding_spec]) and bounds
    ([BlockEncoder.compute_repair_packets_per_block_spec]).

    ** Conventions

    Unsigned integers are values of [Z] in their range, and arithmetic that can leave
    it wraps, as in a release build.  A function that may panic or fail returns an
    [outcome].  A loop that is not structural takes fuel and returns [None] when it
    runs out; the theorems give the fuel that is enough: one unit per byte to be read
    or written, per interruption and per block (the [*_fuel] definitions).  Shared
    mutable state is passed explicitly.

    ** What is not modelled

    The [raptorq] and [uuid] crates and the operating system are parameters with
    hypotheses.  In [Pipeline] the failure of a reader and the raising of the stop flag
    are the end of the input; [Machine] shows that they may be seen so.  A read or a
    write that never returns is not modelled.  Allocation is assumed to succeed except
    where its size is computed from an unchecked parameter; text written to the
    standard error stream is left out.  Of [main.rs] clap's parsing of the arguments
    into the structures is left out, and what the threads of a session do to the host
    is a parameter of [Cli]; [Commands] says what it is for the first session between
    standard input and output, by a run of the machine of [System] in which no thread
    panics.  Besides the map of files, [send] and [receive] see the file system as the
    parameters [disk] and [os].  The integration test and the scripts are left out.

    Of the [raptorq] crate the assertions on packet size, symbol count and symbol ids are
    modelled as predicates; on at most 56403 symbols, and at most [2^24 - 56403] repair
    packets per block ([repairable]), the laws say that the latter two hold.  Decoders
    of blocks of more symbols, which the crate refuses too, are not: no packet reaches
    one, because [infer_packet_size] has panicked before the dispatcher is started. *)
From stdpp Require Import prelude list list_numbers relations.
From Stdlib Require Import ZArith Lia.
From Stdlib Require Export Strings.Byte.

(** ** Machine integers

    A Rust unsigned integer of [w] bits is a [Z] in [0, 2^w).  The release
    profile wraps on overflow, so every arithmetic operation of the model that
    can leave the range is written with [wrap]. *)

Definition wrap (w z : Z) : Z := z mod 2 ^ w.

Definition wadd (w a b : Z) : Z := wrap w (a + b).
Definition wsub (w a b : Z) : Z := wrap w (a - b).
Definition wmul (w a b : Z) : Z := wrap w (a * b).

(** [fits w z]: [z] is a value of the [w]-bit unsigned type. *)
Definition fits (w z : Z) : Prop := (0 <= z < 2 ^ w)%Z.

Lemma wrap_small w z : fits w z -> wrap w z = z.
Proof. intros H. by apply Z.mod_small. Qed.

Lemma wrap_fits w z : (0 <= w)%Z -> fits w (wrap w z).
Proof. intros H. apply Z.mod_pos_bound. lia. Qed.

(** ** Results and panics

    [outcome E A] is what running a piece of Rust produces: [Ok] and [Err] are
    the two constructors of [Result], [Panic] is an unwinding panic (index out
    of bounds, division by zero, slice out of range...). *)

Inductive outcome (E A : Type) : Type :=
| Ok (a : A)
| Err (e : E)
| Panic.
Arguments Ok {E A} _.
Arguments Err {E A} _.
Arguments Panic {E A}.

(** The [?] operator: returns early on [Err] and keeps unwinding on [Panic]. *)
Definition obind {E A B} (c : outcome E A) (k : A -> outcome E B) : outcome E B :=
  match c with
  | Ok a => k a
  | Err e => Err e
  | Panic => Panic
  end.

(** The [From] conversion [?] applies to the error. *)
Definition omap_err {E F A} (f : E -> F) (c : outcome E A) : outcome F A :=
  match c with
  | Ok a => Ok a
  | Err e => Err (f e)
  | Panic => Panic
  end.

Declare Scope rust_scope.
Delimit Scope rust_scope with rust.
Notation "x '<-?' c ';;' k" := (obind c (fun x => k))
  (at level 100, c at next level, right associativity,
   format "x  '<-?'  c  ';;' '//' k") : rust_scope.
#[global] Open Scope rust_scope.

#[export] Instance outcome_eq_dec {E A} `{EqDecision E, EqDecision A} :
  EqDecision (outcome E A).
Proof. solve_decision. Defined.

#[export] Instance byte_eq_dec : EqDecision byte := Byte.byte_eq_dec.

#[export] Instance byte_inhabited : Inhabited byte := populate x00.

(** ** Automation

    [rust] holds the lemmas that close the routine side goals of the
    components; [crush] is the usual last step of a case analysis. *)
Create HintDb rust discriminated.
#[export] Hint Constants Opaque : rust.
#[export] Hint Resolve wrap_fits : rust.

Ltac crush :=
  repeat (simplify_eq/= || case_match || destruct_and?); eauto with rust; try lia.

(** Closes conjunctions of closed comparisons and equations by evaluation: the last
    step of a witness. *)
Ltac by_compute :=
  repeat (lazymatch goal with |- _ /\ _ => split | |- fits _ _ => split end);
  vm_compute; solve [reflexivity | let H := fresh in intros H; discriminate H | lia].

(** ** Merging concurrent streams

    [interleaving ls m]: [m] is obtained by merging the lists [ls], each kept in
    its own order.  This is what several producer threads sending into one
    channel deliver to its consumer. *)

Inductive interleaving {A} : list (list A) -> list A -> Prop :=
| interleaving_nil ls :
    Forall (fun l => l = []) ls -> interleaving ls []
| interleaving_cons ls i x xs m :
    ls !! i = Some (x :: xs) ->
    interleaving (<[i := xs]> ls) m ->
    interleaving ls (x :: m).

Section interleaving.
Context {A : Type}.
Implicit Types (l m : list A) (ls : list (list A)).

Lemma interleaving_empty n : interleaving (replicate n ([] : list A)) [].
Proof. constructor. by apply Forall_replicate. Qed.

Lemma interleaving_snoc ls m i l x :
  interleaving ls m -> ls !! i = Some l ->
  interleaving (<[i := l ++ [x]]> ls) (m ++ [x]).
Proof.
  intros Hm. revert l. induction Hm as [ls Hnil | ls j y ys m Hj _ IH]; intros l Hi.
  - assert (l = []) as -> by (eapply Forall_lookup_1 in Hnil; eauto).
    apply interleaving_cons with (i := i) (xs := []); simpl.
    + apply list_lookup_insert_eq. by eapply lookup_lt_Some.
    + rewrite list_insert_insert_eq, list_insert_id by done. by constructor.
  - simpl. destruct (decide (i = j)) as [-> | Hne].
    + assert (l = y :: ys) as -> by congruence.
      apply interleaving_cons with (i := j) (xs := ys ++ [x]); simpl.
      * apply list_lookup_insert_eq. by eapply lookup_lt_Some.
      * rewrite list_insert_insert_eq.
        specialize (IH ys). rewrite list_insert_insert_eq in IH. apply IH.
        apply list_lookup_insert_eq. by eapply lookup_lt_Some.
    + apply interleaving_cons with (i := j) (xs := ys).
      * by rewrite list_lookup_insert_ne.
      * rewrite list_insert_insert_ne by done. apply IH.
        by rewrite list_lookup_insert_ne.
Qed.

(** Merging loses and invents nothing. *)
Lemma interleaving_Permutation ls m : interleaving ls m -> m ≡ₚ concat ls.
Proof.
  induction 1 as [ls Hnil | ls i x xs m Hi _ IH].
  - induction Hnil as [| l ls -> _ IHl]; simpl; done.
  - rewrite IH. clear IH. apply list_elem_of_split_length in Hi as (l1 & l2 & -> & ->).
    rewrite insert_app_r_alt, Nat.sub_diag by lia. simpl.
    rewrite !concat_app. simpl. by rewrite Permutation_middle.
Qed.

(** A single producer's stream arrives unchanged. *)
Lemma interleaving_one l m : interleaving [l] m -> m = l.
Proof.
  remember [l] as ls eqn:E. intros Hm. revert l E.
  induction Hm as [ls Hnil | ls i x xs m Hi _ IH]; intros l ->.
  - by inversion Hnil.
  - destruct i as [| i]; simplify_eq/=. f_equal. by apply IH.
Qed.

(** When every element names the stream it comes from, selecting one stream's
    elements recovers that stream: this is why a decoder that routes by the
    same key as the encoder undoes the merge. *)
Lemma interleaving_filter (key : A -> nat) ls m i l :
  interleaving ls m ->
  (forall j k, ls !! j = Some k -> Forall (fun x => key x = j) k) ->
  ls !! i = Some l ->
  filter (fun x => key x = i) m = l.
Proof.
  intros Hm. revert l.
  induction Hm as [ls Hnil | ls j x xs m Hj _ IH]; intros l Hkey Hi.
  - eapply Forall_lookup_1 in Hnil; eauto.
  - pose proof (Hkey _ _ Hj) as Hx. inversion_clear Hx as [| ? ? Hxj Hxs].
    assert (forall j' k, <[j := xs]> ls !! j' = Some k -> Forall (fun x => key x = j') k)
      as Hkey'.
    { intros j' k. destruct (decide (j = j')) as [<- |].
      - rewrite list_lookup_insert_eq by (by eapply lookup_lt_Some). by intros [= <-].
      - rewrite list_lookup_insert_ne by done. apply Hkey. }
    rewrite filter_cons. destruct (decide (key x = i)) as [Hxi | Hxi].
    + assert (i = j) as -> by congruence.
      assert (l = x :: xs) as -> by congruence. f_equal.
      apply IH; [done |]. apply list_lookup_insert_eq. by eapply lookup_lt_Some.
    + apply IH; [done |]. rewrite list_lookup_insert_ne; [done | congruence].
Qed.
End interleaving.

(** Sums over the entries of a list, each weighted with its index. *)
Definition isum {A} (f : nat -> A -> nat) (l : list A) : nat := sum_list (imap f l).

Lemma isum_insert {A} (f g : nat -> A -> nat) (l : list A) i x y :
  l !! i = Some x -> (forall j z, j <> i -> l !! j = Some z -> f j z = g j z) ->
  isum f (<[i := y]> l) + g i x = isum g l + f i y.
Proof.
  unfold isum. revert f g i. induction l as [| z l IH]; intros f g [| i] Hi Hfg;
    simplify_eq/=; cbn.
  - rewrite (imap_ext (f ∘ S) (g ∘ S)); [lia |].
    intros j z' Hj. by apply (Hfg (S j)).
  - specialize (IH (f ∘ S) (g ∘ S) i Hi). cbn in IH. rewrite (Hfg 0 z) by done.
    rewrite <- !Nat.add_assoc, IH; [lia |].
    intros j z' Hj Hz. apply (Hfg (S j)); [lia | done].
Qed.

Lemma isum_le {A} (f g : nat -> A -> nat) (l : list A) :
  (forall i x, f i x <= g i x) -> isum f l <= isum g l.
Proof.
  unfold isum. revert f g. induction l as [| x l IH]; intros f g Hfg; cbn; [done |].
  apply Nat.add_le_mono; [done |]. apply (IH (f ∘ S) (g ∘ S)). intros i y. apply Hfg.
Qed.

Lemma sublist_Forall {A} (P : A -> Prop) l k :
  l `sublist_of` k -> Forall P k -> Forall P l.
Proof. induction 1; rewrite ?Forall_cons; intuition. Qed.

(** A relation that decreases two measures lexicographically, where an invariant holds,
    is terminating there. *)
Lemma lex_sn {S} (R : S -> S -> Prop) (P : S -> Prop) (f g : S -> nat) :
  (forall s s', P s -> R s s' -> P s' /\ (f s' < f s \/ f s' = f s /\ g s' < g s)) ->
  forall s, P s -> sn R s.
Proof.
  intros Hdec s. remember (f s) as n eqn:Hn. revert s Hn.
  induction n as [n IHn] using lt_wf_ind. intros s. remember (g s) as k eqn:Hk. revert s Hk.
  induction k as [k IHk] using lt_wf_ind. intros s -> -> Hs. constructor. intros s' Hstep.
  destruct (Hdec s s' Hs Hstep) as [Hs' [Hlt | [Heq Hlt]]].
  - by eapply IHn.
  - eapply IHk; eauto.
Qed.

#[export] Hint Resolve interleaving_empty interleaving_snoc : rust.
