(* ===== verification/Vector.v ===== *)
(** * [vector.rs]: spreading the shorter of two vectors over the longer one

    [interleave] decides the order in which the source and the repair packets of
    a block go on the wire.  The iterator it returns is modelled by its state
    (what is left of the two vectors and the number of short items yielded) and
    by the closure of [filter_map]; [interleave] is the sequence it yields. *)
From stdpp Require Import prelude list list_numbers.
From Stdlib Require Import ZArith Lia.
From S2P Require Import Prelude.

(** [Vec::pop]: removes the last element. *)
Definition pop {A} (v : list A) : option A * list A :=
  match reverse v with
  | [] => (None, v)
  | x :: r => (Some x, reverse r)
  end.

(** What the closure of [interleave] captures and mutates. *)
Record interleave_state (A : Type) := InterleaveState {
  long : list A;
  short : list A;
  short_idx : Z
}.
Arguments InterleaveState {A} _ _ _.
Arguments long {A} _.
Arguments short {A} _.
Arguments short_idx {A} _.

(** The index at which the next short item goes; [usize] arithmetic wraps. *)
Definition target (total_len short_len short_idx : Z) : Z :=
  wsub 64 (wsub 64 total_len (wmul 64 short_idx total_len / short_len)) 1.

(** One call of the closure. *)
Definition interleave_step {A} (total_len short_len : Z) (idx : Z)
    (st : interleave_state A) : option A * interleave_state A :=
  let from_long :=
    let (x, l) := pop (long st) in (x, InterleaveState l (short st) (short_idx st)) in
  if (short_idx st <? short_len)%Z then
    if (idx =? target total_len short_len (short_idx st))%Z then
      let (x, s) := pop (short st) in
      (x, InterleaveState (long st) s (wadd 64 (short_idx st) 1))
    else from_long
  else from_long.

(** [Iterator::filter_map] with a stateful closure. *)
Fixpoint filter_map {S I A} (f : I -> S -> option A * S) (idxs : list I) (st : S) : list A :=
  match idxs with
  | [] => []
  | i :: idxs' => let (o, st') := f i st in option_list o ++ filter_map f idxs' st'
  end.

Definition interleave {A} (v1 v2 : list A) : list A :=
  let (long, short) := if (length v2 <=? length v1)%nat then (v1, v2) else (v2, v1) in
  let long_len := Z.of_nat (length long) in
  let short_len := Z.of_nat (length short) in
  let total_len := wadd 64 long_len short_len in
  filter_map (interleave_step total_len short_len)
    (reverse (seqZ 0 total_len)) (InterleaveState long short 0).

(** ** Where the short items go *)

(** The position, counted from the first item yielded, of the [k]-th short item
    among [t] items of which [s] are short. *)
Definition slot (t s k : Z) : Z := k * t / s.

Section slots.
Context (t s : Z) (Hs : (0 < s)%Z) (Hst : (s <= t)%Z).
Open Scope Z_scope.

Lemma slot_lt k j : j < slot t s k <-> (j + 1) * s <= k * t.
Proof using Hs.
  unfold slot. pose proof (Z.mul_div_le (k * t) s Hs).
  pose proof (Z.mul_succ_div_gt (k * t) s Hs). nia.
Qed.

Lemma slot_le k j : slot t s k <= j <-> k * t < (j + 1) * s.
Proof using Hs. pose proof (slot_lt k j). lia. Qed.

Lemma slot_bounds k : 0 <= k < s -> 0 <= slot t s k < t.
Proof using Hs Hst.
  intros Hk. split; [apply Z.div_pos; nia |].
  assert (slot t s k <= t - 1); [apply slot_le; nia | lia].
Qed.

Lemma slot_succ k : slot t s k + 1 <= slot t s (k + 1).
Proof using Hs Hst.
  pose proof (slot_lt k (slot t s k - 1)). pose proof (slot_lt (k + 1) (slot t s k)).
  nia.
Qed.

Lemma slot_mono k k' : k <= k' -> slot t s k + (k' - k) <= slot t s k'.
Proof using Hs Hst.
  intros Hk. pose proof (slot_lt k' (slot t s k + (k' - k) - 1)).
  pose proof (slot_lt k (slot t s k - 1)). nia.
Qed.

(** No overflow: the wrapping computation of [target] is the exact one. *)
Lemma target_slot k :
  0 <= k < s -> fits 64 (s * t) -> target t s k = t - 1 - slot t s k.
Proof using Hs Hst.
  intros Hk Hfit. unfold target, wmul, wsub, fits in *.
  pose proof (slot_bounds k Hk). unfold slot in *.
  rewrite (wrap_small 64 (k * t)) by (unfold fits; nia).
  rewrite !wrap_small; unfold fits; rewrite ?wrap_small by (unfold fits; nia); nia.
Qed.
End slots.

(** ** The loop of [interleave] *)

Lemma pop_snoc {A} (l : list A) x : pop (l ++ [x]) = (Some x, l).
Proof. unfold pop. rewrite reverse_snoc. by rewrite reverse_involutive. Qed.

Lemma pop_nonempty {A} (l : list A) :
  l <> [] -> exists l' x, l = l' ++ [x] /\ pop l = (Some x, l').
Proof.
  destruct l as [| x l' _] using rev_ind; [done | intros _].
  exists l', x. by rewrite pop_snoc.
Qed.

Lemma reverse_seqZ_S n :
  reverse (seqZ 0 (Z.of_nat (S n))) = Z.of_nat n :: reverse (seqZ 0 (Z.of_nat n)).
Proof. rewrite seqZ_S, reverse_snoc. f_equal. Qed.

Section loop.
Context {A : Type} (t s : Z) (Hst : (s <= t)%Z) (Hfit : fits 64 (s * t)).
Local Abbreviation run n st := (filter_map (interleave_step t s) (reverse (seqZ 0 (Z.of_nat n))) st).

(** An iteration that does not hit the target takes from the long vector. *)
Lemma step_long n (l sh : list A) k x :
  (k < s -> Z.of_nat n <> target t s k)%Z ->
  run (S n) (InterleaveState (l ++ [x]) sh k) = x :: run n (InterleaveState l sh k).
Proof using.
  intros Hk. rewrite reverse_seqZ_S. simpl. unfold interleave_step at 1. simpl.
  rewrite pop_snoc. destruct (Z.ltb_spec k s); [| done].
  destruct (Z.eqb_spec (Z.of_nat n) (target t s k)); [by destruct Hk | done].
Qed.

(** An iteration that hits the target takes from the short vector. *)
Lemma step_short n (l sh : list A) k x :
  (0 <= k < s)%Z -> Z.of_nat n = target t s k ->
  run (S n) (InterleaveState l (sh ++ [x]) k) = x :: run n (InterleaveState l sh (k + 1)).
Proof using Hst Hfit.
  intros Hk Hn. rewrite reverse_seqZ_S. simpl. unfold interleave_step at 1. simpl.
  rewrite pop_snoc. destruct (Z.ltb_spec k s); [| lia].
  rewrite Hn, Z.eqb_refl. simpl. do 3 f_equal.
  apply wrap_small. unfold fits in *. nia.
Qed.

(** After [t - n] items: [k] short ones are out, and neither vector runs dry. *)
Lemma interleave_loop (Hs : (0 < s)%Z) n (l sh : list A) k :
  (0 <= k <= s)%Z -> (Z.of_nat n <= t)%Z ->
  Z.of_nat (length sh) = (s - k)%Z ->
  Z.of_nat (length l) = (Z.of_nat n - (s - k))%Z ->
  (t - Z.of_nat n <= slot t s k)%Z ->
  interleaving [reverse l; reverse sh] (run n (InterleaveState l sh k)) /\
  forall i x, reverse sh !! i = Some x ->
    run n (InterleaveState l sh k)
      !! Z.to_nat (slot t s (k + Z.of_nat i) - (t - Z.of_nat n)) = Some x.
Proof using Hst Hfit.
  revert l sh k. induction n as [| n IH]; intros l sh k Hk Hn Hsh Hl Hslot.
  { assert (length l = 0 /\ length sh = 0) as [->%nil_length_inv ->%nil_length_inv] by lia.
    split; [by repeat constructor | done]. }
  assert (k < s -> target t s k = t - 1 - slot t s k)%Z as Htarget
    by (intros; apply target_slot; auto with lia).
  destruct (decide (k < s /\ Z.of_nat n = target t s k)%Z) as [[Hks Hhit] | Hmiss].
  - destruct (pop_nonempty sh) as (sh' & y & -> & _); [intros ->; simpl in *; lia |].
    rewrite step_short by lia. rewrite length_app in Hsh. simpl in Hsh.
    pose proof (slot_succ t s Hs Hst k).
    destruct (IH l sh' (k + 1)%Z) as [Hmerge Hpos]; [lia.. |]. split.
    + rewrite reverse_snoc. by apply (interleaving_cons _ 1 _ (reverse sh')).
    + rewrite reverse_snoc. intros [| i] z Hz; simplify_eq/=.
      * rewrite Z.add_0_r. by replace (Z.to_nat _) with 0 by lia.
      * apply Hpos in Hz. rewrite <- Hz.
        pose proof (slot_mono t s Hs Hst (k + 1) (k + 1 + Z.of_nat i)).
        replace (k + Z.of_nat (S i))%Z with (k + 1 + Z.of_nat i)%Z by lia.
        by replace (Z.to_nat (slot t s (k + 1 + Z.of_nat i) - (t - Z.of_nat (S n))))
          with (S (Z.to_nat (slot t s (k + 1 + Z.of_nat i) - (t - Z.of_nat n)))) by lia.
  - assert (s - k <= Z.of_nat n /\ (k < s -> t - Z.of_nat n <= slot t s k))%Z as [Hroom Hnext].
    { destruct (decide (k < s)%Z) as [Hks |]; [| lia].
      pose proof (slot_lt t s Hs k (t - Z.of_nat (S n))). nia. }
    destruct (pop_nonempty l) as (l' & y & -> & _); [intros ->; simpl in *; lia |].
    rewrite step_long by lia. rewrite length_app in Hl. simpl in Hl.
    assert (slot t s s = t) as Hend by (unfold slot; rewrite Z.mul_comm; apply Z.div_mul; lia).
    assert (t - Z.of_nat n <= slot t s k)%Z as Hslot'.
    { destruct (decide (k < s)%Z); [by apply Hnext |]. replace k with s by lia. lia. }
    destruct (IH l' sh k) as [Hmerge Hpos]; [lia.. |]. split.
    + rewrite reverse_snoc. by apply (interleaving_cons _ 0 _ (reverse l')).
    + intros i z Hz. pose proof (Hpos _ _ Hz) as Hz'. rewrite <- Hz'.
      pose proof (slot_mono t s Hs Hst k (k + Z.of_nat i)).
      by replace (Z.to_nat (slot t s (k + Z.of_nat i) - (t - Z.of_nat (S n))))
        with (S (Z.to_nat (slot t s (k + Z.of_nat i) - (t - Z.of_nat n)))) by lia.
Qed.

(** With nothing short, the long vector comes out reversed. *)
Lemma interleave_loop_none (Hs : s = 0%Z) (l : list A) :
  run (length l) (InterleaveState l [] 0) = reverse l.
Proof using.
  induction l as [| x l IH] using rev_ind; [done |].
  rewrite length_app, Nat.add_comm. simpl (1 + _).
  rewrite step_long by lia. by rewrite IH, reverse_snoc.
Qed.
End loop.

Lemma interleaving_swap {A} (a b m : list A) :
  interleaving [a; b] m -> interleaving [b; a] m.
Proof.
  remember [a; b] as ls eqn:E. intros Hm. revert a b E.
  induction Hm as [ls Hnil | ls i x xs m Hi _ IH]; intros a b ->.
  - constructor. inversion_clear Hnil as [| ? ? ? Hb]; inversion_clear Hb; auto.
  - destruct i as [| [| i]]; simplify_eq/=.
    + apply (interleaving_cons _ 1 _ xs); [done |]. by apply IH.
    + apply (interleaving_cons _ 0 _ xs); [done |]. by apply IH.
Qed.

(** The two vectors as [interleave] names them. *)
Definition longer {A} (v1 v2 : list A) : list A :=
  if (length v2 <=? length v1)%nat then v1 else v2.
Definition shorter {A} (v1 v2 : list A) : list A :=
  if (length v2 <=? length v1)%nat then v2 else v1.

(** The lengths are small enough for [total_len] and [short_idx * total_len]. *)
Definition no_overflow {A} (v1 v2 : list A) : Prop :=
  fits 64 (Z.of_nat (length v1 + length v2)) /\
  fits 64 (Z.of_nat (length (shorter v1 v2)) * Z.of_nat (length v1 + length v2)).

Section interleave.
Context {A : Type} (v1 v2 : list A) (Hfit : no_overflow v1 v2).

Lemma interleave_unfold :
  let t := length v1 + length v2 in
  interleave v1 v2 =
    filter_map (interleave_step (Z.of_nat t) (Z.of_nat (length (shorter v1 v2))))
      (reverse (seqZ 0 (Z.of_nat t)))
      (InterleaveState (longer v1 v2) (shorter v1 v2) 0) /\
  t = length (longer v1 v2) + length (shorter v1 v2) /\
  length (shorter v1 v2) <= length (longer v1 v2).
Proof using Hfit.
  destruct Hfit as [Ht _]. unfold interleave, longer, shorter, fits, wadd in *. simpl.
  destruct (Nat.leb_spec (length v2) (length v1));
    (rewrite wrap_small by (unfold fits; lia)); rewrite <- Nat2Z.inj_add;
    (split; [| lia]); [done | by rewrite (Nat.add_comm (length v2))].
Qed.

Lemma interleave_cases :
  interleaving [reverse (longer v1 v2); reverse (shorter v1 v2)] (interleave v1 v2) /\
  forall i x, reverse (shorter v1 v2) !! i = Some x ->
    interleave v1 v2 !!
      Z.to_nat (slot (Z.of_nat (length v1 + length v2))
                     (Z.of_nat (length (shorter v1 v2))) (Z.of_nat i)) = Some x.
Proof using Hfit.
  destruct interleave_unfold as (-> & Ht & Hle).
  destruct (decide (length (shorter v1 v2) = 0)) as [Hz | Hz].
  - pose proof (nil_length_inv _ Hz) as Hnil. rewrite Hnil in *. simpl in *.
    rewrite Ht, Nat.add_0_r. rewrite interleave_loop_none by done.
    split; [| done]. apply interleaving_swap.
    generalize (reverse (longer v1 v2)). intros l. induction l as [| x l IH].
    + by repeat constructor.
    + by apply (interleaving_cons _ 1 _ l).
  - set (t := Z.of_nat (length v1 + length v2)) in *.
    set (s := Z.of_nat (length (shorter v1 v2))) in *.
    assert (s <= t)%Z as Hst by lia. assert (0 < s)%Z as Hs by lia.
    destruct (interleave_loop t s Hst (proj2 Hfit) Hs (length v1 + length v2)
                (longer v1 v2) (shorter v1 v2) 0) as [Hmerge Hpos];
      [unfold slot; rewrite ?Z.mul_0_l, ?Zdiv_0_l; lia.. |].
    fold t in Hmerge, Hpos.
    split; [done |]. intros i x Hx. apply Hpos in Hx.
    by rewrite Z.sub_diag, Z.sub_0_r, Z.add_0_l in Hx.
Qed.
End interleave.

(** What [interleave] merges; see [interleave_merges]. *)
Lemma interleave_perm {A} (v1 v2 : list A) :
  no_overflow v1 v2 ->
  interleaving [reverse v1; reverse v2] (interleave v1 v2) /\
  interleave v1 v2 ≡ₚ v1 ++ v2.
Proof.
  intros Hfit. destruct (interleave_cases v1 v2 Hfit) as [Hm _].
  assert (interleaving [reverse v1; reverse v2] (interleave v1 v2)) as Hm'.
  { unfold longer, shorter in Hm. case_match; [done | by apply interleaving_swap]. }
  split; [done |]. rewrite (interleaving_Permutation _ _ Hm'). simpl.
  by rewrite app_nil_r, !reverse_Permutation.
Qed.

Lemma interleave_position {A} (v1 v2 : list A) k :
  no_overflow v1 v2 -> k < length (shorter v1 v2) ->
  interleave v1 v2 !! (k * (length v1 + length v2) / length (shorter v1 v2))
    = reverse (shorter v1 v2) !! k.
Proof.
  intros Hfit Hk. destruct (interleave_cases v1 v2 Hfit) as [_ Hpos].
  destruct (lookup_lt_is_Some_2 (reverse (shorter v1 v2)) k) as [x Hx];
    [by rewrite length_reverse |].
  rewrite Hx. apply Hpos in Hx. rewrite <- Hx. f_equal. unfold slot.
  by rewrite <- Nat2Z.inj_mul, <- Nat2Z.inj_div, Nat2Z.id.
Qed.

(** C16 [interleave] yields every element of both vectors exactly once, each
    vector's elements in reverse order, and spreads the shorter vector evenly: its
    [k]-th item (from the end, the order of popping) is yielded at position
    [k * total / short_len]. *)
Theorem interleave_spec {A} (v1 v2 : list A) :
  no_overflow v1 v2 ->
  interleaving [reverse v1; reverse v2] (interleave v1 v2) /\
  interleave v1 v2 ≡ₚ v1 ++ v2 /\
  forall k, k < length (shorter v1 v2) ->
    interleave v1 v2 !! (k * (length v1 + length v2) / length (shorter v1 v2))
      = reverse (shorter v1 v2) !! k.
Proof.
  intros Hfit. destruct (interleave_perm v1 v2 Hfit) as [Hm Hp].
  split; [done |]. split; [done |]. intros k. by apply interleave_position.
Qed.

(** ** Witness *)
Lemma interleave_spec_witness :
  interleaving [[50; 40; 30; 20; 10]; [2; 1]] (interleave [10; 20; 30; 40; 50] [1; 2]) /\
  interleave [10; 20; 30; 40; 50] [1; 2] ≡ₚ [10; 20; 30; 40; 50] ++ [1; 2] /\
  interleave [10; 20; 30; 40; 50] [1; 2] !! (1 * 7 / 2) = Some 1.
Proof.
  destruct (interleave_spec [10; 20; 30; 40; 50] [1; 2]) as (Hm & Hp & Hpos);
    [split; by_compute |].
  split; [exact Hm |]. split; [exact Hp |]. apply (Hpos 1). by_compute.
Defined.
