(* ===== verification/Io.v ===== *)
(** * [io.rs]: filling a buffer from an interruptible reader

    The standard library's [Read] and [Write] traits, the stop flag and the two
    loops of the standard library the program uses ([Read::read_exact] and
    [Write::write_all]) come first, then the crate's own [read_exact].

    A reader is a state together with an instance of [Reader]; the stop flag is
    an atomic another thread may set at any time, so a load is also an operation
    on that state.  [Stream] states what a well-behaved reader promises; the
    clients of this file are proved against it and [script] implements it. *)
From stdpp Require Import prelude list.
From Stdlib Require Import ZArith Lia.
From S2P Require Import Prelude.

(** [std::io::ErrorKind]: the kinds the program looks at, and the others. *)
Inductive ErrorKind :=
| Interrupted
| WouldBlock
| TimedOut
| UnexpectedEof
| WriteZero
| NotFound
| InvalidInput
| OtherKind (code : Z).

#[export] Instance ErrorKind_eq_dec : EqDecision ErrorKind.
Proof. solve_decision. Defined.

Inductive read_result := ReadOk (bs : list byte) | ReadErr (e : ErrorKind).
Inductive write_result := WriteOk (n : nat) | WriteErr (e : ErrorKind).

(** [Read::read] with a buffer of [n] bytes, and [AtomicBool::load]. *)
Class Reader (R : Type) := {
  read : R -> nat -> read_result * R;
  load : R -> bool * R
}.

Class Writer (W : Type) := {
  write : W -> list byte -> write_result * W
}.

(** The errors after which [read_exact] looks at the stop flag. *)
Definition retryable (e : ErrorKind) : bool :=
  match e with Interrupted | WouldBlock | TimedOut => true | _ => false end.

(** The loop of [read_exact].  [filled] is the part of the caller's buffer before
    the slice [buf] that is still to be filled; the caller's buffer afterwards is
    returned with the result.  [None]: the fuel ran out. *)
Fixpoint read_exact_loop {R} `{Reader R} (fuel : nat) (reader : R)
    (filled buf : list byte) : option (outcome ErrorKind unit * list byte * R) :=
  match fuel with
  | 0 => None
  | S fuel =>
    match buf with
    | [] => Some (Ok tt, filled, reader)
    | _ :: _ =>
      match read reader (length buf) with
      | (ReadOk [], reader) => Some (Err UnexpectedEof, filled ++ buf, reader)
      | (ReadOk bs, reader) =>
        if (length bs <=? length buf)%nat
        then read_exact_loop fuel reader (filled ++ bs) (drop (length bs) buf)
        else Some (Panic, filled ++ buf, reader)
      | (ReadErr e, reader) =>
        if retryable e then
          let (stop, reader) := load reader in
          if stop then Some (Err Interrupted, filled ++ buf, reader)
          else read_exact_loop fuel reader filled buf
        else Some (Err e, filled ++ buf, reader)
      end
    end
  end.

Definition read_exact {R} `{Reader R} (fuel : nat) (reader : R) (buf : list byte) :=
  read_exact_loop fuel reader [] buf.

(** The standard library's [Read::read_exact] (retries [Interrupted] only). *)
Fixpoint std_read_exact {R} `{Reader R} (fuel : nat) (reader : R)
    (filled buf : list byte) : option (outcome ErrorKind unit * list byte * R) :=
  match fuel with
  | 0 => None
  | S fuel =>
    match buf with
    | [] => Some (Ok tt, filled, reader)
    | _ :: _ =>
      match read reader (length buf) with
      | (ReadOk [], reader) => Some (Err UnexpectedEof, filled ++ buf, reader)
      | (ReadOk bs, reader) =>
        if (length bs <=? length buf)%nat
        then std_read_exact fuel reader (filled ++ bs) (drop (length bs) buf)
        else Some (Panic, filled ++ buf, reader)
      | (ReadErr Interrupted, reader) => std_read_exact fuel reader filled buf
      | (ReadErr e, reader) => Some (Err e, filled ++ buf, reader)
      end
    end
  end.

(** The standard library's [Write::write_all]. *)
Fixpoint write_all {W} `{Writer W} (fuel : nat) (writer : W) (buf : list byte)
    : option (outcome ErrorKind unit * W) :=
  match fuel with
  | 0 => None
  | S fuel =>
    match buf with
    | [] => Some (Ok tt, writer)
    | _ :: _ =>
      match write writer buf with
      | (WriteOk 0, writer) => Some (Err WriteZero, writer)
      | (WriteOk n, writer) =>
        if (n <=? length buf)%nat then write_all fuel writer (drop n buf)
        else Some (Panic, writer)
      | (WriteErr Interrupted, writer) => write_all fuel writer buf
      | (WriteErr e, writer) => Some (Err e, writer)
      end
    end
  end.

(** ** What a reader promises

    [avail r] are the bytes [r] will still deliver, in any number of pieces and
    between any number of interruptions; [fin r] is how it then ends, and
    [patience r] bounds the interruptions at which the stop flag is not set. *)
Class Stream (R : Type) `{Reader R} := {
  avail : R -> list byte;
  fin : R -> ErrorKind;
  patience : R -> nat;
  read_some r n b bs r' :
    0 < n -> read r n = (ReadOk (b :: bs), r') ->
    length (b :: bs) <= n /\ avail r = (b :: bs) ++ avail r' /\
    fin r' = fin r /\ patience r' <= patience r;
  read_none r n r' :
    0 < n -> read r n = (ReadOk [], r') -> avail r = [] /\ fin r = UnexpectedEof;
  read_retry r n e r1 r2 :
    0 < n -> read r n = (ReadErr e, r1) -> retryable e = true -> load r1 = (false, r2) ->
    avail r2 = avail r /\ fin r2 = fin r /\ patience r2 < patience r;
  read_stop r n e r1 r2 :
    0 < n -> read r n = (ReadErr e, r1) -> retryable e = true -> load r1 = (true, r2) ->
    avail r = [] /\ fin r = Interrupted;
  read_fail r n e r' :
    0 < n -> read r n = (ReadErr e, r') -> retryable e = false ->
    avail r = [] /\ fin r = e
}.

(** The same for the standard library's loop, which retries after [Interrupted] and
    has no stop flag. *)
Class Source (R : Type) `{Reader R} := {
  contents : R -> list byte;
  ending : R -> ErrorKind;
  retries : R -> nat;
  source_some r n b bs r' :
    0 < n -> read r n = (ReadOk (b :: bs), r') ->
    length (b :: bs) <= n /\ contents r = (b :: bs) ++ contents r' /\
    ending r' = ending r /\ retries r' <= retries r;
  source_none r n r' :
    0 < n -> read r n = (ReadOk [], r') -> contents r = [] /\ ending r = UnexpectedEof;
  source_retry r n r' :
    0 < n -> read r n = (ReadErr Interrupted, r') ->
    contents r' = contents r /\ ending r' = ending r /\ retries r' < retries r;
  source_fail r n e r' :
    0 < n -> read r n = (ReadErr e, r') -> e <> Interrupted ->
    contents r = [] /\ ending r = e
}.

(** ** Both loops at once: they differ in what they do after an error *)
Section fill.
Context {R : Type} `{Reader R} (on_error : ErrorKind -> R -> ErrorKind * R + R).

Fixpoint fill (fuel : nat) (reader : R) (filled buf : list byte)
    : option (outcome ErrorKind unit * list byte * R) :=
  match fuel with
  | 0 => None
  | S fuel =>
    match buf with
    | [] => Some (Ok tt, filled, reader)
    | _ :: _ =>
      match read reader (length buf) with
      | (ReadOk [], reader) => Some (Err UnexpectedEof, filled ++ buf, reader)
      | (ReadOk bs, reader) =>
        if (length bs <=? length buf)%nat
        then fill fuel reader (filled ++ bs) (drop (length bs) buf)
        else Some (Panic, filled ++ buf, reader)
      | (ReadErr e, reader) =>
        match on_error e reader with
        | inl (e, reader) => Some (Err e, filled ++ buf, reader)
        | inr reader => fill fuel reader filled buf
        end
      end
    end
  end.

Context (avail : R -> list byte) (fin : R -> ErrorKind) (patience : R -> nat).
Context (Hsome : forall r n b bs r',
  0 < n -> read r n = (ReadOk (b :: bs), r') ->
  length (b :: bs) <= n /\ avail r = (b :: bs) ++ avail r' /\
  fin r' = fin r /\ patience r' <= patience r).
Context (Hnone : forall r n r',
  0 < n -> read r n = (ReadOk [], r') -> avail r = [] /\ fin r = UnexpectedEof).
Context (Hretry : forall r n e r1 r2,
  0 < n -> read r n = (ReadErr e, r1) -> on_error e r1 = inr r2 ->
  avail r2 = avail r /\ fin r2 = fin r /\ patience r2 < patience r).
Context (Hfail : forall r n e r1 e' r2,
  0 < n -> read r n = (ReadErr e, r1) -> on_error e r1 = inl (e', r2) ->
  avail r = [] /\ fin r = e').

Lemma fill_spec fuel r filled buf :
  length buf + patience r < fuel ->
  if decide (length buf <= length (avail r))
  then exists r',
    fill fuel r filled buf =
      Some (Ok tt, filled ++ take (length buf) (avail r), r') /\
    avail r' = drop (length buf) (avail r) /\ fin r' = fin r /\
    patience r' <= patience r
  else exists r' junk,
    fill fuel r filled buf = Some (Err (fin r), filled ++ junk, r') /\
    length junk = length buf.
Proof using Hsome Hnone Hretry Hfail.
  revert r filled buf. induction fuel as [| fuel IH]; intros r filled buf Hfuel; [lia |].
  destruct buf as [| c buf]; cbn [length] in Hfuel |- *; simpl fill.
  { case_decide; [| lia]. exists r. by rewrite app_nil_r. }
  destruct (read r (S (length buf))) as [[[| b bs] | e] r1] eqn:Hr.
  - apply Hnone in Hr as [-> ->]; [| lia]. case_decide; simpl in *; [lia |].
    by exists r1, (c :: buf).
  - apply Hsome in Hr as (Hlen & Ha & Hf & Hp); [| lia]. rewrite Ha.
    cbv beta iota. rewrite (proj2 (Nat.leb_le _ _)) by done.
    assert (0 < length (b :: bs)) as Hpos by (simpl; lia).
    generalize dependent (b :: bs). intros ds Hlen Ha Hpos.
    specialize (IH r1 (filled ++ ds) (drop (length ds) (c :: buf))).
    rewrite length_drop, Hf in IH. simpl length in IH.
    rewrite length_app. case_decide as Hd1; case_decide as Hd2;
      try (exfalso; simpl in *; lia).
    + destruct IH as (r' & -> & Ha' & Hf' & ?); [simpl in *; lia |]. exists r'.
      rewrite Ha', <- app_assoc, take_app_ge, drop_app_ge by done. repeat split; auto. lia.
    + destruct IH as (r' & junk & -> & Hj); [simpl in *; lia |]. exists r', (ds ++ junk).
      rewrite app_assoc, length_app. split; [done | lia].
  - destruct (on_error e r1) as [[e' r2] | r2] eqn:He.
    + destruct (Hfail r (S (length buf)) e r1 e' r2 ltac:(lia) Hr He) as [-> ->].
      case_decide; simpl in *; [lia |]. by exists r2, (c :: buf).
    + destruct (Hretry r (S (length buf)) e r1 r2 ltac:(lia) Hr He) as (Ha & Hf & Hp).
      specialize (IH r2 filled (c :: buf)). rewrite Ha, Hf in IH. simpl length in IH.
      case_decide; [| destruct IH as (r' & junk & -> & ?); [lia | eauto]].
      destruct IH as (r' & -> & Ha' & Hf' & ?); [lia |]. exists r'.
      repeat split; auto. lia.
Qed.
End fill.

(** After an error [read_exact] looks at the stop flag... *)
Definition stop_or_retry {R} `{Reader R} (e : ErrorKind) (reader : R) : ErrorKind * R + R :=
  if retryable e then
    let (stop, reader) := load reader in
    if stop then inl (Interrupted, reader) else inr reader
  else inl (e, reader).

(** ... and the standard library's loop at the error. *)
Definition retry_interrupted {R} (e : ErrorKind) (reader : R) : ErrorKind * R + R :=
  match e with Interrupted => inr reader | _ => inl (e, reader) end.

Lemma read_exact_loop_fill {R} `{Reader R} fuel (r : R) filled buf :
  read_exact_loop fuel r filled buf = fill stop_or_retry fuel r filled buf.
Proof.
  revert r filled buf. induction fuel as [| fuel IH]; intros r filled [| c buf]; [done.. |].
  cbn -[length drop]. unfold stop_or_retry.
  destruct (read r _) as [[[| b bs] | e] r1]; [done | by rewrite IH |].
  destruct (retryable e); [| done]. by destruct (load r1) as [[] r2].
Qed.

Lemma std_read_exact_fill {R} `{Reader R} fuel (r : R) filled buf :
  std_read_exact fuel r filled buf = fill retry_interrupted fuel r filled buf.
Proof.
  revert r filled buf. induction fuel as [| fuel IH]; intros r filled [| c buf]; [done.. |].
  cbn -[length drop]. destruct (read r _) as [[[| b bs] | e] r1]; [done | by rewrite IH |].
  by destruct e.
Qed.

(** Enough fuel for a buffer of [n] bytes. *)
Definition read_fuel {R} `{Stream R} (r : R) (n : nat) : nat := S (n + patience r).
Definition std_read_fuel {R} `{Source R} (r : R) (n : nat) : nat := S (n + retries r).

(** Either the buffer is filled, or the result is how the stream ends. *)
Lemma read_exact_cases {R} `{Stream R} (r : R) (buf : list byte) fuel :
  read_fuel r (length buf) <= fuel ->
  (length buf <= length (avail r) /\
   exists r', read_exact fuel r buf = Some (Ok tt, take (length buf) (avail r), r') /\
     avail r' = drop (length buf) (avail r) /\ fin r' = fin r /\ patience r' <= patience r) \/
  (length (avail r) < length buf /\
   exists r' junk, read_exact fuel r buf = Some (Err (fin r), junk, r')).
Proof.
  intros Hfuel. unfold read_exact. rewrite read_exact_loop_fill.
  unshelve epose proof (fill_spec stop_or_retry avail fin patience
    read_some read_none _ _ fuel r [] buf Hfuel) as Hspec.
  - intros r0 n e r1 r2 Hn Hr He. unfold stop_or_retry in He.
    destruct (retryable e) eqn:Hret; [| done]. destruct (load r1) as [[] ?] eqn:Hl; [done |].
    simplify_eq. by eapply read_retry.
  - intros r0 n e r1 e' r2 Hn Hr He. unfold stop_or_retry in He.
    destruct (retryable e) eqn:Hret; [| simplify_eq; by eapply read_fail].
    destruct (load r1) as [[] ?] eqn:Hl; simplify_eq. by eapply read_stop.
  - case_decide; [by left |]. right.
    split; [lia |]. destruct Hspec as (r' & junk & Hrun & _). by exists r', junk.
Qed.

(** The standard library's [read_exact], likewise. *)
Lemma std_read_exact_cases {R} `{Source R} (r : R) (buf : list byte) fuel :
  std_read_fuel r (length buf) <= fuel ->
  (length buf <= length (contents r) /\
   exists r', std_read_exact fuel r [] buf = Some (Ok tt, take (length buf) (contents r), r') /\
     contents r' = drop (length buf) (contents r) /\ ending r' = ending r /\
     retries r' <= retries r) \/
  (length (contents r) < length buf /\
   exists r' junk, std_read_exact fuel r [] buf = Some (Err (ending r), junk, r')).
Proof.
  intros Hfuel. rewrite std_read_exact_fill.
  unshelve epose proof (fill_spec retry_interrupted contents ending retries
    source_some source_none _ _ fuel r [] buf Hfuel) as Hspec.
  - intros r0 n e r1 r2 Hn Hr He. destruct e; simplify_eq/=. by eapply source_retry.
  - intros r0 n e r1 e' r2 Hn Hr He. eapply source_fail; [done | by rewrite Hr; destruct e; simplify_eq/= |].
    destruct e; simplify_eq/=; done.
  - case_decide; [by left |]. right.
    split; [lia |]. destruct Hspec as (r' & junk & Hrun & _). by exists r', junk.
Qed.

(** C17 On a well-behaved reader the loop terminates, and its result does not
    depend on how the bytes are cut into pieces, on the interruptions, or on what
    the buffer held: [Ok] exactly when enough bytes are available, and then the
    buffer holds them and the reader has lost exactly them; otherwise the error is
    how the stream ends ([UnexpectedEof], [Interrupted] when the stop flag is set,
    or the reader's own error), whatever was read before it. *)
Theorem read_exact_spec {R} `{Stream R} (r : R) (buf : list byte) fuel :
  read_fuel r (length buf) <= fuel ->
  (length buf <= length (avail r) /\
   exists r', read_exact fuel r buf = Some (Ok tt, take (length buf) (avail r), r') /\
     avail r' = drop (length buf) (avail r) /\ fin r' = fin r /\ patience r' <= patience r) \/
  (length (avail r) < length buf /\
   exists r' junk, read_exact fuel r buf = Some (Err (fin r), junk, r')).
Proof. apply read_exact_cases. Qed.

(** ** The loop it is based on

    [Read::read_exact] of the standard library retries after [Interrupted] only.  A reader
    whose timeouts are reported as interruptions, and which looks at the flag then: *)
Record waiting (R : Type) := Waiting { inner : R }.
Arguments Waiting {R} _.
Arguments inner {R} _.

#[export] Instance waiting_reader {R} `{Reader R} : Reader (waiting R) := {|
  read w n :=
    match read (inner w) n with
    | (ReadOk bs, r) => (ReadOk bs, Waiting r)
    | (ReadErr e, r) =>
      if retryable e then (ReadErr Interrupted, Waiting (load r).2) else (ReadErr e, Waiting r)
    end;
  load w := let (b, r) := load (inner w) in (b, Waiting r)
|}.

(** C18 As long as the stop flag is not set ([unstopped], which reading and looking
    at the flag keep), the crate's [read_exact] is the standard library's on the reader
    whose timeouts are interruptions: the same result, the same buffer, the same reader
    afterwards, in the same number of rounds, and neither ends when the other does
    not. *)
Theorem read_exact_std {R} `{Reader R} (unstopped : R -> Prop) fuel (r : R) buf :
  (forall r n, unstopped r -> unstopped (read r n).2) ->
  (forall r, unstopped r -> (load r).1 = false /\ unstopped (load r).2) ->
  unstopped r ->
  read_exact fuel r buf =
    (fun '(res, buf, w) => (res, buf, inner w)) <$> std_read_exact fuel (Waiting r) [] buf.
Proof.
  intros Hread Hload. unfold read_exact. generalize (@nil byte). revert r buf.
  induction fuel as [| fuel IH]; intros r buf filled Hr; [done |].
  destruct buf as [| c buf]; [done |]. cbn [read_exact_loop std_read_exact].
  specialize (Hread r (length (c :: buf)) Hr).
  replace (read (Waiting r) (length (c :: buf))) with
    (match read r (length (c :: buf)) with
     | (ReadOk bs, r) => (ReadOk bs, Waiting r)
     | (ReadErr e, r) => if retryable e then (ReadErr Interrupted, Waiting (load r).2)
                         else (ReadErr e, Waiting r)
     end) by done.
  destruct (read r _) as [[[| b bs] | e] r1]; cbn [snd] in Hread; [done | |].
  - case_match; [by apply IH | done].
  - destruct (retryable e) eqn:He; [| by destruct e].
    destruct (Hload r1 Hread) as [Hflag Hr2]. destruct (load r1) as [stop r2].
    cbn in Hflag, Hr2 |- *. subst stop. by apply IH.
Qed.

(** ** What a writer promises *)
Class Sink (W : Type) `{Writer W} := {
  written : W -> list byte;
  wpatience : W -> nat;
  write_some w buf n w' :
    write w buf = (WriteOk n, w') ->
    n <= length buf /\ written w' = written w ++ take n buf /\ wpatience w' <= wpatience w;
  write_intr w buf w' :
    write w buf = (WriteErr Interrupted, w') ->
    written w' = written w /\ wpatience w' < wpatience w;
  write_err w buf e w' :
    write w buf = (WriteErr e, w') -> written w' = written w
}.

Section write_all.
Context {W : Type} `{Sink W}.

Definition write_fuel (w : W) (n : nat) : nat := S (n + wpatience w).

(** [write_all] terminates; it writes the whole buffer, or fails after a prefix. *)
Lemma write_all_spec fuel w buf :
  write_fuel w (length buf) <= fuel ->
  exists res w', write_all fuel w buf = Some (res, w') /\ res <> Panic /\
    (res = Ok tt -> wpatience w' <= wpatience w) /\
    exists k, written w' = written w ++ take k buf /\ (res = Ok tt -> take k buf = buf).
Proof.
  revert w buf. induction fuel as [| fuel IH]; intros w buf Hfuel;
    unfold write_fuel in *; [lia |].
  destruct buf as [| c buf]; simpl length in *; simpl write_all.
  { exists (Ok tt), w. repeat split; auto with lia. exists 0. by rewrite app_nil_r. }
  destruct (write w (c :: buf)) as [[n | e] w1] eqn:Hw.
  - pose proof (write_some _ _ _ _ Hw) as (Hn & Hwr & Hp). destruct n as [| n].
    { exists (Err WriteZero), w1. simpl in Hwr. do 3 (split; [done |]). by exists 0. }
    rewrite (proj2 (Nat.leb_le _ _)) by done. simpl in Hn.
    destruct (IH w1 (drop n buf)) as (res & w' & Hrun & Hres & Hp' & k & Hwr' & Hk);
      [rewrite length_drop; lia |].
    exists res, w'. repeat split; auto; [intros Hok; specialize (Hp' Hok); lia |].
    exists (S (n + k)). rewrite Hwr', Hwr, <- app_assoc. simpl.
    rewrite take_take_drop. split; [done |]. intros Hok. f_equal.
    rewrite <- take_take_drop, (Hk Hok). apply take_drop.
  - destruct (decide (e = Interrupted)) as [-> | Hne].
    + destruct (write_intr _ _ _ Hw) as [Hwr Hp].
      destruct (IH w1 (c :: buf)) as (res & w' & Hrun & Hres & Hp' & k & Hwr' & Hk);
        [simpl; lia |].
      exists res, w'. rewrite Hwr in Hwr'. repeat split; eauto.
      intros Hok; specialize (Hp' Hok); lia.
    + exists (Err e), w1. pose proof (write_err _ _ _ _ Hw) as Hwr.
      split; [by destruct e |]. do 2 (split; [done |]). exists 0. by rewrite app_nil_r.
Qed.

(** What every write keeps, [write_all] keeps. *)
Lemma write_all_stable {X} (f : W -> X) fuel w buf res w' :
  (forall w buf, f (write w buf).2 = f w) -> write_all fuel w buf = Some (res, w') -> f w' = f w.
Proof.
  intros Hf. revert w buf. induction fuel as [| fuel IH]; intros w [| c buf]; try done;
    cbn [write_all]; [by intros [= _ <-] |]. specialize (Hf w (c :: buf)).
  destruct (write w (c :: buf)) as [[[| n] | e] w1]; cbn [snd] in Hf.
  - by intros [= _ <-].
  - case_match; [| by intros [= _ <-]]. by intros ->%IH.
  - destruct e; first [by intros [= _ <-] | by intros ->%IH].
Qed.

(** A writer that never fails and always takes something. *)
Definition reliable : Prop :=
    forall (w : W) b buf, exists n w', write w (b :: buf) = (WriteOk (S n), w').

(** The same from a state on. *)
Definition reliable_from (w : W) : Prop :=
  exists P : W -> Prop, P w /\ forall w b buf, P w ->
    exists n w', write w (b :: buf) = (WriteOk (S n), w') /\ P w'.

Lemma reliable_any w : reliable -> reliable_from w.
Proof using.
  intros Hrel. exists (fun _ => True). split; [done |]. intros w1 b buf _.
  destruct (Hrel w1 b buf) as (n & w' & Hw). by exists n, w'.
Qed.

Lemma write_all_reliable fuel w buf :
    reliable -> write_fuel w (length buf) <= fuel ->
    exists w', write_all fuel w buf = Some (Ok tt, w').
Proof.
    intros Hrel. revert w buf. induction fuel as [| fuel IH]; intros w buf Hfuel;
      unfold write_fuel in *; [lia |].
    destruct buf as [| c buf]; [by eexists |]. cbn [write_all].
    destruct (Hrel w c buf) as (n & w' & Hw). rewrite Hw.
    destruct (write_some _ _ _ _ Hw) as (Hn & _ & Hp).
    rewrite (proj2 (Nat.leb_le _ _)) by done. apply IH.
    rewrite length_drop. cbn [length] in *. lia.
Qed.
End write_all.
#[global] Arguments reliable W {_}.

(** ** A scripted reader

    A finite scenario: chunks of bytes arriving, faults, and the values
    successive loads of the stop flag return (not set once they run out). *)
Inductive event := Chunk (b : byte) (bs : list byte) | Fault (e : ErrorKind).

Record script := Script { events : list event; stops : list bool }.

Definition script_read (s : script) (n : nat) : read_result * script :=
  match n, events s with
  | 0, _ | _, [] => (ReadOk [], s)
  | S m, Chunk b bs :: es =>
    (ReadOk (b :: take m bs),
     Script (match drop m bs with [] => es | b' :: bs' => Chunk b' bs' :: es end) (stops s))
  | _, Fault e :: es => (ReadErr e, Script es (stops s))
  end.

Definition script_load (s : script) : bool * script :=
  match stops s with
  | [] => (false, s)
  | b :: bs => (b, Script (events s) bs)
  end.

#[export] Instance script_reader : Reader script :=
  {| read := script_read; load := script_load |}.

Fixpoint script_future (es : list event) (ss : list bool) : list byte * ErrorKind :=
  match es with
  | [] => ([], UnexpectedEof)
  | Chunk b bs :: es => let (a, e) := script_future es ss in ((b :: bs) ++ a, e)
  | Fault e :: es =>
    if retryable e then
      match ss with
      | [] => script_future es []
      | false :: ss => script_future es ss
      | true :: _ => ([], Interrupted)
      end
    else ([], e)
  end.

#[export] Program Instance script_stream : Stream script := {|
  avail s := (script_future (events s) (stops s)).1;
  fin s := (script_future (events s) (stops s)).2;
  patience s := length (events s)
|}.
Next Obligation.
  intros [es ss] [| m] b bs r' Hn; [lia |]. unfold read; simpl.
  destruct es as [| [b0 bs0 | e] es]; simpl; intros; simplify_eq. simpl.
  destruct (drop m bs0) as [| b' bs'] eqn:Hd; simpl;
    destruct (script_future es ss) as [a e]; simpl; rewrite length_take;
    (split; [lia |]); (split; [| split; [done | lia]]).
  - by rewrite <- (take_drop m bs0) at 1; rewrite Hd, app_nil_r.
  - rewrite <- (take_drop m bs0) at 1. by rewrite Hd, <- app_assoc.
Qed.
Next Obligation.
  intros [es ss] [| m] r' Hn; [lia |]. unfold read; simpl.
  by destruct es as [| [b0 bs0 | e] es]; simpl; intros; simplify_eq.
Qed.
Next Obligation.
  intros [es ss] [| m] e r1 r2 Hn; [lia |]. unfold read, load; simpl.
  destruct es as [| [b0 bs0 | e'] es]; simpl; intros; simplify_eq. simpl.
  unfold script_load in *; simpl in *. rewrite H0.
  destruct ss as [| [] ss]; simplify_eq; simpl; auto with lia.
Qed.
Next Obligation.
  intros [es ss] [| m] e r1 r2 Hn; [lia |]. unfold read, load; simpl.
  destruct es as [| [b0 bs0 | e'] es]; simpl; intros; simplify_eq. simpl.
  unfold script_load in *; simpl in *. rewrite H0.
  by destruct ss as [| [] ss]; simplify_eq.
Qed.
Next Obligation.
  intros [es ss] [| m] e r' Hn; [lia |]. unfold read; simpl.
  destruct es as [| [b0 bs0 | e'] es]; simpl; intros; simplify_eq. simpl.
  by rewrite H0.
Qed.

(** What the standard library's loop gets from it. *)
Fixpoint script_contents (es : list event) : list byte * ErrorKind :=
  match es with
  | [] => ([], UnexpectedEof)
  | Chunk b bs :: es => let (a, e) := script_contents es in ((b :: bs) ++ a, e)
  | Fault Interrupted :: es => script_contents es
  | Fault e :: _ => ([], e)
  end.

#[export] Program Instance script_source : Source script := {|
  contents s := (script_contents (events s)).1;
  ending s := (script_contents (events s)).2;
  retries s := length (events s)
|}.
Next Obligation.
  intros [es ss] [| m] b bs r' Hn; [lia |]. unfold read; simpl.
  destruct es as [| [b0 bs0 | e] es]; simpl; intros; simplify_eq. simpl.
  destruct (drop m bs0) as [| b' bs'] eqn:Hd; simpl;
    destruct (script_contents es) as [a e]; simpl; rewrite length_take;
    (split; [lia |]); (split; [| split; [done | lia]]).
  - by rewrite <- (take_drop m bs0) at 1; rewrite Hd, app_nil_r.
  - rewrite <- (take_drop m bs0) at 1. by rewrite Hd, <- app_assoc.
Qed.
Next Obligation.
  intros [es ss] [| m] r' Hn; [lia |]. unfold read; simpl.
  by destruct es as [| [b0 bs0 | e] es]; simpl; intros; simplify_eq.
Qed.
Next Obligation.
  intros [es ss] [| m] r' Hn; [lia |]. unfold read; simpl.
  destruct es as [| [b0 bs0 | e] es]; simpl; intros; simplify_eq; simpl; auto with lia.
Qed.
Next Obligation.
  intros [es ss] [| m] e r' Hn; [lia |]. unfold read; simpl.
  destruct es as [| [b0 bs0 | e'] es]; simpl; intros; simplify_eq. by destruct e.
Qed.

(** ** A scripted writer

    It accepts at most so many bytes, or fails, as its script says, and takes
    everything once the script is over. *)
Inductive reaction := Accept (n : nat) | Refuse (e : ErrorKind).

Record tape := Tape { recorded : list byte; reactions : list reaction }.

Definition tape_write (t : tape) (buf : list byte) : write_result * tape :=
  match reactions t with
  | [] => (WriteOk (length buf), Tape (recorded t ++ buf) [])
  | Accept n :: rs => (WriteOk (length (take n buf)), Tape (recorded t ++ take n buf) rs)
  | Refuse e :: rs => (WriteErr e, Tape (recorded t) rs)
  end.

#[export] Instance tape_writer : Writer tape := {| write := tape_write |}.

#[export] Program Instance tape_sink : Sink tape :=
  {| written := recorded; wpatience t := length (reactions t) |}.
Next Obligation.
  intros [out [| [n | e] rs]] buf k t'; unfold write; cbn; intros; simplify_eq; cbn.
  - by rewrite take_ge.
  - rewrite length_take. split; [lia |]. split; [| lia]. f_equal.
    destruct (decide (n <= length buf)); [by rewrite Nat.min_l | ].
    by rewrite Nat.min_r, !take_ge by lia.
Qed.
Next Obligation.
  intros [out [| [n | e] rs]] buf t'; unfold write; cbn; intros; simplify_eq; cbn.
  split; [done | lia].
Qed.
Next Obligation.
  by intros [out [| [n | e'] rs]] buf e t'; unfold write; cbn; intros; simplify_eq.
Qed.

(** Writing several buffers one after the other, stopping at the first failure. *)
Fixpoint write_each {W} `{Writer W} (fuel : nat) (bufs : list (list byte)) (writer : W)
    : option (outcome ErrorKind unit * W) :=
  match bufs with
  | [] => Some (Ok tt, writer)
  | buf :: bufs =>
    match write_all fuel writer buf with
    | Some (Ok _, writer) => write_each fuel bufs writer
    | r => r
    end
  end.

Lemma write_each_spec {W} `{Sink W} fuel bufs (w : W) :
  Forall (fun buf => write_fuel w (length buf) <= fuel) bufs ->
  exists res w', write_each fuel bufs w = Some (res, w') /\ res <> Panic /\
    exists k, written w' = written w ++ take k (concat bufs) /\
      (res = Ok tt -> take k (concat bufs) = concat bufs).
Proof.
  revert w. induction bufs as [| buf bufs IH]; intros w Hfuel; cbn.
  { exists (Ok tt), w. repeat (split; [done |]). exists 0. by rewrite app_nil_r. }
  inversion_clear Hfuel as [| ? ? Hbuf Hbufs].
  destruct (write_all_spec fuel w buf Hbuf) as (res & w1 & -> & Hres & Hp & k & Hwr & Hk).
  destruct res as [[] | e |]; [| | done].
  - destruct (IH w1) as (res & w' & Hrun & Hres' & k' & Hwr' & Hk').
    { eapply Forall_impl; [exact Hbufs |]. intros b Hb. unfold write_fuel in *.
      specialize (Hp eq_refl). lia. }
    exists res, w'. split; [done |]. split; [done |]. exists (length buf + k').
    rewrite take_app_add, Hwr', Hwr, Hk, <- app_assoc by done. split; [done |].
    intros Hok. by rewrite Hk'.
  - exists (Err e), w1. split; [done |]. split; [done |]. exists (k `min` length buf).
    rewrite take_app_le by lia. split; [| done]. rewrite Hwr. f_equal.
    by rewrite <- take_take, (take_ge buf (length buf)).
Qed.

(** A reader that delivers what it has, as much as fits. *)
Record cursor := Cursor { remaining : list byte }.

#[export] Instance cursor_reader : Reader cursor := {|
  read c n := (ReadOk (take n (remaining c)), Cursor (drop n (remaining c)));
  load c := (false, c)
|}.

#[export] Program Instance cursor_source : Source cursor :=
  {| contents := remaining; ending _ := UnexpectedEof; retries _ := 0 |}.
Next Obligation.
  intros [l] n b bs r' Hn Hread. injection Hread as E <-. cbn [remaining] in *.
  rewrite <- E, length_take. split; [lia |]. by rewrite take_drop.
Qed.
Next Obligation.
  intros [[| b l]] [| n] r' Hn; unfold read; cbn; intros; (lia || by simplify_eq).
Qed.
Next Obligation. done. Qed.
Next Obligation. done. Qed.

(** A vector as a writer. *)
Record vector := Vector { bytes : list byte }.

#[export] Instance vector_writer : Writer vector :=
  {| write v buf := (WriteOk (length buf), Vector (bytes v ++ buf)) |}.

#[export] Program Instance vector_sink : Sink vector :=
  {| written := bytes; wpatience _ := 0 |}.
Next Obligation.
  intros [l] buf n w'; unfold write; cbn; intros; simplify_eq; cbn. by rewrite take_ge.
Qed.
Next Obligation. done. Qed.
Next Obligation. done. Qed.

Lemma vector_reliable : reliable vector.
Proof. intros [l] b buf. by eexists _, _. Qed.

(** A delivery in two pieces around a timeout, then the stop flag. *)
Definition demo_script : script :=
  Script [Chunk x01 [x02]; Fault TimedOut; Chunk x03 [x04; x05]; Fault WouldBlock]
         [false; true].

(** The same without the stop flag: the timeouts do not count. *)
Lemma read_exact_std_witness :
  let r := Script (events demo_script) [false; false] in
  read_exact 10 r (replicate 5 x00) =
    Some (Ok tt, [x01; x02; x03; x04; x05], Script [Fault WouldBlock] [false]).
Proof.
  intros r. rewrite (read_exact_std (fun s => Forall (fun b => b = false) (stops s)) 10 r).
  - reflexivity.
  - intros [es ss] [| n] Hs; [done |]. destruct es as [| [] es]; exact Hs.
  - intros [es [| b ss]] Hs; [by split |]. by inversion_clear Hs.
  - by repeat constructor.
Defined.

Lemma read_exact_spec_witness :
  read_fuel demo_script 3 <= 10 /\
  ((length [x00; x00; x00] <= length (avail demo_script) /\
    exists r', read_exact 10 demo_script [x00; x00; x00]
                 = Some (Ok tt, take 3 (avail demo_script), r') /\
      avail r' = drop 3 (avail demo_script) /\ fin r' = fin demo_script /\
      patience r' <= patience demo_script) \/
   (length (avail demo_script) < length [x00; x00; x00] /\
    exists r' junk, read_exact 10 demo_script [x00; x00; x00]
                      = Some (Err (fin demo_script), junk, r'))).
Proof.
  split; [vm_compute; lia |].
  apply (read_exact_spec demo_script [x00; x00; x00] 10). vm_compute. lia.
Defined.
