(* ===== verification/Bytes.v ===== *)
(** * Bytes: big-endian integers and fixed-size chunks

    The standard library's [to_be_bytes] and [from_be_bytes], and the cutting of
    a byte stream into records of one size, shared by the components that put
    data on a wire. *)
From stdpp Require Import prelude list.
From Stdlib Require Import ZArith Lia.
From S2P Require Import Prelude.

Definition Z_of_byte (b : byte) : Z := Z.of_N (Byte.to_N b).

(** [as u8]: truncation to eight bits. *)
Definition byte_of_Z (z : Z) : byte := default x00 (Byte.of_N (Z.to_N (wrap 8 z))).

Lemma Z_of_byte_fits b : fits 8 (Z_of_byte b).
Proof. unfold fits, Z_of_byte. pose proof (Byte.to_N_bounded b). lia. Qed.

Lemma Z_of_byte_of_Z z : Z_of_byte (byte_of_Z z) = wrap 8 z.
Proof.
  unfold byte_of_Z, Z_of_byte, wrap.
  pose proof (Z.mod_pos_bound z (2 ^ 8) ltac:(lia)) as Hb.
  destruct (Byte.of_N (Z.to_N (z mod 2 ^ 8))) as [b |] eqn:E; simpl.
  - apply Byte.to_of_N in E. rewrite E. lia.
  - apply Byte.of_N_None_iff in E. lia.
Qed.

Lemma byte_of_Z_of_byte b : byte_of_Z (Z_of_byte b) = b.
Proof.
  unfold byte_of_Z. rewrite wrap_small by apply Z_of_byte_fits.
  unfold Z_of_byte. by rewrite N2Z.id, Byte.of_to_N.
Qed.

(** [uN::to_be_bytes] for a type of [n] bytes, and [uN::from_be_bytes]. *)
Fixpoint to_be_bytes (n : nat) (z : Z) : list byte :=
  match n with
  | 0 => []
  | S n => byte_of_Z (z / 256 ^ Z.of_nat n) :: to_be_bytes n z
  end.

Fixpoint from_be_bytes (bs : list byte) : Z :=
  match bs with
  | [] => 0
  | b :: bs => Z_of_byte b * 256 ^ Z.of_nat (length bs) + from_be_bytes bs
  end.

Lemma length_to_be_bytes n z : length (to_be_bytes n z) = n.
Proof. induction n; simpl; auto. Qed.

Lemma pow_256_succ n : (256 ^ Z.of_nat (S n) = 256 * 256 ^ Z.of_nat n)%Z.
Proof. rewrite Nat2Z.inj_succ, Z.pow_succ_r by lia. done. Qed.

Lemma from_be_bytes_bound bs : (0 <= from_be_bytes bs < 256 ^ Z.of_nat (length bs))%Z.
Proof.
  induction bs as [| b bs IH]; [simpl; lia |].
  cbn [length]. rewrite pow_256_succ. cbn [from_be_bytes].
  pose proof (Z_of_byte_fits b) as Hb. unfold fits in Hb. nia.
Qed.

Lemma from_to_be_bytes_mod n z :
  from_be_bytes (to_be_bytes n z) = (z mod 256 ^ Z.of_nat n)%Z.
Proof.
  induction n as [| n IH]; [simpl; by rewrite Z.mod_1_r |].
  cbn [to_be_bytes from_be_bytes].
  rewrite IH, length_to_be_bytes, Z_of_byte_of_Z, pow_256_succ, (Z.mul_comm 256).
  unfold wrap. rewrite Z.rem_mul_r by lia. change (2 ^ 8)%Z with 256%Z. lia.
Qed.

Lemma from_to_be_bytes n z :
  (0 <= z < 256 ^ Z.of_nat n)%Z -> from_be_bytes (to_be_bytes n z) = z.
Proof. intros Hz. rewrite from_to_be_bytes_mod. by apply Z.mod_small. Qed.

Lemma to_from_be_bytes bs : to_be_bytes (length bs) (from_be_bytes bs) = bs.
Proof.
  assert (forall n a r, (0 <= r < 256 ^ Z.of_nat n)%Z ->
    to_be_bytes n (a * 256 ^ Z.of_nat n + r) = to_be_bytes n r) as Hhigh.
  { induction n as [| n IHn]; intros a r Hr; [done |].
    cbn [to_be_bytes]. rewrite pow_256_succ in *. f_equal.
    - rewrite <- (byte_of_Z_of_byte (byte_of_Z (r / _))), <- (byte_of_Z_of_byte (byte_of_Z (_ / _))).
      rewrite !Z_of_byte_of_Z. unfold wrap. f_equal.
      replace (a * (256 * 256 ^ Z.of_nat n) + r)%Z
        with (r + (a * 256) * 256 ^ Z.of_nat n)%Z by lia.
      rewrite Z.div_add by lia. by rewrite Z.mod_add.
    - set (p := (256 ^ Z.of_nat n)%Z) in *. assert (0 < p)%Z by lia.
      rewrite (Z.div_mod r p) by lia.
      replace (a * (256 * p) + (p * (r / p) + r mod p))%Z
        with ((a * 256 + r / p) * p + r mod p)%Z by lia.
      rewrite (Z.mul_comm p (r / p)).
      rewrite !IHn by (apply Z.mod_pos_bound; lia). done. }
  induction bs as [| b bs IH]; [done |].
  cbn [length to_be_bytes from_be_bytes]. pose proof (from_be_bytes_bound bs).
  rewrite Hhigh, IH by done. f_equal.
  rewrite Z.div_add_l by lia. rewrite Z.div_small by done.
  by rewrite Z.add_0_r, byte_of_Z_of_byte.
Qed.

#[export] Hint Resolve Z_of_byte_fits : rust.

(** ** Fixed-size records

    [chunks n k l]: the first [k] records of [n] bytes of [l]. *)
Fixpoint chunks {A} (n k : nat) (l : list A) : list (list A) :=
  match k with
  | 0 => []
  | S k => take n l :: chunks n k (drop n l)
  end.

Section chunks.
Context {A : Type} (n : nat).
Implicit Types (l : list A).

Lemma length_chunks k l : length (chunks n k l) = k.
Proof. revert l. induction k; intros; simpl; auto. Qed.

Lemma concat_chunks k l : concat (chunks n k l) = take (n * k) l.
Proof.
  revert l. induction k as [| k IH]; intros l; simpl; [by rewrite Nat.mul_0_r |].
  rewrite IH, take_take_drop. f_equal. lia.
Qed.

Lemma chunks_lengths k l :
  n * k <= length l -> Forall (fun c => length c = n) (chunks n k l).
Proof.
  revert l. induction k as [| k IH]; intros l Hl; simpl; constructor.
  - rewrite length_take. lia.
  - apply IH. rewrite length_drop. lia.
Qed.

Lemma chunks_concat (ls : list (list A)) rest :
  Forall (fun c => length c = n) ls ->
  chunks n (length ls) (concat ls ++ rest) = ls.
Proof.
  induction 1 as [| c ls Hc _ IH]; simpl; [done |].
  rewrite <- app_assoc, take_app_length', drop_app_length' by done. by rewrite IH.
Qed.
End chunks.
