(* ===== verification/RaptorQ.v ===== *)
(** * The [raptorq] crate as an interface

    The forward error correction code is a dependency, not code of this
    repository: its operations are the fields of the class [RaptorQ], and the
    documented behaviour the program relies on is stated once, in [RaptorQLaws].
    Where the crate asserts something of its arguments, a predicate says when the
    assertion holds ([with_defaults_accepts], [generate_accepts],
    [repair_packets_accepts]); the callers panic where it does not.
    [Repetition] is a concrete code (repair packets repeat the source symbols
    cyclically) that satisfies the laws; the witnesses run on it. *)
From stdpp Require Import prelude list.
From Stdlib Require Import ZArith Lia.
From S2P Require Import Prelude Bytes.

Class RaptorQ := {
  (** [ObjectTransmissionInformation], [with_defaults] and [symbol_size]. *)
  OTI : Type;
  with_defaults : Z -> Z -> OTI;
  with_defaults_accepts : Z -> Z -> bool;
  symbol_size : OTI -> Z;
  (** [SourceBlockEncodingPlan::generate]. *)
  Plan : Type;
  generate : Z -> Plan;
  generate_accepts : Z -> bool;
  (** [EncodingPacket]: [payload_id().source_block_number()] and the wire format. *)
  EncodingPacket : Type;
  source_block_number : EncodingPacket -> Z;
  serialize : EncodingPacket -> list byte;
  deserialize : list byte -> EncodingPacket;
  (** [SourceBlockEncoder]. *)
  SourceBlockEncoder : Type;
  with_encoding_plan : Z -> OTI -> list byte -> Plan -> SourceBlockEncoder;
  source_packets : SourceBlockEncoder -> list EncodingPacket;
  repair_packets : SourceBlockEncoder -> Z -> Z -> list EncodingPacket;
  repair_packets_accepts : SourceBlockEncoder -> Z -> Z -> bool;
  (** [SourceBlockDecoder]: [decode] takes an iterator of packets. *)
  SourceBlockDecoder : Type;
  decoder_new : Z -> OTI -> Z -> SourceBlockDecoder;
  decoder_decode :
    SourceBlockDecoder -> list EncodingPacket -> option (list byte) * SourceBlockDecoder
}.

(** Feeding packets one at a time until the block comes out. *)
Fixpoint first_success `{C : RaptorQ} (d : SourceBlockDecoder) (ps : list EncodingPacket)
    : option (list byte) :=
  match ps with
  | [] => None
  | p :: ps =>
    match decoder_decode d [p] with
    | (Some v, _) => Some v
    | (None, d) => first_success d ps
    end
  end.

Section code.
Context `{C : RaptorQ}.

(** The block [data] of [k] symbols, encoded under the id [id]. *)
Definition block_encoder_of (oti : OTI) (id : Z) (data : list byte) (k : Z) :=
  with_encoding_plan id oti data (generate k).

(** Numbers of repair packets the code supports: a symbol is identified by 24 bits, and
    the source symbols take at most the first 56403 of the numbers. *)
Definition repairable (n : Z) : Prop := (0 <= n <= 2 ^ 24 - 56403)%Z.

(** A packet of that block. *)
Definition genuine (oti : OTI) (id : Z) (data : list byte) (k : Z) (p : EncodingPacket) : Prop :=
  p ∈ source_packets (block_encoder_of oti id data k) \/
  exists n, repairable n /\ p ∈ repair_packets (block_encoder_of oti id data k) 0 n.

(** Block sizes the code supports: [k] whole symbols, at least one, and no more
    than RFC 6330 allows in a source block. *)
Definition supported (oti : OTI) (data : list byte) (k : Z) : Prop :=
  (1 <= k <= 56403)%Z /\ (0 < symbol_size oti)%Z /\
  Z.of_nat (length data) = (k * symbol_size oti)%Z.
End code.

Class RaptorQLaws `{C : RaptorQ} : Prop := {
  symbol_size_fits oti : fits 16 (symbol_size oti);
  (** The assertions hold of what the code supports. *)
  generate_supported k : (1 <= k <= 56403)%Z -> generate_accepts k = true;
  repair_packets_supported oti id data k n :
    supported oti data k -> repairable n ->
    repair_packets_accepts (block_encoder_of oti id data k) 0 n = true;
  (** One source packet per symbol, and as many repair packets as asked for. *)
  length_source_packets oti id data k :
    supported oti data k ->
    Z.of_nat (length (source_packets (block_encoder_of oti id data k))) = k;
  length_repair_packets oti id data k n :
    supported oti data k -> repairable n ->
    Z.of_nat (length (repair_packets (block_encoder_of oti id data k) 0 n)) = n;
  (** A packet carries the number of its block, and its wire format is a payload
      id of four bytes followed by one symbol. *)
  genuine_block_number oti id data k p :
    fits 8 id -> supported oti data k -> genuine oti id data k p ->
    source_block_number p = id;
  genuine_roundtrip oti id data k p :
    fits 8 id -> supported oti data k -> genuine oti id data k p ->
    deserialize (serialize p) = p;
  genuine_length oti id data k p :
    fits 8 id -> supported oti data k -> genuine oti id data k p ->
    Z.of_nat (length (serialize p)) = (4 + symbol_size oti)%Z;
  (** A decoder of the block fed with packets of the block never produces anything
      but the block, and produces it at the latest when it has every source
      packet. *)
  decode_sound oti id data k ps v :
    fits 8 id -> supported oti data k -> Forall (genuine oti id data k) ps ->
    first_success (decoder_new id oti (Z.of_nat (length data))) ps = Some v -> v = data;
  decode_complete oti id data k ps :
    fits 8 id -> supported oti data k -> Forall (genuine oti id data k) ps ->
    source_packets (block_encoder_of oti id data k) ⊆ ps ->
    first_success (decoder_new id oti (Z.of_nat (length data))) ps = Some data
}.

(** ** A concrete code *)
Module Repetition.
(** A packet is its wire format: block number, three bytes for the index of the
    symbol it carries, and the symbol. *)
Definition packet (id : Z) (i : nat) (symbol : list byte) : list byte :=
  byte_of_Z id :: to_be_bytes 3 (Z.of_nat i) ++ symbol.

Definition number (p : list byte) : Z :=
  match p with [] => 0 | b :: _ => Z_of_byte b end.

Definition index (p : list byte) : nat := Z.to_nat (from_be_bytes (take 3 (drop 1 p))).

Record encoder := Encoder { enc_id : Z; enc_symbols : list (list byte) }.

Definition encoder_new (id : Z) (ss : Z) (data : list byte) : encoder :=
  Encoder id (chunks (Z.to_nat ss) (length data / Z.to_nat ss) data).

Definition sources (e : encoder) : list (list byte) :=
  imap (packet (enc_id e)) (enc_symbols e).

Definition repairs (e : encoder) (n : Z) : list (list byte) :=
  match sources e with
  | [] => []
  | p :: _ =>
    (fun i => default p (sources e !! (i mod length (sources e)))) <$> seq 0 (Z.to_nat n)
  end.

(** The decoder keeps one slot per symbol. *)
Abbreviation decoder := (list (option (list byte))).

Definition receive (d : decoder) (p : list byte) : decoder :=
  <[index p := Some (drop 4 p)]> d.

Definition decode (d : decoder) (ps : list (list byte)) : option (list byte) * decoder :=
  let d := foldl receive d ps in ((fun l => concat l) <$> mapM (M:=option) (fun x => x) d, d).

#[local] Instance code : RaptorQ := {|
  OTI := Z;
  with_defaults _ max_packet_size := wrap 16 (max_packet_size - max_packet_size mod 8);
  with_defaults_accepts _ max_packet_size := (8 <=? max_packet_size)%Z;
  symbol_size := wrap 16;
  Plan := unit;
  generate _ := tt;
  generate_accepts k := (k <=? 56403)%Z;
  EncodingPacket := list byte;
  source_block_number := number;
  serialize p := p;
  deserialize p := p;
  SourceBlockEncoder := encoder;
  with_encoding_plan id ss data _ := encoder_new id (wrap 16 ss) data;
  source_packets := sources;
  repair_packets e _ n := repairs e n;
  repair_packets_accepts e start n :=
    (Z.of_nat (length (enc_symbols e)) + start + n <=? 2 ^ 24)%Z;
  SourceBlockDecoder := decoder;
  decoder_new _ ss len := replicate (Z.to_nat (len / wrap 16 ss)) None;
  decoder_decode := decode
|}.

Section laws.
Context (ss id : Z) (data : list byte) (k : Z).
Context (Hid : fits 8 id) (Hsup : supported (ss : OTI) data k).
Abbreviation syms := (chunks (Z.to_nat (wrap 16 ss)) (Z.to_nat k) data).

Lemma symbols_eq : length data / Z.to_nat (wrap 16 ss) = Z.to_nat k.
Proof using Hsup.
  destruct Hsup as (Hk & Hss & Hlen). cbn in Hss, Hlen.
  apply Nat2Z.inj. rewrite Nat2Z.inj_div, Hlen, !Z2Nat.id by lia. apply Z.div_mul. lia.
Qed.

Lemma sources_eq :
  source_packets (block_encoder_of (ss : OTI) id data k) = imap (packet id) syms.
Proof using Hsup. cbn. unfold sources. cbn. by rewrite symbols_eq. Qed.

Lemma syms_lookup i s : syms !! i = Some s ->
  i < Z.to_nat k /\ Z.of_nat (length s) = wrap 16 ss.
Proof using Hsup.
  intros Hs. split.
  - apply lookup_lt_Some in Hs. by rewrite length_chunks in Hs.
  - destruct Hsup as (Hk & Hss & Hlen). cbn in Hss, Hlen.
    eapply Forall_lookup_1 in Hs; [| apply chunks_lengths; nia]. simpl in Hs. lia.
Qed.

(** Every packet of the block carries a source symbol at its index. *)
Lemma genuine_packet p : genuine (ss : OTI) id data k p ->
  exists i s, syms !! i = Some s /\ p = packet id i s.
Proof using Hsup.
  assert (forall p, p ∈ imap (packet id) syms ->
    exists i s, syms !! i = Some s /\ p = packet id i s) as Hsrc.
  { intros q (i & s & -> & Hs)%elem_of_lookup_imap. eauto. }
  intros [Hp | (n & _ & Hp)]; [rewrite sources_eq in Hp; auto |].
  cbn in Hp. unfold repairs in Hp.
  change (sources _) with (source_packets (block_encoder_of (ss : OTI) id data k)) in Hp.
  rewrite sources_eq in Hp. destruct (imap (packet id) syms) as [| q qs] eqn:E.
  { by apply elem_of_nil in Hp. }
  apply list_elem_of_fmap in Hp as (i & -> & _). apply Hsrc.
  destruct ((q :: qs) !! (i mod length (q :: qs))) eqn:Hl; simpl; [| left].
  by eapply list_elem_of_lookup_2.
Qed.

Lemma packet_fields i s : syms !! i = Some s ->
  number (packet id i s) = id /\ index (packet id i s) = i /\ drop 4 (packet id i s) = s.
Proof using Hid Hsup.
  intros [Hi _]%syms_lookup. destruct Hsup as (Hk & _). unfold packet, number, index.
  rewrite Z_of_byte_of_Z, wrap_small by done. split; [done |].
  cbn [drop]. rewrite drop_0, take_app_length', drop_app_length' by (by rewrite length_to_be_bytes).
  rewrite from_to_be_bytes by lia. split; [lia | done].
Qed.

(** A partially filled decoder of the block. *)
Definition partial (d : decoder) : Prop :=
  Forall2 (fun o s => o = None \/ o = Some s) d syms.

Lemma partial_receive d p : partial d -> genuine (ss : OTI) id data k p ->
  partial (receive d p) /\
  (forall i, is_Some (mjoin (d !! i)) \/ index p = i /\ i < length d ->
    is_Some (mjoin (receive d p !! i))).
Proof using Hid Hsup.
  intros Hd (i & s & Hs & ->)%genuine_packet. unfold receive.
  destruct (packet_fields i s Hs) as (_ & -> & ->). split.
  - unfold partial. rewrite <- (list_insert_id syms i s) by done.
    apply Forall2_insert; auto.
  - intros j Hj. destruct (decide (i = j)) as [<- |].
    + rewrite list_lookup_insert_eq; [by eexists |].
      apply Forall2_length in Hd. rewrite Hd. by eapply lookup_lt_Some.
    + rewrite list_lookup_insert_ne by done. by destruct Hj as [Hj | [? _]].
Qed.

Lemma partial_sound d v : partial d -> mapM (M:=option) (fun x => x) d = Some v -> v = syms.
Proof using.
  intros Hd. revert v. induction Hd as [| o s d ss' [-> | ->] _ IH]; intros v; simpl.
  - by intros [= <-].
  - done.
  - destruct (mapM (fun x => x) d) eqn:E; simpl; [| done]. intros [= <-].
    f_equal. by apply IH.
Qed.

Lemma concat_syms : concat syms = data.
Proof using Hsup.
  rewrite concat_chunks. apply take_ge. destruct Hsup as (Hk & Hss & Hlen).
  cbn in Hss, Hlen. nia.
Qed.

Lemma decode_step d p :
  decoder_decode (RaptorQ := code) d [p] =
    ((fun l => concat l) <$> mapM (M:=option) (fun x => x) (receive d p), receive d p).
Proof using. done. Qed.

Lemma first_success_sound d ps v :
  partial d -> Forall (genuine (ss : OTI) id data k) ps ->
  first_success (C := code) d ps = Some v -> v = data.
Proof using Hid Hsup.
  intros Hd Hps. revert d Hd. induction Hps as [| p ps Hp _ IH]; intros d Hd; [done |].
  cbn [first_success]. rewrite decode_step.
  destruct (partial_receive d p Hd Hp) as [Hd' _].
  destruct (mapM (fun x => x) (receive d p)) as [w |] eqn:E; simpl; [| by apply IH].
  apply partial_sound in E; [| done]. intros [= <-]. by rewrite E, concat_syms.
Qed.

(** All slots filled: the decoder answers. *)
Lemma partial_full d :
  partial d -> (forall i, i < Z.to_nat k -> is_Some (mjoin (d !! i))) ->
  is_Some (mapM (M:=option) (fun x => x) d).
Proof using.
  intros Hd Hfull. apply mapM_is_Some_2, Forall_lookup_2. intros i o Hi.
  specialize (Hfull i). rewrite Hi in Hfull. apply Hfull.
  apply Forall2_length in Hd. rewrite length_chunks in Hd. rewrite <- Hd.
  by eapply lookup_lt_Some.
Qed.

Lemma first_success_complete d ps :
  partial d -> Forall (genuine (ss : OTI) id data k) ps ->
  (exists i, i < Z.to_nat k /\ d !! i = Some None) ->
  (forall i, i < Z.to_nat k ->
     is_Some (mjoin (d !! i)) \/ exists p, p ∈ ps /\ index p = i) ->
  is_Some (first_success (C := code) d ps).
Proof using Hid Hsup.
  intros Hd Hps. revert d Hd.
  induction Hps as [| p ps Hp _ IH]; intros d Hd (i0 & Hi0 & Hnone) Hcov.
  { exfalso. destruct (Hcov i0 Hi0) as [[x Hx] | (q & Hq & _)].
    - by rewrite Hnone in Hx.
    - by apply elem_of_nil in Hq. }
  cbn [first_success]. rewrite decode_step.
  destruct (partial_receive d p Hd Hp) as [Hd' Hgrow].
  destruct (mapM (fun x => x) (receive d p)) as [w |] eqn:E; simpl; [by eexists |].
  apply IH; [done | |].
  - apply mapM_None_1, Exists_exists in E as (o & Ho & ->).
    apply list_elem_of_lookup in Ho as [i Hi]. exists i. split; [| done].
    apply lookup_lt_Some in Hi. apply Forall2_length in Hd'.
    rewrite length_chunks in Hd'. lia.
  - intros i Hi. destruct (Hcov i Hi) as [Hf | (q & Hq & Hqi)]; [by auto |].
    apply elem_of_cons in Hq as [-> | Hq]; [| by eauto].
    left. apply Hgrow. right. split; [done |].
    apply Forall2_length in Hd. rewrite length_chunks in Hd. lia.
Qed.

Lemma partial_new :
  partial (decoder_new (RaptorQ := code) id ss (Z.of_nat (length data))).
Proof using Hsup.
  cbn. replace (Z.to_nat (Z.of_nat (length data) `div` wrap 16 ss)) with (length syms).
  - unfold partial. generalize syms. intros l. induction l; simpl; constructor; auto.
  - rewrite length_chunks. destruct Hsup as (Hk & Hss & Hlen). cbn in Hss, Hlen.
    by rewrite Hlen, Z.div_mul by lia.
Qed.

Lemma complete_new ps :
  Forall (genuine (ss : OTI) id data k) ps ->
  source_packets (block_encoder_of (ss : OTI) id data k) ⊆ ps ->
  first_success (C := code)
    (decoder_new (RaptorQ := code) id ss (Z.of_nat (length data))) ps = Some data.
Proof using Hid Hsup.
  intros Hps Hall. pose proof partial_new as Hnew.
  destruct (first_success_complete _ ps Hnew Hps) as [v Hv].
  - exists 0. destruct Hsup as (Hk & Hss & Hlen). split; [lia |]. cbn in *.
    apply lookup_replicate_2. rewrite Hlen, Z.div_mul by lia. lia.
  - intros i Hi. right.
    destruct (lookup_lt_is_Some_2 syms i) as [s Hs]; [by rewrite length_chunks |].
    exists (packet id i s). split; [| by apply packet_fields].
    apply Hall. rewrite sources_eq. apply elem_of_lookup_imap. eauto.
  - pose proof (first_success_sound _ ps v Hnew Hps Hv) as ->. done.
Qed.
End laws.

#[global] Instance code_laws : RaptorQLaws (C := code).
Proof.
  split.
  - intros oti. apply wrap_fits. lia.
  - intros k Hk. cbn. lia.
  - intros ss id data k n Hsup Hn. unfold repairable in Hn. cbn -[Z.pow].
    rewrite (symbols_eq ss data k Hsup), length_chunks. destruct Hsup as (Hk & _).
    apply Z.leb_le. rewrite Z2Nat.id by lia. lia.
  - intros ss id data k Hsup. rewrite sources_eq by done.
    rewrite length_imap, length_chunks. destruct Hsup. lia.
  - intros ss id data k n Hsup Hn. cbn. unfold repairs.
    destruct (sources _) eqn:E.
    + exfalso. pose proof (sources_eq ss id data k Hsup) as Heq.
      assert (imap (packet id)
        (chunks (Z.to_nat (wrap 16 ss)) (Z.to_nat k) data) = []) as Hnil
        by (rewrite <- Heq; exact E).
      apply (f_equal length) in Hnil. rewrite length_imap, length_chunks in Hnil.
      destruct Hsup. simpl in Hnil. lia.
    + rewrite length_fmap, length_seq. destruct Hn. lia.
  - intros ss id data k p Hid Hsup (i & s & Hs & ->)%genuine_packet; [| done].
    by eapply packet_fields.
  - done.
  - intros ss id data k p Hid Hsup (i & s & Hs & ->)%genuine_packet; [| done].
    apply syms_lookup in Hs as [_ Hs]; [| done]. cbn -[wrap]. lia.
  - intros ss id data k ps v Hid Hsup Hps. eapply first_success_sound; eauto.
    by eapply partial_new.
  - intros ss id data k ps Hid Hsup Hps Hall. by eapply complete_new.
Qed.
End Repetition.
