(* ===== verification/Chan.v ===== *)
(** * [std::sync::mpsc]: the sending end of a bounded channel

    A sequential view, used where one thread's code is modelled on its own: the
    sender sees the values it has sent and whether the receiver is still there.
    [lifetime] is how many more sends succeed before the receiver is dropped
    ([None]: it outlives the sender).  The blocking of a full channel is invisible
    to the sending thread; the step systems of [Pipeline] model it. *)
From stdpp Require Import prelude list.
From S2P Require Import Prelude.

Record sender (A : Type) := Sender { sent : list A; lifetime : option nat }.
Arguments Sender {A} _ _.
Arguments sent {A} _.
Arguments lifetime {A} _.

(** [SyncSender::send]; the error ([SendError]) gives the value back. *)
Definition send {A} (s : sender A) (x : A) : outcome A unit * sender A :=
  match lifetime s with
  | None => (Ok tt, Sender (sent s ++ [x]) None)
  | Some 0 => (Err x, s)
  | Some (S n) => (Ok tt, Sender (sent s ++ [x]) (Some n))
  end.

(** What reaches the receiver when the values [xs] are sent in order. *)
Definition delivered {A} (s : sender A) (xs : list A) : list A :=
  match lifetime s with None => xs | Some n => take n xs end.

(** Do all the sends succeed? *)
Definition outlives {A} (s : sender A) (n : nat) : Prop :=
  match lifetime s with None => True | Some m => n <= m end.

#[export] Instance outlives_dec {A} (s : sender A) n : Decision (outlives s n).
Proof. unfold outlives. destruct (lifetime s); apply _. Defined.

(** The [for x in xs { s.send(x)? }] loops. *)
Fixpoint send_each {A} (s : sender A) (xs : list A) : outcome A unit * sender A :=
  match xs with
  | [] => (Ok tt, s)
  | x :: xs =>
    match send s x with
    | (Ok _, s) => send_each s xs
    | (Err e, s) => (Err e, s)
    | (Panic, s) => (Panic, s)
    end
  end.

Lemma send_each_ok {A} (s : sender A) xs :
  outlives s (length xs) ->
  send_each s xs = (Ok tt, Sender (sent s ++ xs) ((fun n => n - length xs) <$> lifetime s)).
Proof.
  revert s. induction xs as [| x xs IH]; intros [out lf] Hs; simpl in *.
  - rewrite app_nil_r. destruct lf as [n |]; simpl; [by rewrite Nat.sub_0_r | done].
  - destruct lf as [[| n] |]; simpl in *; [unfold outlives in Hs; simpl in Hs; lia | |];
      rewrite IH; simpl; rewrite <- ?app_assoc; auto.
    unfold outlives in *. simpl in *. lia.
Qed.

Lemma send_each_err {A} (s : sender A) xs :
  ~ outlives s (length xs) ->
  exists n x, lifetime s = Some n /\ xs !! n = Some x /\
    send_each s xs = (Err x, Sender (sent s ++ take n xs) (Some 0)).
Proof.
  revert s. induction xs as [| x xs IH]; intros [out lf] Hs; unfold outlives in Hs;
    simpl in *; destruct lf as [[| n] |]; try (exfalso; simpl in *; (lia || tauto)); simpl.
  - exists 0, x. by rewrite app_nil_r.
  - destruct (IH (Sender (out ++ [x]) (Some n))) as (m & y & [= <-] & Hy & ->);
      [unfold outlives; simpl; lia |].
    exists (S n), y. simpl. by rewrite <- app_assoc.
Qed.

Lemma send_each_app {A} (s : sender A) xs ys :
  send_each s (xs ++ ys) =
    match send_each s xs with
    | (Ok _, s) => send_each s ys
    | (Err e, s) => (Err e, s)
    | (Panic, s) => (Panic, s)
    end.
Proof.
  revert s. induction xs as [| x xs IH]; intros s; simpl; [done |].
  by destruct (send s x) as [[] ?].
Qed.

(** The result of a sending loop: all delivered, or the first value that is not. *)
Definition send_result {A} (s : sender A) (xs : list A) : outcome A unit :=
  if decide (outlives s (length xs)) then Ok tt
  else match xs !! length (delivered s xs) with Some x => Err x | None => Panic end.

Lemma send_each_spec {A} (s : sender A) xs :
  exists s', sent s' = sent s ++ delivered s xs /\
    send_each s xs = (send_result s xs, s').
Proof.
  unfold send_result. case_decide as Hs.
  - rewrite (send_each_ok _ _ Hs). eexists. split; [| done]. simpl. f_equal.
    unfold outlives, delivered in *. destruct (lifetime s); [by rewrite take_ge | done].
  - destruct (send_each_err _ _ Hs) as (n & x & Hl & Hx & ->). eexists.
    pose proof (lookup_lt_Some _ _ _ Hx). unfold delivered. rewrite Hl.
    rewrite length_take, Nat.min_l, Hx by lia. split; [| done]. done.
Qed.

#[export] Hint Resolve send_each_ok : rust.
