(* ===== verification/BlockEncoder.v ===== *)
(** * [block_encoder.rs]: turning one block into packets *)
From stdpp Require Import prelude list strings pretty.
From Stdlib Require Import ZArith Lia.
From S2P Require Import Prelude Vector Bytes RaptorQ Chan.

Record Block := MkBlock { id : Z; data : list byte }.

(** [impl Clone for Block]. *)
Definition clone (b : Block) : Block := MkBlock (id b) (data b).

Inductive ConfigurationError := InvalidBlockSize (block_size symbol_size : Z).

(** [impl Display for ConfigurationError]. *)
Definition ConfigurationError_fmt (e : ConfigurationError) : string :=
  match e with
  | InvalidBlockSize block_size symbol_size =>
    "Block size " +:+ pretty block_size +:+ " is not a multiple of symbol size "
      +:+ pretty symbol_size
  end.

(** [usize::is_multiple_of]: zero is the only multiple of zero. *)
Definition is_multiple_of (n m : Z) : bool :=
  if (m =? 0)%Z then (n =? 0)%Z else (n mod m =? 0)%Z.

(** [usize] division panics on zero. *)
Definition checked_div {E} (n m : Z) : outcome E Z :=
  if (m =? 0)%Z then Panic else Ok (n / m)%Z.

(** [TryFrom] into the [w]-bit unsigned type. *)
Definition try_from {E} (w n : Z) (e : E) : outcome E Z :=
  if (n <? 2 ^ w)%Z then Ok n else Err e.

(** [u32::div_ceil]. *)
Definition div_ceil (n m : Z) : Z := if (n mod m =? 0)%Z then n / m else n / m + 1.

Section block_encoder.
Context `{C : RaptorQ}.

Inductive BlockEncoderError :=
| UnexpectedBlockSize
| InvalidConfiguration (s : string)
| Send (p : EncodingPacket).

Record BlockEncoder := MkBlockEncoder {
  block_size : Z;
  repair_packets_per_block : Z;
  config : OTI;
  encoding_plan : Plan
}.

(** [impl From<ConfigurationError> for BlockEncoderError]. *)
Definition from_ConfigurationError (e : ConfigurationError) : BlockEncoderError :=
  InvalidConfiguration (ConfigurationError_fmt e).

(** [impl From<SendError<EncodingPacket>> for BlockEncoderError]. *)
Definition from_SendError (p : EncodingPacket) : BlockEncoderError := Send p.

Definition get_configuration (block_size max_packet_size : Z)
    : outcome ConfigurationError OTI :=
  if negb (with_defaults_accepts (wrap 64 block_size) max_packet_size) then Panic else
  let config := with_defaults (wrap 64 block_size) max_packet_size in
  let symbol_size := symbol_size config in
  if negb (is_multiple_of block_size symbol_size)
  then Err (InvalidBlockSize block_size symbol_size)
  else Ok config.

Definition BlockEncoder_new (block_size max_packet_size repair_packets_per_block : Z)
    : outcome BlockEncoderError BlockEncoder :=
  config <-? omap_err from_ConfigurationError (get_configuration block_size max_packet_size);;
  symbol_count <-? checked_div block_size (symbol_size config);;
  symbol_count <-? try_from 16 symbol_count
    (InvalidConfiguration "Cannot safely cast symbol_count to u16");;
  if negb (generate_accepts symbol_count) then Panic else
  let encoding_plan := generate symbol_count in
  Ok (MkBlockEncoder block_size repair_packets_per_block config encoding_plan).

(** The packets are those the returned iterator yields. *)
Definition encode (self : BlockEncoder) (block : Block)
    : outcome BlockEncoderError (list EncodingPacket) :=
  if negb (Z.of_nat (length (data block)) =? block_size self)%Z
  then Err UnexpectedBlockSize
  else
    let block_encoder :=
      with_encoding_plan (id block) (config self) (data block) (encoding_plan self) in
    let source_packets := source_packets block_encoder in
    if negb (repair_packets_accepts block_encoder 0 (repair_packets_per_block self)) then Panic
    else
    let repair_packets := repair_packets block_encoder 0 (repair_packets_per_block self) in
    let packets := interleave source_packets repair_packets in
    Ok packets.

Fixpoint encode_stream (self : BlockEncoder) (input : list Block)
    (output : sender EncodingPacket)
    : outcome BlockEncoderError unit * sender EncodingPacket :=
  match input with
  | [] => (Ok tt, output)
  | block :: input =>
    match encode self block with
    | Ok packets =>
      match send_each output packets with
      | (Ok _, output) => encode_stream self input output
      | (Err p, output) => (Err (from_SendError p), output)
      | (Panic, output) => (Panic, output)
      end
    | Err e => (Err e, output)
    | Panic => (Panic, output)
    end
  end.

(** [Box<dyn Error>] here boxes one of these two. *)
Inductive ComputeError :=
| Configuration (e : ConfigurationError)
| TryFromInt.

Definition compute_repair_packets_per_block
    (block_size max_packet_size redundancy_factor : Z) : outcome ComputeError Z :=
  config <-? omap_err Configuration (get_configuration block_size max_packet_size);;
  num_source_symbols <-? checked_div block_size (symbol_size config);;
  num_source_symbols <-? try_from 32 num_source_symbols TryFromInt;;
  Ok (div_ceil (wmul 32 num_source_symbols redundancy_factor) 100).

(** [impl Display for BlockEncoderError]; the text of a [SendError] is the
    standard library's. *)
Definition BlockEncoderError_fmt (e : BlockEncoderError) : string :=
  match e with
  | UnexpectedBlockSize => "Block size does not match encoder configuration"
  | InvalidConfiguration s => s
  | Send _ => "sending on a closed channel"
  end.
End block_encoder.

(** ** Properties *)
Section properties.
Context `{L : RaptorQLaws}.

(** An encoder for blocks of [k] symbols, with parameters the code supports. *)
Definition wf_encoder (e : BlockEncoder) (k : Z) : Prop :=
  encoding_plan e = generate k /\ (0 < symbol_size (config e))%Z /\
  block_size e = (k * symbol_size (config e))%Z /\ (1 <= k <= 56403)%Z /\
  repairable (repair_packets_per_block e).

(** The packets of one block: what [encode] yields. *)
Definition packets_of (e : BlockEncoder) (b : Block) : list EncodingPacket :=
  let enc := with_encoding_plan (id b) (config e) (data b) (encoding_plan e) in
  interleave (source_packets enc) (repair_packets enc 0 (repair_packets_per_block e)).

(** A block [encode] accepts. *)
Definition wf_block (e : BlockEncoder) (b : Block) : Prop :=
  Z.of_nat (length (data b)) = block_size e /\ fits 8 (id b).

Lemma is_multiple_of_spec n m : (0 < m)%Z -> is_multiple_of n m = true <-> exists k, n = (k * m)%Z.
Proof.
  intros Hm. unfold is_multiple_of. rewrite (proj2 (Z.eqb_neq _ _)) by lia.
  rewrite Z.eqb_eq. split; [| intros [k ->]; apply Z.mod_mul; lia].
  intros Hmod. exists (n / m)%Z. pose proof (Z.div_mod n m). lia.
Qed.

(** What [BlockEncoder::new] checks makes a well-formed encoder. *)
Lemma BlockEncoder_new_wf bs mps r e :
  (0 < bs < 2 ^ 64)%Z -> repairable r -> BlockEncoder_new bs mps r = Ok e ->
  exists k, (k <= 65535)%Z /\ block_size e = bs /\ repair_packets_per_block e = r /\
    bs = (k * symbol_size (config e))%Z /\ ((k <= 56403)%Z -> wf_encoder e k).
Proof using L.
  intros Hbs Hr. unfold BlockEncoder_new, get_configuration.
  rewrite wrap_small by (unfold fits; lia).
  destruct (with_defaults_accepts bs mps); cbn; [| done].
  generalize (with_defaults bs mps). intros oti.
  pose proof (symbol_size_fits oti) as Hss. unfold fits in Hss.
  destruct (is_multiple_of bs (symbol_size oti)) eqn:Hmul; cbn; [| done].
  unfold checked_div. destruct (Z.eqb_spec (symbol_size oti) 0) as [| Hnz]; cbn; [done |].
  apply is_multiple_of_spec in Hmul as [k ->]; [| lia].
  rewrite Z.div_mul by done. unfold try_from.
  destruct (Z.ltb_spec k (2 ^ 16)); cbn; [| done].
  destruct (generate_accepts k); cbn; [| done]. intros [= <-]; cbn.
  unfold repairable, fits in *. assert (1 <= k)%Z by nia. exists k. repeat split; cbn; auto; lia.
Qed.

(** The configuration does not depend on the number of repair packets. *)
Lemma BlockEncoder_new_config bs mps r r' e :
  BlockEncoder_new bs mps r = Ok e ->
  get_configuration bs mps = Ok (config e) /\
  exists e', BlockEncoder_new bs mps r' = Ok e' /\ config e' = config e.
Proof using.
  unfold BlockEncoder_new. destruct (get_configuration bs mps) as [c | |]; cbn; [| done..].
  destruct (checked_div bs (symbol_size c)) as [m | |]; cbn; [| done..].
  destruct (try_from 16 m _) as [m' | |]; cbn; [| done..].
  destruct (generate_accepts m'); cbn; [| done]. intros [= <-]. split; [done |].
  by eexists.
Qed.

Lemma wf_supported e k b :
  wf_encoder e k -> wf_block e b -> supported (config e) (data b) k.
Proof using. intros (_ & Hss & Hbs & Hk & _) [Hlen _]. split; [done |]. split; [done | lia]. Qed.

Lemma encode_wf e k b :
  wf_encoder e k -> wf_block e b -> encode e b = Ok (packets_of e b).
Proof using L.
  intros He Hb. pose proof (wf_supported _ _ _ He Hb) as Hsup. unfold encode, packets_of.
  destruct He as (-> & _ & _ & _ & Hr), Hb as [-> _]. rewrite Z.eqb_refl. cbn [negb].
  pose proof (repair_packets_supported _ (id b) _ _ _ Hsup Hr) as Haccept.
  unfold block_encoder_of in Haccept. by rewrite Haccept.
Qed.

Section block.
Context (e : BlockEncoder) (k : Z) (b : Block) (He : wf_encoder e k) (Hb : wf_block e b).
Abbreviation enc := (block_encoder_of (config e) (id b) (data b) k).

Lemma packet_counts :
  Z.of_nat (length (source_packets enc)) = k /\
  Z.of_nat (length (repair_packets enc 0 (repair_packets_per_block e)))
    = repair_packets_per_block e.
Proof using L He Hb.
  pose proof (wf_supported _ _ _ He Hb) as Hsup. destruct He as (_ & _ & _ & _ & Hr).
  split; [by apply length_source_packets | by eapply length_repair_packets].
Qed.

(** The parameters of a block never overflow the arithmetic of [interleave]. *)
Lemma packets_no_overflow :
  no_overflow (source_packets enc) (repair_packets enc 0 (repair_packets_per_block e)).
Proof using L He Hb.
  destruct packet_counts as [Hs Hr]. destruct He as (_ & _ & _ & Hk & Hrf).
  unfold no_overflow, shorter, repairable, fits in *. rewrite Nat2Z.inj_add, Hs, Hr.
  assert (forall n : nat, (Z.of_nat n <= 56403)%Z ->
    (0 <= Z.of_nat n * (k + repair_packets_per_block e) < 2 ^ 64)%Z) as Hmul by nia.
  split; [lia |]. case_match eqn:Hle; apply Hmul; [apply Nat.leb_le in Hle |]; lia.
Qed.

Lemma packets_of_perm :
  packets_of e b ≡ₚ
    source_packets enc ++ repair_packets enc 0 (repair_packets_per_block e).
Proof using L He Hb.
  unfold packets_of. destruct He as (-> & _).
  apply interleave_perm, packets_no_overflow.
Qed.

Lemma packets_of_genuine :
  Forall (genuine (config e) (id b) (data b) k) (packets_of e b).
Proof using L He Hb.
  rewrite packets_of_perm. apply Forall_app. split; apply Forall_forall; intros p Hp.
  - by left.
  - right. destruct He as (_ & _ & _ & _ & Hr). eauto.
Qed.

Lemma packets_of_sources : source_packets enc ⊆ packets_of e b.
Proof using L He Hb. intros p Hp. rewrite packets_of_perm. apply elem_of_app. by left. Qed.

Lemma packets_of_number :
  Forall (fun p => source_block_number p = id b) (packets_of e b).
Proof using L He Hb.
  eapply Forall_impl; [apply packets_of_genuine |]. intros p Hp.
  eapply genuine_block_number; eauto using wf_supported. apply Hb.
Qed.

Lemma length_packets_of :
  Z.of_nat (length (packets_of e b)) = (k + repair_packets_per_block e)%Z.
Proof using L He Hb.
  rewrite packets_of_perm, length_app. destruct packet_counts. lia.
Qed.
End block.

(** An encoder that [BlockEncoder::new] accepted, for blocks of [k]
    symbols the code supports, refuses a block of any other size, and encodes a
    block of its size into [k] source packets and the configured number of repair
    packets, all carrying the block's id, every source packet among them. *)
Theorem encode_spec bs mps r e b :
  (0 < bs < 2 ^ 64)%Z -> repairable r -> fits 8 (id b) ->
  BlockEncoder_new bs mps r = Ok e -> (bs <= 56403 * symbol_size (config e))%Z ->
  if decide (Z.of_nat (length (data b)) = bs) then
    exists ps, encode e b = Ok ps /\
      Z.of_nat (length ps) = (bs / symbol_size (config e) + r)%Z /\
      Forall (fun p => source_block_number p = id b) ps /\
      source_packets (block_encoder_of (config e) (id b) (data b)
        (bs / symbol_size (config e))) ⊆ ps
  else encode e b = Err UnexpectedBlockSize.
Proof using L.
  intros Hbs Hr Hid Hnew Hmax.
  destruct (BlockEncoder_new_wf _ _ _ _ Hbs Hr Hnew) as (k & Hk & He1 & He2 & Hbk & Hwf).
  pose proof (symbol_size_fits (config e)) as Hss. unfold fits in Hss.
  assert (0 < symbol_size (config e))%Z by nia.
  assert (bs / symbol_size (config e) = k)%Z as ->
    by (symmetry; apply Z.div_unique_exact; lia).
  specialize (Hwf ltac:(nia)).
  case_decide as Hlen.
  - assert (wf_block e b) as Hb by (split; congruence).
    exists (packets_of e b). split; [by eapply encode_wf |].
    rewrite <- He2. split; [by apply length_packets_of |].
    split; [by eapply packets_of_number | by apply packets_of_sources].
  - unfold encode. by rewrite (proj2 (Z.eqb_neq _ _)) by congruence.
Qed.

(** The packets the blocks of a queue give, in order. *)
Definition packets_of_all (e : BlockEncoder) (bs : list Block) : list EncodingPacket :=
  bs ≫= packets_of e.

(** The queue [rest] does not begin with a block of the right size. *)
Definition refused_first (e : BlockEncoder) (rest : list Block) : Prop :=
  match rest with
  | [] => True
  | b :: _ => Z.of_nat (length (data b)) <> block_size e
  end.

Lemma encode_stream_send e k good rest output :
  wf_encoder e k -> Forall (wf_block e) good -> refused_first e rest ->
  encode_stream e (good ++ rest) output =
    match send_each output (packets_of_all e good) with
    | (Ok _, output) => (match rest with [] => Ok tt | _ => Err UnexpectedBlockSize end, output)
    | (Err p, output) => (Err (Send p), output)
    | (Panic, output) => (Panic, output)
    end.
Proof using L.
  intros He Hgood Hrest. revert output.
  induction Hgood as [| b good Hb _ IH]; intros output; simpl.
  - destruct rest as [| b rest]; simpl; [done |].
    unfold encode. by rewrite (proj2 (Z.eqb_neq _ _)).
  - rewrite (encode_wf _ _ _ He Hb), send_each_app.
    by destruct (send_each output (packets_of e b)) as [[] ?].
Qed.

(** C19 [encode_stream] sends the packets of the blocks of the queue in
    order.  If the receiver goes away it stops at the first packet that cannot be
    delivered and reports it; the first block of the wrong size stops it after the
    packets of the blocks before it, whatever blocks follow. *)
Theorem encode_stream_spec e k good rest output :
  wf_encoder e k -> Forall (wf_block e) good -> refused_first e rest ->
  let ps := packets_of_all e good in
  exists output', sent output' = sent output ++ delivered output ps /\
    encode_stream e (good ++ rest) output =
      (match send_result output ps with
       | Ok _ => match rest with [] => Ok tt | _ => Err UnexpectedBlockSize end
       | Err p => Err (Send p)
       | Panic => Panic
       end, output').
Proof using L.
  intros He Hgood Hrest ps. destruct (send_each_spec output ps) as (output' & Hsent & Heq).
  exists output'. split; [done |].
  rewrite (encode_stream_send _ _ _ _ _ He Hgood Hrest). unfold ps in Heq. rewrite Heq.
  by destruct (send_result output _).
Qed.

(** C20 The number of repair packets is the requested percentage of the
    number of source symbols, rounded up, as long as the product fits in 32 bits;
    a size that is no whole number of symbols is an error that names both. *)
Theorem compute_repair_packets_per_block_spec bs mps redundancy :
  (0 <= bs < 2 ^ 64)%Z -> fits 32 redundancy ->
  let oti := with_defaults bs mps in
  let n := (bs / symbol_size oti)%Z in
  (0 < symbol_size oti)%Z -> (n * redundancy < 2 ^ 32)%Z ->
  match compute_repair_packets_per_block bs mps redundancy with
  | Ok r => (bs = n * symbol_size oti /\ n * redundancy <= 100 * r < n * redundancy + 100)%Z
  | Err (Configuration e) =>
    (bs mod symbol_size oti <> 0)%Z /\ e = InvalidBlockSize bs (symbol_size oti)
  | Err TryFromInt => (2 ^ 32 <= n)%Z
  | Panic => with_defaults_accepts bs mps = false
  end.
Proof using.
  intros Hbs Hr oti n Hss Hfit. unfold compute_repair_packets_per_block, get_configuration.
  rewrite wrap_small by done. destruct (with_defaults_accepts bs mps); [| done]. cbn [negb].
  fold oti. unfold is_multiple_of, checked_div.
  rewrite (proj2 (Z.eqb_neq (symbol_size oti) 0)) by lia.
  destruct (Z.eqb_spec (bs mod symbol_size oti) 0) as [Hm | Hm]; cbn; [| by split].
  rewrite (proj2 (Z.eqb_neq (symbol_size oti) 0)) by lia. cbn. fold n.
  unfold try_from. destruct (Z.ltb_spec n (2 ^ 32)); cbn; [| lia].
  assert (0 <= n)%Z by (apply Z.div_pos; lia). unfold fits in Hr.
  unfold wmul. rewrite wrap_small by (unfold fits; nia). unfold div_ceil.
  pose proof (Z.div_mod (n * redundancy) 100) as Hdm.
  pose proof (Z.mod_pos_bound (n * redundancy) 100). split.
  - pose proof (Z.div_mod bs (symbol_size oti)). fold n in H1. lia.
  - destruct (Z.eqb_spec ((n * redundancy) mod 100) 0); lia.
Qed.
End properties.

(** The product is computed on 32 bits, so a large enough redundancy factor gives
    fewer repair packets than a small one: here 256 symbols and a factor of 2^24
    give none at all. *)
Lemma compute_repair_overflow :
  compute_repair_packets_per_block (C := Repetition.code) (256 * 8) 8 (2 ^ 24) = Ok 0%Z /\
  compute_repair_packets_per_block (C := Repetition.code) (256 * 8) 8 30 = Ok 77%Z.
Proof. split; vm_compute; reflexivity. Qed.

(** ** Witnesses *)
Module Demo.
Definition demo_block (i : Z) : Block :=
  MkBlock i [x01; x02; x03; x04; x05; x06; x07; x08; x11; x12; x13; x14; x15; x16; x17; x18].

Definition demo_encoder : BlockEncoder (C := Repetition.code) :=
  MkBlockEncoder (C := Repetition.code) 16 1 (8%Z : Z) tt.

Lemma demo_encoder_new :
  BlockEncoder_new (C := Repetition.code) 16 11 1 = Ok demo_encoder.
Proof. reflexivity. Qed.

Lemma demo_encoder_wf : wf_encoder (C := Repetition.code) demo_encoder 2.
Proof. unfold wf_encoder, repairable. by_compute. Qed.

Lemma demo_block_wf i : fits 8 i -> wf_block (C := Repetition.code) demo_encoder (demo_block i).
Proof. intros Hi. split; [by_compute | exact Hi]. Qed.

Lemma encode_spec_witness :
  exists ps, encode demo_encoder (demo_block 7) = Ok ps /\
    Z.of_nat (length ps) = 3%Z /\
    Forall (fun p => source_block_number p = 7%Z) ps.
Proof.
  destruct (encode_spec (C := Repetition.code) 16 11 1 demo_encoder (demo_block 7)
    ltac:(by_compute) ltac:(unfold repairable; by_compute) ltac:(by_compute) demo_encoder_new
    ltac:(by_compute))
    as (ps & Hps & Hlen & Hnum & _).
  exists ps. split; [exact Hps |]. split; [exact Hlen | exact Hnum].
Defined.

(** A good block, a bad one, and a good one that is not encoded. *)
Lemma encode_stream_spec_witness :
  exists output',
    sent output' = packets_of_all demo_encoder [demo_block 7] /\
    encode_stream demo_encoder [demo_block 7; MkBlock 8 []; demo_block 9] (Sender [] None)
      = (Err UnexpectedBlockSize, output').
Proof.
  destruct (encode_stream_spec (C := Repetition.code) demo_encoder 2
    [demo_block 7] [MkBlock 8 []; demo_block 9] (Sender [] None))
    as (output' & Hsent & Heq).
  - exact demo_encoder_wf.
  - repeat constructor; by_compute.
  - by_compute.
  - exists output'. split; [exact Hsent | exact Heq].
Defined.

Lemma compute_repair_packets_per_block_spec_witness :
  match compute_repair_packets_per_block (C := Repetition.code) (1496 * 192) 1500 30 with
  | Ok r => r = 58%Z /\ (192 * 30 <= 100 * r < 192 * 30 + 100)%Z
  | _ => False
  end.
Proof.
  assert (compute_repair_packets_per_block (C := Repetition.code) (1496 * 192) 1500 30
            = Ok 58%Z) as Heq by (vm_compute; reflexivity).
  pose proof (compute_repair_packets_per_block_spec (C := Repetition.code)
    (1496 * 192) 1500 30 ltac:(by_compute) ltac:(by_compute) ltac:(by_compute)
    ltac:(by_compute)) as Hspec.
  rewrite Heq in Hspec |- *. split; [reflexivity | exact (proj2 Hspec)].
Defined.
End Demo.
