(* ===== verification/BlockDecoder.v ===== *)
(** * [block_decoder.rs]: from packets back to blocks

    The state machine that decides which packets the FEC decoder of the current
    block sees.  Its specification is [decode_runs]: cut the packets into maximal
    runs with one block number, and decode each run on its own. *)
From stdpp Require Import prelude list strings.
From Stdlib Require Import ZArith Lia.
From S2P Require Import Prelude Vector Bytes RaptorQ Chan BlockEncoder.

Section block_decoder.
Context `{C : RaptorQ}.

Record BlockDecoder := MkBlockDecoder {
  dec_block_size : Z;
  dec_config : OTI;
  current_block_id : option Z;
  current_decoder : SourceBlockDecoder;
  current_block_is_decoded : bool
}.

Inductive BlockDecoderError :=
| DecInvalidConfiguration (s : string)
| SendError (block : list byte).

(** [impl From<ConfigurationError> for BlockDecoderError], and from [SendError]. *)
Definition dec_from_ConfigurationError (e : ConfigurationError) : BlockDecoderError :=
  DecInvalidConfiguration (ConfigurationError_fmt e).
Definition dec_from_SendError (block : list byte) : BlockDecoderError := SendError block.

(** [impl Display for BlockDecoderError]. *)
Definition BlockDecoderError_fmt (e : BlockDecoderError) : string :=
  match e with
  | DecInvalidConfiguration s => s
  | SendError _ => "sending on a closed channel"
  end.

Definition BlockDecoder_new (block_size max_packet_size : Z)
    : outcome BlockDecoderError BlockDecoder :=
  config <-? omap_err dec_from_ConfigurationError
               (get_configuration block_size max_packet_size);;
  Ok (MkBlockDecoder block_size config None
        (decoder_new 0 config (wrap 64 block_size)) false).

Definition reset_current_decoder (self : BlockDecoder) (block_id : Z) : BlockDecoder :=
  MkBlockDecoder (dec_block_size self) (dec_config self) (Some block_id)
    (decoder_new block_id (dec_config self) (wrap 64 (dec_block_size self))) false.

Definition try_decode (self : BlockDecoder) (packet : EncodingPacket)
    : option (list byte) * BlockDecoder :=
  let (decoded, decoder) := decoder_decode (current_decoder self) [packet] in
  match decoded with
  | Some _ =>
    (decoded, MkBlockDecoder (dec_block_size self) (dec_config self)
                (current_block_id self) decoder true)
  | None =>
    (None, MkBlockDecoder (dec_block_size self) (dec_config self)
             (current_block_id self) decoder (current_block_is_decoded self))
  end.

Definition decode (self : BlockDecoder) (packet : EncodingPacket)
    : option (list byte) * BlockDecoder :=
  let received_block_id := source_block_number packet in
  match current_block_id self with
  | Some current_block_id =>
    if (received_block_id =? current_block_id)%Z then
      if current_block_is_decoded self then (None, self)
      else try_decode self packet
    else try_decode (reset_current_decoder self received_block_id) packet
  | None => try_decode (reset_current_decoder self received_block_id) packet
  end.

Fixpoint decode_stream (self : BlockDecoder) (input : list EncodingPacket)
    (output : sender (list byte))
    : outcome BlockDecoderError unit * sender (list byte) :=
  match input with
  | [] => (Ok tt, output)
  | packet :: input =>
    match decode self packet with
    | (Some decoded_block, self) =>
      match send output decoded_block with
      | (Ok _, output) => decode_stream self input output
      | (Err e, output) => (Err (dec_from_SendError e), output)
      | (Panic, output) => (Panic, output)
      end
    | (None, self) => decode_stream self input output
    end
  end.

Definition infer_packet_size (block_size max_packet_size : Z) : outcome BlockDecoderError Z :=
  encoder <-? omap_err (fun e => DecInvalidConfiguration (BlockEncoderError_fmt e))
                (BlockEncoder_new block_size max_packet_size 1);;
  let dummy_block := MkBlock 1 (replicate (Z.to_nat block_size) x00) in
  packets <-? omap_err (fun e => DecInvalidConfiguration (BlockEncoderError_fmt e))
                (encode encoder dummy_block);;
  match packets with
  | [] => Err (DecInvalidConfiguration "No packet was generated")
  | packet :: _ => Ok (Z.of_nat (length (serialize packet)))
  end.

(** ** What the state machine computes

    The blocks it yields, the state it leaves. *)
Fixpoint decode_all (self : BlockDecoder) (ps : list EncodingPacket)
    : list (list byte) * BlockDecoder :=
  match ps with
  | [] => ([], self)
  | p :: ps =>
    let (o, self) := decode self p in
    let (bs, self) := decode_all self ps in (option_list o ++ bs, self)
  end.

(** Maximal runs of packets with one block number. *)
Fixpoint runs (ps : list EncodingPacket) : list (Z * list EncodingPacket) :=
  match ps with
  | [] => []
  | p :: ps =>
    match runs ps with
    | (n, qs) :: rs =>
      if (source_block_number p =? n)%Z then (n, p :: qs) :: rs
      else (source_block_number p, [p]) :: (n, qs) :: rs
    | [] => [(source_block_number p, [p])]
    end
  end.

(** One run, decoded by a decoder of its own. *)
Definition decode_run (oti : OTI) (bs : Z) (run : Z * list EncodingPacket)
    : option (list byte) :=
  first_success (decoder_new run.1 oti (wrap 64 bs)) run.2.

Definition decode_runs (oti : OTI) (bs : Z) (ps : list EncodingPacket) : list (list byte) :=
  runs ps ≫= fun run => option_list (decode_run oti bs run).

(** The FEC decoder after it has been given [qs], one at a time. *)
Definition feed (d : SourceBlockDecoder) (qs : list EncodingPacket) : SourceBlockDecoder :=
  foldl (fun d q => (decoder_decode d [q]).2) d qs.

Definition fresh (self : BlockDecoder) (n : Z) : SourceBlockDecoder :=
  decoder_new n (dec_config self) (wrap 64 (dec_block_size self)).

(** The decoder is working on the block [n] and has passed on the packets [qs]. *)
Definition decoding (self : BlockDecoder) (n : Z) (qs : list EncodingPacket) : Prop :=
  current_block_id self = Some n /\
  Forall (fun q => source_block_number q = n) qs /\
  current_decoder self = feed (fresh self n) qs /\
  current_block_is_decoded self = bool_decide (is_Some (first_success (fresh self n) qs)).

(** The invariant: the decoder is idle, or its FEC decoder was made for the
    current block, has been given packets of that block only, and the flag says
    whether the block has come out. *)
Definition inv (self : BlockDecoder) : Prop :=
  current_block_id self = None \/ exists n qs, decoding self n qs.
End block_decoder.

(** ** Properties of the state machine *)
Section state_machine.
Context `{C : RaptorQ}.

Lemma first_success_snoc d qs q :
  first_success d (qs ++ [q]) =
    match first_success d qs with
    | Some v => Some v
    | None => (decoder_decode (feed d qs) [q]).1
    end.
Proof.
  revert d. induction qs as [| p qs IH]; intros d; cbn.
  - by destruct (decoder_decode d [q]) as [[] ?].
  - destruct (decoder_decode d [p]) as [[v |] d'] eqn:E; cbn; [done |]. by rewrite IH.
Qed.

Lemma try_decode_decoding self n qs p :
  decoding self n qs -> current_block_is_decoded self = false ->
  source_block_number p = n -> decoding (try_decode self p).2 n (qs ++ [p]).
Proof.
  intros (Hid & Hqs & Hd & Hflag) Hopen Hp. unfold decoding, try_decode, fresh in *.
  rewrite Hopen in Hflag. symmetry in Hflag. apply bool_decide_eq_false in Hflag.
  apply eq_None_not_Some in Hflag.
  pose proof (first_success_snoc (decoder_new n (dec_config self)
    (wrap 64 (dec_block_size self))) qs p) as Hsnoc.
  rewrite Hflag, <- Hd in Hsnoc.
  destruct (decoder_decode (current_decoder self) [p]) as [o d'] eqn:E.
  destruct o; cbn in *;
    (split; [done |]); (split; [by apply Forall_app; split; auto |]);
    unfold feed in *; rewrite foldl_snoc, <- Hd, E; (split; [done |]); rewrite Hsnoc; auto.
Qed.

(** C15 Whatever packets arrive, the invariant holds: the FEC decoder of the
    current block only ever sees packets that carry its block number, and the
    [current_block_is_decoded] flag is right. *)
Theorem decode_inv self p : inv self -> inv (decode self p).2.
Proof.
  assert (forall n, inv (try_decode (reset_current_decoder self n) p).2 \/
                    source_block_number p <> n) as Hreset.
  { intros n. destruct (decide (source_block_number p = n)) as [Hn |]; [left | by right].
    right. exists n, ([] ++ [p]). apply try_decode_decoding; auto.
    unfold decoding. cbn. auto. }
  intros [Hidle | (n & qs & Hdec)]; unfold decode.
  - rewrite Hidle. by destruct (Hreset (source_block_number p)).
  - destruct (Hdec) as (-> & _).
    destruct (Z.eqb_spec (source_block_number p) n) as [Hn | Hn];
      [| by destruct (Hreset (source_block_number p))].
    destruct (current_block_is_decoded self) eqn:Hflag; right; exists n; [by exists qs |].
    exists (qs ++ [p]). by apply try_decode_decoding.
Qed.

(** Splitting off the packets of one block. *)
Fixpoint span (n : Z) (ps : list EncodingPacket)
    : list EncodingPacket * list EncodingPacket :=
  match ps with
  | [] => ([], [])
  | p :: qs =>
    if (source_block_number p =? n)%Z
    then let (a, b) := span n qs in (p :: a, b) else ([], ps)
  end.

Lemma runs_span p ps :
  let n := source_block_number p in
  runs (p :: ps) = (n, p :: (span n ps).1) :: runs (span n ps).2.
Proof.
  revert p. induction ps as [| q ps IH]; intros p; [done |]. cbn zeta in *.
  change (runs (p :: q :: ps)) with
    (match runs (q :: ps) with
     | (n, qs) :: rs =>
       if (source_block_number p =? n)%Z then (n, p :: qs) :: rs
       else (source_block_number p, [p]) :: (n, qs) :: rs
     | [] => [(source_block_number p, [p])]
     end).
  rewrite IH. cbn [span]. rewrite (Z.eqb_sym (source_block_number q)).
  destruct (Z.eqb_spec (source_block_number p) (source_block_number q)) as [-> |].
  - by destruct (span (source_block_number q) ps).
  - cbn. by rewrite <- IH.
Qed.

Lemma decode_runs_cons oti bs p ps :
  let n := source_block_number p in
  decode_runs oti bs (p :: ps) =
    option_list (first_success (decoder_new n oti (wrap 64 bs)) (p :: (span n ps).1))
      ++ decode_runs oti bs (span n ps).2.
Proof. cbn zeta. unfold decode_runs. by rewrite runs_span. Qed.

(** What is still to come from a decoder that works on the block [n]. *)
Definition pending (self : BlockDecoder) (n : Z) (ps : list EncodingPacket)
    : list (list byte) :=
  (if current_block_is_decoded self then []
   else option_list (first_success (current_decoder self) (span n ps).1))
    ++ decode_runs (dec_config self) (dec_block_size self) (span n ps).2.

Lemma try_decode_pending self n p ps :
  current_block_id self = Some n -> current_block_is_decoded self = false ->
  (forall self, current_block_id self = Some n ->
     (decode_all self ps).1 = pending self n ps) ->
  option_list (try_decode self p).1 ++ (decode_all (try_decode self p).2 ps).1 =
    option_list (first_success (current_decoder self) (p :: (span n ps).1))
      ++ decode_runs (dec_config self) (dec_block_size self) (span n ps).2.
Proof.
  intros Hid Hflag IH. unfold try_decode. cbn [first_success].
  destruct (decoder_decode (current_decoder self) [p]) as [[v |] d]; cbn;
    (rewrite IH by done); unfold pending; cbn; by rewrite ?Hflag.
Qed.

Lemma decode_all_cons self p ps :
  (decode_all self (p :: ps)).1 =
    option_list (decode self p).1 ++ (decode_all (decode self p).2 ps).1.
Proof.
  cbn. destruct (decode self p) as [o s]. cbn. by destruct (decode_all s ps).
Qed.

Lemma decode_all_pending ps self n :
  current_block_id self = Some n -> (decode_all self ps).1 = pending self n ps.
Proof.
  revert self n. induction ps as [| p ps IH]; intros self n Hid.
  { unfold pending. cbn. by destruct (current_block_is_decoded self). }
  rewrite decode_all_cons. unfold decode, pending. rewrite Hid. cbn [span].
  destruct (Z.eqb_spec (source_block_number p) n) as [Hn | Hn].
  - destruct (current_block_is_decoded self) eqn:Hflag; cbn [fst snd option_list].
    + cbn. rewrite (IH _ _ Hid). unfold pending. rewrite Hflag.
      by destruct (span n ps).
    + rewrite (try_decode_pending _ n) by auto. by destruct (span n ps).
  - rewrite (try_decode_pending _ (source_block_number p)) by auto. cbn [fst snd].
    rewrite decode_runs_cons. cbn. by destruct (current_block_is_decoded self).
Qed.

Lemma decode_all_idle self ps :
  current_block_id self = None ->
  (decode_all self ps).1 = decode_runs (dec_config self) (dec_block_size self) ps.
Proof.
  destruct ps as [| p ps]; [done |]. intros Hid. rewrite decode_all_cons.
  unfold decode. rewrite Hid, (try_decode_pending _ (source_block_number p));
    auto using decode_all_pending. by rewrite decode_runs_cons.
Qed.

Lemma decode_stream_all self ps output :
  decode_stream self ps output =
    match send_each output (decode_all self ps).1 with
    | (Ok _, output) => (Ok tt, output)
    | (Err b, output) => (Err (SendError b), output)
    | (Panic, output) => (Panic, output)
    end.
Proof.
  revert self output. induction ps as [| p ps IH]; intros self output; [done |].
  rewrite decode_all_cons. cbn [decode_stream].
  destruct (decode self p) as [[b |] self'] eqn:E; cbn; rewrite ?E; [| by rewrite IH].
  by destruct (send output b) as [[] ?]; rewrite ?IH.
Qed.

(** C14 [decode_stream] of a new decoder is its specification: one block
    at most per maximal run of packets with one block number, decoded by a FEC
    decoder of its own, in the order of the runs; it stops at the first block
    the receiver does not take. *)
Theorem decode_stream_spec self ps output :
  current_block_id self = None ->
  let bs := decode_runs (dec_config self) (dec_block_size self) ps in
  exists output', sent output' = sent output ++ delivered output bs /\
    decode_stream self ps output =
      (match send_result output bs with
       | Ok _ => Ok tt
       | Err b => Err (SendError b)
       | Panic => Panic
       end, output').
Proof.
  intros Hid bs. destruct (send_each_spec output bs) as (output' & Hsent & Heq).
  exists output'. split; [done |]. rewrite decode_stream_all, decode_all_idle by done.
  fold bs. rewrite Heq. by destruct (send_result output bs).
Qed.
End state_machine.

(** ** Decoding what an encoder sent, over a lossy link *)

(** Neighbours differ. *)
Fixpoint adjacent_distinct {A} (l : list A) : Prop :=
  match l with
  | x :: (y :: _) as l' => x <> y /\ adjacent_distinct l'
  | _ => True
  end.

Section lossy.
Context `{L : RaptorQLaws}.

(** What arrives of a sequence of blocks: each block with the packets of it that
    were not lost, in the order they were sent. *)
Abbreviation arrival := (Block * list EncodingPacket)%type.

Definition survivors (gs : list arrival) : list arrival := filter (fun g => g.2 <> []) gs.

(** Is what arrives of a block enough for the FEC decoder? *)
Definition recoverable (oti : OTI) (g : arrival) : Prop :=
  is_Some (first_success (decoder_new (id g.1) oti (Z.of_nat (length (data g.1)))) g.2).

#[export] Instance recoverable_dec oti g : Decision (recoverable oti g).
Proof. unfold recoverable. apply _. Defined.

Lemma runs_groups (gs : list (Z * list EncodingPacket)) :
  Forall (fun g => g.2 <> [] /\ Forall (fun p => source_block_number p = g.1) g.2) gs ->
  adjacent_distinct gs.*1 ->
  runs (gs ≫= snd) = gs.
Proof using.
  induction 1 as [| [n ps] gs [Hne Hps] Hgs IH]; intros Hadj; [done |]. cbn in *.
  assert (runs (gs ≫= snd) = gs) as Hrest by (apply IH; by destruct gs; [| destruct Hadj]).
  clear IH. induction Hps as [| p ps Hp Hps IH]; [done |].
  cbn [app runs]. rewrite Hp. destruct ps as [| q ps].
  - cbn [app]. rewrite Hrest. destruct gs as [| [m qs] gs]; [done |].
    destruct Hadj as [Hnm _]. cbn in Hnm. by rewrite (proj2 (Z.eqb_neq _ _)).
  - rewrite IH by done. by rewrite Z.eqb_refl.
Qed.

Lemma survivors_concat (gs : list arrival) :
  gs ≫= snd = ((fun g => (id g.1, g.2)) <$> survivors gs) ≫= snd.
Proof using.
  unfold survivors. induction gs as [| [b r] gs IH]; [done |].
  rewrite filter_cons, bind_cons. cbn [fst snd].
  case_decide as Hr; rewrite ?fmap_cons, ?bind_cons; cbn [fst snd]; rewrite IH; [done |].
  by destruct r.
Qed.

Section encoder.
Context (e : BlockEncoder) (k : Z) (He : wf_encoder e k) (Hfit : fits 64 (block_size e)).

(** What arrives of a block: some of its packets. *)
Definition arrives (g : arrival) : Prop :=
  wf_block e g.1 /\ g.2 `sublist_of` packets_of e g.1.

Lemma arrives_genuine g :
  arrives g -> Forall (genuine (config e) (id g.1) (data g.1) k) g.2.
Proof using L He.
  intros [Hb Hr]. eapply sublist_Forall; [exact Hr | by apply packets_of_genuine].
Qed.

Lemma arrives_number g :
  arrives g -> Forall (fun p => source_block_number p = id g.1) g.2.
Proof using L He.
  intros [Hb Hr]. eapply sublist_Forall; [exact Hr | by eapply packets_of_number].
Qed.

Lemma arrives_run g : arrives g ->
  option_list (decode_run (config e) (block_size e) (id g.1, g.2)) =
    if decide (recoverable (config e) g) then [data g.1] else [].
Proof using L He Hfit.
  intros Hg. pose proof (arrives_genuine g Hg) as Hgen. destruct Hg as [[Hlen Hid] _].
  unfold decode_run. cbn [fst snd]. rewrite wrap_small, <- Hlen by done.
  case_decide as Hrec.
  - destruct Hrec as [v Hv]. rewrite Hv. eapply decode_sound in Hv; eauto;
      [by rewrite Hv | by apply (wf_supported e)].
  - apply eq_None_not_Some in Hrec. by rewrite Hrec.
Qed.

Lemma arrives_runs gs : Forall arrives gs ->
  ((fun g => (id g.1, g.2)) <$> survivors gs)
    ≫= (fun run => option_list (decode_run (config e) (block_size e) run)) =
  (fun g => data g.1) <$> filter (recoverable (config e)) gs.
Proof using L He Hfit.
  induction 1 as [| g gs Hg _ IH]; [done |]. unfold survivors in *.
  rewrite !filter_cons. pose proof (arrives_run g Hg) as Hrun.
  destruct (decide (g.2 <> [])) as [Hne | Hnil].
  - rewrite fmap_cons, bind_cons, IH, Hrun. by case_decide.
  - rewrite IH. rewrite decide_False; [done |].
    destruct g as [b [| p r]]; [by intros [? ?] | by destruct Hnil].
Qed.

Lemma arrives_complete g : arrives g ->
  source_packets (block_encoder_of (config e) (id g.1) (data g.1) k) ⊆ g.2 ->
  recoverable (config e) g.
Proof using L He.
  intros Hg Hall. pose proof (arrives_genuine g Hg). destruct Hg as [Hb _].
  unfold recoverable. erewrite decode_complete; eauto using wf_supported. apply Hb.
Qed.
End encoder.

(** Decoding, run by run, what arrives of a sequence of blocks. *)
Lemma decode_runs_arrivals e k (gs : list arrival) :
  wf_encoder e k -> fits 64 (block_size e) -> Forall (arrives e) gs ->
  adjacent_distinct ((fun g => id g.1) <$> survivors gs) ->
  decode_runs (config e) (block_size e) (gs ≫= snd) =
    (fun g => data g.1) <$> filter (recoverable (config e)) gs.
Proof using L.
  intros He Hfit Hgs Hadj. unfold decode_runs.
  rewrite survivors_concat, runs_groups; [by eapply arrives_runs | |].
  - rewrite Forall_fmap. apply Forall_forall. intros g Hin.
    apply list_elem_of_filter in Hin as [Hne Hin]. split; [done |].
    rewrite Forall_forall in Hgs. by eapply arrives_number; eauto.
  - by rewrite <- list_fmap_compose.
Qed.

(** C13 A decoder configured like the encoder, given what arrives of a
    sequence of blocks, yields exactly the recoverable blocks, each once, in
    order and unaltered; a block all of whose source packets arrive is
    recoverable.  The one condition is that blocks that follow each other at the
    decoder have different ids. *)
Theorem decode_lossy e k (gs : list arrival) self :
  wf_encoder e k -> fits 64 (block_size e) -> Forall (arrives e) gs ->
  adjacent_distinct ((fun g => id g.1) <$> survivors gs) ->
  current_block_id self = None -> dec_config self = config e ->
  dec_block_size self = block_size e ->
  (decode_all self (gs ≫= snd)).1 = (fun g => data g.1) <$> filter (recoverable (config e)) gs /\
  Forall (fun g =>
    source_packets (block_encoder_of (config e) (id g.1) (data g.1) k) ⊆ g.2 ->
    recoverable (config e) g) gs.
Proof using L.
  intros He Hfit Hgs Hadj Hidle Hcfg Hbs. split.
  - rewrite decode_all_idle, Hcfg, Hbs by done. by eapply decode_runs_arrivals.
  - eapply Forall_impl; [exact Hgs |]. intros g Hg. by eapply arrives_complete.
Qed.

(** C22 A block whose id is the one of the block decoded last is dropped
    whole: no packet of it is looked at.  This is what the first block of a new
    stream meets when its random id happens to be the last id of the stream
    before it. *)
Theorem decode_reused_id self n ps :
  current_block_id self = Some n -> current_block_is_decoded self = true ->
  Forall (fun p => source_block_number p = n) ps ->
  decode_all self ps = ([], self).
Proof using.
  intros Hid Hdone Hps. induction Hps as [| p ps Hp _ IH]; [done |].
  cbn. unfold decode. by rewrite Hid, Hp, Z.eqb_refl, Hdone, IH.
Qed.

Lemma infer_packet_size_ok bs mps e k :
  (0 < bs < 2 ^ 64)%Z -> BlockEncoder_new bs mps 1 = Ok e ->
  bs = (k * symbol_size (config e))%Z -> (k <= 56403)%Z ->
  infer_packet_size bs mps = Ok (4 + symbol_size (config e))%Z.
Proof using L.
  intros Hbs Hnew Hk Hmax. assert (repairable 1) as Hone by (unfold repairable; by_compute).
  destruct (BlockEncoder_new_wf _ _ _ _ Hbs Hone Hnew)
    as (k' & _ & He1 & He2 & Hk' & Hwf).
  pose proof (symbol_size_fits (config e)) as Hss. unfold fits in Hss.
  assert (k' = k) as -> by nia. specialize (Hwf Hmax).
  unfold infer_packet_size. rewrite Hnew. cbn [omap_err obind].
  set (b := MkBlock 1 _).
  assert (wf_block e b) as Hb.
  { split; [cbn; rewrite length_replicate; lia | split; [done | reflexivity]]. }
  rewrite (encode_wf _ _ _ Hwf Hb). cbn [omap_err obind].
  pose proof (packets_of_genuine _ _ _ Hwf Hb) as Hgen.
  pose proof (length_packets_of _ _ _ Hwf Hb) as Hlen.
  pose proof (wf_supported _ _ _ Hwf Hb) as Hsup. rewrite He2 in Hlen.
  destruct Hgen as [| p ps Hp _]; [exfalso; cbn [length] in Hlen; nia |].
  f_equal. exact (genuine_length _ _ _ _ _ (proj2 Hb) Hsup Hp).
Qed.

(** C21 The inferred packet size is the size of the packets on the wire: whatever the
    number of repair packets an encoder of the same block and packet sizes is
    configured with, and whatever block it encodes, there is a packet, and every packet
    is serialised into that many bytes, a payload id of four bytes and one symbol. *)
Theorem infer_packet_size_spec bs mps r e b :
  (0 < bs < 2 ^ 64)%Z -> repairable r -> BlockEncoder_new bs mps r = Ok e ->
  (bs <= 56403 * symbol_size (config e))%Z -> wf_block e b ->
  exists size ps, infer_packet_size bs mps = Ok size /\ encode e b = Ok ps /\ ps <> [] /\
    Forall (fun p => Z.of_nat (length (serialize p)) = size) ps /\
    size = (4 + symbol_size (config e))%Z.
Proof using L.
  intros Hbs Hr Hnew Hmax Hb.
  destruct (BlockEncoder_new_wf _ _ _ _ Hbs Hr Hnew) as (k & _ & He1 & He2 & Hk & Hwf).
  pose proof (symbol_size_fits (config e)) as Hss. unfold fits in Hss.
  assert (k <= 56403)%Z as Hk' by nia. specialize (Hwf Hk').
  destruct (BlockEncoder_new_config _ _ _ 1 _ Hnew) as (_ & e1 & Hnew1 & Hconfig).
  exists (4 + symbol_size (config e))%Z, (packets_of e b).
  rewrite <- Hconfig in Hk |- *. rewrite (infer_packet_size_ok bs mps e1 k) by done.
  split; [done |]. split; [by eapply encode_wf |]. rewrite Hconfig. split_and!; [| | done].
  - pose proof (length_packets_of _ _ _ Hwf Hb) as Hlen. intros Hnil. rewrite Hnil in Hlen.
    destruct Hwf as (_ & _ & _ & Hk1 & Hr'). unfold repairable in Hr'. cbn [length] in Hlen. lia.
  - eapply Forall_impl; [by eapply packets_of_genuine |]. intros p Hp.
    eapply genuine_length; [apply Hb | by eapply wf_supported | done].
Qed.
End lossy.

(** ** Witnesses *)
Module DecoderDemo.
Import Demo.

Definition demo_decoder : BlockDecoder (C := Repetition.code) :=
  MkBlockDecoder (C := Repetition.code) 16 (8%Z : Z) None [None; None] false.

Lemma demo_decoder_new : BlockDecoder_new (C := Repetition.code) 16 11 = Ok demo_decoder.
Proof. reflexivity. Qed.

Abbreviation demo_packets i := (packets_of (C := Repetition.code) demo_encoder (demo_block i)).

(** The first block loses a source packet, which its repair packet makes up for;
    the second loses too much; the third loses nothing. *)
Definition demo_arrivals : list (Block * list (EncodingPacket (RaptorQ := Repetition.code))) :=
  [(demo_block 7, take 2 (demo_packets 7));
   (demo_block 8, take 1 (demo_packets 8));
   (demo_block 9, demo_packets 9)].

Definition demo_received := demo_arrivals ≫= snd.

Lemma decode_inv_witness :
  inv (C := Repetition.code) (decode (C := Repetition.code) demo_decoder
    (default [] (head (demo_packets 7)))).2.
Proof. apply (decode_inv (C := Repetition.code) demo_decoder). left. reflexivity. Defined.

Lemma decode_stream_spec_witness :
  exists output', sent output' = [data (demo_block 7); data (demo_block 9)] /\
    (decode_stream (C := Repetition.code) demo_decoder demo_received (Sender [] None)).2 = output'.
Proof.
  destruct (decode_stream_spec (C := Repetition.code) demo_decoder demo_received
    (Sender [] None) eq_refl) as (output' & Hsent & Heq).
  exists output'. split; [rewrite Hsent; reflexivity | by rewrite Heq].
Defined.

Lemma decode_lossy_witness :
  (decode_all (C := Repetition.code) demo_decoder demo_received).1
    = [data (demo_block 7); data (demo_block 9)].
Proof.
  destruct (decode_lossy (C := Repetition.code) demo_encoder 2 demo_arrivals demo_decoder)
    as [Hout _].
  - exact demo_encoder_wf.
  - by_compute.
  - repeat constructor; try by_compute; apply sublist_take.
  - repeat split; discriminate.
  - reflexivity.
  - reflexivity.
  - reflexivity.
  - unfold demo_received. rewrite Hout. reflexivity.
Defined.

(** A decoder that has just decoded the block 7 is offered another block 7. *)
Lemma decode_reused_id_witness :
  let self := (decode_all (C := Repetition.code) demo_decoder (demo_packets 7)).2 in
  decode_all self (demo_packets 7) = ([], self).
Proof.
  intros self. apply (decode_reused_id (C := Repetition.code) self 7).
  - reflexivity.
  - reflexivity.
  - repeat constructor.
Defined.

Lemma infer_packet_size_spec_witness :
  exists ps, infer_packet_size (C := Repetition.code) 16 11 = Ok 12%Z /\
    encode demo_encoder (demo_block 7) = Ok ps /\ ps <> [] /\
    Forall (fun p => length (serialize p) = 12) ps.
Proof.
  destruct (infer_packet_size_spec (C := Repetition.code) 16 11 1 demo_encoder (demo_block 7))
    as (size & ps & Hsize & Hps & Hne & Hlen & ->).
  - by_compute.
  - unfold repairable. by_compute.
  - reflexivity.
  - by_compute.
  - apply demo_block_wf. by_compute.
  - exists ps. split; [exact Hsize |]. split; [exact Hps |]. split; [exact Hne |].
    eapply Forall_impl; [exact Hlen |]. intros p Hp. change (4 + symbol_size (config demo_encoder))%Z
      with 12%Z in Hp. by apply Nat2Z.inj.
Defined.
End DecoderDemo.
