(* ===== verification/Pipeline.v ===== *)
(** * Threads and bounded channels: the shape shared by the encoder and the decoder

    [start_encoding] and [start_decoding] both build the same network: a
    dispatcher thread that routes the items it reads to the queue of one of
    several workers, the worker threads, and a forwarder thread that writes what
    the workers send it into one channel.  Every channel is a [sync_channel(10)].

    The network is a step relation: a step is one action of one thread (an item
    put in a queue, taken from it, written out; a thread that ends or fails), and
    any thread that can act may act next.  A send into a full channel and a
    receive from an empty one wait, so they are steps that are not possible yet; a
    send to a dropped receiver fails; a receive ends when the channel is empty and
    every sender is dropped. *)
From stdpp Require Import prelude list relations.
From Stdlib Require Import Lia.
From S2P Require Import Prelude.

(** The bound given to [mpsc::sync_channel]. *)
Definition capacity : nat := 10.

Section pipeline.
Context {A B W : Type}.

(** [route]: the index of the queue an item goes to; [work]: what a worker does
    with an item ([None]: it fails); [faulty]: may the output stream fail? *)
Context (route : A -> nat) (work : W -> A -> option (W * list B)) (faulty : bool).

(** A worker thread: its queue, its state, what it still has to send for the item
    it has taken, and whether it is running.  What a thread held when it failed stays
    in its record, and is never looked at again. *)
Record worker := Worker {
  queue : list A;
  wstate : W;
  to_send : list B;
  alive : bool
}.

(** The network: the items the dispatcher has not read yet, whether it is running,
    the workers, the channel of the forwarder, whether it is running, and what it
    has written. *)
Record state := State {
  source : list A;
  dispatcher : bool;
  workers : list worker;
  channel : list B;
  forwarder : bool;
  out : list B
}.

(** What a worker can do, when the dispatcher runs or not ([d]) and the forwarder runs or
    not ([fw]). *)
Inductive wstep (d fw : bool) : list worker -> list B -> list worker -> list B -> Prop :=
| step_take ws ch i a q s s' bs :
    ws !! i = Some (Worker (a :: q) s [] true) -> work s a = Some (s', bs) ->
    wstep d fw ws ch (<[i := Worker q s' bs true]> ws) ch
| step_take_error ws ch i a q s :
    ws !! i = Some (Worker (a :: q) s [] true) -> work s a = None ->
    wstep d fw ws ch (<[i := Worker (a :: q) s [] false]> ws) ch
| step_send ws ch i q s b bs :
    ws !! i = Some (Worker q s (b :: bs) true) -> fw = true -> length ch < capacity ->
    wstep d fw ws ch (<[i := Worker q s bs true]> ws) (ch ++ [b])
| step_send_error ws ch i q s b bs :
    ws !! i = Some (Worker q s (b :: bs) true) -> fw = false ->
    wstep d fw ws ch (<[i := Worker q s (b :: bs) false]> ws) ch
| step_worker_end ws ch i s :
    ws !! i = Some (Worker [] s [] true) -> d = false ->
    wstep d fw ws ch (<[i := Worker [] s [] false]> ws) ch.

Inductive step : state -> state -> Prop :=
| step_dispatch a src ws ch fw o w :
    ws !! route a = Some w -> alive w = true -> length (queue w) < capacity ->
    step (State (a :: src) true ws ch fw o)
         (State src true
            (<[route a := Worker (queue w ++ [a]) (wstate w) (to_send w) true]> ws) ch fw o)
| step_dispatch_send_error a src ws ch fw o w :
    ws !! route a = Some w -> alive w = false ->
    step (State (a :: src) true ws ch fw o) (State (a :: src) false ws ch fw o)
| step_dispatch_panic a src ws ch fw o :
    ws !! route a = None ->
    step (State (a :: src) true ws ch fw o) (State (a :: src) false ws ch fw o)
| step_dispatch_end ws ch fw o :
    step (State [] true ws ch fw o) (State [] false ws ch fw o)
| step_worker src d ws ch fw o ws' ch' :
    wstep d fw ws ch ws' ch' ->
    step (State src d ws ch fw o) (State src d ws' ch' fw o)
| step_forward src d ws b ch o :
    step (State src d ws (b :: ch) true o) (State src d ws ch true (o ++ [b]))
| step_forward_error src d ws ch o :
    faulty = true ->
    step (State src d ws ch true o) (State src d ws ch false o)
| step_forward_end src d ws o :
    Forall (fun w => alive w = false) ws ->
    step (State src d ws [] true o) (State src d ws [] false o).

(** Every thread has ended. *)
Definition terminal (st : state) : Prop :=
  dispatcher st = false /\ Forall (fun w => alive w = false) (workers st) /\
  forwarder st = false.

(** The network [start_encoding] and [start_decoding] build. *)
Definition init (input : list A) (ss : list W) : state :=
  State input true ((fun s => Worker [] s [] true) <$> ss) [] true [].

(** ** No deadlock *)

Lemma worker_progress d ws ch fw i w :
  ws !! i = Some w -> alive w = true -> queue w <> [] \/ d = false ->
  (fw = true -> ch = []) ->
  exists ws' ch', wstep d fw ws ch ws' ch'.
Proof.
  intros Hw Ha Hq Hch. destruct w as [q s [| b bs] al]; cbn in *; subst al.
  - destruct q as [| a q].
    + destruct Hq as [Hq | ->]; [done |]. eexists _, _. by eapply step_worker_end.
    + destruct (work s a) as [[s' bs] |] eqn:E.
      * eexists _, _. by eapply step_take.
      * eexists _, _. by eapply step_take_error.
  - destruct fw.
    + rewrite Hch by done. eexists _, _. eapply step_send; [done | done | cbn; unfold capacity; lia].
    + eexists _, _. by eapply step_send_error.
Qed.

(** A worker can act whenever nobody else can. *)
Lemma workers_progress d ws ch fw :
  (fw = true -> ch = []) -> (d = false -> Exists (fun w => alive w = true) ws) ->
  (d = true -> exists i w, ws !! i = Some w /\ alive w = true /\ capacity <= length (queue w)) ->
  exists ws' ch', wstep d fw ws ch ws' ch'.
Proof.
  intros Hch Hsome Hfull. destruct d.
  - destruct (Hfull eq_refl) as (i & w & Hw & Ha & Hlen).
    eapply worker_progress; eauto. left. intros E. rewrite E in Hlen. cbn in Hlen.
    unfold capacity in Hlen. lia.
  - specialize (Hsome eq_refl). apply Exists_exists in Hsome as (w & Hin & Ha).
    apply list_elem_of_lookup in Hin as [i Hi]. eapply worker_progress; eauto.
Qed.

(** In any state whatever, with full or empty channels and threads that ended or
    failed, some thread can act unless they have all ended. *)
Lemma progress st : terminal st \/ exists st', step st st'.
Proof.
  destruct st as [src d ws ch fw o].
  destruct (decide (fw = true /\ ch <> [])) as [[-> Hch] | Hidle].
  { destruct ch as [| b ch]; [done |]. right. eexists. apply step_forward. }
  assert (fw = true -> ch = []) as Hch.
  { intros ->. destruct ch; [done |]. by destruct Hidle. }
  assert (forall ws' ch', wstep d fw ws ch ws' ch' ->
    exists st', step (State src d ws ch fw o) st') as Hact by (intros; eexists; by eapply step_worker).
  destruct d.
  - right. destruct src as [| a src]; [eexists; apply step_dispatch_end |].
    destruct (ws !! route a) as [w |] eqn:Hw; [| eexists; by eapply step_dispatch_panic].
    destruct (alive w) eqn:Ha; [| eexists; by eapply step_dispatch_send_error].
    destruct (decide (length (queue w) < capacity)) as [Hlt | Hge];
      [eexists; by eapply step_dispatch |].
    destruct (workers_progress true ws ch fw) as (ws' & ch' & Hstep); [done | done | | eauto].
    intros _. exists (route a), w. split_and!; [done | done | lia].
  - destruct (decide (Forall (fun w => alive w = false) ws)) as [Hdead | Hsome].
    + destruct fw; [| by left]. rewrite Hch by done. right. eexists. by apply step_forward_end.
    + right. destruct (workers_progress false ws ch fw) as (ws' & ch' & Hstep);
        [done | | done | eauto].
      intros _. apply not_Forall_Exists in Hsome; [| intros w; apply _].
      eapply Exists_impl; [exact Hsome |]. intros w. apply not_false_is_true.
Qed.

(** ** What a worker computes *)

(** The outputs of a worker for the items of its queue; it stops when it fails. *)
Fixpoint run (s : W) (l : list A) : list B :=
  match l with
  | [] => []
  | a :: l => match work s a with Some (s', bs) => bs ++ run s' l | None => [] end
  end.

(** It never fails on these items. *)
Fixpoint works (s : W) (l : list A) : Prop :=
  match l with
  | [] => True
  | a :: l => match work s a with Some (s', _) => works s' l | None => False end
  end.

(** The items that go to one worker. *)
Definition routed (i : nat) (l : list A) : list A := filter (fun a => route a = i) l.

Lemma routed_cons_eq a l : routed (route a) (a :: l) = a :: routed (route a) l.
Proof. by apply filter_cons_True. Qed.

Lemma routed_cons_ne i a l : route a <> i -> routed i (a :: l) = routed i l.
Proof. intros. by apply filter_cons_False. Qed.

(** ** Termination *)

(** A worker's share of the measure: itself, its queue, and everything it will
    still send, its share of the source included. *)
Definition worker_measure (src : list A) (i : nat) (w : worker) : nat :=
  if alive w
  then 1 + length (queue w) +
    2 * length (to_send w ++ run (wstate w) (queue w ++ routed i src))
  else 0.

Definition measure (st : state) : nat :=
  2 * length (source st) + Nat.b2n (dispatcher st) + length (channel st) +
  Nat.b2n (forwarder st) + isum (worker_measure (source st)) (workers st).

Lemma measure_update src ws i w w' :
  ws !! i = Some w ->
  isum (worker_measure src) (<[i := w']> ws) + worker_measure src i w
    = isum (worker_measure src) ws + worker_measure src i w'.
Proof. intros Hi. by apply isum_insert. Qed.

(** Reading an item moves it to the queue of its worker, whose measure grows by
    one; the other workers are not concerned. *)
Lemma measure_dispatch a src ws w :
  ws !! route a = Some w -> alive w = true ->
  isum (worker_measure src)
    (<[route a := Worker (queue w ++ [a]) (wstate w) (to_send w) true]> ws)
  = 1 + isum (worker_measure (a :: src)) ws.
Proof.
  intros Hw Ha.
  set (w' := Worker _ _ _ _).
  assert (worker_measure src (route a) w' = 1 + worker_measure (a :: src) (route a) w) as E.
  { unfold worker_measure, w'. cbn [alive queue to_send wstate]. 
    rewrite Ha, routed_cons_eq, <- app_assoc, length_app. cbn [app length]. lia. }
  enough (isum (worker_measure src) (<[route a := w']> ws)
      + worker_measure (a :: src) (route a) w
    = isum (worker_measure (a :: src)) ws + worker_measure src (route a) w') by lia.
  apply isum_insert; [done |]. intros j z Hj _. unfold worker_measure.
  by rewrite routed_cons_ne.
Qed.

Lemma worker_measure_alive src i q s p :
  worker_measure src i (Worker q s p true) =
    1 + length q + 2 * (length p + length (run s (q ++ routed i src))).
Proof. unfold worker_measure. cbn [alive queue to_send wstate]. by rewrite length_app. Qed.

Lemma worker_measure_dead src i q s p : worker_measure src i (Worker q s p false) = 0.
Proof. done. Qed.

(** Every action of a thread decreases the measure. *)
Lemma measure_decreases st st' : step st st' -> measure st' < measure st.
Proof.
  destruct 1 as [a src ws ch fw o w Hw Ha _ | | |
    | src d ws ch fw o ws' ch' Hstep | | |];
    try (destruct Hstep as [ws ch i a q s s' bs Hw Hwork | ws ch i a q s Hw Hwork
      | ws ch i q s b bs Hw -> _ | ws ch i q s b bs Hw -> | ws ch i s Hw ->]); unfold measure;
    cbn [source dispatcher channel forwarder workers Nat.b2n length];
    try match goal with
    | Hw : ws !! ?i = Some ?w |- context [<[?i := ?w']> ws] =>
      pose proof (measure_update src ws i w w' Hw) as Hm;
      rewrite ?worker_measure_alive, ?worker_measure_dead in Hm
    end; cbn [length app] in *; rewrite ?length_app; cbn [length]; try lia.
  - rewrite measure_dispatch by done. lia.
  - cbn [run] in Hm. rewrite Hwork, length_app in Hm. lia.
Qed.

(** The network can always run until every thread has ended. *)
Lemma run_to_end st : exists st', rtc step st st' /\ terminal st'.
Proof.
  remember (measure st) as n eqn:Hn. revert st Hn.
  induction n as [n IH] using lt_wf_ind. intros st ->.
  destruct (progress st) as [Hend | [st1 Hstep]]; [by exists st |].
  destruct (IH _ (measure_decreases _ _ Hstep) st1 eq_refl) as (st' & Hrun & Hend).
  exists st'. split; [by eapply rtc_l | done].
Qed.

Lemma run_bounded n st st' : nsteps step n st st' -> n <= measure st.
Proof.
  revert st. induction n as [| n IH]; intros st Hn; [lia |].
  inversion_clear Hn as [| ? ? mid ? Hstep Hrest].
  apply measure_decreases in Hstep. apply IH in Hrest. lia.
Qed.

(** C11 The network never deadlocks and always stops: in any state
    whatever, with full or empty channels and threads that ended or failed, some
    thread can act unless they have all ended, and whatever the scheduling and the
    failures it acts a bounded number of times before that. *)
Theorem terminates st :
  (terminal st \/ exists st', step st st') /\
  (forall n st', nsteps step n st st' -> n <= measure st) /\
  exists st', rtc step st st' /\ terminal st'.
Proof. eauto using progress, run_bounded, run_to_end. Qed.

(** ** Safety: what comes out *)

Section safety.
Context (input : list A) (ss : list W).

(** The outputs owed by a worker: everything it makes of the items routed to it. *)
Definition owed (i : nat) : list B :=
  match ss !! i with Some s => run s (routed i input) | None => [] end.

(** A property of each worker and of what it has sent. *)
Definition tracks (P : nat -> worker -> list B -> Prop) (ws : list worker)
  (es : list (list B)) : Prop :=
  length es = length ws /\
  forall i w e, ws !! i = Some w -> es !! i = Some e -> P i w e.

Lemma tracks_insert (P Q : nat -> worker -> list B -> Prop) ws es i w w' e' :
  tracks P ws es -> ws !! i = Some w ->
  (forall j v e, j <> i -> P j v e -> Q j v e) -> Q i w' e' ->
  tracks Q (<[i := w']> ws) (<[i := e']> es).
Proof.
  intros [Hlen HP] Hi HPQ HQ. split; [by rewrite !length_insert |].
  apply lookup_lt_Some in Hi. intros j v e. destruct (decide (i = j)) as [<- | Hne].
  - rewrite !list_lookup_insert_eq by lia. congruence.
  - rewrite !list_lookup_insert_ne by done. eauto.
Qed.

(** The same when the worker has sent nothing new. *)
Lemma tracks_update (P Q : nat -> worker -> list B -> Prop) ws es i w w' :
  tracks P ws es -> ws !! i = Some w ->
  (forall j v e, j <> i -> P j v e -> Q j v e) -> (forall e, P i w e -> Q i w' e) ->
  tracks Q (<[i := w']> ws) es.
Proof.
  intros Htr Hi HPQ HQ. pose proof Htr as [Hlen HP].
  destruct (lookup_lt_is_Some_2 es i) as [e He]; [rewrite Hlen; by eapply lookup_lt_Some |].
  rewrite <- (list_insert_id es i e He). eapply tracks_insert; eauto.
Qed.

Lemma tracks_impl (P Q : nat -> worker -> list B -> Prop) ws es :
  tracks P ws es -> (forall i w e, P i w e -> Q i w e) -> tracks Q ws es.
Proof. intros [? HP] HPQ. split; eauto. Qed.

Lemma tracks_at (P : nat -> worker -> list B -> Prop) ws es i w :
  tracks P ws es -> ws !! i = Some w -> exists e, es !! i = Some e /\ P i w e.
Proof.
  intros [Hlen HP] Hi.
  destruct (lookup_lt_is_Some_2 es i) as [e He]; [rewrite Hlen; by eapply lookup_lt_Some |].
  eauto.
Qed.

(** A worker that has sent [e], and what it would still send. *)
Definition on_track (src : list A) (i : nat) (w : worker) (e : list B) : Prop :=
  e ++ to_send w ++ run (wstate w) (queue w ++ routed i src) = owed i.

(** [es]: what each worker has sent; [m]: what has gone into the channel. *)
Definition safe (st : state) (es : list (list B)) (m : list B) : Prop :=
  interleaving es m /\
  (forwarder st = true \/ faulty = false -> m = out st ++ channel st) /\
  out st `prefix_of` m /\ tracks (on_track (source st)) (workers st) es.

(** The initial state has sent nothing. *)
Lemma safe_init : safe (init input ss) (replicate (length ss) []) [].
Proof.
  split; [apply interleaving_empty |]. split; [done |]. split; [done |].
  split; cbn [workers init]; [by rewrite length_replicate, length_fmap |].
  intros i w e. rewrite list_lookup_fmap, lookup_replicate. intros Hw [-> _].
  destruct (ss !! i) as [s |] eqn:Hs; simplify_eq/=.
  unfold on_track, owed. by rewrite Hs.
Qed.

Lemma on_track_skip a src i w e :
  i <> route a -> on_track (a :: src) i w e -> on_track src i w e.
Proof. intros. unfold on_track in *. by rewrite <- (routed_cons_ne i a src). Qed.

(** Changing a worker without changing what it owes. *)
Lemma safe_update src d ws ch fw o es m i w w' :
  safe (State src d ws ch fw o) es m -> ws !! i = Some w ->
  to_send w' ++ run (wstate w') (queue w' ++ routed i src)
  = to_send w ++ run (wstate w) (queue w ++ routed i src) ->
  safe (State src d (<[i := w']> ws) ch fw o) es m.
Proof.
  intros (Hmix & Hfw & Hout & Htr) Hw E. repeat (split; [done |]).
  eapply tracks_update; [done | done | done |]. intros e. cbn. unfold on_track.
  by rewrite E.
Qed.

(** Every action keeps the network safe. *)
Lemma step_safe st st' es m :
  step st st' -> safe st es m -> exists es' m', safe st' es' m'.
Proof.
  intros Hstep Hsafe. pose proof Hsafe as (Hmix & Hfw & Hout & Htr).
  destruct Hstep as [a src ws ch fw o w Hw Ha _ | | |
    | src d ws ch fw o ws' ch' Hstep | src d ws b ch o | src d ws ch o Hf | src d ws o _];
  try (destruct Hstep as [ws ch i a q s s' bs Hw Hwork | ws ch i a q s Hw Hwork
      | ws ch i q s b bs Hw -> _ | ws ch i q s b bs Hw -> | ws ch i s Hw ->]);
  try (exists es, m; solve [exact Hsafe | by eapply safe_update]);
  cbn [source dispatcher workers channel forwarder out] in *.
  - exists es, m. repeat (split; [done |]). eapply tracks_update; [done | done | |].
    + intros j v e Hne. by apply on_track_skip.
    + intros e. unfold on_track. rewrite routed_cons_eq. cbn. by rewrite <- app_assoc.
  - exists es, m. eapply safe_update; [done | done |]. cbn. by rewrite Hwork.
  - destruct (tracks_at _ _ _ _ _ Htr Hw) as (e & He & _).
  exists (<[i := e ++ [b]]> es), (m ++ [b]). split_and!; cbn.
    + by apply interleaving_snoc.
    + intros _. rewrite Hfw by auto. by rewrite app_assoc.
    + by apply prefix_app_r.
    + eapply tracks_insert; [done | done | done |]. destruct Htr as [_ Htr].
      specialize (Htr _ _ _ Hw He). unfold on_track in *. cbn in *.
      by rewrite <- app_assoc.
  - exists es, m. split_and!; cbn; [done | | | done]; rewrite Hfw by auto.
    + by rewrite <- app_assoc.
    + exists ch. by rewrite <- app_assoc.
  - exists es, m. split_and!; cbn; [done | intros [? | ?]; congruence | done | done].
  - exists es, m. split_and!; cbn; auto.
Qed.

Lemma run_safe st :
  rtc step (init input ss) st -> exists es m, safe st es m.
Proof.
  revert st. apply rtc_ind_r.
  - exists (replicate (length ss) []), []. apply safe_init.
  - intros st st' _ Hstep (es & m & Hsafe). by eapply step_safe.
Qed.

Lemma step_workers st st' : step st st' -> length (workers st') = length (workers st).
Proof.
  destruct 1 as [| | | | src d ws ch fw o ws' ch' Hstep | | |]; cbn; rewrite ?length_insert; try done.
  destruct Hstep; by rewrite length_insert.
Qed.

Lemma run_workers st :
  rtc step (init input ss) st -> length (workers st) = length ss.
Proof.
  revert st. apply rtc_ind_r; [apply length_fmap |].
  intros st st' _ Hstep IH. by rewrite (step_workers _ _ Hstep).
Qed.

Lemma out_safe_cases st :
  rtc step (init input ss) st ->
  exists es m, interleaving es m /\ out st `prefix_of` m /\ length es = length ss /\
  forall i s e, ss !! i = Some s -> es !! i = Some e ->
      e `prefix_of` run s (routed i input).
Proof.
  intros Hrun. destruct (run_safe _ Hrun) as (es & m & Hmix & _ & Hout & Hlen & Htr).
  rewrite (run_workers _ Hrun) in Hlen. exists es, m. repeat (split; [done |]).
  intros i s e Hs He.
  destruct (lookup_lt_is_Some_2 (workers st) i) as [w Hw];
  [rewrite (run_workers _ Hrun); by eapply lookup_lt_Some |].
  specialize (Htr _ _ _ Hw He). unfold on_track, owed in Htr. rewrite Hs in Htr.
  rewrite <- Htr. by apply prefix_app_r.
Qed.

(** C12 At every moment of every run, failures included, what has been written out
  is the beginning of an interleaving of streams, one per worker, each of which
  is the beginning of what that worker makes of the items routed to it, in the
  order they were read: nothing is duplicated, invented, or reordered within a
  worker. *)
Theorem out_safe st :
  rtc step (init input ss) st ->
  exists es m, interleaving es m /\ out st `prefix_of` m /\ length es = length ss /\
  forall i s e, ss !! i = Some s -> es !! i = Some e ->
      e `prefix_of` run s (routed i input).
Proof. apply out_safe_cases. Qed.

(** When nothing fails, a worker stops only when it has nothing more to do... *)
Definition orderly_worker (src : list A) (d : bool) (i : nat) (w : worker) : Prop :=
  if alive w then works (wstate w) (queue w ++ routed i src)
  else d = false /\ queue w = [] /\ to_send w = [].

(** ... the dispatcher at the end of the input, the forwarder after the workers. *)
Definition orderly (st : state) : Prop :=
  (dispatcher st = false -> source st = []) /\
  Forall (fun a => route a < length (workers st)) (source st) /\
  (forwarder st = false -> channel st = [] /\ Forall (fun w => alive w = false) (workers st)) /\
  forall i w, workers st !! i = Some w -> orderly_worker (source st) (dispatcher st) i w.

Lemma orderly_update src d ws ch fw o i w w' ch' o' :
  orderly (State src d ws ch fw o) -> ws !! i = Some w -> alive w = true ->
  (fw = false -> ch' = ch) -> orderly_worker src d i w' ->
  orderly (State src d (<[i := w']> ws) ch' fw o').
Proof.
  intros (Hsrc & Hroute & Hend & Hws) Hw Ha Hch Hw'. split_and!; cbn in *; [done | | |].
  - by rewrite length_insert.
  - intros ->. destruct (Hend eq_refl) as [_ Hdead].
  eapply Forall_lookup_1 in Hdead; [| done]. congruence.
  - intros j v. destruct (decide (i = j)) as [<- | Hne].
    + rewrite list_lookup_insert_eq by (by eapply lookup_lt_Some). by intros [= <-].
    + rewrite list_lookup_insert_ne by done. apply Hws.
Qed.

Lemma step_orderly st st' :
  faulty = false -> step st st' -> orderly st -> orderly st'.
Proof.
  intros Hok Hstep Hst. pose proof Hst as (Hsrc & Hroute & Hend & Hws).
  destruct Hstep as [a src ws ch fw o w Hw Ha _ | a src ws ch fw o w Hw Ha
  | a src ws ch fw o Hw | ws ch fw o
  | src d ws ch fw o ws' ch' Hstep | src d ws b ch o | src d ws ch o Hf | src d ws o Hdead];
  try (destruct Hstep as [ws ch i a q s s' bs Hw Hwork | ws ch i a q s Hw Hwork
      | ws ch i q s b bs Hw -> _ | ws ch i q s b bs Hw -> | ws ch i s Hw ->]);
  cbn [source dispatcher workers channel forwarder out] in *;
  try (pose proof (Hws _ _ Hw) as Hi; unfold orderly_worker in Hi;
      cbn [alive wstate queue app] in Hi).
  - rewrite Ha, routed_cons_eq in Hi. inversion_clear Hroute.
  split_and!; cbn; rewrite ?length_insert; [done | done | |].
    + intros E. destruct (Hend E) as [_ Hdead].
      eapply Forall_lookup_1 in Hdead; [| done]. congruence.
    + intros j v. destruct (decide (route a = j)) as [<- | Hne].
      * rewrite list_lookup_insert_eq by (by eapply lookup_lt_Some). intros [= <-].
        unfold orderly_worker. cbn. by rewrite <- app_assoc.
      * rewrite list_lookup_insert_ne by done. intros Hv. specialize (Hws _ _ Hv).
        unfold orderly_worker in *. by rewrite routed_cons_ne in Hws.
  - rewrite Ha in Hi. by destruct Hi.
  - inversion_clear Hroute as [| ? ? Hlt _]. apply lookup_ge_None in Hw. lia.
  - split_and!; cbn; try done. intros i w Hw. specialize (Hws _ _ Hw).
  unfold orderly_worker in *. destruct (alive w); [done |]. by destruct Hws.
  - eapply orderly_update; [done | done | done | done |]. unfold orderly_worker.
  cbn in *. by rewrite Hwork in Hi.
  - cbn in Hi. by rewrite Hwork in Hi.
  - by eapply orderly_update.
  - destruct (Hend eq_refl) as [_ Hdead].
  by pose proof (Forall_lookup_1 _ _ _ _ Hdead Hw).
  - by eapply orderly_update.
  - split_and!; try done.
  - congruence.
  - split_and!; try done.
Qed.

Lemma init_orderly :
  Forall (fun a => route a < length ss) input ->
  (forall i s, ss !! i = Some s -> works s (routed i input)) ->
  orderly (init input ss).
Proof.
  intros Hroute Hworks. split_and!; cbn; [done | by rewrite length_fmap | done |].
  intros i w. rewrite list_lookup_fmap. destruct (ss !! i) as [s |] eqn:Hs; intros [= <-].
  by apply Hworks.
Qed.

Lemma run_orderly st :
  faulty = false -> orderly (init input ss) -> rtc step (init input ss) st -> orderly st.
Proof.
  intros Hf Hinit. revert st. apply rtc_ind_r; [done |].
  intros st st' _ Hstep IH. by eapply step_orderly.
Qed.

Lemma out_exact_cases st :
  faulty = false -> Forall (fun a => route a < length ss) input ->
  (forall i s, ss !! i = Some s -> works s (routed i input)) ->
  rtc step (init input ss) st -> terminal st ->
  source st = [] /\ interleaving (imap (fun i s => run s (routed i input)) ss) (out st).
Proof.
  intros Hf Hroute Hworks Hrun (Hd & Hdead & Hfw).
  destruct (run_orderly _ Hf (init_orderly Hroute Hworks) Hrun) as (Hsrc & _ & Hend & Hws).
  specialize (Hsrc Hd). destruct (Hend Hfw) as [Hch _]. split; [done |].
  destruct (run_safe _ Hrun) as (es & m & Hmix & Hm & _ & Hlen & Htr).
  rewrite Hm, Hch, app_nil_r in Hmix by auto. rewrite (run_workers _ Hrun) in Hlen.
  replace (imap _ ss) with es; [done |]. apply list_eq. intros i.
  rewrite list_lookup_imap.
  destruct (ss !! i) as [s |] eqn:Hs; cbn;
  [| apply lookup_ge_None; apply lookup_ge_None in Hs; lia].
  destruct (lookup_lt_is_Some_2 (workers st) i) as [w Hw];
  [rewrite (run_workers _ Hrun); by eapply lookup_lt_Some |].
  destruct (lookup_lt_is_Some_2 es i) as [e He];
  [rewrite Hlen; by eapply lookup_lt_Some |].
  specialize (Htr _ _ _ Hw He). specialize (Hws _ _ Hw).
  unfold on_track, owed in Htr. unfold orderly_worker in Hws. rewrite Hs in Htr.
  rewrite (Forall_lookup_1 _ _ _ _ Hdead Hw) in Hws. destruct Hws as (_ & Hq & Hts).
  rewrite Hq, Hts, Hsrc in Htr. cbn in Htr. rewrite app_nil_r in Htr. congruence.
Qed.

(** When the output does not fail, every item goes to a worker and no worker
  fails, a run that has ended, however it was scheduled, has read all the input
  and written out an interleaving of everything the workers make of their items. *)
Theorem out_exact st :
  faulty = false -> Forall (fun a => route a < length ss) input ->
  (forall i s, ss !! i = Some s -> works s (routed i input)) ->
  rtc step (init input ss) st -> terminal st ->
  source st = [] /\ interleaving (imap (fun i s => run s (routed i input)) ss) (out st).
Proof. apply out_exact_cases. Qed.
End safety.
End pipeline.

(** ** Witnesses *)
Module PipelineDemo.
(** Two workers, by parity, that send each item twice and fail at 7. *)
Definition demo_route (a : nat) : nat := a mod 2.
Definition demo_work (s : unit) (a : nat) : option (unit * list nat) :=
  if decide (a = 7) then None else Some (s, [a; a]).

Abbreviation demo_step faulty := (step demo_route demo_work faulty).

(** The item 4 is taken and written out once; then the output fails. *)
Lemma out_safe_witness :
  exists st, rtc (demo_step true) (init [4; 7; 6] [tt; tt]) st /\ out st = [4] /\
    exists es m, interleaving es m /\ [4] `prefix_of` m /\ length es = 2 /\
      forall i s e, [tt; tt] !! i = Some s -> es !! i = Some e ->
        e `prefix_of` run demo_work s (routed demo_route i [4; 7; 6]).
Proof.
  set (st := State [7; 6] true [Worker [] tt [] true; Worker [] tt [] true] [4] false [4]).
  assert (rtc (demo_step true) (init [4; 7; 6] [tt; tt]) st) as Hrun.
  { eapply rtc_l; [by eapply (step_dispatch _ _ _ 4 _ _ _ _ _ (Worker [] tt [] true));
      [.. | cbn; unfold capacity; lia] |]. cbn.
    eapply rtc_l; [by eapply step_worker, (step_take _ _ _ _ _ 0 4 [] tt tt [4; 4]) |]. cbn.
    eapply rtc_l; [by eapply step_worker, (step_send _ _ _ _ _ 0 [] tt 4 [4]);
      [.. | cbn; unfold capacity; lia] |]. cbn.
    eapply rtc_l; [by eapply step_worker, (step_send _ _ _ _ _ 0 [] tt 4 []);
      [.. | cbn; unfold capacity; lia] |]. cbn.
    eapply rtc_l; [apply step_forward |]. cbn.
    eapply rtc_l; [by apply step_forward_error |]. apply rtc_refl. }
  exists st. split; [exact Hrun |]. split; [reflexivity |].
  exact (out_safe demo_route demo_work true [4; 7; 6] [tt; tt] st Hrun).
Defined.

Lemma out_exact_witness :
  exists st, rtc (demo_step false) (init [1; 2; 3] [tt; tt]) st /\ terminal st /\
    source st = [] /\ interleaving [[2; 2]; [1; 1; 3; 3]] (out st).
Proof.
  destruct (run_to_end demo_route demo_work false (init [1; 2; 3] [tt; tt]))
    as (st & Hrun & Hend).
  exists st. split; [exact Hrun |]. split; [exact Hend |].
  apply (out_exact demo_route demo_work false [1; 2; 3] [tt; tt] st); try done.
  - repeat constructor.
  - intros [| [| i]] s Hs; [done.. |]. by destruct i.
Defined.
End PipelineDemo.
