(* ===== verification/Dispatch.v ===== *)
(** * Reading records and routing them: what the two dispatchers share

    [BlockDispatcher::dispatch] and [PacketDispatcher::dispatch] both cut their
    input into records of one size and send each to the queue its number names,
    modulo the number of queues. *)
From stdpp Require Import prelude list.
From Stdlib Require Import ZArith Lia.
From S2P Require Import Prelude Io Bytes Chan.

(** The complete records of [n] bytes at the front of a stream. *)
Definition records {A} (n : nat) (l : list A) : list (list A) :=
  chunks n (length l / n) l.

Section records.
Context {A : Type} (n : nat) (Hn : 0 < n).
Implicit Types (l : list A).

Lemma records_short l : length l < n -> records n l = [].
Proof using. intros Hl. unfold records. by rewrite Nat.div_small. Qed.

Lemma records_cons l :
  n <= length l -> records n l = take n l :: records n (drop n l).
Proof using Hn.
  intros Hl. unfold records. rewrite length_drop.
  replace (length l) with ((length l - n) + 1 * n) at 1 by lia.
  rewrite Nat.div_add, Nat.add_1_r by lia. done.
Qed.

Lemma records_lengths l : Forall (fun c => length c = n) (records n l).
Proof using. apply chunks_lengths, Nat.Div0.mul_div_le. Qed.

Lemma length_records l : length (records n l) = length l / n.
Proof using. apply length_chunks. Qed.

(** What a stream of whole records is cut into. *)
Lemma records_concat (ls : list (list A)) rest :
  Forall (fun c => length c = n) ls -> length rest < n ->
  records n (concat ls ++ rest) = ls.
Proof using Hn.
  intros Hls Hrest. unfold records.
  replace (length (concat ls ++ rest) / n) with (length ls); [by apply chunks_concat |].
  rewrite length_app. assert (length (concat ls) = length ls * n) as ->.
  { induction Hls; cbn; rewrite ?length_app; lia. }
  rewrite Nat.div_add_l, Nat.div_small by lia. lia.
Qed.

(** More of the stream only adds records. *)
Lemma records_prefix l k : records n l `prefix_of` records n (l ++ k).
Proof using Hn.
  remember (length l) as m eqn:Hm. revert l Hm.
  induction m as [m IH] using lt_wf_ind. intros l ->.
  destruct (decide (n <= length l)) as [Hle | Hlt].
  - rewrite (records_cons l), (records_cons (l ++ k)) by (rewrite ?length_app; lia).
    rewrite take_app_le, drop_app_le by done. apply prefix_cons.
    apply (IH (length (drop n l))); [rewrite length_drop; lia | done].
  - rewrite records_short by lia. apply prefix_nil.
Qed.
End records.

Section route.
Context {X : Type} (key : X -> Z).
Implicit Types (x : X) (xs : list X) (qs : list (sender X)).

(** [key x as usize % n]. *)
Definition slot (n : nat) (x : X) : nat := Z.to_nat (key x mod Z.of_nat n).

(** [queues[key x as usize % queues.len()].send(x)]: with no queue, the remainder
    panics. *)
Definition route_one qs x : outcome X unit * list (sender X) :=
  match qs !! slot (length qs) x with
  | None => (Panic, qs)
  | Some q => let (res, q) := send q x in (res, <[slot (length qs) x := q]> qs)
  end.

Fixpoint route_each qs xs : outcome X unit * list (sender X) :=
  match xs with
  | [] => (Ok tt, qs)
  | x :: xs =>
    match route_one qs x with
    | (Ok _, qs) => route_each qs xs
    | (Err e, qs) => (Err e, qs)
    | (Panic, qs) => (Panic, qs)
    end
  end.

Lemma slot_bound n x : 0 < n -> slot n x < n.
Proof.
  intros Hn. unfold slot. pose proof (Z.mod_pos_bound (key x) (Z.of_nat n)). lia.
Qed.

(** The items of [xs] that go to the queue [i] of [n]. *)
Definition share (n i : nat) xs : list X := filter (fun x => slot n x = i) xs.

#[local] Arguments share : simpl never.

(** A queue after it was sent the items [xs]. *)
Definition after (q : sender X) xs : sender X :=
  Sender (sent q ++ xs) ((fun m => m - length xs) <$> lifetime q).

(** The queues after [xs] was routed to them without failure. *)
Definition routed_to qs xs : list (sender X) :=
  imap (fun i q => after q (share (length qs) i xs)) qs.

(** The receiver of [x] is gone once the items [xs] were routed. *)
Definition refused qs xs x : Prop :=
  exists q, qs !! slot (length qs) x = Some q /\
    lifetime q = Some (length (share (length qs) (slot (length qs) x) xs)).

Lemma after_app q xs ys : after (after q xs) ys = after q (xs ++ ys).
Proof.
  unfold after. cbn. rewrite <- app_assoc, length_app. f_equal.
  destruct (lifetime q); cbn; [f_equal; lia | done].
Qed.

Lemma length_routed_to qs xs : length (routed_to qs xs) = length qs.
Proof. apply length_imap. Qed.

Lemma routed_to_nil qs : routed_to qs [] = qs.
Proof.
  apply list_eq. intros i. unfold routed_to. rewrite list_lookup_imap.
  destruct (qs !! i) as [[out [n |]] |]; cbn; [| | done];
    unfold after; cbn; rewrite app_nil_r; [by rewrite Nat.sub_0_r | done].
Qed.

Lemma routed_to_app qs xs ys : routed_to (routed_to qs xs) ys = routed_to qs (xs ++ ys).
Proof.
  apply list_eq. intros i. unfold routed_to. rewrite length_imap, !list_lookup_imap.
  destruct (qs !! i) as [q |]; cbn; [| done].
  by rewrite after_app; unfold share; rewrite filter_app.
Qed.

Lemma route_one_ok qs x q :
  qs !! slot (length qs) x = Some q -> outlives q 1 ->
  route_one qs x = (Ok tt, routed_to qs [x]).
Proof.
  intros Hq Hlife. unfold route_one. rewrite Hq.
  assert (send q x = (Ok tt, after q [x])) as ->.
  { unfold send, after, outlives in *. destruct (lifetime q) as [[| n] |]; cbn; [lia | | done].
    by rewrite Nat.sub_0_r. }
  assert (forall i, share (length qs) i [x] = if decide (slot (length qs) x = i) then [x] else [])
    as Hshare by (intros i; unfold share; by rewrite filter_cons).
  f_equal. apply list_eq. intros i. unfold routed_to. rewrite list_lookup_imap.
  destruct (decide (slot (length qs) x = i)) as [<- | Hne].
  - rewrite list_lookup_insert_eq by (by eapply lookup_lt_Some). rewrite Hq. cbn.
    by rewrite Hshare, decide_True.
  - rewrite list_lookup_insert_ne by done. destruct (qs !! i) as [[out lf] |]; cbn; [| done].
    rewrite Hshare, decide_False by done. unfold after. cbn. rewrite app_nil_r.
    destruct lf; cbn; by rewrite ?Nat.sub_0_r.
Qed.

(** What routing [xs] may come to: everything was accepted, or the first item whose
    receiver is gone came back, after the items before it. *)
Inductive routes qs xs : outcome X unit -> list (sender X) -> Prop :=
| routes_all : routes qs xs (Ok tt) (routed_to qs xs)
| routes_refused ys x zs :
    xs = ys ++ x :: zs -> refused qs ys x -> routes qs xs (Err x) (routed_to qs ys).

Lemma route_one_gone qs x q :
  qs !! slot (length qs) x = Some q -> ~ outlives q 1 -> route_one qs x = (Err x, qs).
Proof.
  intros Hq Hlife. unfold route_one, send. rewrite Hq.
  unfold outlives in Hlife. destruct (lifetime q) as [[| n] |]; [| lia | done].
  by rewrite list_insert_id.
Qed.

Lemma routes_cons qs x xs res qs' q :
  qs !! slot (length qs) x = Some q -> outlives q 1 ->
  routes (routed_to qs [x]) xs res qs' -> routes qs (x :: xs) res qs'.
Proof.
  intros Hq Hlife Hr. destruct Hr as [| ys y zs -> (q' & Hq' & Hl)].
  - rewrite routed_to_app. constructor.
  - rewrite routed_to_app. rewrite length_routed_to in *.
    eapply (routes_refused qs (x :: ys ++ y :: zs) (x :: ys)); [done |].
    unfold routed_to in Hq'. rewrite list_lookup_imap in Hq'. unfold refused.
    destruct (qs !! slot (length qs) y) as [q0 |] eqn:Hq0; simplify_eq/=.
    exists q0. split; [done |]. unfold share in *. rewrite filter_cons in *. cbn in Hl.
    destruct (lifetime q0) as [m |] eqn:Hm; simplify_eq/=. f_equal.
    case_decide as Hs; cbn in *; [| lia].
    rewrite Hs in Hq. assert (q0 = q) as -> by congruence.
    unfold outlives in Hlife. rewrite Hm in Hlife. lia.
Qed.

Lemma route_each_spec qs xs :
  0 < length qs -> exists res qs', route_each qs xs = (res, qs') /\ routes qs xs res qs'.
Proof.
  revert qs. induction xs as [| x xs IH]; intros qs Hqs.
  - exists (Ok tt), qs. split; [done |]. rewrite <- (routed_to_nil qs) at 2. constructor.
  - destruct (lookup_lt_is_Some_2 qs (slot (length qs) x)) as [q Hq]; [by apply slot_bound |].
    cbn [route_each]. destruct (decide (outlives q 1)) as [Hlife | Hgone].
    + rewrite (route_one_ok _ _ _ Hq Hlife).
      destruct (IH (routed_to qs [x])) as (res & qs' & Hr & Hspec);
        [by rewrite length_routed_to |].
      exists res, qs'. split; [done |]. by eapply routes_cons.
    + rewrite (route_one_gone _ _ _ Hq Hgone). exists (Err x), qs. split; [done |].
      rewrite <- (routed_to_nil qs) at 2. eapply (routes_refused _ _ []); [done |].
      exists q. split; [done |]. unfold outlives in Hgone. cbn.
      destruct (lifetime q) as [[| n] |]; [done | lia | done].
Qed.

(** When every receiver outlives the routing, everything is accepted. *)
Lemma routes_live qs xs res qs' :
  routes qs xs res qs' -> Forall (fun q => lifetime q = None) qs ->
  res = Ok tt /\ qs' = routed_to qs xs.
Proof.
  destruct 1 as [| ys x zs _ (q & Hq & Hl)]; [done |]. intros Hlive.
  eapply Forall_lookup_1 in Hlive; [| done]. congruence.
Qed.
(** The shares of the queues. *)
Definition shares (n : nat) xs : list (list X) := (fun i => share n i xs) <$> seq 0 n.

Lemma share_cons n i x xs :
  share n i (x :: xs) = (if decide (slot n x = i) then [x] else []) ++ share n i xs.
Proof. unfold share. rewrite filter_cons. by case_decide. Qed.

Lemma shares_lookup n xs i : i < n -> shares n xs !! i = Some (share n i xs).
Proof. intros Hi. unfold shares. by rewrite list_lookup_fmap, lookup_seq_lt. Qed.

Lemma length_shares n xs : length (shares n xs) = n.
Proof. unfold shares. by rewrite length_fmap, length_seq. Qed.

Lemma share_Forall (P : X -> Prop) n i xs : Forall P xs -> Forall P (share n i xs).
Proof.
  rewrite !Forall_forall. intros HP x [_ Hx]%list_elem_of_filter. by apply HP.
Qed.

(** Merging the shares can give the items back in their order. *)
Lemma shares_interleaving n xs : 0 < n -> interleaving (shares n xs) xs.
Proof.
  intros Hn. induction xs as [| x xs IH].
  - constructor. apply Forall_fmap, Forall_forall. done.
  - pose proof (slot_bound n x Hn) as Hlt.
    apply interleaving_cons with (i := slot n x) (xs := share n (slot n x) xs).
    + by rewrite shares_lookup, share_cons, decide_True.
    + replace (<[_ := _]> _) with (shares n xs); [done |].
      apply list_eq. intros i. destruct (decide (i < n)) as [Hi | Hi].
      * rewrite shares_lookup by done. destruct (decide (slot n x = i)) as [<- | Hne].
        -- rewrite list_lookup_insert_eq; [done |]. by rewrite length_shares.
        -- by rewrite list_lookup_insert_ne, shares_lookup, share_cons, decide_False.
      * rewrite !lookup_ge_None_2; rewrite ?length_insert, ?length_shares; try done; lia.
Qed.

Lemma shares_Permutation n xs : 0 < n -> concat (shares n xs) ≡ₚ xs.
Proof. intros Hn. symmetry. by apply interleaving_Permutation, shares_interleaving. Qed.
End route.

Lemma imap_replicate {A B} (f : nat -> A -> B) n x :
  imap f (replicate n x) = (fun i => f i x) <$> seq 0 n.
Proof.
  apply list_eq. intros i. rewrite list_lookup_imap, list_lookup_fmap.
  destruct (decide (i < n)) as [Hi | Hi].
  - by rewrite lookup_replicate_2, lookup_seq_lt.
  - by rewrite !lookup_ge_None_2 by (rewrite ?length_replicate, ?length_seq; lia).
Qed.

(** What all the workers make of their shares is, up to the order, what is made of
    the whole. *)
Lemma shares_bind {A B} (key : A -> Z) (f : A -> list B) n xs :
  0 < n -> concat ((fun i => share key n i xs ≫= f) <$> seq 0 n) ≡ₚ xs ≫= f.
Proof.
  intros Hn. transitivity (concat (shares key n xs) ≫= f); [| by rewrite shares_Permutation].
  unfold shares. apply reflexive_eq. generalize (seq 0 n). intros js.
  induction js as [| j js IH]; [done |]. rewrite !fmap_cons. cbn [concat].
  by rewrite bind_app, IH.
Qed.
