(* ===== verification/Machine.v ===== *)
(** * The threads down to their reads and writes

    [Pipeline] takes the dispatcher's input as a list of items and the forwarder's
    output as a list of results.  Here the dispatcher thread runs the loop of
    [read_exact] on a reader, one call of [read] or one load of the stop flag at a
    time, and the forwarder thread the loop of [write_all] on a writer; the flag may
    be set at any moment.  [simulation] shows that the network of [Pipeline] is what
    these threads implement, whatever the reader delivers and whenever they are
    stopped; [machine_stops] that they end unless bytes arrive again and again;
    [busy_for_ever] that they go on when bytes never stop arriving. *)
From stdpp Require Import prelude list relations.
From Stdlib Require Import Lia.
From S2P Require Import Prelude Io Dispatch Pipeline.

(** ** What the reader promises

    [supply r] are the bytes [r] delivers before it ends or fails; after an error at
    which [read_exact] tries again it still has them. *)
Class Feed (R : Type) `{Reader R} := {
  supply : R -> list byte;
  feed_some r n b bs r' :
    0 < n -> read r n = (ReadOk (b :: bs), r') ->
    length (b :: bs) <= n /\ supply r = (b :: bs) ++ supply r';
  feed_none r n r' : 0 < n -> read r n = (ReadOk [], r') -> supply r = [];
  feed_retry r n e r' :
    0 < n -> read r n = (ReadErr e, r') -> retryable e = true -> supply r' = supply r;
  feed_fail r n e r' :
    0 < n -> read r n = (ReadErr e, r') -> retryable e = false -> supply r = []
}.

Section machine.
Context {A B W D R V : Type} `{Reader R, Writer V}.

(** [size]: the length of the dispatcher's buffer; [item]: what it makes of a full
    buffer, from the state [D] it keeps (the encoder's block number); [encode]: the
    bytes the forwarder writes. *)
Context (route : A -> nat) (work : W -> A -> option (W * list B)).
Context (size : nat) (item : D -> list byte -> A * D) (encode : B -> list byte).

Abbreviation pool := (list (worker (A := A) (B := B) (W := W))).

(** Where the dispatcher is: in the loop of [read_exact], about to read or, after an
    error, to load the flag; sending an item; or at its end, with the item whose
    queue was closed or missing. *)
Inductive dispatching :=
| Filling (filled buf : list byte)
| Checking (filled buf : list byte)
| Sending (a : A) (d : D)
| Ended (unsent : list A).

(** Where the forwarder is: at [recv]; in [write_all] with what is left to write; or
    at its end, with what was left. *)
Inductive forwarding :=
| Waiting
| Writing (buf : list byte)
| Closed (unwritten : list byte).

Record dispatcher_thread := DispatcherThread {
  input : R;
  numbering : D;
  dispatching_at : dispatching;
  dispatched : list A
}.

Record forwarder_thread := ForwarderThread {
  forwarding_at : forwarding;
  output : V;
  taken : list B
}.

Record machine := Machine {
  dthread : dispatcher_thread;
  should_stop : bool;
  mworkers : pool;
  mchannel : list B;
  fthread : forwarder_thread
}.

(** The dispatcher thread: [read_exact] and the body of [dispatch]. *)
Inductive dstep (stop : bool) (ws : pool)
    : dispatcher_thread -> dispatcher_thread -> pool -> Prop :=
| d_eof r r' n f c buf h :
    read r (length (c :: buf)) = (ReadOk [], r') ->
    dstep stop ws (DispatcherThread r n (Filling f (c :: buf)) h)
      (DispatcherThread r' n (Ended []) h) ws
| d_read r r' n f c buf h b bs :
    read r (length (c :: buf)) = (ReadOk (b :: bs), r') ->
    length (b :: bs) <= length (c :: buf) ->
    dstep stop ws (DispatcherThread r n (Filling f (c :: buf)) h)
      (DispatcherThread r' n
         (Filling (f ++ b :: bs) (drop (length (b :: bs)) (c :: buf))) h) ws
| d_overrun r r' n f c buf h b bs :
    read r (length (c :: buf)) = (ReadOk (b :: bs), r') ->
    length (c :: buf) < length (b :: bs) ->
    dstep stop ws (DispatcherThread r n (Filling f (c :: buf)) h)
      (DispatcherThread r' n (Ended []) h) ws
| d_retry r r' n f c buf h e :
    read r (length (c :: buf)) = (ReadErr e, r') -> retryable e = true ->
    dstep stop ws (DispatcherThread r n (Filling f (c :: buf)) h)
      (DispatcherThread r' n (Checking f (c :: buf)) h) ws
| d_error r r' n f c buf h e :
    read r (length (c :: buf)) = (ReadErr e, r') -> retryable e = false ->
    dstep stop ws (DispatcherThread r n (Filling f (c :: buf)) h)
      (DispatcherThread r' n (Ended []) h) ws
| d_load_stop r n f buf h :
    stop = true ->
    dstep stop ws (DispatcherThread r n (Checking f buf) h)
      (DispatcherThread r n (Ended []) h) ws
| d_load_go r n f buf h :
    stop = false ->
    dstep stop ws (DispatcherThread r n (Checking f buf) h)
      (DispatcherThread r n (Filling f buf) h) ws
| d_full r n f h a n' :
    item n f = (a, n') ->
    dstep stop ws (DispatcherThread r n (Filling f []) h)
      (DispatcherThread r n (Sending a n') h) ws
| d_send r n a n' h w :
    ws !! route a = Some w -> alive w = true -> length (queue w) < capacity ->
    dstep stop ws (DispatcherThread r n (Sending a n') h)
      (DispatcherThread r n' (Filling [] (replicate size x00)) (h ++ [a]))
      (<[route a := Worker (queue w ++ [a]) (wstate w) (to_send w) true]> ws)
| d_send_error r n a n' h w :
    ws !! route a = Some w -> alive w = false ->
    dstep stop ws (DispatcherThread r n (Sending a n') h)
      (DispatcherThread r n (Ended [a]) h) ws
| d_panic r n a n' h :
    ws !! route a = None ->
    dstep stop ws (DispatcherThread r n (Sending a n') h)
      (DispatcherThread r n (Ended [a]) h) ws.

(** The forwarder thread: [forward_packets] or [forward_blocks], and [write_all]. *)
Inductive fstep (ws : pool)
    : forwarder_thread -> list B -> forwarder_thread -> list B -> Prop :=
| f_recv b ch v o :
    fstep ws (ForwarderThread Waiting v o) (b :: ch)
      (ForwarderThread (Writing (encode b)) v (o ++ [b])) ch
| f_end v o :
    Forall (fun w => alive w = false) ws ->
    fstep ws (ForwarderThread Waiting v o) [] (ForwarderThread (Closed []) v o) []
| f_written v o ch :
    fstep ws (ForwarderThread (Writing []) v o) ch (ForwarderThread Waiting v o) ch
| f_write c buf v v' o ch n :
    write v (c :: buf) = (WriteOk (S n), v') -> S n <= length (c :: buf) ->
    fstep ws (ForwarderThread (Writing (c :: buf)) v o) ch
      (ForwarderThread (Writing (drop (S n) (c :: buf))) v' o) ch
| f_zero c buf v v' o ch :
    write v (c :: buf) = (WriteOk 0, v') ->
    fstep ws (ForwarderThread (Writing (c :: buf)) v o) ch
      (ForwarderThread (Closed (c :: buf)) v' o) ch
| f_overrun c buf v v' o ch n :
    write v (c :: buf) = (WriteOk n, v') -> length (c :: buf) < n ->
    fstep ws (ForwarderThread (Writing (c :: buf)) v o) ch
      (ForwarderThread (Closed (c :: buf)) v' o) ch
| f_interrupted c buf v v' o ch :
    write v (c :: buf) = (WriteErr Interrupted, v') ->
    fstep ws (ForwarderThread (Writing (c :: buf)) v o) ch
      (ForwarderThread (Writing (c :: buf)) v' o) ch
| f_error c buf v v' o ch e :
    write v (c :: buf) = (WriteErr e, v') -> e <> Interrupted ->
    fstep ws (ForwarderThread (Writing (c :: buf)) v o) ch
      (ForwarderThread (Closed (c :: buf)) v' o) ch.

(** A thread has not ended. *)
Definition reading (t : dispatcher_thread) : bool :=
  match dispatching_at t with Ended _ => false | _ => true end.
Definition writing (t : forwarder_thread) : bool :=
  match forwarding_at t with Closed _ => false | _ => true end.

(** Any thread may act next, and [stop] may be called. *)
Inductive mstep : machine -> machine -> Prop :=
| m_dispatcher d d' s ws ws' ch f :
    dstep s ws d d' ws' -> mstep (Machine d s ws ch f) (Machine d' s ws' ch f)
| m_worker d s ws ch ws' ch' f :
    wstep work (reading d) (writing f) ws ch ws' ch' ->
    mstep (Machine d s ws ch f) (Machine d s ws' ch' f)
| m_forwarder d s ws ch ch' f f' :
    fstep ws f ch f' ch' -> mstep (Machine d s ws ch f) (Machine d s ws ch' f')
| m_stop d ws ch f : mstep (Machine d false ws ch f) (Machine d true ws ch f).

(** The threads as [start_encoding] and [start_decoding] spawn them. *)
Definition machine_start (r : R) (d : D) (v : V) (ss : list W) : machine :=
  Machine (DispatcherThread r d (Filling [] (replicate size x00)) []) false
    ((fun s => Worker [] s [] true) <$> ss) [] (ForwarderThread Waiting v []).

(** Every thread has ended. *)
Definition halted (m : machine) : Prop :=
  reading (dthread m) = false /\ Forall (fun w => alive w = false) (mworkers m) /\
  writing (fthread m) = false.

(** ** The network they implement *)

(** The item that was read and not sent. *)
Definition pending (t : dispatcher_thread) : list A :=
  match dispatching_at t with
  | Filling _ _ | Checking _ _ => []
  | Sending a _ => [a]
  | Ended unsent => unsent
  end.

(** The state of the network, when the dispatcher is still to read the items
    [future]. *)
Definition network (m : machine) (future : list A) : state :=
  State (pending (dthread m) ++ future) (reading (dthread m)) (mworkers m) (mchannel m)
    (writing (fthread m)) (taken (fthread m)).

(** A machine has behaved as the network so far, whatever it is still to read (nothing,
    once its dispatcher has ended). *)
Definition simulates (faulty : bool) (ss : list W) (m : machine) : Prop :=
  forall future, (reading (dthread m) = false -> future = []) ->
  rtc (step route work faulty)
    (init (dispatched (dthread m) ++ pending (dthread m) ++ future) ss) (network m future).

(** A dispatcher that ends with nothing to send is the network's at its end of input. *)
Lemma end_simulates faulty ss r n p h r' n' s ws ch f :
  let t := DispatcherThread r n p h in
  reading t = true -> pending t = [] ->
  simulates faulty ss (Machine t s ws ch f) ->
  simulates faulty ss (Machine (DispatcherThread r' n' (Ended []) h) s ws ch f).
Proof using.
  intros t Hr Hp Hsim future Hfuture. rewrite Hfuture by done.
  specialize (Hsim [] ltac:(done)). unfold network in *. cbn in *.
  rewrite Hr, Hp in Hsim. eapply rtc_r; [exact Hsim | apply step_dispatch_end].
Qed.

Lemma dstep_simulates faulty ss stop ws d d' ws' s ch f :
  dstep stop ws d d' ws' -> simulates faulty ss (Machine d s ws ch f) ->
  simulates faulty ss (Machine d' s ws' ch f).
Proof using.
  intros Hstep Hsim.
  destruct Hstep as [| | | | | | | r n f0 h a n' | r n a n' h w Hw Ha Hlen
    | r n a n' h w Hw Ha | r n a n' h Hw];
    try (by eapply end_simulates; [.. | exact Hsim]); try exact Hsim;
    intros future Hfuture; unfold network; cbn.
  - by apply (Hsim (a :: future)).
  - rewrite <- app_assoc. cbn. eapply rtc_r; [by apply (Hsim future) |].
    by apply step_dispatch.
  - rewrite Hfuture by done. eapply rtc_r; [by apply (Hsim []) |].
    by eapply step_dispatch_send_error.
  - rewrite Hfuture by done. eapply rtc_r; [by apply (Hsim []) |].
    by apply step_dispatch_panic.
Qed.

(** One more step of the network. *)
Lemma simulates_step faulty ss d s ws ch f s' ws' ch' f' :
  (forall src, rtc (step route work faulty)
    (State src (reading d) ws ch (writing f) (taken f))
    (State src (reading d) ws' ch' (writing f') (taken f'))) ->
  simulates faulty ss (Machine d s ws ch f) -> simulates faulty ss (Machine d s' ws' ch' f').
Proof using.
  intros Hstep Hsim future Hfuture. etransitivity; [by apply Hsim | apply Hstep].
Qed.

(** The output has failed. *)
Definition broken (m : machine) : Prop :=
  exists c buf, forwarding_at (fthread m) = Closed (c :: buf).

(** A failure of the writer is one of the network. *)
Lemma fstep_network faulty ws f ch f' ch' :
  fstep ws f ch f' ch' ->
  faulty = true \/ (forall c buf, forwarding_at f' <> Closed (c :: buf)) ->
  forall src d, rtc (step route work faulty)
    (State src d ws ch (writing f) (taken f)) (State src d ws ch' (writing f') (taken f')).
Proof using.
  intros Hstep Hok src d. destruct Hstep as [| | | | c buf | c buf | | c buf];
    cbn in *; try apply rtc_refl;
    try (destruct Hok as [-> | Hok]; [| by destruct (Hok c buf)];
      by apply rtc_once, step_forward_error).
  - apply rtc_once, step_forward.
  - by apply rtc_once, step_forward_end.
Qed.

Lemma mstep_simulates faulty ss m m' :
  mstep m m' -> faulty = true \/ ~ broken m' -> simulates faulty ss m -> simulates faulty ss m'.
Proof using.
  intros Hstep Hok. destruct Hstep as [d d' s ws ws' ch f Hd | d s ws ch ws' ch' f Hw
    | d s ws ch ch' f f' Hf | d ws ch f].
  - by eapply dstep_simulates.
  - apply simulates_step. intros src. apply rtc_once. by apply step_worker.
  - apply simulates_step. intros src. eapply fstep_network; [done |].
    destruct Hok as [Hok | Hok]; [by left | right]. intros c buf E. apply Hok. by exists c, buf.
  - done.
Qed.

(** Once the output has failed it stays so. *)
Lemma broken_step m m' : mstep m m' -> broken m -> broken m'.
Proof using.
  intros Hstep (c & buf & E).
  destruct Hstep as [| | d s ws ch ch' f f' Hf |]; try by exists c, buf.
  destruct Hf; discriminate E.
Qed.

Lemma run_simulates faulty ss r d v m :
  rtc mstep (machine_start r d v ss) m -> faulty = true \/ ~ broken m ->
  simulates faulty ss m.
Proof using.
  revert m. apply (rtc_ind_r (fun m => faulty = true \/ ~ broken m -> simulates faulty ss m)).
  - intros _ future _. apply rtc_refl.
  - intros m m' _ Hstep IH Hok. eapply mstep_simulates; [done | done |]. apply IH.
    destruct Hok as [| Hok]; [by left | right]. intros Hb. by eapply Hok, broken_step.
Qed.

(** ** The bytes that were read *)

(** The items made of full buffers, and the dispatcher's state after them. *)
Fixpoint items (d : D) (ds : list (list byte)) : list A :=
  match ds with
  | [] => []
  | bs :: ds => let (a, d) := item d bs in a :: items d ds
  end.

Fixpoint after_items (d : D) (ds : list (list byte)) : D :=
  match ds with
  | [] => d
  | bs :: ds => after_items (item d bs).2 ds
  end.

Lemma items_snoc d ds bs :
  items d (ds ++ [bs]) = items d ds ++ [(item (after_items d ds) bs).1] /\
  after_items d (ds ++ [bs]) = (item (after_items d ds) bs).2.
Proof using.
  revert d. induction ds as [| b ds IH]; intros d; cbn; [by destruct (item d bs) |].
  destruct (item d b) as [a d']. cbn. destruct (IH d') as [-> ->]. done.
Qed.

Section feed.
Context `{!Feed R} (Hsize : 0 < size) (r0 : R) (d0 : D).

(** What the dispatcher has read so far: the full buffers [ds], of which it made the
    items it sent or is sending, and the beginning of the next one. *)
Definition has_read (stop : bool) (t : dispatcher_thread) (ds : list (list byte)) : Prop :=
  Forall (fun bs => length bs = size) ds /\
  dispatched t ++ pending t = items d0 ds /\
  match dispatching_at t with
  | Filling f buf | Checking f buf =>
    numbering t = after_items d0 ds /\ length f + length buf = size /\
    supply r0 = concat ds ++ f ++ supply (input t)
  | Sending _ n => n = after_items d0 ds /\ supply r0 = concat ds ++ supply (input t)
  | Ended unsent =>
    exists rest, supply r0 = concat ds ++ rest /\
      (stop = false -> unsent = [] -> length rest < size)
  end.

Lemma has_read_start stop :
  has_read stop (DispatcherThread r0 d0 (Filling [] (replicate size x00)) []) [].
Proof using.
  split; [constructor |]. split; [done |]. cbn. by rewrite length_replicate.
Qed.

Lemma has_read_stop stop t ds : has_read stop t ds -> has_read true t ds.
Proof using.
  intros (Hds & Hitems & Hat). split; [done |]. split; [done |].
  destruct (dispatching_at t); [done.. |]. destruct Hat as (rest & E & _). by exists rest.
Qed.

Lemma dstep_has_read stop ws t t' ws' ds :
  dstep stop ws t t' ws' -> has_read stop t ds -> exists ds', has_read stop t' ds'.
Proof using Hsize.
  intros Hstep (Hds & Hitems & Hat).
  destruct Hstep as [r r' n f c buf h Hr | r r' n f c buf h b bs Hr Hlen
    | r r' n f c buf h b bs Hr Hlen | r r' n f c buf h e Hr He | r r' n f c buf h e Hr He
    | r n f buf h -> | r n f buf h -> | r n f h a n' Hi | r n a n' h w Hw Ha Hlen
    | r n a n' h w Hw Ha | r n a n' h Hw]; cbn in Hat, Hitems;
    unfold pending in Hitems; cbn in Hitems.
  - destruct Hat as (-> & Hf & Hs). exists ds. split; [done |]. split; [done |]. exists f.
    apply feed_none in Hr; [| cbn; lia]. rewrite Hs, Hr, app_nil_r. split; [done | lia].
  - destruct Hat as (-> & Hf & Hs). exists ds. split; [done |]. split; [done |].
    apply feed_some in Hr as [_ Hr]; [| cbn; lia].
    cbn -[length drop app]. rewrite Hs, Hr, <- app_assoc.
    split; [done |]. split; [| done]. cbn [length] in Hlen.
    rewrite length_app, length_drop. cbn [length]. lia.
  - apply feed_some in Hr as [Hle _]; [lia | cbn; lia].
  - destruct Hat as (-> & Hf & Hs). exists ds. split; [done |]. split; [done |].
    apply feed_retry in Hr; [| cbn; lia | done]. cbn. by rewrite Hr.
  - destruct Hat as (-> & Hf & Hs). exists ds. split; [done |]. split; [done |]. exists f.
    apply feed_fail in Hr; [| cbn; lia | done]. rewrite Hs, Hr, app_nil_r. split; [done | lia].
  - destruct Hat as (-> & Hf & Hs). exists ds. split; [done |]. split; [done |].
    by exists (f ++ supply r).
  - by exists ds.
  - destruct Hat as (-> & Hf & Hs). exists (ds ++ [f]).
    destruct (items_snoc d0 ds f) as [E1 E2]. rewrite Hi in E1, E2. cbn in E1, E2, Hf.
    split; [apply Forall_app; split; [done |]; constructor; [lia | done] |].
    split; [unfold pending; cbn; rewrite E1, <- Hitems, app_nil_r; done |]. cbn.
    split; [done |]. rewrite Hs, concat_app. cbn. by rewrite app_nil_r, <- app_assoc.
  - destruct Hat as (-> & Hs). exists ds. split; [done |].
    split; [by unfold pending; cbn; rewrite app_nil_r |]. cbn.
    by rewrite length_replicate.
  - destruct Hat as (_ & Hs). exists ds. split; [done |]. split; [done |].
    by exists (supply r).
  - destruct Hat as (_ & Hs). exists ds. split; [done |]. split; [done |].
    by exists (supply r).
Qed.

Lemma run_has_read v ss m :
  rtc mstep (machine_start r0 d0 v ss) m ->
  exists ds, has_read (should_stop m) (dthread m) ds.
Proof using Hsize.
  revert m. apply (rtc_ind_r (fun m => exists ds, has_read (should_stop m) (dthread m) ds)).
  - exists []. apply has_read_start.
  - intros m m' _ Hstep [ds IH]. destruct Hstep; cbn in *; try (by exists ds).
    + by eapply dstep_has_read.
    + exists ds. by eapply has_read_stop.
Qed.

(** The flag is loaded only after an error of the reader... *)
Lemma dstep_flag stop ws t t' ws' :
  (forall f buf, dispatching_at t <> Checking f buf) ->
  dstep stop ws t t' ws' -> dstep false ws t t' ws'.
Proof using.
  intros Hat. destruct 1; try by econstructor. by destruct (Hat f buf).
Qed.

(** ... so [stop] is not noticed while the reader delivers: the dispatcher reads the
    stream to its end. *)
Lemma stop_unseen v ss m :
  (forall r n e r', read r n = (ReadErr e, r') -> retryable e = false) ->
  rtc mstep (machine_start r0 d0 v ss) m ->
  exists ds, has_read false (dthread m) ds.
Proof using Hsize.
  intros Hread Hrun.
  enough ((forall f buf, dispatching_at (dthread m) <> Checking f buf) /\
    exists ds, has_read false (dthread m) ds) by tauto.
  revert m Hrun. apply (rtc_ind_r (fun m =>
    (forall f buf, dispatching_at (dthread m) <> Checking f buf) /\
    exists ds, has_read false (dthread m) ds)).
  - split; [done |]. exists []. apply has_read_start.
  - intros m m' _ Hstep [Hat [ds IH]]. destruct Hstep as [d d' s ws ws' ch f Hd | | |];
      try (split; [done | by exists ds]). cbn in *. apply dstep_flag in Hd; [| done]. split.
    + intros f' buf. destruct Hd as [| | | r r' n f1 c b1 h e Hr He | | | | | | |]; cbn; try done.
      apply Hread in Hr. congruence.
    + by eapply dstep_has_read.
Qed.

(** What was read is the first of the records of the stream; all of them, when the
    dispatcher has ended without being stopped or refused. *)
Lemma has_read_records stop t ds :
  has_read stop t ds ->
  ds `prefix_of` records size (supply r0) /\
  (reading t = false -> stop = false -> pending t = [] -> ds = records size (supply r0)).
Proof using Hsize.
  intros (Hds & _ & Hat).
  assert (exists rest, supply r0 = concat ds ++ rest /\
    (reading t = false -> stop = false -> pending t = [] -> length rest < size))
    as (rest & Hrest & Hend).
  { unfold reading, pending. destruct (dispatching_at t) as [f buf | f buf | a n | u].
    - destruct Hat as (_ & _ & ->). by eexists.
    - destruct Hat as (_ & _ & ->). by eexists.
    - destruct Hat as (_ & ->). by eexists.
    - destruct Hat as (rest & -> & Hat). exists rest. split; [done |]. intros _ Hs Hu. eauto. }
  rewrite Hrest. split.
  - rewrite <- (records_concat size Hsize ds []) at 1; [| done | cbn; lia].
    rewrite app_nil_r. by apply records_prefix.
  - intros Hr Hs Hp. symmetry. apply records_concat; eauto.
Qed.
End feed.

(** ** The bytes that were written *)
Section sink.
Context `{!Sink V}.

(** What the forwarder has taken and not written. *)
Definition unwritten (f : forwarder_thread) : list byte :=
  match forwarding_at f with Waiting => [] | Writing buf => buf | Closed buf => buf end.

Definition has_written (v0 : V) (f : forwarder_thread) : Prop :=
  written (output f) ++ unwritten f = written v0 ++ concat (encode <$> taken f).

Lemma fstep_has_written v0 ws f ch f' ch' :
  fstep ws f ch f' ch' -> has_written v0 f -> has_written v0 f'.
Proof using.
  unfold has_written, unwritten.
  destruct 1 as [b ch v o | v o Hd | v o ch | c buf v v' o ch n Hw Hle | c buf v v' o ch Hw
    | c buf v v' o ch n Hw Hlt | c buf v v' o ch Hw | c buf v v' o ch e Hw He]; cbn -[drop];
    intros Hf; try done.
  - rewrite app_nil_r in Hf. rewrite fmap_app, concat_app, Hf. cbn.
    by rewrite app_nil_r, <- app_assoc.
  - apply write_some in Hw as (_ & -> & _). by rewrite <- Hf, <- app_assoc, take_drop.
  - apply write_some in Hw as (_ & -> & _). cbn. by rewrite app_nil_r.
  - apply write_some in Hw as (Hle & _ & _). lia.
  - apply write_intr in Hw as [-> _]. done.
  - by apply write_err in Hw as ->.
Qed.

Lemma run_has_written r d v0 ss m :
  rtc mstep (machine_start r d v0 ss) m -> has_written v0 (fthread m).
Proof using.
  revert m. apply (rtc_ind_r (fun m => has_written v0 (fthread m))).
  - unfold has_written, unwritten. cbn. by rewrite !app_nil_r.
  - intros m m' _ Hstep IH. destruct Hstep; try done. by eapply fstep_has_written.
Qed.

(** A reliable writer never fails. *)
Lemma run_reliable r d v0 ss m :
  reliable_from v0 -> rtc mstep (machine_start r d v0 ss) m -> ~ broken m.
Proof using Type*.
  intros (P & HP & Hrel) Hrun. apply (proj1 (A := ~ broken m) (B := P (output (fthread m)))).
  revert m Hrun. apply (rtc_ind_r (fun m => ~ broken m /\ P (output (fthread m)))).
  { split; [by intros (c & buf & E) | done]. }
  intros m m' _ Hstep [IH Hv].
  destruct Hstep as [| | d1 s ws ch ch' f f' Hf |]; try (by split).
  cbn [fthread] in *.
  destruct Hf as [| | | c1 buf1 v v' o ch n Hw Hle | c1 buf1 v v' o ch Hw | c1 buf1 v v' o ch n Hw Hlt
    | c1 buf1 v v' o ch Hw | c1 buf1 v v' o ch e Hw He]; cbn [output] in *;
    try (split; [intros (? & ? & E); discriminate E | done]);
    destruct (Hrel v c1 buf1 Hv) as (n' & v1 & Hw' & Hv1); rewrite Hw in Hw'; simplify_eq.
  - split; [intros (? & ? & E); discriminate E | done].
  - apply write_some in Hw as [Hle _]. lia.
Qed.

Context `{!Feed R}.

(** C6 The threads implement the network of [Pipeline]: whatever the reader delivers
    and however it is interrupted, whatever part of a buffer the writer takes at a
    time, whenever the stop flag is set and whatever fails, the state reached is one
    the network reaches on the items the dispatcher has made so far; these are made
    of the first complete records of the stream, of all of them when the dispatcher
    has ended without being stopped or refused; and what was written is, but for what
    is left of the last item, the bytes of the items taken. *)
Theorem simulation r d v ss m :
  0 < size -> rtc mstep (machine_start r d v ss) m ->
  (exists ds, ds `prefix_of` records size (supply r) /\
    dispatched (dthread m) ++ pending (dthread m) = items d ds /\
    (reading (dthread m) = false -> should_stop m = false -> pending (dthread m) = [] ->
     ds = records size (supply r)) /\
    (reading (dthread m) = false ->
     rtc (step route work true) (init (items d ds) ss) (network m []))) /\
  (forall future, reading (dthread m) = true ->
     rtc (step route work true)
       (init (dispatched (dthread m) ++ pending (dthread m) ++ future) ss) (network m future)) /\
  written (output (fthread m)) ++ unwritten (fthread m)
    = written v ++ concat (encode <$> taken (fthread m)).
Proof using.
  intros Hsize Hrun. pose proof (run_simulates true ss r d v m Hrun ltac:(by left)) as Hsim.
  destruct (run_has_read Hsize r d v ss m Hrun) as [ds Hread].
  destruct (has_read_records Hsize r d _ _ _ Hread) as [Hpre Hall].
  split; [| split; [intros future Hr; apply Hsim; congruence | by eapply run_has_written]].
  exists ds. destruct Hread as (_ & Hitems & _). split_and!; [done | done | done |].
  intros Hr. rewrite <- Hitems. specialize (Hsim [] ltac:(done)).
  by rewrite app_nil_r in Hsim.
Qed.

(** What a machine whose writer does not fail has written when all its threads have
    ended: an interleaving of what the workers make of the items, which are those of
    the whole stream unless it was stopped. *)
Lemma machine_exact r d v ss m :
  0 < size -> reliable_from v -> (forall a, route a < length ss) ->
  (forall ds i s, ds `prefix_of` records size (supply r) -> ss !! i = Some s ->
     works work s (routed route i (items d ds))) ->
  rtc mstep (machine_start r d v ss) m -> halted m ->
  exists ds bs, ds `prefix_of` records size (supply r) /\
    (should_stop m = false -> ds = records size (supply r)) /\
    rtc (step route work false) (init (items d ds) ss) (network m []) /\
    terminal (network m []) /\ out (network m []) = bs /\
    written (output (fthread m)) = written v ++ concat (encode <$> bs).
Proof using.
  intros Hsize Hrel Hroute Hworks Hrun (Hr & Hdead & Hw).
  pose proof (run_reliable r d v ss m Hrel Hrun) as Hok.
  pose proof (run_simulates false ss r d v m Hrun ltac:(by right)) as Hsim.
  destruct (run_has_read Hsize r d v ss m Hrun) as [ds Hread].
  destruct (has_read_records Hsize r d _ _ _ Hread) as [Hpre Hall].
  destruct Hread as (_ & Hitems & _). specialize (Hsim [] ltac:(done)).
  rewrite app_nil_r, Hitems in Hsim.
  assert (terminal (network m [])) as Hend by done.
  assert (pending (dthread m) = []) as Hp.
  { destruct (out_exact_cases route work false (items d ds) ss (network m []))
      as [Hsrc _]; try done.
    - apply Forall_forall. auto.
    - intros i s Hs. by apply Hworks.
    - cbn in Hsrc. by rewrite app_nil_r in Hsrc. }
  exists ds, (taken (fthread m)). split_and!; try done; [auto |].
  rewrite <- (run_has_written r d v ss m Hrun).
  assert (unwritten (fthread m) = []) as ->; [| by rewrite app_nil_r].
  unfold writing, unwritten in *. destruct (forwarding_at (fthread m)) as [| | [| c buf]] eqn:E;
    try done. destruct Hok. by exists c, buf.
Qed.
End sink.

(** ** No deadlock *)

Lemma dispatcher_progress d s ws :
  reading d = true ->
  (exists d' ws', dstep s ws d d' ws') \/
  exists i w, ws !! i = Some w /\ alive w = true /\ capacity <= length (queue w).
Proof using.
  intros Hr. destruct d as [r n [f [| c buf] | f buf | a n' | u] h]; try discriminate Hr.
  - left. destruct (item n f) as [a n'] eqn:E. eexists _, _. by eapply d_full.
  - left. destruct (read r (length (c :: buf))) as [[[| b bs] | e] r'] eqn:E.
    + eexists _, _. by eapply d_eof.
    + destruct (decide (length (b :: bs) <= length (c :: buf))) as [Hle | Hgt];
        [eexists _, _; by eapply d_read | eexists _, _; eapply d_overrun; [done | lia]].
    + destruct (retryable e) eqn:He; eexists _, _; [by eapply d_retry | by eapply d_error].
  - left. destruct s; eexists _, _; [by apply d_load_stop | by apply d_load_go].
  - destruct (ws !! route a) as [w |] eqn:Hw; [| left; eexists _, _; by apply d_panic].
    destruct (alive w) eqn:Ha; [| left; eexists _, _; by eapply d_send_error].
    destruct (decide (length (queue w) < capacity)) as [Hlt | Hge];
      [left; eexists _, _; by eapply d_send |]. right. exists (route a), w.
    split_and!; [done | done | lia].
Qed.

Lemma forwarder_progress f ws ch :
  (exists f' ch', fstep ws f ch f' ch') \/
  writing f = false \/ ch = [] /\ ~ Forall (fun w => alive w = false) ws.
Proof using.
  destruct f as [[| [| c buf] | u] v o].
  - destruct ch as [| b ch]; [| left; eexists _, _; apply f_recv].
    destruct (decide (Forall (fun w => alive w = false) ws));
      [left; eexists _, _; by apply f_end | auto].
  - left. eexists _, _. apply f_written.
  - left. destruct (write v (c :: buf)) as [[[| n] | e] v'] eqn:E.
    + eexists _, _. by eapply f_zero.
    + destruct (decide (S n <= length (c :: buf)));
        eexists _, _; [by eapply f_write | eapply f_overrun; [done | lia]].
    + destruct (decide (e = Interrupted)) as [-> |];
        eexists _, _; [by eapply f_interrupted | by eapply f_error].
  - auto.
Qed.

(** Some thread can act unless all have ended. *)
Lemma machine_progress m : halted m \/ exists m', mstep m m' /\ should_stop m' = should_stop m.
Proof using.
  destruct m as [d s ws ch f].
  destruct (forwarder_progress f ws ch) as [(f' & ch' & Hf) | Hidle];
    [right; eexists; by split; [apply m_forwarder |] |].
  assert (writing f = true -> ch = []) as Hch
    by (intros Hw; destruct Hidle as [? | [? _]]; [congruence | done]).
  destruct (reading d) eqn:Hr.
  - right. destruct (dispatcher_progress d s ws Hr) as [(d' & ws' & Hd) | Hfull];
      [eexists; by split; [apply m_dispatcher |] |].
    destruct (workers_progress work (reading d) ws ch (writing f)) as (ws' & ch' & Hw);
      [done | congruence | done |]. eexists. by split; [apply m_worker |].
  - destruct (decide (Forall (fun w => alive w = false) ws)) as [Hdead | Hsome].
    + left. split_and!; [done | done |]. by destruct Hidle as [? | [_ ?]].
    + right. destruct (workers_progress work (reading d) ws ch (writing f)) as (ws' & ch' & Hw);
        [done | | congruence |].
      * intros _. apply not_Forall_Exists in Hsome; [| intros w; apply _].
        eapply Exists_impl; [exact Hsome |]. intros w. apply not_false_is_true.
      * eexists. by split; [apply m_worker |].
Qed.

(** ** The threads end

    [sup]: what the reader is still to deliver, as far as anything is known of it. *)
Section liveness.
Context `{!Sink V} (sup : R -> list byte).

(** Errors after which [read_exact] tries again lose no bytes. *)
Definition keeps_supply : Prop := forall r n e r',
  0 < n -> read r n = (ReadErr e, r') -> retryable e = true -> sup r' = sup r.

(** What the reader delivers was to be expected. *)
Definition foretold : Prop := forall r n b bs r',
  0 < n -> read r n = (ReadOk (b :: bs), r') -> sup r = (b :: bs) ++ sup r'.

(** The reader runs out of errors after which [read_exact] tries again. *)
Definition patient (tries : R -> nat) : Prop :=
  (forall r n bs r', read r n = (ReadOk bs, r') -> tries r' <= tries r) /\
  (forall r n e r', read r n = (ReadErr e, r') -> retryable e = true -> tries r' < tries r).

(** The part of the buffer that is filled and the part that is not make up the buffer. *)
Definition sized (t : dispatcher_thread) : Prop :=
  match dispatching_at t with
  | Filling f buf | Checking f buf => length f + length buf = size
  | _ => True
  end.

(** The buffer was extended; some bytes arrived in a step. *)
Definition extended (t t' : dispatcher_thread) : bool :=
  match dispatching_at t, dispatching_at t' with
  | Filling f _, Filling f' _ => length f <? length f'
  | _, _ => false
  end.

Definition bytes_arrive (m m' : machine) : bool := extended (dthread m) (dthread m').

(** A step in which no bytes arrive. *)
Definition quiet (m m' : machine) : Prop := mstep m m' /\ bytes_arrive m m' = false.

(** The items the dispatcher would still send, if nothing stopped it. *)
Definition to_come (t : dispatcher_thread) : list A :=
  match dispatching_at t with
  | Filling f _ | Checking f _ => items (numbering t) (records size (f ++ sup (input t)))
  | Sending a n => a :: items n (records size (sup (input t)))
  | Ended unsent => unsent
  end.

(** The network's measure, with all that is still to come. *)
Definition work_left (m : machine) : nat :=
  measure route work (State (to_come (dthread m)) (reading (dthread m)) (mworkers m)
    (mchannel m) (writing (fthread m)) (taken (fthread m))).

(** What the dispatcher and the forwarder may do in between. *)
Definition dispatcher_left (tries : R -> nat) (stop : bool) (t : dispatcher_thread) : nat :=
  2 * length (sup (input t)) + (if stop then 0 else S (3 * tries (input t))) +
  match dispatching_at t with
  | Filling _ _ => 2
  | Checking _ _ => if stop then 1 else 4
  | _ => 0
  end.

Definition forwarder_left (f : forwarder_thread) : nat :=
  match forwarding_at f with
  | Waiting => wpatience (output f)
  | Writing buf => S (length buf + wpatience (output f))
  | Closed _ => 0
  end.

Lemma dstep_sized stop ws t t' ws' : dstep stop ws t t' ws' -> sized t -> sized t'.
Proof using.
  destruct 1; unfold sized; cbn -[drop length]; auto.
  - rewrite length_app, length_drop. lia.
  - intros _. by rewrite length_replicate.
Qed.

Lemma run_prefix_length s l k :
  length (run work s l) <= length (run work s (l ++ k)).
Proof using.
  revert s. induction l as [| a l IH]; intros s; cbn; [lia |].
  destruct (work s a) as [[s' bs] |]; [| done]. rewrite !length_app. specialize (IH s'). lia.
Qed.

(** A dispatcher that ends leaves less to do, whatever it has not read. *)
Lemma measure_end src src' ws ch fw o :
  src' `prefix_of` src ->
  measure route work (State src' false ws ch fw o) < measure route work (State src true ws ch fw o).
Proof using.
  intros [k ->]. unfold measure.
  cbn [source dispatcher channel forwarder workers Nat.b2n]. rewrite length_app.
  assert (isum (worker_measure route work src') ws
    <= isum (worker_measure route work (src' ++ k)) ws); [| lia].
  apply isum_le. intros i w. destruct w as [q st p [|]]; [| done].
  rewrite !worker_measure_alive. unfold routed. rewrite filter_app, app_assoc.
  pose proof (run_prefix_length st (q ++ filter (fun a => route a = i) src')
    (filter (fun a => route a = i) k)). lia.
Qed.

Context (Hsize : 0 < size) (Hkeeps : keeps_supply).

Abbreviation left_at t ws ch f :=
  (measure route work (State (to_come t) (reading t) ws ch (writing f) (taken f))).

Lemma dstep_decreases tries stop ws ch f t t' ws' :
  stop = true \/ patient tries -> sized t -> dstep stop ws t t' ws' ->
  extended t t' = false \/ foretold ->
  left_at t' ws' ch f < left_at t ws ch f \/
  left_at t' ws' ch f = left_at t ws ch f /\
    dispatcher_left tries stop t' < dispatcher_left tries stop t.
Proof using Hsize Hkeeps.
  intros Hpat Hsized Hstep Hheard. destruct Hstep as [| r r' n f0 c buf h b bs Hr Hlen
    | | r r' n f0 c buf h e Hr He | | | r n f0 buf h -> | r n f0 h a n' Hi
    | r n a n' h w Hw Ha Hlen | r n a n' h w Hw Ha | r n a n' h Hw];
    try (left; apply measure_end, prefix_nil); unfold to_come, reading, dispatcher_left;
    cbn -[measure drop length Nat.mul].
  - destruct Hheard as [Hheard | Hheard].
    { unfold extended in Hheard. cbn -[length app] in Hheard. rewrite length_app in Hheard.
      apply Nat.ltb_ge in Hheard. cbn [length] in Hheard. lia. }
    right. pose proof Hr as Hr'. apply Hheard in Hr; [| cbn; lia].
    rewrite Hr, <- app_assoc. split; [done |]. rewrite length_app. cbn [length].
    destruct stop; [lia |]. destruct Hpat as [| [Hpat _]]; [done |].
    specialize (Hpat _ _ _ _ Hr'). lia.
  - right. assert (sup r' = sup r) as ->
      by (eapply Hkeeps; [| exact Hr | done]; cbn; lia). split; [done |]. destruct stop; [lia |]. destruct Hpat as [| [_ Hpat]]; [done |].
    specialize (Hpat _ _ _ _ Hr He). lia.
  - right. split; [done |]. lia.
  - right. unfold sized in Hsized. cbn in Hsized.
    rewrite (records_cons size Hsize (f0 ++ _)) by (rewrite length_app; lia).
    rewrite take_app_length', drop_app_length' by lia. cbn. rewrite Hi. split; [done | lia].
  - left. by apply (measure_decreases route work false), step_dispatch.
  - left. apply measure_end. by eexists.
  - left. apply measure_end. by eexists.
Qed.

Lemma fstep_decreases ws f ch f' ch' t :
  fstep ws f ch f' ch' ->
  left_at t ws ch' f' < left_at t ws ch f \/
  left_at t ws ch' f' = left_at t ws ch f /\ forwarder_left f' < forwarder_left f.
Proof using Hsize.
  intros Hstep. destruct Hstep as [b ch v o | v o Hd | v o ch | c buf v v' o ch n Hw Hle
    | c buf v v' o ch Hw | c buf v v' o ch n Hw Hlt | c buf v v' o ch Hw
    | c buf v v' o ch e Hw He]; unfold writing, forwarder_left; cbn -[measure drop length].
  - left. apply (measure_decreases route work true), step_forward.
  - left. by apply (measure_decreases route work true), step_forward_end.
  - right. split; [done | lia].
  - right. split; [done |]. apply write_some in Hw as (_ & _ & Hp).
    rewrite length_drop. cbn [length] in *. lia.
  - left. by apply (measure_decreases route work true), step_forward_error.
  - left. by apply (measure_decreases route work true), step_forward_error.
  - right. split; [done |]. apply write_intr in Hw as [_ Hp]. lia.
  - left. by apply (measure_decreases route work true), step_forward_error.
Qed.

(** Either the threads are told to stop, or the reader does not keep the dispatcher
    waiting for ever. *)
Definition settles (tries : R -> nat) (m : machine) : Prop :=
  sized (dthread m) /\ (should_stop m = true \/ patient tries).

Lemma settles_step tries m m' : settles tries m -> mstep m m' -> settles tries m'.
Proof using.
  intros [Hsized Hpat] Hstep.
  destruct Hstep; (split; [cbn in *; try done | cbn in *; try done; by left]).
  by eapply dstep_sized.
Qed.

Lemma mstep_decreases tries m m' :
  settles tries m -> mstep m m' -> bytes_arrive m m' = false \/ foretold ->
  settles tries m' /\
  (work_left m' < work_left m \/ work_left m' = work_left m /\
   dispatcher_left tries (should_stop m') (dthread m') + forwarder_left (fthread m')
     < dispatcher_left tries (should_stop m) (dthread m) + forwarder_left (fthread m)).
Proof using Hsize Hkeeps.
  intros Hsettles Hstep Hheard. split; [by eapply settles_step |].
  destruct Hsettles as [Hsized Hpat]. unfold work_left.
  destruct Hstep as [d d' s ws ws' ch f Hd | d s ws ch ws' ch' f Hw
    | d s ws ch ch' f f' Hf | d ws ch f];
    cbn [dthread should_stop mworkers mchannel fthread] in *.
  - destruct (dstep_decreases tries s ws ch f d d' ws' Hpat Hsized Hd Hheard) as [? | [-> ?]];
      [by left | right; split; [done | lia]].
  - left. by apply (measure_decreases route work false), step_worker.
  - destruct (fstep_decreases ws f ch f' ch' d Hf) as [? | [-> ?]];
      [by left | right; split; [done | lia]].
  - right. split; [done |]. unfold dispatcher_left. destruct (dispatching_at d); lia.
Qed.

(** Only so often in a row can the threads act without any bytes arriving... *)
Lemma settles_sn_quiet tries m : settles tries m -> sn quiet m.
Proof using Hsize Hkeeps Sink0.
  apply (lex_sn quiet (settles tries) work_left
    (fun m => dispatcher_left tries (should_stop m) (dthread m) + forwarder_left (fthread m))).
  intros m1 m2 Hm [Hstep Hquiet]. by apply mstep_decreases; [| | left].
Qed.

(** ... and only so often altogether, when what arrives is finite. *)
Lemma settles_sn tries m : foretold -> settles tries m -> sn mstep m.
Proof using Hsize Hkeeps Sink0.
  intros Hheard.
  apply (lex_sn mstep (settles tries) work_left
    (fun m => dispatcher_left tries (should_stop m) (dthread m) + forwarder_left (fthread m))).
  intros. by apply mstep_decreases; [| | right].
Qed.

Lemma run_settles r d v ss tries m :
  rtc mstep (machine_start r d v ss) m -> should_stop m = true \/ patient tries ->
  settles tries m.
Proof using Hsize.
  intros Hrun Hpat. split; [| done]. clear Hpat. revert m Hrun.
  apply (rtc_ind_r (fun m => sized (dthread m))).
  - unfold sized. cbn. apply length_replicate.
  - intros m m' _ Hstep IH. destruct Hstep; try done. by eapply dstep_sized.
Qed.

End liveness.

(** The reader of a [Feed]: what arrives is finite. *)
Lemma feed_keeps `{!Feed R} : keeps_supply supply.
Proof using. intros r n e r'. apply feed_retry. Qed.

Lemma feed_foretold `{!Feed R} : foretold supply.
Proof using. intros r n b bs r' Hn Hr. by apply feed_some in Hr as [_ Hr]. Qed.

(** The threads can then always run to their end. *)
Lemma settles_halts `{!Sink V, !Feed R} tries m :
  0 < size -> settles tries m ->
  exists m', rtc mstep m m' /\ halted m' /\ should_stop m' = should_stop m.
Proof using.
  intros Hsize Hsettles.
  pose proof (settles_sn supply Hsize feed_keeps tries m feed_foretold Hsettles) as Hsn.
  clear Hsettles. induction Hsn as [m _ IH].
  destruct (machine_progress m) as [Hend | (m1 & Hstep & Hs)].
  - by exists m.
  - destruct (IH m1 Hstep) as (m' & Hrun & Hend & Hs'). exists m'.
    split_and!; [by eapply rtc_l | done | congruence].
Qed.

(** An infinite run in which only finitely many steps in a row are quiet. *)
Lemma bytes_arrive_again (run : nat -> machine) :
  (forall i, mstep (run i) (run (S i))) -> (forall i, sn quiet (run i)) ->
  forall i, exists j, i <= j /\ bytes_arrive (run j) (run (S j)) = true.
Proof using.
  intros Hrun Hsn i. pose proof (Hsn i) as Hi. remember (run i) as m eqn:Hm.
  revert i Hm. induction Hi as [m _ IH]. intros i ->.
  destruct (bytes_arrive (run i) (run (S i))) eqn:Ha; [by exists i |].
  destruct (IH (run (S i)) (conj (Hrun i) Ha) (S i) eq_refl) as (j & Hj & Harr).
  exists j. split; [lia | done].
Qed.

(** ** An input that never pauses *)

(** From [r] on every read returns bytes at once. *)
Definition endless_from (r : R) : Prop :=
  exists P : R -> Prop, P r /\ forall r n, P r -> 0 < n ->
    exists b bs r', read r n = (ReadOk (b :: bs), r') /\ length (b :: bs) <= n /\ P r'.

(** [PR], [PV]: what the states of the reader and the writer have in common; [Qd], [Qa],
    [Qs]: those of the numbering, the items and the workers; [k] workers. *)
Section endless.
Context `{!Sink V} (PR : R -> Prop) (PV : V -> Prop).
Context (Qd : D -> Prop) (Qa : A -> Prop) (Qs : W -> Prop) (k : nat).
Context (Hread : forall r n, PR r -> 0 < n ->
  exists b bs r', read r n = (ReadOk (b :: bs), r') /\ length (b :: bs) <= n /\ PR r').
Context (Hwrite : forall v b buf, PV v ->
  exists n v', write v (b :: buf) = (WriteOk (S n), v') /\ PV v').
Context (Hitem : forall d f, Qd d -> length f = size -> Qa (item d f).1 /\ Qd (item d f).2).
Context (Hwork : forall s a, Qs s -> Qa a ->
  exists s' bs, work s a = Some (s', bs) /\ Qs s').
Context (Hroute : forall a, route a < k).

Definition busy_dispatcher (t : dispatcher_thread) : Prop :=
  PR (input t) /\
  match dispatching_at t with
  | Filling f buf => Qd (numbering t) /\ length f + length buf = size
  | Sending a n => Qa a /\ Qd n
  | _ => False
  end.

Definition busy_worker (w : worker (A := A) (B := B) (W := W)) : Prop :=
  alive w = true /\ Qs (wstate w) /\ Forall Qa (queue w).

Definition busy_forwarder (f : forwarder_thread) : Prop :=
  writing f = true /\ PV (output f).

(** No thread has ended, and none is about to. *)
Definition busy (m : machine) : Prop :=
  busy_dispatcher (dthread m) /\ Forall busy_worker (mworkers m) /\
  length (mworkers m) = k /\ busy_forwarder (fthread m).

Lemma busy_route ws a : Forall busy_worker ws -> length ws = k ->
  exists w, ws !! route a = Some w /\ busy_worker w.
Proof using Hroute.
  intros Hws Hlen. destruct (lookup_lt_is_Some_2 ws (route a)) as [w Hw];
    [rewrite Hlen; apply Hroute |].
  exists w. split; [done |]. by eapply Forall_lookup_1.
Qed.

Lemma dstep_busy stop ws t t' ws' :
  dstep stop ws t t' ws' -> busy_dispatcher t -> Forall busy_worker ws -> length ws = k ->
  busy_dispatcher t' /\ Forall busy_worker ws' /\ length ws' = k.
Proof using Hread Hitem Hroute.
  intros Hstep [Hr Hat] Hws Hlen.
  destruct Hstep as [r r' n f c buf h E | r r' n f c buf h b bs E Hle
    | r r' n f c buf h b bs E Hlt | r r' n f c buf h e E He | r r' n f c buf h e E He
    | | | r n f h a n' Hi | r n a n' h w Hw Ha Hq | r n a n' h w Hw Ha
    | r n a n' h Hw]; unfold busy_dispatcher; cbn -[length drop] in *; try done;
    try (destruct (Hread r (length (c :: buf)) Hr ltac:(cbn; lia)) as (b' & bs' & r2 & E' & Hle' & Hr');
      rewrite E in E'; simplify_eq; try (exfalso; lia)).
  - rewrite length_app, length_drop. destruct Hat as [Hd Hsum]. cbn [length] in *.
    split_and!; (done || lia).
  - destruct Hat as [Hd Hsum]. cbn [length] in Hsum.
    destruct (Hitem n f Hd) as [Ha Hn]; [lia |]. rewrite Hi in Ha, Hn. done.
  - destruct Hat as [Ha' Hn]. rewrite length_replicate, length_insert. split_and!; try done.
    apply Forall_insert; [done |]. pose proof (Forall_lookup_1 _ _ _ _ Hws Hw) as (_ & Hs & Hqa).
    split_and!; [done | done |]. cbn. apply Forall_app. by split; [| constructor].
  - destruct (busy_route ws a Hws Hlen) as (w' & Hw' & Hb & _). congruence.
  - destruct (busy_route ws a Hws Hlen) as (w' & Hw' & _). congruence.
Qed.

Lemma wstep_busy ws ch ws' ch' :
  wstep work true true ws ch ws' ch' -> Forall busy_worker ws ->
  Forall busy_worker ws' /\ length ws' = length ws.
Proof using Hwork.
  intros Hstep Hws. destruct Hstep as [ws ch i a q s s' bs Hw E | ws ch i a q s Hw E
    | ws ch i q s b bs Hw _ _ | |]; try done;
    pose proof (Forall_lookup_1 _ _ _ _ Hws Hw) as (_ & Hs & Hq); cbn in Hs, Hq;
    rewrite length_insert; (split; [| done]); apply Forall_insert; try done.
  - apply Forall_cons in Hq as [Ha Hq]. destruct (Hwork s a Hs Ha) as (s2 & bs2 & E' & Hs2).
    rewrite E in E'. by simplify_eq.
  - apply Forall_cons in Hq as [Ha Hq]. destruct (Hwork s a Hs Ha) as (s2 & bs2 & E' & Hs2).
    congruence.
Qed.

Lemma fstep_busy ws f ch f' ch' :
  fstep ws f ch f' ch' -> Exists busy_worker ws -> busy_forwarder f -> busy_forwarder f'.
Proof using Hwrite Sink0.
  intros Hstep Hws [Hf Hv]. destruct Hstep as [| v o Hdead | | c buf v v' o ch n E Hle
    | c buf v v' o ch E | c buf v v' o ch n E Hlt | c buf v v' o ch E
    | c buf v v' o ch e E He]; try done; cbn in Hv;
    try (destruct (Hwrite v c buf Hv) as (n' & v2 & E' & Hv'); rewrite E in E'; simplify_eq; try done).
  - exfalso. apply Exists_exists in Hws as (w & Hw & Ha & _).
    rewrite Forall_forall in Hdead. specialize (Hdead w Hw). congruence.
  - apply write_some in E as (Hle & _). lia.
Qed.

Lemma mstep_busy m m' : 0 < k -> mstep m m' -> busy m -> busy m'.
Proof using Hread Hwrite Hitem Hwork Hroute Sink0.
  intros Hk Hstep (Hd & Hws & Hlen & Hf).
  destruct Hstep as [d d' s ws ws' ch f Hstep | d s ws ch ws' ch' f Hstep
    | d s ws ch ch' f f' Hstep | d ws ch f]; cbn in *; try done.
  - destruct (dstep_busy _ _ _ _ _ Hstep Hd Hws Hlen) as (? & ? & ?). done.
  - assert (reading d = true) as Hr
      by (destruct Hd as [_ Hat]; unfold reading; by destruct (dispatching_at d)).
    destruct Hf as [Hw Hv]. rewrite Hr, Hw in Hstep.
    destruct (wstep_busy _ _ _ _ Hstep Hws) as [? E]. split_and!; try done. cbn. congruence.
  - split_and!; try done. eapply fstep_busy; [done | | done].
    destruct ws as [| w ws]; [cbn in Hlen; lia |]. apply Forall_cons in Hws as [Hw _].
    by constructor.
Qed.

Lemma busy_start r d v ss :
  PR r -> PV v -> Qd d -> Forall Qs ss -> length ss = k -> busy (machine_start r d v ss).
Proof using.
  intros Hr Hv Hd Hss Hlen. split_and!.
  - split; [done |]. cbn. by rewrite length_replicate.
  - cbn. apply Forall_fmap. eapply Forall_impl; [exact Hss |]. intros s Hs. by split_and!.
  - cbn. by rewrite length_fmap.
  - done.
Qed.

(** Nobody ends, [stop] or not, and there is always more to do. *)
Lemma busy_for_ever r d v ss m :
  0 < k -> PR r -> PV v -> Qd d -> Forall Qs ss -> length ss = k ->
  rtc mstep (machine_start r d v ss) m ->
  reading (dthread m) = true /\ Forall (fun w => alive w = true) (mworkers m) /\
  writing (fthread m) = true /\ (exists m', mstep m m') /\ ~ sn mstep m.
Proof using Hread Hwrite Hitem Hwork Hroute Sink0.
  intros Hk Hr Hv Hd Hss Hlen Hrun.
  assert (busy m) as Hbusy.
  { revert m Hrun. apply rtc_ind_r; [by apply busy_start |].
    intros m1 m2 _ Hstep. by apply mstep_busy. }
  clear Hrun.
  assert (forall m, busy m -> reading (dthread m) = true) as Hreading.
  { intros m1 [[_ Hat] _]. unfold reading. by destruct (dispatching_at (dthread m1)). }
  assert (forall m, busy m -> exists m', mstep m m') as Hprog.
  { intros m1 Hb. destruct (machine_progress m1) as [[Hend _] | (m' & Hstep & _)]; [| by exists m'].
    rewrite Hreading in Hend; done. }
  split_and!; [by apply Hreading | | by apply Hbusy | by apply Hprog |].
  - destruct Hbusy as (_ & Hws & _). eapply Forall_impl; [exact Hws |]. by intros w [? _].
  - intros Hsn. revert Hbusy. induction Hsn as [m _ IH]. intros Hbusy.
    destruct (Hprog m Hbusy) as [m' Hstep]. apply (IH m' Hstep). by eapply mstep_busy.
Qed.
End endless.

(** C7 Once [stop] has been called, or on a reader that does not time out for ever,
    the threads act only finitely often in a row while no bytes arrive, whatever the
    reader is; so they can only go on for ever when bytes arrive again and again.  As
    long as a thread has not ended some thread can act.  On a reader that delivers
    finitely many bytes, every run therefore ends, in the state in which all threads
    have ended and [wait] returns. *)
Theorem machine_stops `{!Sink V} r d v ss tries m :
  0 < size ->
  rtc mstep (machine_start r d v ss) m -> should_stop m = true \/ patient tries ->
  sn quiet m /\
  (forall run, run 0 = m -> (forall i, mstep (run i) (run (S i))) ->
     forall i, exists j, i <= j /\ bytes_arrive (run j) (run (S j)) = true) /\
  (halted m \/ exists m', mstep m m' /\ should_stop m' = should_stop m) /\
  (forall `{!Feed R}, sn mstep m /\
     exists m', rtc mstep m m' /\ halted m' /\ should_stop m' = should_stop m).
Proof using.
  intros Hsize Hrun Hpat. assert (settles tries m) as Hsettles by by eapply run_settles.
  assert (forall m', rtc mstep m m' -> sn quiet m') as Hquiet.
  { intros m' Hm'. apply (settles_sn_quiet (fun _ => []) Hsize ltac:(done) tries).
    revert m' Hm'. apply rtc_ind_r; [done |]. intros m1 m2 _ Hstep IH.
    by apply (settles_step tries m1). }
  split; [by apply Hquiet |]. split; [| split; [apply machine_progress |]].
  - intros run <- Hsteps. apply bytes_arrive_again; [done |]. intros i. apply Hquiet.
    induction i as [| i IH]; [done |]. by eapply rtc_r.
  - intros Hfeed. split; [| by eapply settles_halts].
    exact (settles_sn supply Hsize feed_keeps tries m feed_foretold Hsettles).
Qed.
End machine.

(** ** Readers *)

#[export] Program Instance cursor_feed : Feed cursor := {| supply := remaining |}.
Next Obligation.
  intros [l] n b bs r' Hn Hread. injection Hread as E <-. cbn [remaining] in *.
  rewrite <- E, length_take. split; [lia |]. by rewrite take_drop.
Qed.
Next Obligation.
  intros [[| b l]] [| n] r' Hn; unfold read; cbn; intros; (lia || by simplify_eq).
Qed.
Next Obligation. done. Qed.
Next Obligation. done. Qed.

(** A cursor never fails. *)
Lemma cursor_patient : patient (R := cursor) (fun _ => 0).
Proof. by split. Qed.

(** A link on which, after some bytes, nothing arrives any more, and every read times
    out: [UDP] or a raw socket with its receive timeout. *)
Record idle := Idle { arriving : list byte }.

#[export] Instance idle_reader : Reader idle := {|
  read r n :=
    match arriving r with
    | [] => (ReadErr WouldBlock, r)
    | _ => (ReadOk (take n (arriving r)), Idle (drop n (arriving r)))
    end;
  load r := (false, r)
|}.

#[export] Program Instance idle_feed : Feed idle := {| supply := arriving |}.
Next Obligation.
  intros [[| c l]] n b bs r' Hn Hread; unfold read in Hread; cbn in Hread; [done |].
  injection Hread as E <-. cbn [arriving] in *.
  rewrite <- E, length_take. split; [lia |]. by rewrite take_drop.
Qed.
Next Obligation.
  intros [[| b l]] [| n] r' Hn; unfold read; cbn; intros; (lia || by simplify_eq).
Qed.
Next Obligation.
  intros [[| b l]] n e r' Hn; unfold read; cbn; intros; by simplify_eq.
Qed.
Next Obligation.
  intros [[| b l]] n e r' Hn Hread He; unfold read in *; cbn in *; by simplify_eq.
Qed.

(** ** Witnesses *)
Module MachineDemo.
(** Two workers; records of two bytes, each written twice. *)
Definition demo_route (a : list byte) : nat := length (filter (fun b => b = x00) a) mod 2.
Definition demo_work (s : unit) (a : list byte) : option (unit * list (list byte)) :=
  Some (s, [a; a]).
Definition demo_item (u : unit) (bs : list byte) : list byte * unit := (bs, u).

Abbreviation demo_mstep R :=
  (mstep (R := R) (V := vector) demo_route demo_work 2 demo_item (fun bs => bs)).
Abbreviation demo_machine r := (machine_start 2 r tt (Vector []) [tt; tt]).

(** Five bytes, read to the end. *)
Definition demo_bytes : cursor := Cursor [x01; x02; x00; x03; x04].

Lemma demo_halts : exists m,
  rtc (demo_mstep cursor) (demo_machine demo_bytes) m /\ halted m /\ should_stop m = false.
Proof.
  destruct (settles_halts demo_route demo_work 2 demo_item (fun bs => bs) (R := cursor)
    (V := vector) (fun _ => 0) (demo_machine demo_bytes)) as (m & Hm).
  - lia.
  - split; [done | right; apply cursor_patient].
  - by exists m.
Qed.

(** The last byte makes no record. *)
Lemma simulation_witness : exists m,
  rtc (demo_mstep cursor) (demo_machine demo_bytes) m /\ halted m /\
  exists ds, ds `prefix_of` [[x01; x02]; [x00; x03]] /\
    dispatched (dthread m) ++ pending (dthread m) = items demo_item tt ds /\
    written (output (fthread m)) ++ unwritten (fthread m) = concat (taken (fthread m)).
Proof.
  destruct demo_halts as (m & Hrun & Hend & _). exists m. split; [exact Hrun |].
  split; [exact Hend |].
  destruct (simulation demo_route demo_work 2 demo_item (fun bs => bs) demo_bytes tt
    (Vector []) [tt; tt] m ltac:(lia) Hrun) as ((ds & Hds & Hitems & _) & _ & Hwr).
  exists ds. rewrite list_fmap_id in Hwr. split; [exact Hds |]. split; [exact Hitems | exact Hwr].
Defined.

(** Three bytes arrive, then nothing; [stop] is called at once. *)
Definition demo_stopped : machine (A := list byte) (B := list byte) :=
  let m := demo_machine (Idle [x01; x02; x03]) in
  Machine (dthread m) true (mworkers m) (mchannel m) (fthread m).

Lemma machine_stops_witness :
  sn (quiet demo_route demo_work 2 demo_item (fun bs => bs) (R := idle) (V := vector))
    demo_stopped /\
  sn (demo_mstep idle) demo_stopped /\
  exists m, rtc (demo_mstep idle) demo_stopped m /\ halted m /\ should_stop m = true.
Proof.
  destruct (machine_stops demo_route demo_work 2 demo_item (fun bs => bs) (R := idle)
    (V := vector) (Idle [x01; x02; x03]) tt (Vector []) [tt; tt] (fun _ => 0)
    demo_stopped) as (Hquiet & _ & _ & Hfinite).
  - lia.
  - eapply rtc_l; [apply m_stop | apply rtc_refl].
  - left. reflexivity.
  - split; [exact Hquiet |]. exact (Hfinite _).
Defined.

(** Without [stop] the same machine can go on for ever: its dispatcher reads, times out
    and looks at the flag again and again. *)
Lemma idle_goes_on : exists m,
  rtc (demo_mstep idle) (demo_machine (Idle [])) m /\ tc (demo_mstep idle) m m.
Proof.
  exists (demo_machine (Idle [])). split; [apply rtc_refl |].
  eapply tc_l; [apply m_dispatcher; by eapply d_retry |].
  apply tc_once. apply m_dispatcher. by apply d_load_go.
Qed.
End MachineDemo.
