(* ===== verification/Random.v ===== *)
(** * [random.rs]: bytes from the operating system's entropy source

    The operating system is the function [open], from a path to the reader of the
    file or the error of opening it. *)
From stdpp Require Import prelude list strings.
From Stdlib Require Import ZArith Lia.
From S2P Require Import Prelude Io Bytes.

Section random.
Context {R : Type} `{Reader R} (open : string -> outcome ErrorKind R).

(** [None]: the fuel of the reading loop ran out. *)
Definition get_random_vec (fuel size : nat) : option (outcome ErrorKind (list byte)) :=
  let data := replicate size x00 in
  match open "/dev/urandom" with
  | Ok file =>
    match std_read_exact fuel file [] data with
    | Some (Ok _, data, _) => Some (Ok data)
    | Some (Err e, _, _) => Some (Err e)
    | Some (Panic, _, _) => Some Panic
    | None => None
    end
  | Err e => Some (Err e)
  | Panic => Some Panic
  end.

Definition get_random_u8 (fuel : nat) : option (outcome ErrorKind Z) :=
  match get_random_vec fuel 1 with
  | Some (Ok data) =>
    match data !! 0 with
    | Some b => Some (Ok (Z_of_byte b))
    | None => Some Panic
    end
  | Some (Err e) => Some (Err e)
  | Some Panic => Some Panic
  | None => None
  end.
End random.

Section properties.
Context {R : Type} `{Source R}.

Lemma get_random_vec_cases (open : string -> outcome ErrorKind R) fuel size file :
  open "/dev/urandom" = Ok file -> std_read_fuel file size <= fuel ->
  get_random_vec open fuel size =
    Some (if decide (size <= length (contents file)) then Ok (take size (contents file))
          else Err (ending file)).
Proof.
  intros Hopen Hfuel. unfold get_random_vec. rewrite Hopen.
  destruct (std_read_exact_cases file (replicate size x00) fuel) as [Hc | Hc];
    [by rewrite length_replicate | |]; rewrite length_replicate in Hc.
  - destruct Hc as (Hlen & r' & -> & _). by rewrite decide_True.
  - destruct Hc as (Hlen & r' & junk & ->). rewrite decide_False by lia. done.
Qed.

(** C29 A random vector has the length asked for and is what the device
    delivers, whatever pieces and interruptions it is delivered in; a random [u8]
    is its first byte.  Neither panics: a device that cannot be opened, or that
    ends or fails before enough bytes came, is the error returned. *)
Theorem get_random_u8_spec (open : string -> outcome ErrorKind R) fuel size :
  open "/dev/urandom" <> Panic ->
  (forall file, open "/dev/urandom" = Ok file ->
     std_read_fuel file (size `max` 1) <= fuel) ->
  match open "/dev/urandom" with
  | Ok file =>
    get_random_vec open fuel size =
      Some (if decide (size <= length (contents file)) then Ok (take size (contents file))
            else Err (ending file)) /\
    get_random_u8 open fuel =
      Some (match contents file with b :: _ => Ok (Z_of_byte b) | [] => Err (ending file) end)
  | Err e => get_random_vec open fuel size = Some (Err e) /\
      get_random_u8 open fuel = Some (Err e)
  | Panic => False
  end.
Proof.
  intros Hok Hfuel. destruct (open "/dev/urandom") as [file | e |] eqn:Hopen; [| | done].
  - specialize (Hfuel file eq_refl). unfold std_read_fuel in Hfuel. unfold get_random_u8.
    rewrite !(get_random_vec_cases _ _ _ _ Hopen) by (unfold std_read_fuel; lia).
    split; [done |]. by destruct (contents file).
  - unfold get_random_u8, get_random_vec. by rewrite Hopen.
Qed.
End properties.

Lemma get_random_u8_spec_witness :
  let open (path : string) : outcome ErrorKind script :=
    Ok (Script [Fault Interrupted; Chunk x2a [x01; x02]] []) in
  get_random_vec open 10 2 = Some (Ok [x2a; x01]) /\
  get_random_u8 open 10 = Some (Ok 42%Z).
Proof.
  intros open.
  assert (forall file, open "/dev/urandom"%string = Ok file ->
    std_read_fuel file (2 `max` 1) <= 10) as Hfuel
    by (intros file [= <-]; vm_compute; lia).
  assert (open "/dev/urandom"%string <> Panic) as Hopen by discriminate.
  destruct (get_random_u8_spec open 10 2 Hopen Hfuel) as [-> ->]. split; reflexivity.
Defined.
