(* ===== verification/Threads.v ===== *)
(** * Threads, join handles and shared flags

    The store the life cycles of [Encoder] and [Decoder] act on: the threads spawned
    so far, each with what it runs, and the [AtomicBool]s, which an [Arc] shares
    between the object that sets them and the thread that loads them.  A
    [JoinHandle] is the number of its thread, an [Arc<AtomicBool>] that of its
    flag. *)
From stdpp Require Import prelude list.
From S2P Require Import Prelude.

Abbreviation handle := nat (only parsing).
Abbreviation flag := nat (only parsing).

Record threads (T : Type) := Threads { spawned : list T; flags : list bool }.
Arguments Threads {T} _ _.
Arguments spawned {T} _.
Arguments flags {T} _.

Section threads.
Context {T : Type}.
Implicit Types (w : threads T).

(** [thread::spawn]. *)
Definition spawn (t : T) w : handle * threads T :=
  (length (spawned w), Threads (spawned w ++ [t]) (flags w)).

(** [Arc::new(AtomicBool::new(false))]. *)
Definition new_flag w : flag * threads T :=
  (length (flags w), Threads (spawned w) (flags w ++ [false])).

(** [AtomicBool::store]. *)
Definition store (f : flag) (b : bool) w : threads T :=
  Threads (spawned w) (<[f := b]> (flags w)).

(** Joining threads in order; an [Err] of [join] (the thread panicked) is resumed at
    once.  The threads joined, and whether one had panicked. *)
Fixpoint join_each (panicked : handle -> bool) (hs : list handle) : list handle * bool :=
  match hs with
  | [] => ([], false)
  | h :: hs =>
    if panicked h then ([h], true)
    else let (js, p) := join_each panicked hs in (h :: js, p)
  end.

Lemma join_each_ok panicked hs :
  Forall (fun h => panicked h = false) hs -> join_each panicked hs = (hs, false).
Proof. induction 1 as [| h hs Hh _ IH]; cbn; [done |]. by rewrite Hh, IH. Qed.

Lemma join_each_panic panicked hs :
  Exists (fun h => panicked h = true) hs -> (join_each panicked hs).2 = true.
Proof.
  induction 1 as [h hs Hh | h hs _ IH]; cbn; [by rewrite Hh |].
  destruct (panicked h); [done |]. by destruct (join_each panicked hs).
Qed.

(** Without a panic all were joined. *)
Lemma join_each_done panicked hs js :
  join_each panicked hs = (js, false) -> js = hs.
Proof.
  revert js. induction hs as [| h hs IH]; intros js Hj; simplify_eq/=; [done |].
  destruct (panicked h); [done |]. destruct (join_each panicked hs) as [js' p].
  simplify_eq. f_equal. by apply IH.
Qed.

Lemma join_each_app panicked hs hs' :
  join_each panicked (hs ++ hs') =
    let (js, p) := join_each panicked hs in
    if p then (js, true) else let (js', p') := join_each panicked hs' in (js ++ js', p').
Proof.
  induction hs as [| h hs IH]; cbn; [by destruct (join_each panicked hs') |].
  destruct (panicked h); [done |]. rewrite IH.
  destruct (join_each panicked hs) as [js [|]]; [done |].
  by destruct (join_each panicked hs').
Qed.
End threads.
