(* ===== verification/Encoder.v ===== *)
(** * [encoder.rs]: the encoder's threads

    [dispatch] cuts the input into numbered blocks and routes them, [forward_packets]
    writes packets out; [start_encoding], [stop] and [wait] are the life cycle of
    [Encoder] on the store of [Threads]; [encoding_network] is the network of
    [Pipeline] that the threads it spawns make up. *)
From stdpp Require Import prelude list strings relations.
From Stdlib Require Import ZArith Lia.
From S2P Require Import Prelude Io Bytes RaptorQ Chan BlockEncoder Pipeline Dispatch Threads.

Inductive BlockDispatcherError := DispatchSend (b : Block) | DispatchIO (e : ErrorKind).

(** [impl From<SendError<Block>>] and [impl From<io::Error> for BlockDispatcherError]. *)
Definition dispatch_from_send (b : Block) : BlockDispatcherError := DispatchSend b.
Definition dispatch_from_io (e : ErrorKind) : BlockDispatcherError := DispatchIO e.

(** [impl Display for BlockDispatcherError]; the texts of the standard library's errors
    are its own. *)
Definition BlockDispatcherError_fmt (io_fmt : ErrorKind -> string)
    (e : BlockDispatcherError) : string :=
  match e with
  | DispatchSend _ => "sending on a closed channel"
  | DispatchIO e => io_fmt e
  end.

Record BlockDispatcher := MkBlockDispatcher {
  disp_block_size : Z;
  disp_current_block_id : Z;
  disp_should_stop : flag
}.

(** [BlockDispatcher::new]; [random] is the result of [get_random_u8]. *)
Definition BlockDispatcher_new {T} (random : outcome ErrorKind Z) (block_size : Z)
    (w : threads T) : outcome BlockDispatcherError BlockDispatcher * threads T :=
  match random with
  | Ok id =>
    let (should_stop, w) := new_flag w in
    (Ok (MkBlockDispatcher block_size id should_stop), w)
  | Err e => (Err (dispatch_from_io e), w)
  | Panic => (Panic, w)
  end.

(** [rfuel] bounds each [read_exact], [fuel] the number of blocks. *)
Fixpoint dispatch {R} `{Reader R} (fuel rfuel : nat) (self : BlockDispatcher)
    (input_stream : R) (block_queues : list (sender Block))
    : option (outcome BlockDispatcherError unit * BlockDispatcher * list (sender Block)) :=
  match fuel with
  | 0 => None
  | S fuel =>
    let buffer := replicate (Z.to_nat (disp_block_size self)) x00 in
    match read_exact rfuel input_stream buffer with
    | None => None
    | Some (Ok _, buffer, input_stream) =>
      let block := MkBlock (disp_current_block_id self) buffer in
      match route_one id block_queues block with
      | (Ok _, block_queues) =>
        let self := MkBlockDispatcher (disp_block_size self)
          (wadd 8 (disp_current_block_id self) 1) (disp_should_stop self) in
        dispatch fuel rfuel self input_stream block_queues
      | (Err b, block_queues) => Some (Err (dispatch_from_send b), self, block_queues)
      | (Panic, block_queues) => Some (Panic, self, block_queues)
      end
    | Some (Err e, _, _) =>
      if decide (e = UnexpectedEof \/ e = Interrupted)
      then Some (Ok tt, self, block_queues)
      else Some (Err (DispatchIO e), self, block_queues)
    | Some (Panic, _, _) => Some (Panic, self, block_queues)
    end
  end.

(** ** What the dispatcher makes of its input *)

(** The blocks the data are cut into: numbered in order, modulo 256. *)
Fixpoint number_blocks (id : Z) (ds : list (list byte)) : list Block :=
  match ds with
  | [] => []
  | d :: ds => MkBlock id d :: number_blocks (wadd 8 id 1) ds
  end.

Lemma number_blocks_lookup id ds i :
  fits 8 id -> number_blocks id ds !! i = MkBlock (wrap 8 (id + Z.of_nat i)) <$> ds !! i.
Proof.
  revert id i. induction ds as [| d ds IH]; intros id [| i] Hid; cbn; [done.. | |].
  - by rewrite Z.add_0_r, wrap_small.
  - rewrite IH by (apply wrap_fits; lia). destruct (ds !! i); cbn; [| done]. do 2 f_equal.
    unfold wadd, wrap. rewrite Zplus_mod_idemp_l. f_equal. lia.
Qed.

Lemma number_blocks_data id ds : data <$> number_blocks id ds = ds.
Proof. revert id. induction ds as [| d ds IH]; intros; cbn; by rewrite ?IH. Qed.

Lemma length_number_blocks id ds : length (number_blocks id ds) = length ds.
Proof. revert id. induction ds; intros; cbn; auto. Qed.

Lemma number_blocks_ids id ds : fits 8 id -> Forall (fun b => fits 8 (BlockEncoder.id b)) (number_blocks id ds).
Proof.
  revert id. induction ds as [| d ds IH]; intros; cbn; constructor; [done |].
  apply IH, wrap_fits. lia.
Qed.

(** How [dispatch] reports the end of its input. *)
Definition dispatch_end (e : ErrorKind) : outcome BlockDispatcherError unit :=
  if decide (e = UnexpectedEof \/ e = Interrupted) then Ok tt else Err (DispatchIO e).

Section dispatch.
Context {R : Type} `{Stream R}.

Lemma dispatch_records fuel rfuel self (r : R) qs :
  (0 < disp_block_size self)%Z ->
  let n := Z.to_nat (disp_block_size self) in
  length (avail r) / n < fuel -> read_fuel r n <= rfuel ->
  let blocks := number_blocks (disp_current_block_id self) (records n (avail r)) in
  exists self', 
    dispatch fuel rfuel self r qs =
      Some (match route_each id qs blocks with
            | (Ok _, qs) => (dispatch_end (fin r), self', qs)
            | (Err b, qs) => (Err (DispatchSend b), self', qs)
            | (Panic, qs) => (Panic, self', qs)
            end) /\
    disp_block_size self' = disp_block_size self /\
    disp_should_stop self' = disp_should_stop self.
Proof.
  intros Hbs n. revert self r qs Hbs n. induction fuel as [| fuel IH]; intros self r qs Hbs n;
    [lia |]. cbn [dispatch]. fold n. intros Hfuel Hrfuel.
  assert (0 < n) as Hn by lia.
  destruct (read_exact_cases r (replicate n x00) rfuel) as [Hc | Hc];
    [by rewrite length_replicate | |]; rewrite length_replicate in Hc.
  - destruct Hc as (Hlen & r' & -> & Ha & Hf & Hp).
    rewrite records_cons by done. cbn [number_blocks route_each]. rewrite <- Ha.
    destruct (route_one _ _ _) as [[[] | b |] qs1]; [| by exists self..].
    set (self1 := MkBlockDispatcher _ _ _). rewrite <- Hf.
    destruct (IH self1 r' qs1 Hbs) as (self' & Hrun & Hs1 & Hs2); [| | by exists self'].
    + cbn. rewrite Ha, length_drop. cbn in Hfuel. fold n.
      replace (length (avail r)) with ((length (avail r) - n) + 1 * n) in Hfuel by lia.
      rewrite Nat.div_add in Hfuel by lia. lia.
    + unfold read_fuel in *. cbn. lia.
  - destruct Hc as (Hlen & r' & junk & ->). rewrite records_short by done. exists self.
    unfold dispatch_end. cbn. by case_decide.
Qed.

(** C23 The block dispatcher terminates.  It cuts the input into blocks of the
    block size, in order, dropping an incomplete last one, numbers them
    consecutively modulo 256 from its first id, and sends each to the queue its
    number names modulo the number of queues.  It ends well at the end of the
    input and when it is stopped, reports any other read error, and stops at the
    first block whose queue is closed. *)
Theorem dispatch_spec fuel rfuel self (r : R) qs :
  (0 < disp_block_size self)%Z -> 0 < length qs ->
  let n := Z.to_nat (disp_block_size self) in
  length (avail r) / n < fuel -> read_fuel r n <= rfuel ->
  let blocks := number_blocks (disp_current_block_id self) (records n (avail r)) in
  exists res self' routed qs', dispatch fuel rfuel self r qs = Some (res, self', qs') /\
    routes id qs blocks routed qs' /\
    res = match routed with
          | Ok _ =>
            if decide (fin r = UnexpectedEof \/ fin r = Interrupted) then Ok tt
            else Err (DispatchIO (fin r))
          | Err b => Err (DispatchSend b)
          | Panic => Panic
          end.
Proof.
  intros Hbs Hqs n Hfuel Hrfuel blocks.
  destruct (dispatch_records fuel rfuel self r qs Hbs Hfuel Hrfuel) as (self' & Hrun & _).
  destruct (route_each_spec id qs blocks Hqs) as (routed & qs' & Heq & Hroutes).
  unfold blocks, n in *. rewrite Heq in Hrun.
  destruct routed; eexists _, self', _, qs'; (split; [exact Hrun | by split]).
Qed.
End dispatch.

(** ** The packet forwarder *)
Section forward.
Context `{C : RaptorQ} {W : Type} `{Writer W}.

Fixpoint forward_packets (fuel : nat) (packet_queue : list EncodingPacket) (output_stream : W)
    : option (outcome ErrorKind unit * W) :=
  match packet_queue with
  | [] => Some (Ok tt, output_stream)
  | packet :: packet_queue =>
    match write_all fuel output_stream (serialize packet) with
    | Some (Ok _, output_stream) => forward_packets fuel packet_queue output_stream
    | Some (Err e, output_stream) => Some (Err e, output_stream)
    | Some (Panic, output_stream) => Some (Panic, output_stream)
    | None => None
    end
  end.

Lemma forward_packets_each fuel ps w :
  forward_packets fuel ps w = write_each fuel (serialize <$> ps) w.
Proof using.
  revert w. induction ps as [| p ps IH]; intros w; [done |]. cbn.
  by destruct (write_all fuel w (serialize p)) as [[[] w'] |].
Qed.
End forward.

(** The packet forwarder terminates and writes the serialised packets in
    the order it receives them; when the output fails it stops, having written
    a beginning of them. *)
Theorem forward_packets_spec `{C : RaptorQ} {W} `{Sink W} fuel ps (w : W) :
  Forall (fun p => write_fuel w (length (serialize p)) <= fuel) ps ->
  exists res w', forward_packets fuel ps w = Some (res, w') /\ res <> Panic /\
    exists k, written w' = written w ++ take k (ps ≫= serialize) /\
      (res = Ok tt -> take k (ps ≫= serialize) = ps ≫= serialize).
Proof.
  intros Hfuel. rewrite forward_packets_each.
  replace (ps ≫= serialize) with (concat (serialize <$> ps))
    by (clear; induction ps; cbn; congruence).
  apply write_each_spec. by rewrite Forall_fmap.
Qed.

(** ** The life cycle *)
Section encoder.
Context `{C : RaptorQ}.

Inductive EncoderError :=
| EncoderBlockEncoder (e : BlockEncoderError)
| EncoderBlockDispatcher (e : BlockDispatcherError)
| EncoderIO (e : ErrorKind)
| EncoderInvalidState (s : string).

(** [impl Display for EncoderError]. *)
Definition EncoderError_fmt (io_fmt : ErrorKind -> string) (e : EncoderError) : string :=
  match e with
  | EncoderBlockEncoder e => BlockEncoderError_fmt e
  | EncoderBlockDispatcher e => BlockDispatcherError_fmt io_fmt e
  | EncoderIO e => io_fmt e
  | EncoderInvalidState s => s
  end.

(** The three [From] conversions. *)
Definition encoder_from_block_encoder (e : BlockEncoderError) : EncoderError :=
  EncoderBlockEncoder e.
Definition encoder_from_block_dispatcher (e : BlockDispatcherError) : EncoderError :=
  EncoderBlockDispatcher e.
Definition encoder_from_io (e : ErrorKind) : EncoderError := EncoderIO e.

(** What a spawned thread runs. *)
Inductive encoder_task :=
| PacketForwarderTask
| BlockEncoderTask (e : BlockEncoder)
| BlockDispatcherTask (d : BlockDispatcher).

Record Encoder := MkEncoder {
  enc_block_size : Z;
  enc_max_packet_size : Z;
  enc_repair_packets_per_block : Z;
  enc_num_block_encoders : nat;
  block_dispatcher : option handle;
  block_dispatcher_should_stop : flag;
  block_encoders : list handle;
  packet_forwarder : option handle
}.

(** Assignments to its fields. *)
Definition set_dispatcher (h : option handle) (self : Encoder) : Encoder :=
  MkEncoder (enc_block_size self) (enc_max_packet_size self)
    (enc_repair_packets_per_block self) (enc_num_block_encoders self)
    h (block_dispatcher_should_stop self) (block_encoders self) (packet_forwarder self).
Definition set_should_stop (f : flag) (self : Encoder) : Encoder :=
  MkEncoder (enc_block_size self) (enc_max_packet_size self)
    (enc_repair_packets_per_block self) (enc_num_block_encoders self)
    (block_dispatcher self) f (block_encoders self) (packet_forwarder self).
Definition set_encoders (hs : list handle) (self : Encoder) : Encoder :=
  MkEncoder (enc_block_size self) (enc_max_packet_size self)
    (enc_repair_packets_per_block self) (enc_num_block_encoders self)
    (block_dispatcher self) (block_dispatcher_should_stop self) hs (packet_forwarder self).
Definition set_forwarder (h : option handle) (self : Encoder) : Encoder :=
  MkEncoder (enc_block_size self) (enc_max_packet_size self)
    (enc_repair_packets_per_block self) (enc_num_block_encoders self)
    (block_dispatcher self) (block_dispatcher_should_stop self) (block_encoders self) h.

Abbreviation world := (threads encoder_task).

Definition Encoder_new (block_size max_packet_size repair_packets_per_block : Z)
    (num_block_encoders : nat) (w : world) : Encoder * world :=
  let (should_stop, w) := new_flag w in
  (MkEncoder block_size max_packet_size repair_packets_per_block num_block_encoders
     None should_stop [] None, w).

(** The loop that starts the block encoder threads. *)
Fixpoint start_block_encoders (n : nat) (self : Encoder) (w : world)
    : outcome EncoderError unit * Encoder * world :=
  match n with
  | 0 => (Ok tt, self, w)
  | S n =>
    match omap_err encoder_from_block_encoder
        (BlockEncoder_new (enc_block_size self) (enc_max_packet_size self)
           (enc_repair_packets_per_block self)) with
    | Ok block_encoder =>
      let (h, w) := spawn (BlockEncoderTask block_encoder) w in
      start_block_encoders n (set_encoders (block_encoders self ++ [h]) self) w
    | Err e => (Err e, self, w)
    | Panic => (Panic, self, w)
    end
  end.

(** [random] is the result of [get_random_u8]. *)
Definition start_encoding (random : outcome ErrorKind Z) (self : Encoder) (w : world)
    : outcome EncoderError unit * Encoder * world :=
  let (h, w) := spawn PacketForwarderTask w in
  let self := set_forwarder (Some h) self in
  match start_block_encoders (enc_num_block_encoders self) self w with
  | (Ok _, self, w) =>
    let (d, w) := BlockDispatcher_new random (enc_block_size self) w in
    match omap_err encoder_from_block_dispatcher d with
    | Ok d =>
      let self := set_should_stop (disp_should_stop d) self in
      let (h, w) := spawn (BlockDispatcherTask d) w in
      (Ok tt, set_dispatcher (Some h) self, w)
    | Err e => (Err e, self, w)
    | Panic => (Panic, self, w)
    end
  | (Err e, self, w) => (Err e, self, w)
  | (Panic, self, w) => (Panic, self, w)
  end.

Definition stop (self : Encoder) (w : world) : world :=
  store (block_dispatcher_should_stop self) true w.

(** [panicked] says how each thread ended.  The threads joined are returned too. *)
Definition wait (panicked : handle -> bool) (self : Encoder)
    : outcome EncoderError unit * Encoder * list handle :=
  match block_dispatcher self with
  | None => (Err (EncoderInvalidState "Block dispatcher not initialized"), self, [])
  | Some block_dispatcher =>
    let self := set_dispatcher None self in
    match packet_forwarder self with
    | None => (Err (EncoderInvalidState "Packet forwarder not initialized"), self, [])
    | Some packer_forwarder =>
      let self := set_forwarder None self in
      match join_each panicked [block_dispatcher] with
      | (js, true) => (Panic, self, js)
      | (js, false) =>
        let handles := block_encoders self in
        let self := set_encoders [] self in
        match join_each panicked handles with
        | (js', true) => (Panic, self, js ++ js')
        | (js', false) =>
          let (js'', p) := join_each panicked [packer_forwarder] in
          (if p then Panic else Ok tt, self, js ++ js' ++ js'')
        end
      end
    end
  end.

(** The encoder thread's code is built from the same parameters every time. *)
Abbreviation new_block_encoder self :=
  (BlockEncoder_new (enc_block_size self) (enc_max_packet_size self)
     (enc_repair_packets_per_block self)).

Lemma start_block_encoders_ok n self w e :
  new_block_encoder self = Ok e ->
  start_block_encoders n self w =
    (Ok tt, set_encoders (block_encoders self ++ seq (length (spawned w)) n) self,
     Threads (spawned w ++ replicate n (BlockEncoderTask e)) (flags w)).
Proof.
  revert self w. induction n as [| n IH]; intros self w Hnew; cbn.
  - rewrite !app_nil_r. by destruct self, w.
  - rewrite Hnew. cbn. rewrite IH by done. cbn.
    rewrite length_app, <- !app_assoc, Nat.add_1_r. done.
Qed.

Lemma start_block_encoders_cases n self w :
  let '(res, self', w') := start_block_encoders n self w in
  match res with
  | Ok _ =>
    exists es, length es = n /\ w' = Threads (spawned w ++ es) (flags w) /\
      self' = set_encoders (block_encoders self ++ seq (length (spawned w)) n) self /\
      forall t, t ∈ es -> exists e, t = BlockEncoderTask e /\ new_block_encoder self = Ok e
  | Err err =>
    self' = self /\ w' = w /\ 0 < n /\
    exists e, err = EncoderBlockEncoder e /\ new_block_encoder self = Err e
  | Panic => 0 < n /\ new_block_encoder self = Panic
  end.
Proof.
  destruct n as [| n].
  { exists []. cbn. rewrite !app_nil_r. split; [done |]. split; [by destruct w |].
    split; [by destruct self |]. by intros t ?%elem_of_nil. }
  destruct (new_block_encoder self) as [e | e |] eqn:Hnew.
  - rewrite (start_block_encoders_ok _ _ _ e) by done.
    exists (replicate (S n) (BlockEncoderTask e)). split; [by apply length_replicate |].
    split; [done |]. split; [done |]. intros t [-> _]%elem_of_replicate. eauto.
  - cbn. rewrite Hnew. cbn. split_and!; eauto with lia.
  - cbn. rewrite Hnew. cbn. split; [lia | done].
Qed.

(** What [start_encoding] leaves behind: the threads it spawned and the handles and
    flag it kept. *)
Record started (self self' : Encoder) (w w' : world) (es : list encoder_task)
    (d : BlockDispatcher) : Prop := {
  started_spawned :
    spawned w' = spawned w ++ PacketForwarderTask :: es ++ [BlockDispatcherTask d];
  started_encoders : length es = enc_num_block_encoders self;
  started_flags : flags w' = flags w ++ [false];
  started_flag : disp_should_stop d = length (flags w);
  started_size : disp_block_size d = enc_block_size self;
  started_self :
    self' = set_dispatcher (Some (length (spawned w) + S (length es)))
      (set_should_stop (disp_should_stop d)
        (set_encoders (block_encoders self ++ seq (S (length (spawned w))) (length es))
          (set_forwarder (Some (length (spawned w))) self)))
}.

Lemma start_encoding_cases random self w :
  let '(res, self', w') := start_encoding random self w in
  match res with
  | Ok _ =>
    exists es d, started self self' w w' es d /\ random = Ok (disp_current_block_id d) /\
      forall t, t ∈ es -> exists e, t = BlockEncoderTask e /\ new_block_encoder self = Ok e
  | Err err =>
    block_dispatcher self' = block_dispatcher self /\
    packet_forwarder self' = Some (length (spawned w)) /\ flags w' = flags w /\
    ((exists e, err = EncoderBlockEncoder e /\ new_block_encoder self = Err e /\
       0 < enc_num_block_encoders self /\ spawned w' = spawned w ++ [PacketForwarderTask]) \/
     (exists e es, err = EncoderBlockDispatcher (DispatchIO e) /\ random = Err e /\
       spawned w' = spawned w ++ PacketForwarderTask :: es /\
       length es = enc_num_block_encoders self /\
       forall t, t ∈ es -> exists e, t = BlockEncoderTask e /\ new_block_encoder self = Ok e))
  | Panic =>
    0 < enc_num_block_encoders self /\ new_block_encoder self = Panic \/ random = Panic
  end.
Proof.
  unfold start_encoding. cbn [spawn].
  set (w0 := Threads (spawned w ++ [PacketForwarderTask]) (flags w)).
  set (self0 := set_forwarder _ self).
  pose proof (start_block_encoders_cases (enc_num_block_encoders self) self0 w0) as Hcases.
  change (enc_num_block_encoders self0) with (enc_num_block_encoders self).
  destruct (start_block_encoders _ self0 w0) as [[[[] | err |] self1] w1]; cbn in *.
  - destruct Hcases as (es & Hlen & -> & -> & Hes).
    destruct random as [id | e |]; cbn;
      [| split_and!; try done; right; exists e, es; by rewrite <- app_assoc | by right].
    exists es, (MkBlockDispatcher (enc_block_size self) id (length (flags w))).
    split; [| split; [done | exact Hes]]. split; cbn; try done.
    + by rewrite <- !app_assoc.
    + unfold self0. cbn. rewrite !length_app, Hlen. cbn.
      by rewrite Nat.add_1_r, <- plus_n_Sm.
  - destruct Hcases as (-> & -> & Hn & e & -> & Hnew). split_and!; eauto 10.
  - by left.
Qed.

(** A start without errors. *)
Lemma start_encoding_ok first_id self w e :
  new_block_encoder self = Ok e ->
  exists self' w', start_encoding (Ok first_id) self w = (Ok tt, self', w').
Proof.
  intros Hnew. pose proof (start_encoding_cases (Ok first_id) self w) as Hcases.
  destruct (start_encoding (Ok first_id) self w) as [[[[] | err |] self'] w']; [by eexists _, _ |..].
  - destruct Hcases as (_ & _ & _ & [(? & _ & ? & _) | (? & ? & _ & ? & _)]); congruence.
  - destruct Hcases as [[_ ?] | ?]; congruence.
Qed.

(** C26 [start_encoding] spawns the forwarder, the configured number of encoders
    and the dispatcher, keeps their handles, and shares a new stop flag with the
    dispatcher.  Its errors are those of the block size, met when the forwarder and no
    other thread has been spawned, and of the entropy source, met when the forwarder
    and all encoders have been spawned and no dispatcher. *)
Theorem start_encoding_spec random self w :
  let '(res, self', w') := start_encoding random self w in
  match res with
  | Ok _ =>
    exists es d, started self self' w w' es d /\ random = Ok (disp_current_block_id d) /\
      forall t, t ∈ es -> exists e, t = BlockEncoderTask e /\ new_block_encoder self = Ok e
  | Err err =>
    block_dispatcher self' = block_dispatcher self /\
    packet_forwarder self' = Some (length (spawned w)) /\ flags w' = flags w /\
    ((exists e, err = EncoderBlockEncoder e /\ new_block_encoder self = Err e /\
       0 < enc_num_block_encoders self /\ spawned w' = spawned w ++ [PacketForwarderTask]) \/
     (exists e es, err = EncoderBlockDispatcher (DispatchIO e) /\ random = Err e /\
       spawned w' = spawned w ++ PacketForwarderTask :: es /\
       length es = enc_num_block_encoders self /\
       forall t, t ∈ es -> exists e, t = BlockEncoderTask e /\ new_block_encoder self = Ok e))
  | Panic =>
    0 < enc_num_block_encoders self /\ new_block_encoder self = Panic \/ random = Panic
  end.
Proof. apply start_encoding_cases. Qed.

(** [wait] joins the dispatcher, the encoders and the forwarder, in this order, up to
    the first that panicked. *)
Lemma wait_handles panicked self d f :
  block_dispatcher self = Some d -> packet_forwarder self = Some f ->
  let (js, p) := join_each panicked (d :: block_encoders self ++ [f]) in
  exists self', wait panicked self = (if p then Panic else Ok tt, self', js) /\
    block_dispatcher self' = None /\ packet_forwarder self' = None.
Proof.
  intros Hd Hf. change (d :: block_encoders self ++ [f]) with ([d] ++ block_encoders self ++ [f]).
  rewrite join_each_app, join_each_app. unfold wait. rewrite Hd. cbn [packet_forwarder set_dispatcher].
  rewrite Hf. destruct (join_each panicked [d]) as [js [|]]; [by eexists |].
  cbn [block_encoders set_forwarder set_dispatcher].
  destruct (join_each panicked (block_encoders self)) as [js' [|]]; [by eexists |].
  destruct (join_each panicked [f]) as [js'' p]. by eexists.
Qed.

(** After a start, when no thread panics. *)
Lemma started_waits random self w self' w' :
  start_encoding random self w = (Ok tt, self', w') ->
  (wait (fun _ => false) self').1.1 = Ok tt.
Proof.
  intros Hstart. pose proof (start_encoding_cases random self w) as Hcases.
  rewrite Hstart in Hcases. destruct Hcases as (es & d & [_ _ _ _ _ ->] & _).
  set (self' := set_dispatcher _ _).
  pose proof (wait_handles (fun _ => false) self' _ _ eq_refl eq_refl) as Hwait.
  set (hs := _ :: _) in Hwait. rewrite (join_each_ok _ hs) in Hwait by by apply Forall_forall.
  by destruct Hwait as (self'' & -> & _).
Qed.

Lemma wait_idle panicked self :
  block_dispatcher self = None ->
  wait panicked self =
    (Err (EncoderInvalidState "Block dispatcher not initialized"), self, []).
Proof. intros Hd. unfold wait. by rewrite Hd. Qed.

(** C25 The life cycle of an encoder that started: [stop] sets the flag its
    dispatcher loads and no other; [wait] joins the dispatcher, then every encoder
    thread, then the forwarder, and resumes the panic of any of them; before the
    start and after a [wait], [wait] is an error. *)
Theorem encoder_lifecycle bs mps r n random w0 w self self' w' panicked :
  Encoder_new bs mps r n w0 = (self, w) ->
  start_encoding random self w = (Ok tt, self', w') ->
  let first := length (spawned w0) in
  let handles := first + S n :: seq (S first) n ++ [first] in
  wait panicked self =
    (Err (EncoderInvalidState "Block dispatcher not initialized"), self, []) /\
  flags (stop self' w') = flags w ++ [true] /\
  (exists id, random = Ok id /\
     last (spawned w') =
       Some (BlockDispatcherTask (MkBlockDispatcher bs id (length (flags w))))) /\
  exists self'' js res, wait panicked self' = (res, self'', js) /\
    (Forall (fun h => panicked h = false) handles -> res = Ok tt /\ js = handles) /\
    (Exists (fun h => panicked h = true) handles -> res = Panic) /\
    wait panicked self'' =
      (Err (EncoderInvalidState "Block dispatcher not initialized"), self'', []).
Proof.
  intros Hnew Hstart first handles. unfold Encoder_new in Hnew. cbn in Hnew. simplify_eq.
  pose proof (start_encoding_cases random (MkEncoder bs mps r n None (length (flags w0)) [] None)
    (Threads (spawned w0) (flags w0 ++ [false]))) as Hcases.
  rewrite Hstart in Hcases. destruct Hcases as (es & d & Hs & Hrandom & _).
  destruct Hs as [Hsp Hes Hfl Hflag Hsize ->].
  cbn [spawned flags enc_num_block_encoders enc_block_size block_encoders app] in *.
  split_and!; [done | | |].
  - unfold stop, store. cbn. rewrite Hfl, Hflag.
    rewrite insert_app_r_alt, Nat.sub_diag by done. done.
  - exists (disp_current_block_id d). split; [done |].
    rewrite Hsp, app_comm_cons, app_assoc, last_snoc, <- Hflag, <- Hsize. by destruct d.
  - set (self' := set_dispatcher _ _).
    pose proof (wait_handles panicked self' _ _ eq_refl eq_refl) as Hwait.
    cbn [block_encoders self' set_dispatcher set_should_stop set_encoders] in Hwait.
    rewrite Hes in Hwait. fold first handles in Hwait.
    destruct (join_each panicked handles) as [js p] eqn:Hjoin.
    destruct Hwait as (self'' & Hwait & Hd & _). exists self'', js, (if p then Panic else Ok tt).
    split_and!; [done | | | by apply wait_idle].
    + intros Hok. rewrite join_each_ok in Hjoin by done. by simplify_eq.
    + intros Hex%join_each_panic. rewrite Hjoin in Hex. cbn in Hex. by subst p.
Qed.
End encoder.

(** ** The network of the threads *)
Section network.
Context `{L : RaptorQLaws}.

Abbreviation new_block_encoder self :=
  (BlockEncoder_new (enc_block_size self) (enc_max_packet_size self)
     (enc_repair_packets_per_block self)).

(** A turn of the loop of [encode_stream]. *)
Definition encode_work (e : BlockEncoder) (b : Block)
    : option (BlockEncoder * list EncodingPacket) :=
  match encode e b with Ok ps => Some (e, ps) | _ => None end.

Definition task_encoder (t : encoder_task) : option BlockEncoder :=
  match t with BlockEncoderTask e => Some e | _ => None end.

(** The network of the spawned threads [ts], when the input stream delivers
    [bytes]. *)
Definition encoding_network (ts : list encoder_task) (bytes : list byte)
    : option (state (A := Block) (B := EncodingPacket) (W := BlockEncoder)) :=
  match last ts with
  | Some (BlockDispatcherTask d) =>
    let blocks := number_blocks (disp_current_block_id d)
      (records (Z.to_nat (disp_block_size d)) bytes) in
    Some (init blocks (omap task_encoder ts))
  | _ => None
  end.

(** Its steps, with [n] block encoders. *)
Definition encoding_step (n : nat) (faulty : bool) := step (slot id n) encode_work faulty.

Lemma run_encode e k bs :
  wf_encoder e k -> Forall (wf_block e) bs ->
  run encode_work e bs = packets_of_all e bs /\ works encode_work e bs.
Proof using L.
  intros He. induction 1 as [| b bs Hb _ [IH1 IH2]]; [done |]. cbn [run works].
  assert (encode_work e b = Some (e, packets_of e b)) as ->.
  { unfold encode_work. by rewrite (encode_wf _ _ _ He Hb). }
  by rewrite IH1.
Qed.

Lemma omap_encoders es e :
  Forall (fun t => t = BlockEncoderTask e) es ->
  omap task_encoder es = replicate (length es) e.
Proof using. induction 1 as [| t es -> _ IH]; cbn; [done |]. by rewrite IH. Qed.

(** The network of an encoder that started. *)
Lemma encoding_network_started first_id self self' w' e bytes :
  new_block_encoder self = Ok e ->
  start_encoding (Ok first_id) self (Threads [] []) = (Ok tt, self', w') ->
  encoding_network (spawned w') bytes =
    Some (init (number_blocks first_id (records (Z.to_nat (enc_block_size self)) bytes))
      (replicate (enc_num_block_encoders self) e)).
Proof using.
  intros Hnew Hstart.
  pose proof (start_encoding_cases (Ok first_id) self (Threads [] [])) as Hcases.
  rewrite Hstart in Hcases. destruct Hcases as (es & d & [Hsp Hlen _ _ Hsize _] & [= ->] & Hes).
  unfold encoding_network. rewrite Hsp. cbn [spawned app].
  rewrite app_comm_cons, last_snoc, Hsize. do 2 f_equal.
  cbn. rewrite omap_app, (omap_encoders _ e), Hlen; cbn; [by rewrite app_nil_r |].
  apply Forall_forall. intros t Ht. destruct (Hes t Ht) as (e' & -> & ?). congruence.
Qed.

Lemma number_blocks_wf e first_id n bytes :
  (0 < n) -> Z.of_nat n = block_size e -> fits 8 first_id ->
  Forall (wf_block e) (number_blocks first_id (records n bytes)).
Proof using.
  intros Hn Hsize Hid. pose proof (records_lengths n bytes) as Hlen.
  revert first_id Hid. induction Hlen as [| d ds Hd _ IH]; intros first_id Hid;
    constructor; [split; cbn; [lia | done] |].
  apply IH, wrap_fits. lia.
Qed.
(** What the workers write when nothing fails. *)
Lemma encoder_network_out n e k blocks st :
  wf_encoder e k -> Forall (wf_block e) blocks -> 0 < n ->
  rtc (encoding_step n false) (init blocks (replicate n e)) st -> terminal st ->
  interleaving ((fun i => packets_of_all e (share id n i blocks)) <$> seq 0 n) (out st).
Proof using L.
  intros Hwf Hblocks Hn Hrun Hend.
  assert (forall i, Forall (wf_block e) (share id n i blocks)) as Hshare
    by (intros i; by apply share_Forall).
  rewrite <- (imap_replicate (fun i e => packets_of_all e (share id n i blocks)) n e).
  destruct (out_exact_cases (slot id n) encode_work false blocks (replicate n e) st)
    as [_ Hmix]; auto.
  - rewrite length_replicate. apply Forall_forall. intros b _. by apply slot_bound.
  - intros i s [-> _]%lookup_replicate. apply (run_encode e k _ Hwf (Hshare i)).
  - erewrite imap_ext; [exact Hmix |]. intros i s [-> _]%lookup_replicate.
    symmetry. apply (run_encode e k _ Hwf (Hshare i)).
Qed.

(** C9 Everything together: when an encoder with at least one worker starts, its
    threads, however they are scheduled, stop only after they have written out an
    interleaving of what its workers make of their shares of the blocks, each in
    order; nothing is lost or duplicated. *)
Theorem encoder_correct first_id self self' w' e bytes net st :
  (0 < enc_block_size self < 2 ^ 64)%Z -> repairable (enc_repair_packets_per_block self) ->
  0 < enc_num_block_encoders self -> fits 8 first_id ->
  new_block_encoder self = Ok e -> (enc_block_size self <= 56403 * symbol_size (config e))%Z ->
  start_encoding (Ok first_id) self (Threads [] []) = (Ok tt, self', w') ->
  encoding_network (spawned w') bytes = Some net ->
  rtc (encoding_step (enc_num_block_encoders self) false) net st -> terminal st ->
  let n := enc_num_block_encoders self in
  let blocks := number_blocks first_id (records (Z.to_nat (enc_block_size self)) bytes) in
  interleaving ((fun i => packets_of_all e (share id n i blocks)) <$> seq 0 n) (out st) /\
  out st ≡ₚ packets_of_all e blocks.
Proof.
  intros Hbs Hr Hn Hid Hnew Hmax Hstart Hnet Hrun Hend n blocks.
  rewrite (encoding_network_started first_id self self' w' e) in Hnet by done.
  injection Hnet as <-. fold blocks n in Hrun.
  destruct (BlockEncoder_new_wf _ _ _ _ Hbs Hr Hnew) as (k & Hk & He1 & He2 & Hbk & Hwf).
  pose proof (symbol_size_fits (config e)) as Hss. unfold fits in Hss.
  specialize (Hwf ltac:(nia)).
  assert (Forall (wf_block e) blocks) as Hblocks by (apply number_blocks_wf; [lia | lia | done]).
  pose proof (encoder_network_out _ _ _ _ _ Hwf Hblocks Hn Hrun Hend) as Hmix.
  split; [done |]. rewrite (interleaving_Permutation _ _ Hmix). by apply shares_bind.
Qed.
End network.

(** ** Witnesses *)
Module EncoderDemo.
Import Demo.

(** Two queues, the first of which is closed after one block; five blocks of four
    bytes and a rest arrive in pieces. *)
Definition demo_queues : list (sender Block) := [Sender [] (Some 1); Sender [] None].

Definition demo_input : script :=
  Script [Chunk x01 (replicate 8 x02); Fault TimedOut; Chunk x03 (replicate 12 x04)] [].

Lemma dispatch_spec_witness :
  exists res self' routed qs',
    dispatch 10 30 (MkBlockDispatcher 4 255 0) demo_input demo_queues = Some (res, self', qs') /\
    routes id demo_queues (number_blocks 255 (records 4 (avail demo_input))) routed qs' /\
    match res with Err (DispatchSend b) => id b = 2%Z | _ => False end.
Proof.
  destruct (dispatch_spec 10 30 (MkBlockDispatcher 4 255 0) demo_input demo_queues)
    as (res & self' & routed & qs' & Hrun & Hroutes & Hres).
  - reflexivity.
  - vm_compute. lia.
  - vm_compute. lia.
  - vm_compute. lia.
  - exists res, self', routed, qs'. split; [exact Hrun |]. split; [exact Hroutes |].
    vm_compute in Hrun. injection Hrun as <- _ _. reflexivity.
Defined.

Abbreviation demo_packets i := (packets_of (C := Repetition.code) demo_encoder (demo_block i)).

(** The output takes five bytes, is interrupted, and then fails. *)
Lemma forward_packets_spec_witness :
  let w := Tape [] [Accept 5; Refuse Interrupted; Accept 100; Refuse TimedOut] in
  exists w', forward_packets (C := Repetition.code) 40 (demo_packets 7) w
    = Some (Err TimedOut, w') /\ length (written w') = 12.
Proof.
  intros w.
  destruct (forward_packets_spec (C := Repetition.code) 40 (demo_packets 7) w)
    as (res & w' & Hrun & _).
  - repeat constructor; vm_compute; lia.
  - exists w'. vm_compute in Hrun. injection Hrun as <- <-. split; reflexivity.
Defined.

Definition demo_start :=
  start_encoding (C := Repetition.code) (Ok 255%Z)
    (Encoder_new (C := Repetition.code) 16 11 1 2 (Threads [] [])).1
    (Encoder_new (C := Repetition.code) 16 11 1 2 (Threads [] [])).2.

(** The dispatcher, spawned last, panicked. *)
Lemma encoder_lifecycle_witness :
  demo_start.1.1 = Ok tt /\
  (wait (C := Repetition.code) (fun h => h =? 3) demo_start.1.2).1.1 = Panic /\
  (wait (C := Repetition.code) (fun h => false) demo_start.1.2).2 = [3; 1; 2; 0].
Proof.
  pose proof (encoder_lifecycle (C := Repetition.code) 16 11 1 2 (Ok 255%Z) (Threads [] [])
    (Encoder_new (C := Repetition.code) 16 11 1 2 (Threads [] [])).2
    (Encoder_new (C := Repetition.code) 16 11 1 2 (Threads [] [])).1
    demo_start.1.2 demo_start.2) as Hlife.
  split; [reflexivity |]. split.
  - destruct (Hlife (fun h => h =? 3) eq_refl eq_refl)
      as (_ & _ & _ & s & js & res & -> & _ & Hpanic & _).
    apply Hpanic. left. reflexivity.
  - destruct (Hlife (fun h => false) eq_refl eq_refl)
      as (_ & _ & _ & s & js & res & -> & Hok & _ & _).
    apply Hok. repeat constructor.
Defined.

(** Two blocks and a half, numbered 255 and 0, go to the workers 1 and 0. *)
Definition demo_bytes : list byte := replicate 16 x01 ++ replicate 16 x02 ++ replicate 8 x03.

Definition demo_self := (Encoder_new (C := Repetition.code) 16 11 1 2 (Threads [] [])).1.

Definition demo_started := start_encoding (C := Repetition.code) (Ok 255%Z) demo_self (Threads [] []).

Definition demo_network :=
  init (B := EncodingPacket (RaptorQ := Repetition.code))
    (number_blocks 255 (records 16 demo_bytes)) (replicate 2 demo_encoder).

Lemma demo_ends : exists st,
  rtc (encoding_step (C := Repetition.code) 2 false) demo_network st /\ terminal st.
Proof. apply run_to_end. Qed.

Lemma encoder_correct_witness :
  exists st, rtc (encoding_step (C := Repetition.code) 2 false) demo_network st /\
    terminal st /\
    out st ≡ₚ packets_of_all (C := Repetition.code) demo_encoder
      [MkBlock 255 (replicate 16 x01); MkBlock 0 (replicate 16 x02)].
Proof.
  destruct demo_ends as (st & Hrun & Hend). exists st. split; [exact Hrun |].
  split; [exact Hend |].
  refine (proj2 (encoder_correct (C := Repetition.code) 255 demo_self
    demo_started.1.2 demo_started.2 demo_encoder demo_bytes demo_network st
    ltac:(by_compute) ltac:(unfold repairable; by_compute) _ ltac:(by_compute) _ ltac:(by_compute) _ _ Hrun Hend)).
  - vm_compute. lia.
  - reflexivity.
  - reflexivity.
  - reflexivity.
Defined.
End EncoderDemo.
