(* ===== verification/Decoder.v ===== *)
(** * [decoder.rs]: the decoder's threads

    The counterpart of [Encoder]: [dispatch] cuts the input into packets and routes
    them by block number, [forward_blocks] writes blocks out; [start_decoding], [stop]
    and [wait] are the life cycle of [Decoder], and [decoding_network] the network
    its threads make up. *)
From stdpp Require Import prelude list strings relations.
From Stdlib Require Import ZArith Lia.
From S2P Require Import Prelude Io Bytes RaptorQ Chan BlockEncoder BlockDecoder.
From S2P Require Import Pipeline Dispatch Threads.

Section dispatcher.
Context `{C : RaptorQ}.

Inductive PacketDispatcherError :=
| PacketDispatchSend (p : EncodingPacket)
| PacketDispatchIO (e : ErrorKind).

(** [impl From<io::Error>] and [impl From<SendError<EncodingPacket>>]. *)
Definition packet_dispatch_from_io (e : ErrorKind) : PacketDispatcherError :=
  PacketDispatchIO e.
Definition packet_dispatch_from_send (p : EncodingPacket) : PacketDispatcherError :=
  PacketDispatchSend p.

(** [impl Display for PacketDispatcherError]. *)
Definition PacketDispatcherError_fmt (io_fmt : ErrorKind -> string)
    (e : PacketDispatcherError) : string :=
  match e with
  | PacketDispatchSend _ => "sending on a closed channel"
  | PacketDispatchIO e => io_fmt e
  end.

Record PacketDispatcher := MkPacketDispatcher {
  disp_packet_size : Z;
  packet_disp_should_stop : flag
}.

Definition PacketDispatcher_new {T} (packet_size : Z) (w : threads T)
    : PacketDispatcher * threads T :=
  let (should_stop, w) := new_flag w in (MkPacketDispatcher packet_size should_stop, w).

(** The loop of [dispatch], whose buffer [packet] is the same in every turn. *)
Fixpoint dispatch_loop {R} `{Reader R} (fuel rfuel : nat) (packet : list byte)
    (input_stream : R) (packet_queues : list (sender EncodingPacket))
    : option (outcome PacketDispatcherError unit * list (sender EncodingPacket)) :=
  match fuel with
  | 0 => None
  | S fuel =>
    match read_exact rfuel input_stream packet with
    | None => None
    | Some (Ok _, buffer, input_stream) =>
      let packet := deserialize buffer in
      match route_one source_block_number packet_queues packet with
      | (Ok _, packet_queues) => dispatch_loop fuel rfuel buffer input_stream packet_queues
      | (Err p, packet_queues) => Some (Err (packet_dispatch_from_send p), packet_queues)
      | (Panic, packet_queues) => Some (Panic, packet_queues)
      end
    | Some (Err e, _, _) =>
      if decide (e = UnexpectedEof \/ e = Interrupted)
      then Some (Ok tt, packet_queues)
      else Some (Err (packet_dispatch_from_io e), packet_queues)
    | Some (Panic, _, _) => Some (Panic, packet_queues)
    end
  end.

Definition dispatch {R} `{Reader R} (fuel rfuel : nat) (self : PacketDispatcher)
    (input_stream : R) (packet_queues : list (sender EncodingPacket)) :=
  let packet := replicate (Z.to_nat (disp_packet_size self)) x00 in
  dispatch_loop fuel rfuel packet input_stream packet_queues.

(** The packets a stream of bytes is cut into. *)
Definition packets_in (n : nat) (bytes : list byte) : list EncodingPacket :=
  deserialize <$> records n bytes.

Lemma dispatch_loop_records {R} `{Stream R} fuel rfuel buffer (r : R) qs :
  let n := length buffer in
  0 < n -> length (avail r) / n < fuel -> read_fuel r n <= rfuel ->
  dispatch_loop fuel rfuel buffer r qs =
    Some (match route_each source_block_number qs (packets_in n (avail r)) with
          | (Ok _, qs) =>
            (if decide (fin r = UnexpectedEof \/ fin r = Interrupted) then Ok tt
             else Err (PacketDispatchIO (fin r)), qs)
          | (Err p, qs) => (Err (PacketDispatchSend p), qs)
          | (Panic, qs) => (Panic, qs)
          end).
Proof using.
  revert buffer r qs. unfold packets_in.
  induction fuel as [| fuel IH]; intros buffer r qs Hn; [lia |].
  cbn [dispatch_loop]. set (n := length buffer) in *. intros Hfuel Hrfuel.
  destruct (read_exact_cases r buffer rfuel Hrfuel) as [Hc | Hc]; fold n in Hc.
  - destruct Hc as (Hlen & r' & -> & Ha & Hf & Hp).
    rewrite (records_cons n Hn) by done. cbn [fmap list_fmap route_each]. rewrite <- Ha.
    destruct (route_one _ _ _) as [[[] | b |] qs1]; [| done..].
    assert (length (take n (avail r)) = n) as Hn' by (rewrite length_take; lia).
    rewrite IH, Hn', Hf; [done | by rewrite Hn' | |].
    + rewrite Hn', Ha, length_drop.
      replace (length (avail r)) with ((length (avail r) - n) + 1 * n) in Hfuel by lia.
      rewrite Nat.div_add in Hfuel by lia. lia.
    + rewrite Hn'. unfold read_fuel in *. lia.
  - destruct Hc as (Hlen & r' & junk & ->). rewrite records_short by done. cbn.
    by case_decide.
Qed.

(** C24 The packet dispatcher terminates.  It cuts the input into packets of
    the packet size, in order, dropping an incomplete last one, and sends each to
    the queue its block number names modulo the number of queues.  It ends well at
    the end of the input and when it is stopped, reports any other read error, and
    stops at the first packet whose queue is closed. *)
Theorem packet_dispatch_spec {R} `{Stream R} fuel rfuel self (r : R) qs :
  (0 < disp_packet_size self)%Z -> 0 < length qs ->
  let n := Z.to_nat (disp_packet_size self) in
  length (avail r) / n < fuel -> read_fuel r n <= rfuel ->
  exists res routed qs', dispatch fuel rfuel self r qs = Some (res, qs') /\
    routes source_block_number qs (packets_in n (avail r)) routed qs' /\
    res = match routed with
          | Ok _ =>
            if decide (fin r = UnexpectedEof \/ fin r = Interrupted) then Ok tt
            else Err (PacketDispatchIO (fin r))
          | Err p => Err (PacketDispatchSend p)
          | Panic => Panic
          end.
Proof using.
  intros Hps Hqs n Hfuel Hrfuel. unfold dispatch. fold n.
  rewrite dispatch_loop_records; rewrite ?length_replicate; [| lia | done | done].
  destruct (route_each_spec source_block_number qs (packets_in n (avail r)) Hqs)
    as (routed & qs' & Heq & Hroutes).
  rewrite Heq. destruct routed; eexists _, _, qs'; (split; [done | by split]).
Qed.
End dispatcher.

(** ** The block forwarder *)
Fixpoint forward_blocks {W} `{Writer W} (fuel : nat) (block_queue : list (list byte))
    (output_stream : W) : option (outcome ErrorKind unit * W) :=
  match block_queue with
  | [] => Some (Ok tt, output_stream)
  | block :: block_queue =>
    match write_all fuel output_stream block with
    | Some (Ok _, output_stream) => forward_blocks fuel block_queue output_stream
    | Some (Err e, output_stream) => Some (Err e, output_stream)
    | Some (Panic, output_stream) => Some (Panic, output_stream)
    | None => None
    end
  end.

Lemma forward_blocks_each {W} `{Writer W} fuel bs (w : W) :
  forward_blocks fuel bs w = write_each fuel bs w.
Proof.
  revert w. induction bs as [| b bs IH]; intros w; [done |]. cbn.
  by destruct (write_all fuel w b) as [[[] w'] |].
Qed.

(** The block forwarder terminates and writes the blocks in the order it
    receives them; when the output fails it stops, having written a beginning of
    them. *)
Theorem forward_blocks_spec {W} `{Sink W} fuel bs (w : W) :
  Forall (fun b => write_fuel w (length b) <= fuel) bs ->
  exists res w', forward_blocks fuel bs w = Some (res, w') /\ res <> Panic /\
    exists k, written w' = written w ++ take k (concat bs) /\
      (res = Ok tt -> take k (concat bs) = concat bs).
Proof. intros Hfuel. rewrite forward_blocks_each. by apply write_each_spec. Qed.

(** ** The life cycle *)
Section decoder.
Context `{C : RaptorQ}.

Inductive DecoderError :=
| DecoderBlockDecoder (e : BlockDecoderError)
| DecoderInvalidState (s : string).

(** [impl Display for DecoderError]. *)
Definition DecoderError_fmt (e : DecoderError) : string :=
  match e with
  | DecoderBlockDecoder e => BlockDecoderError_fmt e
  | DecoderInvalidState s => s
  end.

Definition decoder_from_block_decoder (e : BlockDecoderError) : DecoderError :=
  DecoderBlockDecoder e.

(** What a spawned thread runs. *)
Inductive decoder_task :=
| BlockForwarderTask
| BlockDecoderTask (d : BlockDecoder)
| PacketDispatcherTask (d : PacketDispatcher).

Record Decoder := MkDecoder {
  decoder_block_size : Z;
  num_block_decoders : nat;
  decoder_max_packet_size : Z;
  packet_dispatcher : option handle;
  packet_dispatcher_should_stop : flag;
  block_decoders : list handle;
  block_forwarder : option handle
}.

(** Assignments to its fields. *)
Definition set_packet_dispatcher (h : option handle) (self : Decoder) : Decoder :=
  MkDecoder (decoder_block_size self) (num_block_decoders self) (decoder_max_packet_size self)
    h (packet_dispatcher_should_stop self) (block_decoders self) (block_forwarder self).
Definition set_packet_should_stop (f : flag) (self : Decoder) : Decoder :=
  MkDecoder (decoder_block_size self) (num_block_decoders self) (decoder_max_packet_size self)
    (packet_dispatcher self) f (block_decoders self) (block_forwarder self).
Definition set_decoders (hs : list handle) (self : Decoder) : Decoder :=
  MkDecoder (decoder_block_size self) (num_block_decoders self) (decoder_max_packet_size self)
    (packet_dispatcher self) (packet_dispatcher_should_stop self) hs (block_forwarder self).
Definition set_block_forwarder (h : option handle) (self : Decoder) : Decoder :=
  MkDecoder (decoder_block_size self) (num_block_decoders self) (decoder_max_packet_size self)
    (packet_dispatcher self) (packet_dispatcher_should_stop self) (block_decoders self) h.

Abbreviation world := (threads decoder_task).

Definition Decoder_new (block_size : Z) (num_block_decoders : nat) (max_packet_size : Z)
    (w : world) : Decoder * world :=
  let (should_stop, w) := new_flag w in
  (MkDecoder block_size num_block_decoders max_packet_size None should_stop [] None, w).

(** The loop that starts the block decoder threads. *)
Fixpoint start_block_decoders (n : nat) (self : Decoder) (w : world)
    : outcome DecoderError unit * Decoder * world :=
  match n with
  | 0 => (Ok tt, self, w)
  | S n =>
    match omap_err decoder_from_block_decoder
        (BlockDecoder_new (decoder_block_size self) (decoder_max_packet_size self)) with
    | Ok block_decoder =>
      let (h, w) := spawn (BlockDecoderTask block_decoder) w in
      start_block_decoders n (set_decoders (block_decoders self ++ [h]) self) w
    | Err e => (Err e, self, w)
    | Panic => (Panic, self, w)
    end
  end.

Definition start_decoding (self : Decoder) (w : world)
    : outcome DecoderError unit * Decoder * world :=
  let (h, w) := spawn BlockForwarderTask w in
  let self := set_block_forwarder (Some h) self in
  match start_block_decoders (num_block_decoders self) self w with
  | (Ok _, self, w) =>
    match omap_err decoder_from_block_decoder
        (infer_packet_size (decoder_block_size self) (decoder_max_packet_size self)) with
    | Ok packet_size =>
      let (d, w) := PacketDispatcher_new packet_size w in
      let self := set_packet_should_stop (packet_disp_should_stop d) self in
      let (h, w) := spawn (PacketDispatcherTask d) w in
      (Ok tt, set_packet_dispatcher (Some h) self, w)
    | Err e => (Err e, self, w)
    | Panic => (Panic, self, w)
    end
  | (Err e, self, w) => (Err e, self, w)
  | (Panic, self, w) => (Panic, self, w)
  end.

Definition stop (self : Decoder) (w : world) : world :=
  store (packet_dispatcher_should_stop self) true w.

(** [panicked] says how each thread ended.  The threads joined are returned too. *)
Definition wait (panicked : handle -> bool) (self : Decoder)
    : outcome DecoderError unit * Decoder * list handle :=
  match packet_dispatcher self with
  | None => (Err (DecoderInvalidState "Packet dispatcher not initialized"), self, [])
  | Some packet_dispatcher =>
    let self := set_packet_dispatcher None self in
    match block_forwarder self with
    | None => (Err (DecoderInvalidState "Block forwarder not initialized"), self, [])
    | Some block_forwarder =>
      let self := set_block_forwarder None self in
      match join_each panicked [packet_dispatcher] with
      | (js, true) => (Panic, self, js)
      | (js, false) =>
        let handles := block_decoders self in
        let self := set_decoders [] self in
        match join_each panicked handles with
        | (js', true) => (Panic, self, js ++ js')
        | (js', false) =>
          let (js'', p) := join_each panicked [block_forwarder] in
          (if p then Panic else Ok tt, self, js ++ js' ++ js'')
        end
      end
    end
  end.

Abbreviation new_block_decoder self :=
  (BlockDecoder_new (decoder_block_size self) (decoder_max_packet_size self)).
Abbreviation inferred_packet_size self :=
  (infer_packet_size (decoder_block_size self) (decoder_max_packet_size self)).

Lemma start_block_decoders_ok n self w d :
  new_block_decoder self = Ok d ->
  start_block_decoders n self w =
    (Ok tt, set_decoders (block_decoders self ++ seq (length (spawned w)) n) self,
     Threads (spawned w ++ replicate n (BlockDecoderTask d)) (flags w)).
Proof.
  revert self w. induction n as [| n IH]; intros self w Hnew; cbn.
  - rewrite !app_nil_r. by destruct self, w.
  - unfold BlockDecoder_new in *. rewrite Hnew. cbn. rewrite IH by done. cbn.
    rewrite length_app, <- !app_assoc, Nat.add_1_r. done.
Qed.

Lemma start_block_decoders_cases n self w :
  let '(res, self', w') := start_block_decoders n self w in
  match res with
  | Ok _ =>
    exists ds, length ds = n /\ w' = Threads (spawned w ++ ds) (flags w) /\
      self' = set_decoders (block_decoders self ++ seq (length (spawned w)) n) self /\
      forall t, t ∈ ds -> exists d, t = BlockDecoderTask d /\ new_block_decoder self = Ok d
  | Err err =>
    self' = self /\ w' = w /\ 0 < n /\
    exists e, err = DecoderBlockDecoder e /\ new_block_decoder self = Err e
  | Panic => 0 < n /\ new_block_decoder self = Panic
  end.
Proof.
  destruct n as [| n].
  { exists []. cbn. rewrite !app_nil_r. split; [done |]. split; [by destruct w |].
    split; [by destruct self |]. by intros t ?%elem_of_nil. }
  destruct (new_block_decoder self) as [d | e |] eqn:Hnew.
  - rewrite (start_block_decoders_ok _ _ _ d) by done.
    exists (replicate (S n) (BlockDecoderTask d)). split; [by apply length_replicate |].
    split; [done |]. split; [done |]. intros t [-> _]%elem_of_replicate. eauto.
  - unfold start_block_decoders. rewrite Hnew. cbn. split_and!; eauto with lia.
  - unfold start_block_decoders. rewrite Hnew. cbn. split; [lia | done].
Qed.

(** What [start_decoding] leaves behind. *)
Record started (self self' : Decoder) (w w' : world) (ds : list decoder_task)
    (d : PacketDispatcher) : Prop := {
  started_spawned :
    spawned w' = spawned w ++ BlockForwarderTask :: ds ++ [PacketDispatcherTask d];
  started_decoders : length ds = num_block_decoders self;
  started_flags : flags w' = flags w ++ [false];
  started_flag : packet_disp_should_stop d = length (flags w);
  started_size : inferred_packet_size self = Ok (disp_packet_size d);
  started_self :
    self' = set_packet_dispatcher (Some (length (spawned w) + S (length ds)))
      (set_packet_should_stop (packet_disp_should_stop d)
        (set_decoders (block_decoders self ++ seq (S (length (spawned w))) (length ds))
          (set_block_forwarder (Some (length (spawned w))) self)))
}.

Lemma start_decoding_cases self w :
  let '(res, self', w') := start_decoding self w in
  match res with
  | Ok _ =>
    exists ds d, started self self' w w' ds d /\
      forall t, t ∈ ds -> exists d, t = BlockDecoderTask d /\ new_block_decoder self = Ok d
  | Err err =>
    packet_dispatcher self' = packet_dispatcher self /\
    block_forwarder self' = Some (length (spawned w)) /\ flags w' = flags w /\
    ((exists e, err = DecoderBlockDecoder e /\ new_block_decoder self = Err e /\
       0 < num_block_decoders self /\ spawned w' = spawned w ++ [BlockForwarderTask]) \/
     (exists e ds, err = DecoderBlockDecoder e /\ inferred_packet_size self = Err e /\
       spawned w' = spawned w ++ BlockForwarderTask :: ds /\
       length ds = num_block_decoders self /\
       forall t, t ∈ ds -> exists d, t = BlockDecoderTask d /\ new_block_decoder self = Ok d))
  | Panic =>
    0 < num_block_decoders self /\ new_block_decoder self = Panic \/
    inferred_packet_size self = Panic
  end.
Proof.
  unfold start_decoding. cbn [spawn].
  set (w0 := Threads (spawned w ++ [BlockForwarderTask]) (flags w)).
  set (self0 := set_block_forwarder _ self).
  pose proof (start_block_decoders_cases (num_block_decoders self) self0 w0) as Hcases.
  change (num_block_decoders self0) with (num_block_decoders self).
  destruct (start_block_decoders _ self0 w0) as [[[[] | err |] self1] w1].
  - destruct Hcases as (ds & Hlen & -> & -> & Hds).
    cbn [set_decoders self0 set_block_forwarder decoder_block_size decoder_max_packet_size].
    destruct (inferred_packet_size self) as [size | e |] eqn:Hsize; cbn [omap_err];
      [| split_and!; try done; right; exists e, ds; cbn; by rewrite <- app_assoc | by right].
    exists ds, (MkPacketDispatcher size (length (flags w))). split; [| exact Hds].
    split; cbn; try done.
    + by rewrite <- !app_assoc.
    + rewrite !length_app, Hlen. cbn. by rewrite Nat.add_1_r, <- plus_n_Sm.
  - destruct Hcases as (-> & -> & Hn & e & -> & Hnew). split_and!; eauto 10.
  - by left.
Qed.

(** A start without errors. *)
Lemma start_decoding_ok self w d size :
  new_block_decoder self = Ok d -> inferred_packet_size self = Ok size ->
  exists self' w', start_decoding self w = (Ok tt, self', w').
Proof.
  intros Hnew Hsize. pose proof (start_decoding_cases self w) as Hcases.
  destruct (start_decoding self w) as [[[[] | err |] self'] w']; [by eexists _, _ |..].
  - destruct Hcases as (_ & _ & _ & [(? & _ & ? & _) | (? & ? & _ & ? & _)]); congruence.
  - destruct Hcases as [[_ ?] | ?]; congruence.
Qed.

(** C28 [start_decoding] spawns the forwarder, the configured number of decoders
    and the dispatcher, keeps their handles, and shares a new stop flag with the
    dispatcher, which it gives the inferred packet size.  Its errors are those of
    the block size, met when the forwarder and no other thread has been spawned, and
    those of the packet size, met when the forwarder and all decoders have been
    spawned and no dispatcher. *)
Theorem start_decoding_spec self w :
  let '(res, self', w') := start_decoding self w in
  match res with
  | Ok _ =>
    exists ds d, started self self' w w' ds d /\
      forall t, t ∈ ds -> exists d, t = BlockDecoderTask d /\ new_block_decoder self = Ok d
  | Err err =>
    packet_dispatcher self' = packet_dispatcher self /\
    block_forwarder self' = Some (length (spawned w)) /\ flags w' = flags w /\
    ((exists e, err = DecoderBlockDecoder e /\ new_block_decoder self = Err e /\
       0 < num_block_decoders self /\ spawned w' = spawned w ++ [BlockForwarderTask]) \/
     (exists e ds, err = DecoderBlockDecoder e /\ inferred_packet_size self = Err e /\
       spawned w' = spawned w ++ BlockForwarderTask :: ds /\
       length ds = num_block_decoders self /\
       forall t, t ∈ ds -> exists d, t = BlockDecoderTask d /\ new_block_decoder self = Ok d))
  | Panic =>
    0 < num_block_decoders self /\ new_block_decoder self = Panic \/
    inferred_packet_size self = Panic
  end.
Proof. apply start_decoding_cases. Qed.

(** [wait] joins the dispatcher, the decoders and the forwarder, in this order, up to
    the first that panicked. *)
Lemma decoder_wait_handles panicked self d f :
  packet_dispatcher self = Some d -> block_forwarder self = Some f ->
  let (js, p) := join_each panicked (d :: block_decoders self ++ [f]) in
  exists self', wait panicked self = (if p then Panic else Ok tt, self', js) /\
    packet_dispatcher self' = None /\ block_forwarder self' = None.
Proof.
  intros Hd Hf. change (d :: block_decoders self ++ [f]) with ([d] ++ block_decoders self ++ [f]).
  rewrite join_each_app, join_each_app. unfold wait. rewrite Hd.
  cbn [block_forwarder set_packet_dispatcher].
  rewrite Hf. destruct (join_each panicked [d]) as [js [|]]; [by eexists |].
  cbn [block_decoders set_block_forwarder set_packet_dispatcher].
  destruct (join_each panicked (block_decoders self)) as [js' [|]]; [by eexists |].
  destruct (join_each panicked [f]) as [js'' p]. by eexists.
Qed.

(** After a start, when no thread panics. *)
Lemma decoder_started_waits self w self' w' :
  start_decoding self w = (Ok tt, self', w') ->
  (wait (fun _ => false) self').1.1 = Ok tt.
Proof.
  intros Hstart. pose proof (start_decoding_cases self w) as Hcases.
  rewrite Hstart in Hcases. destruct Hcases as (ds & d & [_ _ _ _ _ ->] & _).
  set (self' := set_packet_dispatcher _ _).
  pose proof (decoder_wait_handles (fun _ => false) self' _ _ eq_refl eq_refl) as Hwait.
  set (hs := _ :: _) in Hwait. rewrite (join_each_ok _ hs) in Hwait by by apply Forall_forall.
  by destruct Hwait as (self'' & -> & _).
Qed.

Lemma decoder_wait_idle panicked self :
  packet_dispatcher self = None ->
  wait panicked self =
    (Err (DecoderInvalidState "Packet dispatcher not initialized"), self, []).
Proof. intros Hd. unfold wait. by rewrite Hd. Qed.

(** C27 The life cycle of a decoder that started: [stop] sets the flag its
    dispatcher loads and no other; [wait] joins the dispatcher, then every decoder
    thread, then the forwarder, and resumes the panic of any of them; before the
    start and after a [wait], [wait] is an error. *)
Theorem decoder_lifecycle bs n mps w0 w self self' w' panicked :
  Decoder_new bs n mps w0 = (self, w) ->
  start_decoding self w = (Ok tt, self', w') ->
  let first := length (spawned w0) in
  let handles := first + S n :: seq (S first) n ++ [first] in
  wait panicked self =
    (Err (DecoderInvalidState "Packet dispatcher not initialized"), self, []) /\
  flags (stop self' w') = flags w ++ [true] /\
  (exists size, infer_packet_size bs mps = Ok size /\
     last (spawned w') =
       Some (PacketDispatcherTask (MkPacketDispatcher size (length (flags w))))) /\
  exists self'' js res, wait panicked self' = (res, self'', js) /\
    (Forall (fun h => panicked h = false) handles -> res = Ok tt /\ js = handles) /\
    (Exists (fun h => panicked h = true) handles -> res = Panic) /\
    wait panicked self'' =
      (Err (DecoderInvalidState "Packet dispatcher not initialized"), self'', []).
Proof.
  intros Hnew Hstart first handles. unfold Decoder_new in Hnew. cbn in Hnew. simplify_eq.
  pose proof (start_decoding_cases (MkDecoder bs n mps None (length (flags w0)) [] None)
    (Threads (spawned w0) (flags w0 ++ [false]))) as Hcases.
  rewrite Hstart in Hcases. destruct Hcases as (ds & d & Hs & _).
  destruct Hs as [Hsp Hds Hfl Hflag Hsize ->].
  cbn [spawned flags num_block_decoders decoder_block_size decoder_max_packet_size
    block_decoders app] in *.
  split_and!; [done | | |].
  - unfold stop, store. cbn. rewrite Hfl, Hflag.
    rewrite insert_app_r_alt, Nat.sub_diag by done. done.
  - exists (disp_packet_size d). split; [done |].
    rewrite Hsp, app_comm_cons, app_assoc, last_snoc, <- Hflag. by destruct d.
  - set (self' := set_packet_dispatcher _ _).
    pose proof (decoder_wait_handles panicked self' _ _ eq_refl eq_refl) as Hwait.
    cbn [block_decoders self' set_packet_dispatcher set_packet_should_stop set_decoders] in Hwait.
    rewrite Hds in Hwait. fold first handles in Hwait.
    destruct (join_each panicked handles) as [js p] eqn:Hjoin.
    destruct Hwait as (self'' & Hwait & Hd & _). exists self'', js, (if p then Panic else Ok tt).
    split_and!; [done | | | by apply decoder_wait_idle].
    + intros Hok. rewrite join_each_ok in Hjoin by done. by simplify_eq.
    + intros Hex%join_each_panic. rewrite Hjoin in Hex. cbn in Hex. by subst p.
Qed.
End decoder.

(** ** The network of the threads *)
Section network.
Context `{C : RaptorQ}.

Abbreviation new_block_decoder self :=
  (BlockDecoder_new (decoder_block_size self) (decoder_max_packet_size self)).
Abbreviation inferred_packet_size self :=
  (infer_packet_size (decoder_block_size self) (decoder_max_packet_size self)).

(** A turn of the loop of [decode_stream]. *)
Definition decode_work (d : BlockDecoder) (p : EncodingPacket)
    : option (BlockDecoder * list (list byte)) :=
  let (decoded, d) := decode d p in Some (d, option_list decoded).

Definition task_decoder (t : decoder_task) : option BlockDecoder :=
  match t with BlockDecoderTask d => Some d | _ => None end.

(** The network of the spawned threads [ts], when the input stream delivers
    [bytes]. *)
Definition decoding_network (ts : list decoder_task) (bytes : list byte)
    : option (state (A := EncodingPacket) (B := list byte) (W := BlockDecoder)) :=
  match last ts with
  | Some (PacketDispatcherTask d) =>
    Some (init (packets_in (Z.to_nat (disp_packet_size d)) bytes) (omap task_decoder ts))
  | _ => None
  end.

(** Its steps, with [n] block decoders. *)
Definition decoding_step (n : nat) (faulty : bool) :=
  step (slot source_block_number n) decode_work faulty.

Lemma run_decode d ps :
  run decode_work d ps = (decode_all d ps).1 /\ works decode_work d ps.
Proof using.
  revert d. induction ps as [| p ps IH]; intros d; [done |]. cbn [run works].
  rewrite decode_all_cons. unfold decode_work at 1 3. destruct (decode d p) as [o d'].
  cbn [fst snd]. by destruct (IH d') as [<- ?].
Qed.

Lemma omap_decoders ds d :
  Forall (fun t => t = BlockDecoderTask d) ds ->
  omap task_decoder ds = replicate (length ds) d.
Proof using. induction 1 as [| t ds -> _ IH]; cbn; [done |]. by rewrite IH. Qed.

(** The network of a decoder that started. *)
Lemma decoding_network_started self self' w' d size bytes :
  new_block_decoder self = Ok d -> inferred_packet_size self = Ok size ->
  start_decoding self (Threads [] []) = (Ok tt, self', w') ->
  decoding_network (spawned w') bytes =
    Some (init (packets_in (Z.to_nat size) bytes) (replicate (num_block_decoders self) d)).
Proof using.
  intros Hnew Hinfer Hstart.
  pose proof (start_decoding_cases self (Threads [] [])) as Hcases.
  rewrite Hstart in Hcases. destruct Hcases as (ds & disp & [Hsp Hlen _ _ Hsize _] & Hds).
  unfold decoding_network. rewrite Hsp. cbn [spawned app].
  rewrite app_comm_cons, last_snoc.
  assert (disp_packet_size disp = size) as -> by congruence. do 2 f_equal.
  cbn. rewrite omap_app, (omap_decoders _ d), Hlen; cbn; [by rewrite app_nil_r |].
  apply Forall_forall. intros t Ht. destruct (Hds t Ht) as (d' & -> & ?). congruence.
Qed.

Lemma BlockDecoder_new_fields bs mps d :
  BlockDecoder_new bs mps = Ok d ->
  current_block_id d = None /\ dec_block_size d = bs /\
  get_configuration bs mps = Ok (dec_config d).
Proof using.
  unfold BlockDecoder_new. destruct (get_configuration bs mps); cbn; [| done..].
  by intros [= <-].
Qed.

(** What the workers write when nothing fails. *)
Lemma decoder_network_out n d ps st :
  0 < n -> current_block_id d = None ->
  rtc (decoding_step n false) (init ps (replicate n d)) st -> terminal st ->
  interleaving ((fun i => decode_runs (dec_config d) (dec_block_size d)
    (share source_block_number n i ps)) <$> seq 0 n) (out st).
Proof using.
  intros Hn Hidle Hrun Hend.
  rewrite <- (imap_replicate (fun i d => decode_runs (dec_config d) (dec_block_size d)
    (share source_block_number n i ps)) n d).
  destruct (out_exact_cases (slot source_block_number n) decode_work false ps
    (replicate n d) st) as [_ Hmix]; auto.
  - rewrite length_replicate. apply Forall_forall. intros p _. by apply slot_bound.
  - intros i s [-> _]%lookup_replicate. apply run_decode.
  - erewrite imap_ext; [exact Hmix |]. intros i s [-> _]%lookup_replicate. symmetry.
    rewrite <- decode_all_idle by done. apply run_decode.
Qed.

(** C10 Everything together: when a decoder with at least one worker starts, its
    threads, however they are scheduled, stop only after they have written out an
    interleaving of what the workers decode of their shares of the packets: each
    worker decodes every maximal run of packets of one block number in its share on
    its own, in order. *)
Theorem decoder_correct self self' w' d size bytes net st :
  0 < num_block_decoders self ->
  new_block_decoder self = Ok d -> inferred_packet_size self = Ok size -> (0 < size)%Z ->
  start_decoding self (Threads [] []) = (Ok tt, self', w') ->
  decoding_network (spawned w') bytes = Some net ->
  rtc (decoding_step (num_block_decoders self) false) net st -> terminal st ->
  let n := num_block_decoders self in
  let packets := packets_in (Z.to_nat size) bytes in
  interleaving ((fun i => decode_runs (dec_config d) (decoder_block_size self)
    (share source_block_number n i packets)) <$> seq 0 n) (out st).
Proof using.
  intros Hn Hnew Hinfer Hsize Hstart Hnet Hrun Hend n packets.
  rewrite (decoding_network_started self self' w' d size) in Hnet by done.
  injection Hnet as <-. destruct (BlockDecoder_new_fields _ _ _ Hnew) as (Hidle & <- & _).
  by apply decoder_network_out.
Qed.
End network.

(** ** Witnesses *)
Module DecoderThreadsDemo.
Import Demo DecoderDemo.

(** The packets of two blocks, serialised, and half a packet. *)
Definition demo_bytes : list byte :=
  concat (demo_packets 7 ++ demo_packets 8) ++ replicate 6 x00.

Definition demo_input : script :=
  Script [Chunk x07 (replicate 8 x02); Fault TimedOut; Chunk x03 (replicate 14 x04)] [].

Lemma packet_dispatch_spec_witness :
  exists res routed qs',
    dispatch (C := Repetition.code) 10 40 (MkPacketDispatcher 12 0) demo_input
      [Sender [] None; Sender [] None; Sender [] (Some 0)] = Some (res, qs') /\
    routes (source_block_number (RaptorQ := Repetition.code)) [Sender [] None; Sender [] None; Sender [] (Some 0)]
      (packets_in (C := Repetition.code) 12 (avail demo_input)) routed qs' /\
    res = Ok tt.
Proof.
  destruct (packet_dispatch_spec (C := Repetition.code) 10 40 (MkPacketDispatcher 12 0)
    demo_input [Sender [] None; Sender [] None; Sender [] (Some 0)])
    as (res & routed & qs' & Hrun & Hroutes & Hres).
  - reflexivity.
  - vm_compute. lia.
  - vm_compute. lia.
  - vm_compute. lia.
  - exists res, routed, qs'. split; [exact Hrun |]. split; [exact Hroutes |].
    assert (fst <$> dispatch (C := Repetition.code) 10 40 (MkPacketDispatcher 12 0) demo_input
      [Sender [] None; Sender [] None; Sender [] (Some 0)] = Some (Ok tt)) as Heq
      by reflexivity.
    rewrite Hrun in Heq. by injection Heq.
Defined.

Lemma forward_blocks_spec_witness :
  let w := Tape [] [Accept 5; Refuse Interrupted] in
  exists w', forward_blocks 40 [data (demo_block 7); data (demo_block 8)] w = Some (Ok tt, w') /\
    written w' = data (demo_block 7) ++ data (demo_block 8).
Proof.
  intros w.
  destruct (forward_blocks_spec 40 [data (demo_block 7); data (demo_block 8)] w)
    as (res & w' & Hrun & _).
  - repeat constructor; vm_compute; lia.
  - exists w'. vm_compute in Hrun. injection Hrun as <- <-. split; reflexivity.
Defined.

Definition demo_self := (Decoder_new (C := Repetition.code) 16 2 11 (Threads [] [])).1.

Definition demo_started := start_decoding (C := Repetition.code) demo_self (Threads [] [false]).

(** A block decoder panicked. *)
Lemma decoder_lifecycle_witness :
  demo_started.1.1 = Ok tt /\
  (wait (fun h => h =? 2) demo_started.1.2).1.1 = Panic /\
  (wait (fun h => false) demo_started.1.2).2 = [3; 1; 2; 0].
Proof.
  pose proof (decoder_lifecycle (C := Repetition.code) 16 2 11 (Threads [] [])
    (Threads [] [false]) demo_self demo_started.1.2 demo_started.2) as Hlife.
  split; [reflexivity |]. split.
  - destruct (Hlife (fun h => h =? 2) eq_refl eq_refl)
      as (_ & _ & _ & s & js & res & -> & _ & Hpanic & _).
    apply Hpanic. right. right. left. reflexivity.
  - destruct (Hlife (fun h => false) eq_refl eq_refl)
      as (_ & _ & _ & s & js & res & -> & Hok & _ & _).
    apply Hok. repeat constructor.
Defined.

Definition demo_network :=
  init (B := list byte) (packets_in (C := Repetition.code) 12 demo_bytes)
    (replicate 2 demo_decoder).

Lemma demo_decoder_ends : exists st,
  rtc (decoding_step (C := Repetition.code) 2 false) demo_network st /\ terminal st.
Proof. apply run_to_end. Qed.

Definition demo_run := start_decoding (C := Repetition.code) demo_self (Threads [] []).

Lemma decoder_correct_witness :
  exists st, rtc (decoding_step (C := Repetition.code) 2 false) demo_network st /\
    terminal st /\
    interleaving [[data (demo_block 8)]; [data (demo_block 7)]] (out st).
Proof.
  destruct demo_decoder_ends as (st & Hrun & Hend). exists st. split; [exact Hrun |].
  split; [exact Hend |].
  refine (decoder_correct (C := Repetition.code) demo_self demo_run.1.2 demo_run.2
    demo_decoder 12 demo_bytes demo_network st _ _ _ ltac:(by_compute) _ _ Hrun Hend).
  - vm_compute. lia.
  - reflexivity.
  - reflexivity.
  - reflexivity.
  - reflexivity.
Defined.
End DecoderThreadsDemo.
