(* ===== verification/EndToEnd.v ===== *)
(** * From the encoder's input to the decoder's output

    The composition of the two networks: what the decoder writes out of what a lossy
    link delivers of the packets the encoder wrote out, when both have the same
    number of workers. *)
From stdpp Require Import prelude list strings relations.
From Stdlib Require Import ZArith Lia.
From S2P Require Import Prelude Bytes RaptorQ Chan BlockEncoder BlockDecoder.
From S2P Require Import Pipeline Dispatch Threads Encoder Decoder.

(** ** Lists *)

Lemma adjacent_distinct_cons {A} (x : A) l :
  adjacent_distinct l -> head l <> Some x -> adjacent_distinct (x :: l).
Proof. destruct l as [| y l]; [done |]. intros Hl Hx.
  split; [intros ->; by apply Hx | done]. Qed.

Lemma NoDup_adjacent_distinct {A} (l : list A) : NoDup l -> adjacent_distinct l.
Proof.
  induction 1 as [| x l Hx _ IH]; [done |]. apply adjacent_distinct_cons; [done |].
  destruct l as [| y l]; [done |]. cbn. set_solver.
Qed.

Lemma filter_sublist {A} (P : A -> Prop) `{forall x, Decision (P x)} l k :
  l `sublist_of` k -> filter P l `sublist_of` filter P k.
Proof.
  induction 1 as [| x l k _ IH | x l k _ IH]; [done | |]; rewrite !filter_cons;
    case_decide; auto using sublist_skip, sublist_cons.
Qed.

Lemma filter_true {A} (P : A -> Prop) `{forall x, Decision (P x)} l :
  Forall P l -> filter P l = l.
Proof. induction 1 as [| x l Hx _ IH]; [done |]. by rewrite filter_cons_True, IH. Qed.

Lemma fmap_sublist {A B} (f : A -> B) l k :
  l `sublist_of` k -> f <$> l `sublist_of` f <$> k.
Proof. induction 1; cbn; auto using sublist_skip, sublist_cons. Qed.

Lemma share_fst {A B} (key : A -> Z) n i (gs : list (A * B)) :
  (share (key ∘ fst) n i gs).*1 = share key n i gs.*1.
Proof.
  induction gs as [| g gs IH]; [done |]. rewrite fmap_cons, !share_cons, fmap_app, IH.
  change (slot (key ∘ fst) n g) with (slot key n g.1). by case_decide.
Qed.

(** The first element of a filtered list: no element before it passes. *)
Lemma filter_head {A} (P : A -> Prop) `{forall x, Decision (P x)} l x :
  head (filter P l) = Some x ->
  exists j, l !! j = Some x /\ forall j' y, j' < j -> l !! j' = Some y -> ~ P y.
Proof.
  induction l as [| y l IH]; [done |]. rewrite filter_cons. case_decide as Hy.
  - intros [= <-]. exists 0. split; [done |]. intros j' z ?. lia.
  - intros (j & Hj & Hbefore)%IH. exists (S j). split; [done |].
    intros [| j'] z Hlt; cbn; [congruence |]. apply Hbefore. lia.
Qed.

(** Some of the elements of each part. *)
Lemma sublist_bind {A B} (f : A -> list B) l k :
  k `sublist_of` l ≫= f ->
  exists gs, gs.*1 = l /\ k = gs ≫= snd /\ Forall (fun g => g.2 `sublist_of` f g.1) gs.
Proof.
  revert k. induction l as [| x l IH]; intros k; cbn.
  - intros ->%sublist_nil_r. by exists [].
  - intros (k1 & k2 & -> & H1 & (gs & <- & -> & Hgs)%IH)%sublist_app_r.
    exists ((x, k1) :: gs). cbn. by rewrite Forall_cons.
Qed.

(** Annotations of the shares are annotations of the whole. *)
Lemma shares_annotate {A B} (key : A -> Z) n (l : list A) (gs : nat -> list (A * B)) :
  0 < n -> (forall i, i < n -> (gs i).*1 = share key n i l) ->
  exists all, all.*1 = l /\ forall i, i < n -> share (key ∘ fst) n i all = gs i.
Proof.
  intros Hn. revert gs. induction l as [| x l IH]; intros gs Hgs.
  { exists []. split; [done |]. intros i Hi. specialize (Hgs i Hi).
    by destruct (gs i). }
  pose proof (slot_bound key n x Hn) as Hx. pose proof (Hgs _ Hx) as Hgx.
  rewrite share_cons, decide_True in Hgx by done.
  destruct (gs (slot key n x)) as [| [x' b] rest] eqn:E; [done |]. injection Hgx as -> Hrest.
  destruct (IH (fun i => if decide (slot key n x = i) then rest else gs i)) as (all & <- & Hall).
  - intros i Hi. case_decide as Hs; [by subst |].
    rewrite (Hgs i Hi), share_cons. by rewrite decide_False.
  - exists ((x, b) :: all). split; [done |]. intros i Hi. rewrite share_cons, Hall by done.
    change (slot (key ∘ fst) n (x, b)) with (slot key n x).
    case_decide as Hs; [by rewrite <- Hs, E | done].
Qed.

(** ** Block numbers *)

Section numbers.
Implicit Types (ds : list (list byte)).

(** With at most 128 workers every worker gets at least two of the 256 numbers... *)
Lemma other_number n x :
  0 < n <= 128 -> fits 8 x ->
  exists y, fits 8 y /\ y <> x /\ (y mod Z.of_nat n = x mod Z.of_nat n)%Z.
Proof.
  intros Hn Hx. unfold fits in *.
  destruct (decide (x + Z.of_nat n < 256)%Z) as [Hlt | Hge].
  - exists (x + 1 * Z.of_nat n)%Z. rewrite Z.mod_add by lia. lia.
  - exists (x + (-1) * Z.of_nat n)%Z. rewrite Z.mod_add by lia. lia.
Qed.

(** ... so that the blocks that follow each other at one worker have different
    numbers. *)
Lemma share_adjacent n i start ds :
  0 < n <= 128 -> fits 8 start ->
  adjacent_distinct (id <$> share id n i (number_blocks start ds)).
Proof.
  intros Hn. revert start. induction ds as [| d ds IH]; intros start Hstart; [done |].
  assert (fits 8 (wadd 8 start 1)) as Hnext by (apply wrap_fits; lia).
  cbn [number_blocks]. rewrite share_cons. case_decide as Hslot; cbn [app]; [| by apply IH].
  rewrite fmap_cons. apply adjacent_distinct_cons; [by apply IH |]. cbn [BlockEncoder.id].
  destruct (share id n i (number_blocks (wadd 8 start 1) ds)) as [| h rest] eqn:Hshare;
    [done |]. cbn. intros [= Hsame].
  assert (head (share id n i (number_blocks (wadd 8 start 1) ds)) = Some h) as Hh
    by (by rewrite Hshare).
  apply filter_head in Hh as (j & Hj & Hbefore).
  destruct (other_number n start Hn Hstart) as (y & Hy & Hne & Hmod).
  rewrite number_blocks_lookup in Hj by done.
  destruct (ds !! j) as [dj |] eqn:Hdj; [| done].
  cbn in Hj. injection Hj as <-. cbn in Hsame.
  unfold fits, wadd, wrap in *. change (2 ^ 8)%Z with 256%Z in *.
  set (j' := Z.to_nat ((y - start - 1) mod 256)).
  pose proof (Z.mod_pos_bound (y - start - 1) 256 ltac:(lia)) as Hb.
  assert ((y - start - 1) mod 256 <> 255)%Z as Hnot255.
  { intros E. pose proof (Z.div_mod (y - start - 1) 256 ltac:(lia)). lia. }
  assert (255 <= j) as Hj255.
  { rewrite Zplus_mod_idemp_l in Hsame.
    pose proof (Z.div_mod (start + 1 + Z.of_nat j) 256 ltac:(lia)). lia. }
  destruct (lookup_lt_is_Some_2 ds j') as [d' Hd'].
  { apply lookup_lt_Some in Hdj. lia. }
  eapply (Hbefore j'); [lia | |].
  - rewrite number_blocks_lookup, Hd' by done. done.
  - unfold slot. cbn. unfold wrap. change (2 ^ 8)%Z with 256%Z.
    rewrite Zplus_mod_idemp_l. unfold j'. rewrite Z2Nat.id by lia.
    rewrite Zplus_mod_idemp_r. replace (start + 1 + (y - start - 1))%Z with y by lia.
    by rewrite (Z.mod_small y 256), Hmod.
Qed.

(** In a run of at most 256 blocks no number comes twice. *)
Lemma number_blocks_NoDup start ds :
  fits 8 start -> length ds <= 256 -> NoDup (id <$> number_blocks start ds).
Proof.
  intros Hstart Hlen. apply NoDup_alt. intros i j x.
  rewrite !list_lookup_fmap, !number_blocks_lookup by done.
  destruct (ds !! i) eqn:Hi; cbn; [| done]. destruct (ds !! j) eqn:Hj; cbn; [| done].
  apply lookup_lt_Some in Hi, Hj. intros [= <-] [= E]. unfold wrap in E.
  change (2 ^ 8)%Z with 256%Z in E.
  pose proof (Z.div_mod (start + Z.of_nat i) 256 ltac:(lia)).
  pose proof (Z.div_mod (start + Z.of_nat j) 256 ltac:(lia)). lia.
Qed.
End numbers.

(** ** The link between the workers *)

Lemma finite_choice {X} `{Inhabited X} (P : nat -> X -> Prop) n :
  (forall i, i < n -> exists x, P i x) -> exists f, forall i, i < n -> P i (f i).
Proof.
  induction n as [| n IH]; intros HP; [exists (fun _ => inhabitant); lia |].
  destruct IH as [f Hf]; [auto with lia |]. destruct (HP n) as [x Hx]; [lia |].
  exists (fun i => if decide (i = n) then x else f i). intros i Hi.
  case_decide; [by subst | apply Hf; lia].
Qed.

Section link.
Context `{L : RaptorQLaws} (e : BlockEncoder) (k : Z) (n : nat) (blocks : list Block).
Context (He : wf_encoder e k) (Hfit : fits 64 (block_size e)) (Hn : 0 < n).
Context (Hblocks : Forall (wf_block e) blocks).

Abbreviation worker_packets :=
  ((fun i => packets_of_all e (share id n i blocks)) <$> seq 0 n).

(** Every packet of a block goes to the decoder worker with the number of the encoder
    worker it comes from, which so gets back that worker's stream. *)
Lemma share_packets sent i :
  interleaving worker_packets sent -> i < n ->
  share source_block_number n i sent = packets_of_all e (share id n i blocks).
Proof using L He Hblocks.
  intros Hmix Hi.
  apply (interleaving_filter (slot source_block_number n) worker_packets); [done | |].
  - intros j l. rewrite list_lookup_fmap, fmap_Some. intros (j' & Hj & ->).
    apply lookup_seq in Hj as [-> _]. cbn. apply Forall_bind, Forall_forall. intros b Hb.
    apply list_elem_of_filter in Hb as [Hslot Hb]. rewrite Forall_forall in Hblocks.
    eapply Forall_impl; [by apply (packets_of_number e k), Hblocks |].
    intros p Hp. unfold slot in *. by rewrite Hp.
  - by rewrite list_lookup_fmap, lookup_seq_lt.
Qed.

(** What arrives of each block. *)
Lemma received_arrivals sent received :
  interleaving worker_packets sent -> received `sublist_of` sent ->
  exists gs, gs.*1 = blocks /\ Forall (arrives e) gs /\
    forall i, i < n ->
      share source_block_number n i received = share (id ∘ fst) n i gs ≫= snd.
Proof using L He Hn Hblocks.
  intros Hmix Hsub.
  destruct (finite_choice (fun i (gs : list (Block * list EncodingPacket)) =>
      gs.*1 = share id n i blocks /\
      share source_block_number n i received = gs ≫= snd /\
      Forall (fun g => g.2 `sublist_of` packets_of e g.1) gs) n) as (gs & Hgs).
  { intros i Hi. destruct (sublist_bind (packets_of e) (share id n i blocks)
      (share source_block_number n i received)) as (gs & ? & ? & ?); [| by exists gs].
    fold (packets_of_all e (share id n i blocks)).
    rewrite <- (share_packets sent i Hmix Hi). by apply filter_sublist. }
  destruct (shares_annotate id n blocks gs Hn) as (all & Hall & Hshares).
  { intros i Hi. by apply Hgs. }
  exists all. split; [done |]. split.
  - apply Forall_forall. intros g Hg. split.
    + rewrite Forall_forall in Hblocks. apply Hblocks. rewrite <- Hall.
      by apply list_elem_of_fmap_2.
    + pose proof (slot_bound (id ∘ fst) n g Hn) as Hlt.
      destruct (Hgs _ Hlt) as (_ & _ & Hsubs). rewrite Forall_forall in Hsubs.
      apply Hsubs. rewrite <- (Hshares _ Hlt). by apply list_elem_of_filter.
  - intros i Hi. rewrite Hshares by done. by apply Hgs.
Qed.
End link.

(** ** The two programs *)
Section transmission.
Context `{L : RaptorQLaws}.

(** The encoder [enc], started with [first_id] as its random number on the bytes
    [input], has run to its end and written out the packets [sent]. *)
Definition encoded (first_id : Z) (enc : Encoder) (input : list byte)
    (sent : list EncodingPacket) : Prop :=
  exists enc' w net st,
    start_encoding (Ok first_id) enc (Threads [] []) = (Ok tt, enc', w) /\
    encoding_network (spawned w) input = Some net /\
    rtc (encoding_step (enc_num_block_encoders enc) false) net st /\
    terminal st /\ out st = sent.

(** The decoder [dec], started on the bytes [input], has run to its end and written out
    the blocks [output]. *)
Definition decoded (dec : Decoder) (input : list byte) (output : list (list byte)) : Prop :=
  exists dec' w net st,
    start_decoding dec (Threads [] []) = (Ok tt, dec', w) /\
    decoding_network (spawned w) input = Some net /\
    rtc (decoding_step (num_block_decoders dec) false) net st /\
    terminal st /\ out st = output.

(** Both have the same parameters, which the code supports; [e] is the block encoder
    they give. *)
Record matched (enc : Encoder) (dec : Decoder) (e : BlockEncoder) : Prop := {
  same_block_size : decoder_block_size dec = enc_block_size enc;
  same_packet_size : decoder_max_packet_size dec = enc_max_packet_size enc;
  same_workers : num_block_decoders dec = enc_num_block_encoders enc;
  some_workers : 0 < enc_num_block_encoders enc;
  size_range : (0 < enc_block_size enc < 2 ^ 64)%Z;
  repair_range : repairable (enc_repair_packets_per_block enc);
  encoder_ok : BlockEncoder_new (enc_block_size enc) (enc_max_packet_size enc)
    (enc_repair_packets_per_block enc) = Ok e;
  size_supported : (enc_block_size enc <= 56403 * symbol_size (config e))%Z
}.

Section matched.
Context (enc : Encoder) (dec : Decoder) (e : BlockEncoder) (Hmatch : matched enc dec e).

Lemma matched_wf :
  exists k, wf_encoder e k /\ block_size e = enc_block_size enc /\
  enc_block_size enc = (k * symbol_size (config e))%Z /\ (k <= 56403)%Z /\
  (0 < symbol_size (config e))%Z.
Proof using L Hmatch.
  destruct Hmatch as [_ _ _ _ Hbs Hr Hnew Hmax].
  destruct (BlockEncoder_new_wf _ _ _ _ Hbs Hr Hnew) as (k & _ & He & _ & Hk & Hwf).
  pose proof (symbol_size_fits (config e)) as Hss. unfold fits in Hss.
  exists k. split_and!; [apply Hwf; nia | done | done | nia | nia].
Qed.

Lemma matched_decoder :
  exists d, BlockDecoder_new (decoder_block_size dec) (decoder_max_packet_size dec) = Ok d /\
  dec_config d = config e /\ dec_block_size d = enc_block_size enc /\
  current_block_id d = None.
Proof using Hmatch.
  destruct Hmatch as [-> -> _ _ _ _ Hnew _].
  destruct (BlockEncoder_new_config _ _ _ 0 _ Hnew) as [Hc _].
  unfold BlockDecoder_new. rewrite Hc. by eexists.
Qed.

Lemma matched_size :
  infer_packet_size (decoder_block_size dec) (decoder_max_packet_size dec)
  = Ok (4 + symbol_size (config e))%Z.
Proof using L Hmatch.
  destruct matched_wf as (k & _ & _ & Hk & Hmax & _).
  destruct Hmatch as [-> -> _ _ Hbs _ Hnew _].
  destruct (BlockEncoder_new_config _ _ _ 1 _ Hnew) as (_ & e' & Hnew' & Hc).
  rewrite <- Hc in *. by eapply infer_packet_size_ok.
Qed.

(** The blocks the encoder makes of its input. *)
Abbreviation blocks first_id input :=
  (number_blocks first_id (records (Z.to_nat (enc_block_size enc)) input)).

Lemma matched_blocks first_id input :
  fits 8 first_id -> Forall (wf_block e) (blocks first_id input).
Proof using L Hmatch.
  intros Hid. destruct matched_wf as (k & _ & Hsize & _). destruct Hmatch.
  apply number_blocks_wf; [lia | lia | done].
Qed.

Lemma encoded_interleaving first_id input sent :
  fits 8 first_id -> encoded first_id enc input sent ->
  interleaving ((fun i => packets_of_all e
  (share id (enc_num_block_encoders enc) i (blocks first_id input)))
  <$> seq 0 (enc_num_block_encoders enc)) sent.
Proof using L Hmatch.
  intros Hid (enc' & w & net & st & Hstart & Hnet & Hrun & Hend & <-).
  destruct matched_wf as (k & Hwf & _). pose proof (matched_blocks first_id input Hid).
  destruct Hmatch. erewrite encoding_network_started in Hnet by done.
  injection Hnet as <-. by eapply encoder_network_out.
Qed.

(** The decoder's dispatcher gets back the packets that were serialised. *)
Lemma packets_in_serialize ps k :
  wf_encoder e k ->
  Forall (fun p => exists b, wf_block e b /\ p ∈ packets_of e b) ps ->
  packets_in (Z.to_nat (4 + symbol_size (config e))) (ps ≫= serialize) = ps.
Proof using L.
  intros He Hps.
  assert (Forall (fun p => deserialize (serialize p) = p /\
  length (serialize p) = Z.to_nat (4 + symbol_size (config e))) ps) as Hps'.
  { eapply Forall_impl; [exact Hps |]. intros p (b & Hb & Hp).
  pose proof (packets_of_genuine _ _ _ He Hb) as Hgen. rewrite Forall_forall in Hgen.
  pose proof (wf_supported _ _ _ He Hb) as Hsup. specialize (Hgen _ Hp).
  destruct Hb as [_ Hid]. split; [by eapply genuine_roundtrip |].
  by rewrite <- (genuine_length _ _ _ _ _ Hid Hsup Hgen), Nat2Z.id. }
  unfold packets_in. pose proof (symbol_size_fits (config e)) as Hss. unfold fits in Hss.
  replace (ps ≫= serialize) with (concat (serialize <$> ps) ++ [])
  by (rewrite app_nil_r; clear; induction ps; cbn; congruence).
  rewrite records_concat; [| lia | | cbn; lia].
  - clear Hps. induction Hps' as [| p ps [Hp _] _ IH]; cbn; [done |]. by rewrite Hp, IH.
  - rewrite Forall_fmap. eapply Forall_impl; [exact Hps' |]. by intros p [_ ?].
Qed.

Lemma decoded_interleaving ps output k :
  wf_encoder e k ->
  Forall (fun p => exists b, wf_block e b /\ p ∈ packets_of e b) ps ->
  decoded dec (ps ≫= serialize) output ->
  interleaving ((fun i => decode_runs (config e) (enc_block_size enc)
  (share source_block_number (enc_num_block_encoders enc) i ps))
  <$> seq 0 (enc_num_block_encoders enc)) output.
Proof using L Hmatch.
  intros He Hps (dec' & w & net & st & Hstart & Hnet & Hrun & Hend & <-).
  destruct matched_decoder as (d & Hnew & <- & <- & Hidle).
  rewrite (decoding_network_started _ _ _ d _ _ Hnew matched_size Hstart) in Hnet.
  rewrite (packets_in_serialize _ _ He Hps) in Hnet. injection Hnet as <-.
  destruct Hmatch as [_ _ Hsame Hsome _ _ _ _]. rewrite Hsame in *.
  by apply decoder_network_out.
Qed.
End matched.

(** Every packet the encoder writes is a packet of a block it accepts. *)
Lemma sent_packets enc dec e first_id input sent :
  matched enc dec e -> fits 8 first_id -> encoded first_id enc input sent ->
  Forall (fun p => exists b, wf_block e b /\ p ∈ packets_of e b) sent.
Proof using L.
  intros Hmatch Hid Henc. pose proof (matched_blocks enc dec e Hmatch first_id input Hid) as Hb.
  pose proof (encoded_interleaving _ _ _ Hmatch _ _ _ Hid Henc) as Hmix.
  apply interleaving_Permutation in Hmix. rewrite Hmix. apply Forall_concat, Forall_fmap.
  apply Forall_forall. intros i _. apply Forall_bind.
  eapply Forall_impl; [by apply share_Forall |]. intros b Hwf. cbn.
  apply Forall_forall. eauto.
Qed.

(** The numbers of the blocks that arrive at one worker. *)
Lemma arrivals_adjacent n i first_id ds (gs : list (Block * list EncodingPacket)) :
  fits 8 first_id -> 0 < n -> gs.*1 = number_blocks first_id ds ->
  length ds <= 256 \/ n <= 128 /\ Forall (fun g => g.2 <> []) gs ->
  adjacent_distinct ((fun g => id g.1) <$> survivors (share (id ∘ fst) n i gs)).
Proof using.
  intros Hid Hn Hgs Hcond.
  change ((fun g => id g.1) <$> ?l) with ((id ∘ fst) <$> l).
  destruct Hcond as [Hlen | [Hn' Hall]].
  - apply NoDup_adjacent_distinct.
    apply (sublist_NoDup _ ((id ∘ fst) <$> gs)).
    + rewrite list_fmap_compose, Hgs. by apply number_blocks_NoDup.
    + apply fmap_sublist. etransitivity; apply sublist_filter.
  - unfold survivors. rewrite filter_true by (by apply share_Forall).
    rewrite list_fmap_compose, share_fst, Hgs. apply share_adjacent; [lia | done].
Qed.

(** The data of the recoverable blocks, block by block. *)
Definition recovered_data (e : BlockEncoder) (g : Block * list EncodingPacket)
    : list (list byte) :=
  if decide (recoverable (config e) g) then [data g.1] else [].

Lemma recovered_bind e gs :
  gs ≫= recovered_data e = (fun g => data g.1) <$> filter (recoverable (config e)) gs.
Proof using.
  induction gs as [| g gs IH]; [done |]. rewrite bind_cons, filter_cons, IH.
  unfold recovered_data. by case_decide.
Qed.

Lemma share_one {A} (key : A -> Z) (l : list A) : share key 1 0 l = l.
Proof using.
  apply filter_true, Forall_forall. intros x _. unfold slot. by rewrite Z.mod_1_r.
Qed.

(** The workers' outputs, put together. *)
Lemma recovered_output e n (gs : list (Block * list EncodingPacket)) output :
  0 < n ->
  interleaving ((fun i => share (id ∘ fst) n i gs ≫= recovered_data e) <$> seq 0 n) output ->
  let recovered := (fun g => data g.1) <$> filter (recoverable (config e)) gs in
  output ≡ₚ recovered /\ (n = 1 -> output = recovered).
Proof using.
  intros Hn Hmix recovered. unfold recovered. rewrite <- recovered_bind. split.
  - rewrite (interleaving_Permutation _ _ Hmix). by apply shares_bind.
  - intros ->. cbn in Hmix. apply interleaving_one in Hmix. by rewrite Hmix, share_one.
Qed.

(** What arrived at each worker is what arrived, and what each worker makes of it. *)
Lemma transmission_arrivals enc dec e first_id input sent received output :
  matched enc dec e -> fits 8 first_id -> encoded first_id enc input sent ->
  received `sublist_of` sent -> decoded dec (received ≫= serialize) output ->
  let n := enc_num_block_encoders enc in
  exists gs, gs.*1 = number_blocks first_id (records (Z.to_nat (enc_block_size enc)) input) /\
    Forall (arrives e) gs /\ received ≡ₚ gs ≫= snd /\
    interleaving ((fun i => decode_runs (config e) (block_size e)
      (share (id ∘ fst) n i gs ≫= snd)) <$> seq 0 n) output.
Proof using L.
  intros Hmatch Hid Henc Hsub Hdec n.
  destruct (matched_wf _ _ _ Hmatch) as (k & Hwf & Hsize & _).
  pose proof (some_workers _ _ _ Hmatch) as Hn. fold n in Hn.
  destruct (received_arrivals e k n _ Hwf Hn (matched_blocks _ _ _ Hmatch first_id input Hid)
    sent received) as (gs & Hgs & Harr & Hshare);
    [by apply (encoded_interleaving _ _ _ Hmatch) | done |].
  exists gs. do 2 (split; [done |]). split.
  - rewrite <- (shares_Permutation source_block_number n received Hn).
    rewrite <- (shares_bind (id ∘ fst) snd n gs Hn). apply reflexive_eq. f_equal.
    apply list_fmap_ext. intros ? i [-> Hi]%lookup_seq. by apply Hshare.
  - rewrite Hsize. erewrite list_fmap_ext;
      [apply (decoded_interleaving _ _ _ Hmatch received output k Hwf); [| done] |].
    + eapply sublist_Forall; [exact Hsub | by eapply sent_packets].
    + intros ? i [-> Hi]%lookup_seq. cbn. by rewrite Hshare.
Qed.

Lemma transmission_cases enc dec e first_id input sent received output :
  matched enc dec e -> fits 8 first_id -> encoded first_id enc input sent ->
  received `sublist_of` sent -> decoded dec (received ≫= serialize) output ->
  let ds := records (Z.to_nat (enc_block_size enc)) input in
  let n := enc_num_block_encoders enc in
  exists gs : list (Block * list EncodingPacket),
    gs.*1 = number_blocks first_id ds /\ Forall (arrives e) gs /\ received ≡ₚ gs ≫= snd /\
    Forall (fun g => forall k, enc_block_size enc = (k * symbol_size (config e))%Z ->
      source_packets (block_encoder_of (config e) (id g.1) (data g.1) k) ⊆ g.2 ->
      recoverable (config e) g) gs /\
    (length ds <= 256 \/ n <= 128 /\ Forall (fun g => g.2 <> []) gs ->
     let recovered := (fun g => data g.1) <$> filter (recoverable (config e)) gs in
     output ≡ₚ recovered /\ (n = 1 -> output = recovered)).
Proof using L.
  intros Hmatch Hid Henc Hsub Hdec ds n.
  destruct (transmission_arrivals _ _ _ _ _ _ _ _ Hmatch Hid Henc Hsub Hdec)
    as (gs & Hgs & Harr & Hperm & Hmix). fold n ds in Hgs, Hmix.
  destruct (matched_wf _ _ _ Hmatch) as (k & Hwf & Hsize & Hk & _ & Hss).
  pose proof (some_workers _ _ _ Hmatch) as Hn. fold n in Hn.
  exists gs. do 3 (split; [done |]). split.
  - eapply Forall_impl; [exact Harr |]. intros g Hg k' Hk' Hall.
    assert (k' = k) as -> by nia. by eapply arrives_complete.
  - intros Hcond. apply recovered_output; [done |].
    erewrite list_fmap_ext; [exact Hmix |]. intros i j [-> Hi]%lookup_seq. cbn.
    rewrite (decode_runs_arrivals e k); [by rewrite recovered_bind | done | | |].
    + rewrite Hsize. pose proof (size_range _ _ _ Hmatch). unfold fits. lia.
    + by apply share_Forall.
    + eapply (arrivals_adjacent n i first_id ds gs); [done | done | done |].
      exact Hcond.
Qed.

(** C2 Encoder and decoder together, over a link that may lose packets but keeps
    their order, under every schedule of both.  Each block of the input arrives as
    some of its packets.  If at most 256 blocks were sent, or there are at most
    128 workers and something arrives of every block, then the decoder writes
    exactly the blocks of which enough arrives, each once, unaltered, and in order
    when there is one worker; a block whose source packets all arrive is among
    them. *)
Theorem transmission_lossy enc dec e first_id input sent received output :
  matched enc dec e -> fits 8 first_id -> encoded first_id enc input sent ->
  received `sublist_of` sent -> decoded dec (received ≫= serialize) output ->
  let ds := records (Z.to_nat (enc_block_size enc)) input in
  let n := enc_num_block_encoders enc in
  exists gs : list (Block * list EncodingPacket),
    gs.*1 = number_blocks first_id ds /\ Forall (arrives e) gs /\ received ≡ₚ gs ≫= snd /\
    Forall (fun g => forall k, enc_block_size enc = (k * symbol_size (config e))%Z ->
      source_packets (block_encoder_of (config e) (id g.1) (data g.1) k) ⊆ g.2 ->
      recoverable (config e) g) gs /\
    (length ds <= 256 \/ n <= 128 /\ Forall (fun g => g.2 <> []) gs ->
     let recovered := (fun g => data g.1) <$> filter (recoverable (config e)) gs in
     output ≡ₚ recovered /\ (n = 1 -> output = recovered)).
Proof using L. apply transmission_cases. Qed.

(** Both programs always can run to their end. *)
Lemma encoded_total enc dec e first_id input :
  matched enc dec e -> exists sent, encoded first_id enc input sent.
Proof using.
  intros Hmatch. pose proof (encoder_ok _ _ _ Hmatch) as Hnew.
  destruct (start_encoding_ok first_id enc (Threads [] []) e Hnew) as (enc' & w & Hstart).
  pose proof (encoding_network_started _ _ _ _ _ input Hnew Hstart) as Hnet.
  destruct (run_to_end (slot id (enc_num_block_encoders enc)) encode_work false
    (init (number_blocks first_id (records (Z.to_nat (enc_block_size enc)) input))
      (replicate (enc_num_block_encoders enc) e))) as (st & Hrun & Hend).
  exists (out st), enc', w. eauto 10.
Qed.

Lemma decoded_total enc dec e input :
  matched enc dec e -> exists output, decoded dec input output.
Proof using L.
  intros Hmatch. destruct (matched_decoder _ _ _ Hmatch) as (d & Hnew & _).
  pose proof (matched_size _ _ _ Hmatch) as Hsize.
  destruct (start_decoding_ok dec (Threads [] []) d _ Hnew Hsize) as (dec' & w & Hstart).
  pose proof (decoding_network_started _ _ _ _ _ input Hnew Hsize Hstart) as Hnet.
  destruct (run_to_end (slot source_block_number (num_block_decoders dec)) decode_work false
    (init (packets_in (Z.to_nat (4 + symbol_size (config e))) input)
      (replicate (num_block_decoders dec) d))) as (st & Hrun & Hend).
  exists (out st), dec', w. eauto 10.
Qed.

(** Arrivals that are as long as what was sent are complete. *)
Lemma arrivals_full e gs :
  Forall (arrives e) gs -> length (gs ≫= snd) = length (gs.*1 ≫= packets_of e) ->
  Forall (fun g => g.2 = packets_of e g.1) gs.
Proof using.
  induction 1 as [| [b r] gs [_ Hr] Hgs IH]; intros Hlen; [done |]. cbn in *.
  rewrite !length_app in Hlen. pose proof (sublist_length _ _ Hr).
  assert (length (gs ≫= snd) <= length (gs.*1 ≫= packets_of e)) as Hle.
  { clear -Hgs. induction Hgs as [| g gs [_ Hg] _ IH]; cbn; [done |].
    rewrite !length_app. apply sublist_length in Hg. lia. }
  constructor; [| apply IH; lia]. cbn.
  assert (length r = length (packets_of e b)) as Heq by lia. clear -Hr Heq.
  induction Hr as [| x l k Hr IH | x l k Hr IH]; cbn in *; [done | f_equal; auto |].
  apply sublist_length in Hr. lia.
Qed.

Lemma transmission_exact_cases enc dec e first_id input sent output :
  matched enc dec e -> fits 8 first_id -> encoded first_id enc input sent ->
  decoded dec (sent ≫= serialize) output ->
  let bs := Z.to_nat (enc_block_size enc) in
  let n := enc_num_block_encoders enc in
  n <= 128 \/ length (records bs input) <= 256 ->
  output ≡ₚ records bs input /\
  (n = 1 -> output = records bs input /\
    concat output = take (bs * (length input / bs)) input).
Proof using L.
  intros Hmatch Hid Henc Hdec bs n Hcond.
  destruct (transmission_cases _ _ _ _ _ _ _ _ Hmatch Hid Henc (reflexivity sent) Hdec)
    as (gs & Hgs & Harr & Hperm & Hrec & Hout). fold n bs in Hgs, Hout.
  destruct (matched_wf _ _ _ Hmatch) as (k & Hwf & Hsize & Hk & _).
  assert (Forall (fun g => g.2 = packets_of e g.1) gs) as Hfull.
  { apply arrivals_full; [done |]. rewrite <- Hperm, Hgs.
    pose proof (encoded_interleaving _ _ _ Hmatch _ _ _ Hid Henc) as Hmix.
    apply Permutation_length. rewrite (interleaving_Permutation _ _ Hmix).
    apply shares_bind, Hmatch. }
  assert (Forall (fun g => g.2 <> [] /\ recoverable (config e) g) gs) as Hall.
  { rewrite Forall_forall in Harr, Hfull, Hrec |- *. intros g Hg.
    destruct (Harr g Hg) as [Hb _]. specialize (Hfull g Hg). split.
    - intros E. pose proof (length_packets_of _ _ _ Hwf Hb) as Hlen.
      rewrite <- Hfull, E in Hlen. destruct Hwf as (_ & _ & _ & ? & ? & _). cbn in Hlen. lia.
    - apply (Hrec g Hg k Hk). rewrite Hfull. by apply packets_of_sources. }
  rewrite filter_true in Hout by (by eapply Forall_impl; [exact Hall |]; intros g [_ ?]).
  assert ((fun g => data g.1) <$> gs = records bs input) as Hdata.
  { change ((fun g => data g.1) <$> gs) with ((data ∘ fst) <$> gs).
    rewrite list_fmap_compose, Hgs. apply number_blocks_data. }
  rewrite Hdata in Hout. destruct Hout as [Hout Hone].
  { destruct Hcond; [right | by left]. split; [done |].
    eapply Forall_impl; [exact Hall |]. by intros g [? _]. }
  split; [done |]. intros Hn. specialize (Hone Hn). split; [done |].
  rewrite Hone. apply concat_chunks.
Qed.

(** Encoder and decoder together over a lossless link, under every schedule of
    both: with at most 128 workers, or at most 256 blocks, the decoder writes out
    exactly the complete blocks of the input, each once, and in order when there
    is one worker; then what it writes is the input, but for an incomplete last
    block. *)
Theorem transmission_exact enc dec e first_id input sent output :
  matched enc dec e -> fits 8 first_id -> encoded first_id enc input sent ->
  decoded dec (sent ≫= serialize) output ->
  let bs := Z.to_nat (enc_block_size enc) in
  let n := enc_num_block_encoders enc in
  n <= 128 \/ length (records bs input) <= 256 ->
  output ≡ₚ records bs input /\
  (n = 1 -> output = records bs input /\
    concat output = take (bs * (length input / bs)) input).
Proof using L. apply transmission_exact_cases. Qed.

(** ** More workers than that *)

(** A run is counted once, however long. *)
Lemma length_runs_cons p ps : length (runs (p :: ps)) <= S (length (runs ps)).
Proof using.
  cbn. destruct (runs ps) as [| [m qs] rs]; cbn; [lia |]. case_match; cbn; lia.
Qed.

Lemma length_runs_same p q ps :
  source_block_number p = source_block_number q ->
  length (runs (p :: q :: ps)) = length (runs (q :: ps)).
Proof using.
  intros Hpq. pose proof (runs_span q ps) as Hspan. cbn zeta in Hspan.
  change (runs (p :: q :: ps)) with
    (match runs (q :: ps) with
     | (m, qs) :: rs =>
       if (source_block_number p =? m)%Z then (m, p :: qs) :: rs
       else (source_block_number p, [p]) :: (m, qs) :: rs
     | [] => [(source_block_number p, [p])]
     end).
  by rewrite Hspan, Hpq, Z.eqb_refl.
Qed.

Lemma length_runs_app m l ps :
  Forall (fun p => source_block_number p = m) l ->
  length (runs (l ++ ps)) <= S (length (runs ps)).
Proof using.
  induction 1 as [| p l Hp Hl IH]; cbn [app]; [lia |].
  destruct Hl as [| q l Hq Hl]; [apply length_runs_cons |].
  cbn [app] in *. rewrite length_runs_same by congruence. exact IH.
Qed.

Lemma length_decode_runs oti bs ps : length (decode_runs oti bs ps) <= length (runs ps).
Proof using.
  unfold decode_runs. induction (runs ps) as [| r rs IH]; [done |].
  rewrite bind_cons, length_app. cbn [length].
  destruct (decode_run oti bs r); cbn; lia.
Qed.

(** At most one block comes out per block that went in... *)
Lemma length_runs_blocks e k bs :
  wf_encoder e k -> Forall (wf_block e) bs ->
  length (runs (packets_of_all e bs)) <= length bs.
Proof using L.
  intros He. induction 1 as [| b bs Hb _ IH]; [done |]. unfold packets_of_all in *.
  rewrite bind_cons. etransitivity; [eapply length_runs_app, packets_of_number; eauto |].
  cbn. lia.
Qed.

(** ... and one at most from blocks with the same number. *)
Lemma length_runs_reused e k m bs :
  wf_encoder e k -> Forall (wf_block e) bs -> Forall (fun b => id b = m) bs ->
  length (runs (packets_of_all e bs)) <= 1.
Proof using L.
  intros He Hbs Hid. rewrite <- (app_nil_r (packets_of_all e bs)).
  apply (length_runs_app m). unfold packets_of_all. apply Forall_bind, Forall_forall.
  intros b Hb. rewrite Forall_forall in Hbs, Hid. rewrite <- (Hid b Hb).
  eapply packets_of_number; eauto.
Qed.

Lemma length_concat_le {A B} (f : nat -> list A) (g : nat -> list B) (js : list nat) :
  (forall j, j ∈ js -> length (f j) <= length (g j)) ->
  length (concat (f <$> js)) <= length (concat (g <$> js)).
Proof using.
  induction js as [| j js IH]; intros Hle; cbn; [done |]. rewrite !length_app.
  pose proof (Hle j (list_elem_of_here _ _)).
  specialize (IH (fun j' Hj' => Hle j' (list_elem_of_further _ _ _ Hj'))). lia.
Qed.

(** With 129 workers or more, the number 128 is alone at its worker. *)
Lemma slot_128 n b : 129 <= n -> fits 8 (id b) -> slot id n b = 128 -> id b = 128%Z.
Proof using.
  intros Hn Hb Hslot. unfold slot, fits in *.
  pose proof (Z.div_mod (id b) (Z.of_nat n) ltac:(lia)) as Hdiv.
  pose proof (Z.mod_pos_bound (id b) (Z.of_nat n) ltac:(lia)).
  assert (id b mod Z.of_nat n = 128)%Z as Hmod by lia. rewrite Hmod in Hdiv.
  change (2 ^ 8)%Z with 256%Z in Hb. generalize dependent (id b / Z.of_nat n)%Z.
  intros q Hdiv. destruct (Z.lt_trichotomy q 0) as [? | [-> | ?]]; nia.
Qed.

Lemma share_overflow n ds i :
  129 <= n -> length ds = 257 ->
  let blocks := number_blocks 128 ds in
  if decide (i = 128)
  then Forall (fun b => id b = 128%Z) (share id n i blocks) /\
    1 <= length (share id n i (take 256 blocks))
  else share id n i blocks = share id n i (take 256 blocks).
Proof using.
  intros Hn Hlen blocks. assert (fits 8 128) as Hid by (split; [lia | reflexivity]).
  assert (forall b, id b = 128%Z -> slot id n b = 128) as Hslot.
  { intros b Hb. unfold slot. rewrite Hb, Z.mod_small by lia. done. }
  case_decide as Hi.
  - subst i. split.
    + apply Forall_forall. intros b [Hb Hin]%list_elem_of_filter.
      pose proof (number_blocks_ids 128 ds Hid) as Hids. rewrite Forall_forall in Hids.
      eapply slot_128; eauto.
    + unfold blocks. destruct ds as [| d ds]; [done |]. cbn [number_blocks take].
      rewrite share_cons, decide_True by by apply Hslot. cbn. lia.
  - rewrite <- (take_drop 256 blocks) at 1.
    assert (length (drop 256 blocks) = 1) as Hdrop
      by (rewrite length_drop; unfold blocks; rewrite length_number_blocks; lia).
    destruct (drop 256 blocks) as [| b [| b' l]] eqn:E; [done | | done].
    unfold share at 1. rewrite filter_app. fold (share id n i (take 256 blocks)).
    fold (share id n i [b]). rewrite share_cons, decide_False; [by rewrite app_nil_r |].
    intros Hb. apply Hi. rewrite <- Hb. apply Hslot.
    assert (blocks !! 256 = Some b) as Hlookup.
    { rewrite <- (Nat.add_0_r 256), <- lookup_drop, E. done. }
    unfold blocks in Hlookup. rewrite number_blocks_lookup in Hlookup by done.
    destruct (ds !! 256); [| done]. cbn in Hlookup. injection Hlookup as <-. reflexivity.
Qed.

(** C5 More than 128 workers lose data even over a lossless link: the blocks 0 and
    256 have the same number; when that number is 128 they follow each other at one
    worker, whatever the number of workers, and the decoder takes the packets of
    the second for more packets of the first. *)
Theorem worker_overflow enc dec e input sent output :
  matched enc dec e -> encoded 128 enc input sent ->
  decoded dec (sent ≫= serialize) output ->
  129 <= enc_num_block_encoders enc ->
  length (records (Z.to_nat (enc_block_size enc)) input) = 257 ->
  length output <= 256.
Proof using L.
  intros Hmatch Henc Hdec Hn Hlen. set (n := enc_num_block_encoders enc) in *.
  assert (fits 8 128) as Hid by (split; [lia | reflexivity]).
  destruct (matched_wf _ _ _ Hmatch) as (k & Hwf & _).
  pose proof (matched_blocks _ _ _ Hmatch 128 input Hid) as Hblocks.
  pose proof (encoded_interleaving _ _ _ Hmatch _ _ _ Hid Henc) as Hsent.
  pose proof (decoded_interleaving _ _ _ Hmatch _ _ _ Hwf
    (sent_packets _ _ _ _ _ _ Hmatch Hid Henc) Hdec) as Hmix. fold n in Hsent, Hmix.
  set (ds := records _ input) in *. set (blocks := number_blocks 128 ds) in *.
  apply interleaving_Permutation, Permutation_length in Hmix. rewrite Hmix.
  assert (length (concat (shares id n (take 256 blocks))) = 256) as <-.
  { rewrite shares_Permutation by lia. unfold blocks.
    rewrite length_take, length_number_blocks. lia. }
  unfold shares. apply (length_concat_le
    (fun i => decode_runs (config e) (enc_block_size enc) (share source_block_number n i sent))
    (fun i => share id n i (take 256 blocks))).
  intros i [_ Hi]%elem_of_seq. cbn in Hi.
  rewrite (share_packets e k n blocks Hwf Hblocks sent i Hsent Hi).
  etransitivity; [apply length_decode_runs |].
  pose proof (share_overflow n ds i Hn Hlen) as Hshare. fold blocks in Hshare.
  case_decide.
  - destruct Hshare as [Hsame Hone]. etransitivity; [| exact Hone].
    eapply length_runs_reused; [done | by apply share_Forall | done].
  - rewrite Hshare. eapply length_runs_blocks; [done |].
    apply share_Forall. by apply Forall_take.
Qed.
End transmission.

(** ** Witnesses *)
Module TransmissionDemo.
Import Demo.

Definition demo_enc (n : nat) : Encoder :=
  (Encoder_new (C := Repetition.code) 16 11 1 n (Threads [] [])).1.
Definition demo_dec (n : nat) : Decoder :=
  (Decoder_new (C := Repetition.code) 16 n 11 (Threads [] [])).1.

Lemma demo_matched n :
  0 < n -> matched (C := Repetition.code) (demo_enc n) (demo_dec n) demo_encoder.
Proof. intros Hn. split; try reflexivity; first [exact Hn | by_compute | unfold repairable; by_compute]. Qed.

Lemma demo_encoded n first_id input : 0 < n ->
  exists sent, encoded (C := Repetition.code) first_id (demo_enc n) input sent.
Proof. intros Hn. by eapply encoded_total, demo_matched. Qed.

Lemma demo_decoded n input : 0 < n ->
  exists output, decoded (C := Repetition.code) (demo_dec n) input output.
Proof. intros Hn. by eapply decoded_total, demo_matched. Qed.

(** Three blocks and a rest; all packets after the fifth are lost. *)
Definition demo_input : list byte :=
  replicate 16 x01 ++ replicate 16 x02 ++ replicate 16 x03 ++ [x04].

Abbreviation ser := (serialize (RaptorQ := Repetition.code)).

Lemma transmission_lossy_witness :
  exists sent output gs,
    encoded (C := Repetition.code) 254 (demo_enc 3) demo_input sent /\
    decoded (C := Repetition.code) (demo_dec 3) (take 5 sent ≫= ser) output /\
    gs.*1 = number_blocks 254 [replicate 16 x01; replicate 16 x02; replicate 16 x03] /\
    output ≡ₚ (fun g => data g.1) <$> filter (recoverable (C := Repetition.code) 8%Z) gs.
Proof.
  destruct (demo_encoded 3 254 demo_input ltac:(lia)) as [sent Henc].
  destruct (demo_decoded 3 (take 5 sent ≫= ser) ltac:(lia)) as [output Hdec].
  destruct (transmission_lossy (C := Repetition.code) (demo_enc 3) (demo_dec 3) demo_encoder 254
    demo_input sent (take 5 sent) output (demo_matched 3 ltac:(lia)) ltac:(by_compute)
    Henc (sublist_take sent 5) Hdec) as (gs & Hgs & _ & _ & _ & Hout).
  exists sent, output, gs. split; [exact Henc |]. split; [exact Hdec |].
  split; [exact Hgs |]. apply Hout. left. vm_compute. lia.
Defined.

Lemma transmission_exact_witness :
  exists sent output,
    encoded (C := Repetition.code) 7 (demo_enc 1) demo_input sent /\
    decoded (C := Repetition.code) (demo_dec 1) (sent ≫= ser) output /\
    concat output = replicate 16 x01 ++ replicate 16 x02 ++ replicate 16 x03.
Proof.
  destruct (demo_encoded 1 7 demo_input ltac:(lia)) as [sent Henc].
  destruct (demo_decoded 1 (sent ≫= ser) ltac:(lia)) as [output Hdec].
  exists sent, output. split; [exact Henc |]. split; [exact Hdec |].
  refine (proj2 (proj2 (transmission_exact (C := Repetition.code) (demo_enc 1) (demo_dec 1)
    demo_encoder 7 demo_input sent output (demo_matched 1 ltac:(lia)) ltac:(by_compute)
    Henc Hdec _) eq_refl)).
  left. cbn. lia.
Defined.

Lemma worker_overflow_witness :
  exists sent output,
    encoded (C := Repetition.code) 128 (demo_enc 129) (replicate (16 * 257) x05) sent /\
    decoded (C := Repetition.code) (demo_dec 129) (sent ≫= ser) output /\
    length output <= 256.
Proof.
  destruct (demo_encoded 129 128 (replicate (16 * 257) x05) ltac:(lia)) as [sent Henc].
  destruct (demo_decoded 129 (sent ≫= ser) ltac:(lia)) as [output Hdec].
  exists sent, output. split; [exact Henc |]. split; [exact Hdec |].
  apply (worker_overflow (C := Repetition.code) (demo_enc 129) (demo_dec 129) demo_encoder
    (replicate (16 * 257) x05) sent output (demo_matched 129 ltac:(lia)) Henc Hdec).
  - cbn. lia.
  - vm_compute. reflexivity.
Defined.
End TransmissionDemo.
