(* ===== verification/System.v ===== *)
(** * Encoder and decoder from read calls to write calls

    The threads of [Machine], set up as [start_encoding] and [start_decoding] spawn
    them: [encoder_machine] and [decoder_machine].  A run of them is a run of the
    network that [Encoder] and [Decoder] speak of, so what [EndToEnd] proves of the two
    networks holds of the bytes read and written. *)
From stdpp Require Import prelude list relations.
From Stdlib Require Import ZArith Lia.
From S2P Require Import Prelude Io Bytes RaptorQ BlockEncoder BlockDecoder Pipeline Dispatch.
From S2P Require Import Machine Threads Encoder Decoder EndToEnd.

Section system.
Context `{L : RaptorQLaws} {R V : Type} `{!Reader R, !Writer V}.

(** What the block dispatcher makes of a full buffer, and its next number. *)
Definition block_item (id : Z) (buffer : list byte) : Block * Z :=
  (MkBlock id buffer, wadd 8 id 1).

(** What the packet dispatcher makes of one. *)
Definition packet_item (u : unit) (buffer : list byte) : EncodingPacket * unit :=
  (deserialize buffer, u).

(** The spawned threads [ts], reading from [r] and writing to [v]. *)
Definition encoder_machine (ts : list encoder_task) (r : R) (v : V)
    : option (machine (A := Block) (B := EncodingPacket) (W := BlockEncoder) (D := Z)) :=
  match last ts with
  | Some (BlockDispatcherTask d) =>
    Some (machine_start (Z.to_nat (disp_block_size d)) r (disp_current_block_id d) v
      (omap task_encoder ts))
  | _ => None
  end.

Definition decoder_machine (ts : list decoder_task) (r : R) (v : V)
    : option (machine (A := EncodingPacket) (B := list byte) (W := BlockDecoder) (D := unit)) :=
  match last ts with
  | Some (PacketDispatcherTask d) =>
    Some (machine_start (Z.to_nat (disp_packet_size d)) r tt v (omap task_decoder ts))
  | _ => None
  end.

Definition encoder_mstep (block_size : Z) (n : nat) :=
  mstep (R := R) (V := V) (slot id n) encode_work (Z.to_nat block_size) block_item serialize.

Definition decoder_mstep (packet_size : Z) (n : nat) :=
  mstep (R := R) (V := V) (slot source_block_number n) decode_work (Z.to_nat packet_size)
    packet_item (fun block => block).

(** The encoder [enc], started with [first_id], has run to its end: it has read from [r],
    and [v'] is what has become of the writer [v].  [w0] holds the threads spawned
    before.  [stopped]: was [stop] called? *)
Definition encoder_runs (first_id : Z) (enc : Encoder) (r : R) (v : V) (stopped : bool)
    (v' : V) : Prop :=
  exists w0 enc' w m0 m,
    start_encoding (Ok first_id) enc w0 = (Ok tt, enc', w) /\
    encoder_machine (drop (length (spawned w0)) (spawned w)) r v = Some m0 /\
    rtc (encoder_mstep (enc_block_size enc) (enc_num_block_encoders enc)) m0 m /\
    halted m /\ should_stop m = stopped /\ output (fthread m) = v'.

Definition decoder_runs (dec : Decoder) (r : R) (v : V) (stopped : bool) (v' : V) : Prop :=
  exists packet_size w0 dec' w m0 m,
    infer_packet_size (decoder_block_size dec) (decoder_max_packet_size dec) = Ok packet_size /\
    start_decoding dec w0 = (Ok tt, dec', w) /\
    decoder_machine (drop (length (spawned w0)) (spawned w)) r v = Some m0 /\
    rtc (decoder_mstep packet_size (num_block_decoders dec)) m0 m /\
    halted m /\ should_stop m = stopped /\ output (fthread m) = v'.

Lemma items_blocks id ds : items block_item id ds = number_blocks id ds.
Proof using. revert id. induction ds as [| d ds IH]; intros id; cbn; [done |]. by rewrite IH. Qed.

Lemma items_packets u ds : items packet_item u ds = deserialize <$> ds.
Proof using. induction ds as [| d ds IH]; cbn; [done |]. by rewrite IH. Qed.

(** The first records of a stream are the records of its beginning. *)
Lemma records_of_prefix n (l : list byte) ds :
  0 < n -> ds `prefix_of` records n l -> records n (concat ds) = ds.
Proof using.
  intros Hn [k Hk]. rewrite <- (app_nil_r (concat ds)). apply records_concat; [done | | cbn; lia].
  pose proof (records_lengths n l) as Hlen. rewrite Hk in Hlen. by apply Forall_app in Hlen as [? _].
Qed.

Section encoder.
Context `{!Feed R, !Sink V} (enc : Encoder) (dec : Decoder) (e : BlockEncoder).
Context (Hmatch : matched enc dec e).

Abbreviation n := (enc_num_block_encoders enc).
Abbreviation bs := (Z.to_nat (enc_block_size enc)).

Lemma encoder_machine_started first_id w0 enc' w r v :
  start_encoding (Ok first_id) enc w0 = (Ok tt, enc', w) ->
  encoder_machine (drop (length (spawned w0)) (spawned w)) r v = Some (machine_start bs r first_id v (replicate n e)).
Proof using Hmatch.
  intros Hstart.
  pose proof (Encoder.start_encoding_cases (Ok first_id) enc w0) as Hcases.
  rewrite Hstart in Hcases.
  destruct Hcases as (es & d & [Hsp Hlen _ _ Hsize _] & [= Hid] & Hes).
  unfold encoder_machine. rewrite Hsp, drop_app_length.
  rewrite app_comm_cons, last_snoc, Hsize, <- Hid. do 2 f_equal.
  cbn. rewrite omap_app, (omap_encoders _ e), Hlen; cbn; [by rewrite app_nil_r |].
  apply Forall_forall. intros t Ht. destruct (Hes t Ht) as (e' & -> & He').
  rewrite (encoder_ok _ _ _ Hmatch) in He'. congruence.
Qed.

(** A run of the encoder's threads, down to their reads and writes, is a run of its
    network on the complete blocks it read. *)
Lemma encoder_runs_encoded first_id r v stopped v' :
  reliable_from v -> fits 8 first_id -> encoder_runs first_id enc r v stopped v' ->
  exists ds sent, ds `prefix_of` records bs (supply r) /\
    (stopped = false -> ds = records bs (supply r)) /\
    encoded first_id enc (concat ds) sent /\
    written v' = written v ++ (sent ≫= serialize).
Proof using L Hmatch Feed0 Sink0.
  intros Hrel Hid (w0 & enc' & w & m0 & m & Hstart & Hm0 & Hrun & Hend & <- & <-).
  rewrite (encoder_machine_started _ _ _ _ _ _ Hstart) in Hm0. injection Hm0 as <-.
  destruct (matched_wf _ _ _ Hmatch) as (k & Hwf & Hsize & _).
  assert (0 < bs) as Hbs by (destruct (size_range _ _ _ Hmatch); lia).
  pose proof (some_workers _ _ _ Hmatch) as Hn.
  assert (forall ds, ds `prefix_of` records bs (supply r) ->
    Forall (wf_block e) (number_blocks first_id ds)) as Hblocks.
  { intros ds Hds. rewrite <- (records_of_prefix _ _ _ Hbs Hds).
    by eapply (matched_blocks enc dec e Hmatch). }
  destruct (machine_exact (slot id n) encode_work bs block_item serialize r first_id v
    (replicate n e) m) as (ds & sent & Hds & Hall & Hsteps & Hterm & Hout & Hwr); try done.
  - intros b. rewrite length_replicate. by apply slot_bound.
  - intros ds i s Hds [-> _]%lookup_replicate. rewrite items_blocks.
    eapply (run_encode e k); [done |]. by apply (share_Forall id), Hblocks.
  - exists ds, sent. split_and!; [done | done | |].
    + destruct (encoded_total enc dec e first_id [] Hmatch) as (? & enc1 & w1 & ? & ? & Hstart1 & _).
      exists enc1, w1. eexists _, _. split_and!; [done | | | exact Hterm | exact Hout].
      * eapply (encoding_network_started first_id enc enc1 w1 e); [apply Hmatch | done].
      * by rewrite (records_of_prefix _ _ _ Hbs Hds), <- items_blocks.
    + rewrite Hwr. f_equal. clear. induction sent; cbn; congruence.
Qed.

Abbreviation size := (4 + symbol_size (config e))%Z.

Lemma decoder_machine_started d w0 dec' w r v :
  BlockDecoder_new (decoder_block_size dec) (decoder_max_packet_size dec) = Ok d ->
  start_decoding dec w0 = (Ok tt, dec', w) ->
  decoder_machine (drop (length (spawned w0)) (spawned w)) r v =
    Some (machine_start (Z.to_nat size) r tt v (replicate (num_block_decoders dec) d)).
Proof using L Hmatch.
  intros Hnew Hstart.
  pose proof (Decoder.start_decoding_cases dec w0) as Hcases.
  rewrite Hstart in Hcases.
  destruct Hcases as (ds & d' & [Hsp Hlen _ _ Hsize _] & Hds).
  unfold decoder_machine. rewrite Hsp, drop_app_length.
  rewrite app_comm_cons, last_snoc.
  pose proof (matched_size _ _ _ Hmatch) as Hsize'. rewrite Hsize in Hsize'.
  injection Hsize' as ->. do 2 f_equal.
  cbn. rewrite omap_app, (omap_decoders _ d), Hlen; cbn; [by rewrite app_nil_r |].
  apply Forall_forall. intros t Ht. destruct (Hds t Ht) as (d1 & -> & Hd1). congruence.
Qed.

(** The same of the decoder, on the complete packets it read. *)
Lemma decoder_runs_decoded r v stopped v' :
  reliable_from v -> decoder_runs dec r v stopped v' ->
  exists ds output, ds `prefix_of` records (Z.to_nat size) (supply r) /\
    decoded dec (concat ds) output /\ (stopped = false -> decoded dec (supply r) output) /\
    written v' = written v ++ concat output.
Proof using L Hmatch Feed0 Sink0.
  intros Hrel (psize & w0 & dec' & w & m0 & m & Hinfer & Hstart & Hm0 & Hrun & Hend & <- & <-).
  destruct (matched_decoder _ _ _ Hmatch) as (d & Hnew & _).
  pose proof (matched_size _ _ _ Hmatch) as Hsize. rewrite Hinfer in Hsize.
  injection Hsize as ->. pose proof (matched_size _ _ _ Hmatch) as Hsize.
  rewrite (decoder_machine_started d _ _ _ _ _ Hnew Hstart) in Hm0. injection Hm0 as <-.
  assert (0 < Z.to_nat size) as Hpos
    by (pose proof (symbol_size_fits (config e)) as Hss; unfold fits in Hss; lia).
  assert (0 < num_block_decoders dec) as Hn by (destruct Hmatch; lia).
  destruct (machine_exact (slot source_block_number (num_block_decoders dec)) decode_work
    (Z.to_nat size) packet_item (fun block => block) r tt v
    (replicate (num_block_decoders dec) d) m)
    as (ds & output & Hds & Hall & Hsteps & Hterm & Hout & Hwr); try done.
  - intros p. rewrite length_replicate. by apply slot_bound.
  - intros ds i s Hds [-> _]%lookup_replicate. apply run_decode.
  - rewrite items_packets in Hsteps. rewrite list_fmap_id in Hwr.
    assert (forall bytes, records (Z.to_nat size) bytes = ds -> decoded dec bytes output) as Hdec.
    { intros bytes Hbytes.
      destruct (decoded_total enc dec e [] Hmatch) as (? & dec1 & w1 & ? & ? & Hstart1 & _).
      exists dec1, w1. eexists _, _. split_and!; [done | | | exact Hterm | exact Hout].
      - by eapply (decoding_network_started dec dec1 w1 d size).
      - unfold packets_in. by rewrite Hbytes. }
    exists ds, output. split_and!; [done | | | done].
    + by apply Hdec, (records_of_prefix _ (supply r)).
    + intros Hs. apply Hdec. by rewrite Hall.
Qed.

(** Both programs always can run to their end on a reader that does not time out for
    ever, whatever it delivers. *)
Lemma encoder_runs_total first_id r v tries :
  patient tries -> exists v', encoder_runs first_id enc r v false v'.
Proof using L Hmatch Feed0 Sink0.
  intros Hpat. assert (0 < bs) as Hbs by (destruct (size_range _ _ _ Hmatch); lia).
  destruct (encoded_total enc dec e first_id [] Hmatch) as (sent & enc' & w & net & st & Hstart & _).
  pose proof (encoder_machine_started first_id _ enc' w r v Hstart) as Hm0.
  destruct (settles_halts (slot id n) encode_work bs block_item serialize tries
    (machine_start bs r first_id v (replicate n e))) as (m & Hrun & Hend & Hstop);
    [done | split; [apply length_replicate | by right] |].
  exists (output (fthread m)), (Threads [] []), enc', w. by eexists _, m.
Qed.

Lemma decoder_runs_total r v tries :
  patient tries -> exists v', decoder_runs dec r v false v'.
Proof using L Hmatch Feed0 Sink0.
  intros Hpat. pose proof (matched_size _ _ _ Hmatch) as Hsize.
  destruct (matched_decoder _ _ _ Hmatch) as (d & Hnew & _).
  destruct (decoded_total enc dec e [] Hmatch) as (blocks & dec' & w & net & st & Hstart & _).
  pose proof (decoder_machine_started d _ dec' w r v Hnew Hstart) as Hm0.
  assert (0 < Z.to_nat size) as Hpos
    by (pose proof (symbol_size_fits (config e)) as Hss; unfold fits in Hss; lia).
  destruct (settles_halts (slot source_block_number (num_block_decoders dec)) decode_work
    (Z.to_nat size) packet_item (fun block => block) tries
    (machine_start (Z.to_nat size) r tt v (replicate (num_block_decoders dec) d)))
    as (m & Hrun & Hend & Hstop); [done | split; [apply length_replicate | by right] |].
  exists (output (fthread m)), size, (Threads [] []), dec', w. by eexists _, m.
Qed.
End encoder.
End system.

(** The whole system; see [system_transmission]. *)
Lemma system_transmission_cases `{L : RaptorQLaws} {R1 V1 R2 V2 : Type}
    `{Feed R1, Sink V1, Feed R2, Sink V2} enc dec e first_id
    (r1 : R1) (v1 v1' : V1) stopped (r2 : R2) (v2 v2' : V2) :
  matched enc dec e -> fits 8 first_id -> reliable_from v1 -> reliable_from v2 ->
  encoder_runs first_id enc r1 v1 stopped v1' ->
  written v1' = written v1 ++ supply r2 ->
  decoder_runs dec r2 v2 false v2' ->
  let bs := Z.to_nat (enc_block_size enc) in
  let n := enc_num_block_encoders enc in
  n <= 128 \/ length (records bs (supply r1)) <= 256 ->
  exists ds output, ds `prefix_of` records bs (supply r1) /\
    (stopped = false -> ds = records bs (supply r1)) /\
    output ≡ₚ ds /\ (n = 1 -> output = ds) /\
    written v2' = written v2 ++ concat output.
Proof.
  intros Hmatch Hid Hrel1 Hrel2 Henc Hlink Hdec bs n Hcond.
  destruct (encoder_runs_encoded enc dec e Hmatch first_id r1 v1 stopped v1' Hrel1 Hid Henc)
    as (ds & sent & Hds & Hall & Hsent & Hwr1). fold bs in Hds, Hall.
  rewrite Hlink in Hwr1. apply app_inv_head in Hwr1.
  destruct (decoder_runs_decoded enc dec e Hmatch r2 v2 false v2' Hrel2 Hdec)
    as (ds2 & output & _ & _ & Hdecoded & Hwr2).
  specialize (Hdecoded eq_refl). rewrite Hwr1 in Hdecoded.
  assert (0 < bs) as Hbs by (destruct (size_range _ _ _ Hmatch); lia).
  pose proof (records_of_prefix _ _ _ Hbs Hds) as Hrec.
  destruct (transmission_exact_cases enc dec e first_id (concat ds) sent output Hmatch Hid
    Hsent Hdecoded) as [Hout Hone].
  - fold bs n. rewrite Hrec. destruct Hcond as [? | Hle]; [by left | right].
    apply prefix_length in Hds. lia.
  - fold bs n in Hout, Hone. rewrite Hrec in Hout, Hone. exists ds, output. split_and!; [done | done | done | | done].
    intros Hn. by apply Hone.
Qed.

(** C1 From the bytes the encoder reads to the bytes the decoder writes: whatever the
    pieces the reads and writes come in, the interruptions, the schedule of both
    programs and the moment at which the encoder is stopped, when the decoder reads
    what the encoder wrote, it writes the first complete blocks of the encoder's
    input, each once (all of them unless the encoder was stopped), and in their order
    when there is one worker. *)
Theorem system_transmission `{L : RaptorQLaws} {R1 V1 R2 V2 : Type}
    `{Feed R1, Sink V1, Feed R2, Sink V2} enc dec e first_id
    (r1 : R1) (v1 v1' : V1) stopped (r2 : R2) (v2 v2' : V2) :
  matched enc dec e -> fits 8 first_id -> reliable_from v1 -> reliable_from v2 ->
  encoder_runs first_id enc r1 v1 stopped v1' ->
  written v1' = written v1 ++ supply r2 ->
  decoder_runs dec r2 v2 false v2' ->
  let bs := Z.to_nat (enc_block_size enc) in
  let n := enc_num_block_encoders enc in
  n <= 128 \/ length (records bs (supply r1)) <= 256 ->
  exists ds output, ds `prefix_of` records bs (supply r1) /\
    (stopped = false -> ds = records bs (supply r1)) /\
    output ≡ₚ ds /\ (n = 1 -> output = ds) /\
    written v2' = written v2 ++ concat output.
Proof. apply system_transmission_cases. Qed.

(** C8 [stop] has no effect while data keep arriving: on an input that delivers bytes at
    every read, and a writer that takes them, no thread of the encoder ever ends and
    there is always a step to take, whether [stop] has been called or not, under every
    schedule; so [wait] never returns. *)
Theorem stop_ignored `{L : RaptorQLaws} {R V : Type} `{Reader R, Sink V} enc dec e first_id
    w0 enc' w (r : R) (v : V) m0 m :
  matched enc dec e -> fits 8 first_id -> endless_from r -> reliable_from v ->
  start_encoding (Ok first_id) enc w0 = (Ok tt, enc', w) ->
  encoder_machine (drop (length (spawned w0)) (spawned w)) r v = Some m0 ->
  rtc (encoder_mstep (enc_block_size enc) (enc_num_block_encoders enc)) m0 m ->
  reading (dthread m) = true /\ Forall (fun w => alive w = true) (mworkers m) /\
  writing (fthread m) = true /\
  (exists m', encoder_mstep (enc_block_size enc) (enc_num_block_encoders enc) m m') /\
  ~ sn (encoder_mstep (enc_block_size enc) (enc_num_block_encoders enc)) m.
Proof.
  intros Hmatch Hid (PR & Hr & Hread) (PV & Hv & Hwrite) Hstart Hm0 Hrun.
  rewrite (encoder_machine_started enc dec e Hmatch _ _ _ _ _ _ Hstart) in Hm0.
  injection Hm0 as <-.
  destruct (matched_wf _ _ _ Hmatch) as (k & Hwf & Hsize & _).
  pose proof (some_workers _ _ _ Hmatch) as Hn. pose proof (size_range _ _ _ Hmatch) as Hbs.
  eapply (busy_for_ever _ _ _ _ _ PR PV (fits 8) (wf_block e) (fun s => s = e)
    (enc_num_block_encoders enc)) with (ss := replicate (enc_num_block_encoders enc) e); try done.
  - intros d f Hd Hf. cbn. split; [| apply wrap_fits; lia]. split; [cbn; lia | done].
  - intros s b -> Hb. exists e. eexists. split; [| done]. unfold encode_work.
    by rewrite (encode_wf _ _ _ Hwf Hb).
  - intros b. by apply slot_bound.
  - by apply Forall_replicate.
  - apply length_replicate.
Qed.

(** ** Witness *)
Module SystemDemo.
Import Demo TransmissionDemo.

Lemma system_transmission_witness : exists v1 v2 output,
  encoder_runs (C := Repetition.code) 7 (demo_enc 2) (Cursor demo_input) (Vector []) false v1 /\
  decoder_runs (C := Repetition.code) (demo_dec 2) (Cursor (written v1)) (Vector []) false v2 /\
  output ≡ₚ [replicate 16 x01; replicate 16 x02; replicate 16 x03] /\
  written v2 = concat output.
Proof.
  destruct (encoder_runs_total (C := Repetition.code) (R := cursor) (V := vector) (demo_enc 2) (demo_dec 2) demo_encoder
    (demo_matched 2 ltac:(lia)) 7 (Cursor demo_input) (Vector []) (fun _ => 0) cursor_patient)
    as [v1 Henc].
  destruct (decoder_runs_total (C := Repetition.code) (R := cursor) (V := vector) (demo_enc 2) (demo_dec 2) demo_encoder
    (demo_matched 2 ltac:(lia)) (Cursor (written v1)) (Vector []) (fun _ => 0) cursor_patient)
    as [v2 Hdec].
  destruct (system_transmission (C := Repetition.code) (demo_enc 2) (demo_dec 2) demo_encoder 7
    (Cursor demo_input) (Vector []) v1 false (Cursor (written v1)) (Vector []) v2
    (demo_matched 2 ltac:(lia)) ltac:(by_compute) (reliable_any _ vector_reliable) (reliable_any _ vector_reliable) Henc
    eq_refl Hdec ltac:(cbn; lia)) as (ds & output & _ & Hds & Hout & _ & Hwr).
  exists v1, v2, output. split; [exact Henc |]. split; [exact Hdec |].
  rewrite (Hds eq_refl) in Hout. split; [exact Hout | exact Hwr].
Defined.

(** An input that always delivers: zeros. *)
Inductive zeros := Zeros.

#[export] Instance zeros_reader : Reader zeros := {|
  read r n := (ReadOk (replicate n x00), r);
  load r := (false, r)
|}.

Lemma zeros_endless : endless_from Zeros.
Proof.
  exists (fun _ => True). split; [done |]. intros [] [| n] _ Hn; [lia |].
  exists x00, (replicate n x00), Zeros. split; [done |]. split; [| done].
  cbn. by rewrite length_replicate.
Qed.

(** The machine of two workers on that input, after [stop]. *)
Lemma stop_ignored_witness : exists m,
  should_stop m = true /\ ~ halted m /\
  ~ sn (encoder_mstep (C := Repetition.code) (R := zeros) (V := vector) 16 2) m.
Proof.
  set (started := start_encoding (C := Repetition.code) (Ok 7%Z) (demo_enc 2) (Threads [] [])).
  set (m0 := machine_start (A := Block) (B := EncodingPacket (RaptorQ := Repetition.code))
    16 Zeros 7%Z (Vector []) (replicate 2 demo_encoder)).
  set (m := Machine (dthread m0) true (mworkers m0) (mchannel m0) (fthread m0)).
  destruct (stop_ignored (C := Repetition.code) (demo_enc 2) (demo_dec 2) demo_encoder 7
    (Threads [] []) started.1.2 started.2 Zeros (Vector []) m0 m) as (Hreading & _ & _ & _ & Hsn).
  - exact (demo_matched 2 ltac:(lia)).
  - by_compute.
  - exact zeros_endless.
  - exact (reliable_any _ vector_reliable).
  - reflexivity.
  - reflexivity.
  - eapply rtc_l; [apply m_stop | apply rtc_refl].
  - exists m. split; [reflexivity |]. split; [| exact Hsn].
    intros [Hend _]. rewrite Hreading in Hend. discriminate.
Defined.
End SystemDemo.
