(* ===== verification/Utf8.v ===== *)
(** * [string.rs]: truncating a string between characters

    The standard library's UTF-8 comes first: a [str] is a list of bytes that decodes
    into Unicode scalar values ([chars]); [encode] is the inverse of the decoding.
    Then [truncate_utf8] and its specification on characters. *)
From stdpp Require Import prelude list.
From Stdlib Require Import ZArith Lia.
From S2P Require Import Prelude Bytes.

Definition scalar (c : Z) : Prop :=
  (0 <= c < 0x110000 /\ ~ (0xD800 <= c < 0xE000))%Z.

#[export] Instance scalar_dec c : Decision (scalar c).
Proof. unfold scalar. apply _. Defined.

Definition encode_char (c : Z) : list byte :=
  (if decide (c < 0x80) then [byte_of_Z c]
  else if decide (c < 0x800) then [byte_of_Z (0xC0 + c / 64); byte_of_Z (0x80 + c mod 64)]
  else if decide (c < 0x10000) then
    [byte_of_Z (0xE0 + c / 64 / 64); byte_of_Z (0x80 + c / 64 mod 64);
     byte_of_Z (0x80 + c mod 64)]
  else
    [byte_of_Z (0xF0 + c / 64 / 64 / 64); byte_of_Z (0x80 + c / 64 / 64 mod 64);
     byte_of_Z (0x80 + c / 64 mod 64); byte_of_Z (0x80 + c mod 64)])%Z.

Definition encode (cs : list Z) : list byte := cs ≫= encode_char.

(** A continuation byte, [10xxxxxx]. *)
Definition continuation (b : byte) : Prop := (0x80 <= Z_of_byte b < 0xC0)%Z.

#[export] Instance continuation_dec b : Decision (continuation b).
Proof. unfold continuation. apply _. Defined.

(** The value of a sequence of bytes, if it is the shortest form of a scalar value. *)
Definition sequence (low c : Z) : option Z :=
  if decide (low <= c /\ scalar c)%Z then Some c else None.

(** [str::from_utf8], as the characters of the string. *)
Fixpoint from_utf8 (bs : list byte) : option (list Z) :=
  match bs with
  | [] => Some []
  | b0 :: bs =>
    let z0 := Z_of_byte b0 in
    if decide (z0 < 0x80)%Z then cons z0 <$> from_utf8 bs
    else
      match bs with
      | [] => None
      | b1 :: bs =>
        if decide (continuation b1) then
          let z1 := (Z_of_byte b1 - 0x80)%Z in
          if decide (0xC0 <= z0 < 0xE0)%Z then
            c ← sequence 0x80 ((z0 - 0xC0) * 64 + z1); cons c <$> from_utf8 bs
          else
            match bs with
            | [] => None
            | b2 :: bs =>
              if decide (continuation b2) then
                let z2 := (Z_of_byte b2 - 0x80)%Z in
                if decide (0xE0 <= z0 < 0xF0)%Z then
                  c ← sequence 0x800 (((z0 - 0xE0) * 64 + z1) * 64 + z2);
                  cons c <$> from_utf8 bs
                else
                  match bs with
                  | [] => None
                  | b3 :: bs =>
                    if decide (continuation b3 /\ 0xF0 <= z0 < 0xF8)%Z then
                      let z3 := (Z_of_byte b3 - 0x80)%Z in
                      c ← sequence 0x10000 ((((z0 - 0xF0) * 64 + z1) * 64 + z2) * 64 + z3);
                      cons c <$> from_utf8 bs
                    else None
                  end
              else None
            end
        else None
      end
  end.

(** ** Encoding and decoding *)

Lemma Z_of_byte_small z : (0 <= z < 256)%Z -> Z_of_byte (byte_of_Z z) = z.
Proof. intros Hz. rewrite Z_of_byte_of_Z. by apply wrap_small. Qed.

Lemma sequence_Some low c : (low <= c)%Z -> scalar c -> sequence low c = Some c.
Proof. intros. unfold sequence. by rewrite decide_True. Qed.

(** The digits in base 64 of a character. *)
Lemma base_64 c : (c = c / 64 * 64 + c mod 64 /\ 0 <= c mod 64 < 64)%Z.
Proof.
  pose proof (Z.div_mod c 64 ltac:(lia)). pose proof (Z.mod_pos_bound c 64 ltac:(lia)). lia.
Qed.

Lemma from_utf8_cons c bs :
  scalar c -> from_utf8 (encode_char c ++ bs) = cons c <$> from_utf8 bs.
Proof.
  intros Hc. pose proof Hc as [Hrange _]. unfold encode_char, continuation.
  pose proof (base_64 c). pose proof (base_64 (c / 64)). pose proof (base_64 (c / 64 / 64)).
  repeat case_decide; cbn [app from_utf8]; unfold continuation, continuation_dec;
    repeat rewrite Z_of_byte_small by lia;
    repeat (case_decide; try (exfalso; lia)); [done | ..];
    match goal with |- context [sequence ?low ?x] => replace x with c by lia end;
    rewrite sequence_Some by (done || lia); done.
Qed.

Lemma from_utf8_encode cs : Forall scalar cs -> from_utf8 (encode cs) = Some cs.
Proof.
  unfold encode. induction 1 as [| c cs Hc _ IH]; [done |].
  by rewrite bind_cons, from_utf8_cons, IH.
Qed.

Lemma byte_of_Z_eq z b : z = Z_of_byte b -> byte_of_Z z = b.
Proof. intros ->. apply byte_of_Z_of_byte. Qed.

Lemma sequence_spec low x c : sequence low x = Some c -> c = x /\ (low <= c)%Z /\ scalar c.
Proof. unfold sequence. case_decide; [intros [= <-] | done]. tauto. Qed.

Lemma div_64 x y : (0 <= y < 64 -> (x * 64 + y) / 64 = x)%Z.
Proof. intros. rewrite Z.div_add_l, Z.div_small by lia. lia. Qed.

Lemma mod_64 x y : (0 <= y < 64 -> (x * 64 + y) mod 64 = y)%Z.
Proof. intros. rewrite Z.add_comm, Z.mod_add, Z.mod_small by lia. done. Qed.

(** The bytes a character was decoded from are its encoding. *)
Ltac encoded_bytes :=
  unfold encode_char; repeat (case_decide; try (exfalso; lia)); cbn [app];
  rewrite ?div_64, ?mod_64 by lia;
  repeat (apply (f_equal2 cons); [symmetry; apply byte_of_Z_eq; lia |]); done.

(** A decoded character starts with its encoding. *)
Lemma from_utf8_inv b0 bs cs :
  from_utf8 (b0 :: bs) = Some cs ->
  exists c rest cs', b0 :: bs = encode_char c ++ rest /\ scalar c /\ cs = c :: cs' /\
    from_utf8 rest = Some cs'.
Proof.
  cbn [from_utf8]. intros Hcs. pose proof (Z_of_byte_fits b0) as H0. unfold fits in H0.
  destruct (decide (Z_of_byte b0 < 0x80)%Z) as [Hlt |].
  { apply fmap_Some in Hcs as (cs' & Hcs & ->).
    exists (Z_of_byte b0), bs, cs'. split; [encoded_bytes |]. unfold scalar.
    repeat split; (done || lia). }
  destruct bs as [| b1 bs]; [done |]. destruct (decide (continuation b1)) as [H1 |]; [| done].
  unfold continuation in H1.
  destruct (decide (0xC0 <= Z_of_byte b0 < 0xE0)%Z).
  { apply bind_Some in Hcs as (c & (-> & Hlow & Hc)%sequence_spec & (cs' & Hcs & ->)%fmap_Some).
    eexists _, bs, cs'. split; [| by split]. encoded_bytes. }
  destruct bs as [| b2 bs]; [done |]. destruct (decide (continuation b2)) as [H2 |]; [| done].
  unfold continuation in H2.
  destruct (decide (0xE0 <= Z_of_byte b0 < 0xF0)%Z).
  { apply bind_Some in Hcs as (c & (-> & Hlow & Hc)%sequence_spec & (cs' & Hcs & ->)%fmap_Some).
    eexists _, bs, cs'. split; [| by split]. encoded_bytes. }
  destruct bs as [| b3 bs]; [done |].
  destruct (decide (continuation b3 /\ _)) as [[H3 ?] |]; [| done]. unfold continuation in H3.
  apply bind_Some in Hcs as (c & (-> & Hlow & Hc)%sequence_spec & (cs' & Hcs & ->)%fmap_Some).
  eexists _, bs, cs'. split; [| by split]. encoded_bytes.
Qed.

Lemma length_encode_char c : 0 < length (encode_char c).
Proof. unfold encode_char. repeat case_decide; cbn; lia. Qed.

(** Decoding inverts the encoding, and accepts nothing else. *)
Lemma encode_from_utf8 bs cs : from_utf8 bs = Some cs -> encode cs = bs /\ Forall scalar cs.
Proof.
  remember (length bs) as n eqn:Hn. revert bs cs Hn.
  induction n as [n IH] using lt_wf_ind. intros [| b0 bs] cs Hn; [by intros [= <-] |].
  intros (c & rest & cs' & E & Hc & -> & Hrest)%from_utf8_inv.
  pose proof (length_encode_char c). apply (f_equal length) in E as El. rewrite length_app in El.
  destruct (IH (length rest) ltac:(lia) rest cs' eq_refl Hrest) as [<- Hcs].
  split; [by rewrite E | by constructor].
Qed.

(** ** Character boundaries *)

(** [str::is_char_boundary]. *)
Definition is_char_boundary (s : list byte) (i : nat) : bool :=
  match i with
  | 0 => true
  | S _ =>
    match s !! i with
    | Some b => bool_decide (~ continuation b)
    | None => (i =? length s)%nat
    end
  end.

(** The loop; below zero the index would wrap, which its first test excludes. *)
Fixpoint move_back (s : list byte) (end_ : nat) : nat :=
  if is_char_boundary s end_ then end_
  else match end_ with S end_ => move_back s end_ | 0 => 0 end.

Definition truncate_utf8 (s : list byte) (max_bytes : nat) : list byte :=
  if (length s <=? max_bytes)%nat then s
  else
    let end_ := max_bytes in
    let end_ := move_back s end_ in
    take end_ s.

Definition valid_utf8 (s : list byte) : Prop := is_Some (from_utf8 s).

Lemma encode_app cs ds : encode (cs ++ ds) = encode cs ++ encode ds.
Proof. apply bind_app. Qed.

Lemma encode_char_bytes c :
  scalar c -> exists b l, encode_char c = b :: l /\ ~ continuation b /\ Forall continuation l.
Proof.
  intros [Hc _]. unfold encode_char.
  pose proof (base_64 c). pose proof (base_64 (c / 64)). pose proof (base_64 (c / 64 / 64)).
  unfold continuation.
  repeat case_decide; eexists _, _; (split; [reflexivity |]);
    rewrite ?Forall_cons, ?Forall_nil; repeat rewrite Z_of_byte_small by lia; lia.
Qed.

Lemma boundary_step c cs i :
  scalar c -> Forall scalar cs ->
  is_char_boundary (encode_char c ++ encode cs) i =
    if decide (i = 0) then true
    else if decide (i < length (encode_char c)) then false
    else is_char_boundary (encode cs) (i - length (encode_char c)).
Proof.
  intros Hc Hcs. destruct (encode_char_bytes c Hc) as (b & l & -> & Hb & Hl).
  case_decide as Hi; [by subst |]. destruct i as [| i]; [done |].
  unfold is_char_boundary at 1. cbn [app lookup list_lookup length].
  change ((l ++ encode cs) !! i) with (lookup i (l ++ encode cs)).
  case_decide as Hlt.
  - rewrite lookup_app_l by lia. destruct (lookup_lt_is_Some_2 l i) as [b' Hb']; [lia |].
    rewrite Hb'. apply bool_decide_eq_false_2. intros Hn. apply Hn.
    by eapply Forall_lookup_1.
  - rewrite lookup_app_r by lia. rewrite length_app.
    replace (S i - S (length l)) with (i - length l) by lia.
    destruct (i - length l) as [| j] eqn:Hj; cbn [is_char_boundary].
    + destruct Hcs as [| c' cs Hc' _]; cbn; [apply Nat.eqb_eq; lia |].
      destruct (encode_char_bytes c' Hc') as (b' & l' & -> & Hb' & _). cbn.
      by apply bool_decide_eq_true_2.
    + case_match; [done |]. apply eq_bool_prop_intro.
      rewrite !Is_true_true, !Nat.eqb_eq. lia.
Qed.

(** The boundaries of an encoded string are the ends of its characters. *)
Lemma is_char_boundary_spec cs i :
  Forall scalar cs ->
  is_char_boundary (encode cs) i = true <->
  exists cs1 cs2, cs = cs1 ++ cs2 /\ i = length (encode cs1).
Proof.
  intros Hcs. revert i. induction Hcs as [| c cs Hc Hcs IH]; intros i.
  - destruct i as [| i]; cbn; [split; [by exists [], [] | done] |].
    split; [done |]. by intros ([] & ? & ? & ?).
  - change (encode (c :: cs)) with (encode_char c ++ encode cs). rewrite boundary_step by done.
    pose proof (length_encode_char c). repeat case_decide.
    + split; [by exists [], (c :: cs) | done].
    + split; [done |]. intros ([| c' cs1] & cs2 & E & ->); [done |]. injection E as <- ->.
      cbn in *. rewrite length_app in *. lia.
    + rewrite IH. split.
      * intros (cs1 & cs2 & -> & E). exists (c :: cs1), cs2. split; [done |]. cbn.
        rewrite length_app. fold (encode cs1). lia.
      * intros ([| c' cs1] & cs2 & E & ->); [done |]. injection E as <- ->.
        exists cs1, cs2. split; [done |]. cbn. rewrite length_app. fold (encode cs1). lia.
Qed.

Lemma move_back_spec s n :
  is_char_boundary s (move_back s n) = true /\ move_back s n <= n /\
  forall m, m <= n -> is_char_boundary s m = true -> m <= move_back s n.
Proof.
  induction n as [| n IH]; cbn [move_back].
  - by destruct s.
  - destruct (is_char_boundary s (S n)) eqn:Hb; [by split |].
    destruct IH as (IH1 & IH2 & IH3). split_and!; [done | lia |].
    intros m Hm Hbm. destruct (decide (m = S n)) as [-> |]; [congruence |]. apply IH3; [lia | done].
Qed.

Lemma truncate_utf8_cases cs max_bytes :
  Forall scalar cs ->
  exists cs1 cs2, cs = cs1 ++ cs2 /\ truncate_utf8 (encode cs) max_bytes = encode cs1 /\
    length (encode cs1) <= max_bytes /\
    forall c cs3, cs2 = c :: cs3 -> max_bytes < length (encode (cs1 ++ [c])).
Proof.
  intros Hcs. unfold truncate_utf8. destruct (Nat.leb_spec (length (encode cs)) max_bytes).
  { exists cs, []. by rewrite app_nil_r. }
  destruct (move_back_spec (encode cs) max_bytes) as (Hb & Hle & Hmax).
  apply is_char_boundary_spec in Hb as (cs1 & cs2 & -> & E); [| done].
  exists cs1, cs2. rewrite E in *. split; [done |]. split; [by rewrite encode_app, take_app_length |].
  split; [done |]. intros c cs3 ->.
  destruct (decide (length (encode (cs1 ++ [c])) <= max_bytes)) as [Hc |]; [| lia]. exfalso.
  assert (length (encode (cs1 ++ [c])) <= length (encode cs1)) as Hlt.
  { apply Hmax; [done |]. apply is_char_boundary_spec; [done |].
    exists (cs1 ++ [c]), cs3. by rewrite <- app_assoc. }
  rewrite encode_app, length_app in Hlt. cbn in Hlt. rewrite app_nil_r in Hlt.
  pose proof (length_encode_char c). lia.
Qed.

(** C37 [truncate_utf8] of a string of characters is the longest beginning of it,
    in whole characters, that fits into the number of bytes allowed: it does not
    panic, and the next character would not fit any more. *)
Theorem truncate_utf8_spec cs max_bytes :
  Forall scalar cs ->
  exists cs1 cs2, cs = cs1 ++ cs2 /\ truncate_utf8 (encode cs) max_bytes = encode cs1 /\
    length (encode cs1) <= max_bytes /\
    forall c cs3, cs2 = c :: cs3 -> max_bytes < length (encode (cs1 ++ [c])).
Proof. apply truncate_utf8_cases. Qed.

(** "hé" followed by an emoji, cut inside the second character and inside the third. *)
Lemma truncate_utf8_spec_witness :
  Forall scalar [104; 233; 128075]%Z /\
  exists cs1 cs2, [104; 233; 128075]%Z = cs1 ++ cs2 /\
    truncate_utf8 (encode [104; 233; 128075]%Z) 5 = encode cs1 /\
    length (encode cs1) <= 5 /\
    forall c cs3, cs2 = c :: cs3 -> 5 < length (encode (cs1 ++ [c])).
Proof.
  assert (Forall scalar [104; 233; 128075]%Z) as Hcs
    by (repeat constructor; try lia; intros []; lia).
  split; [exact Hcs |]. apply (truncate_utf8_spec [104; 233; 128075]%Z 5). exact Hcs.
Defined.
