(* ===== verification/Protocol.v ===== *)
(** * [protocol.rs]: the header of a datagram

    A [String] is the list of its bytes; its characters are those it decodes into.
    The [uuid] crate is a parameter: [UuidOps] has the operations used and
    [UuidLaws] what its documentation says of them. *)
From stdpp Require Import prelude list strings.
From Stdlib Require Import ZArith Lia.
From S2P Require Import Prelude Bytes Utf8.

Class UuidOps := {
  Uuid : Type;
  UuidError : Type;
  as_bytes : Uuid -> list byte;
  from_slice : list byte -> outcome UuidError Uuid
}.

Class UuidLaws `{U : UuidOps} : Prop := {
  (** An identifier is sixteen bytes, any sixteen bytes are one. *)
  length_as_bytes u : length (as_bytes u) = 16;
  from_slice_as_bytes u : from_slice (as_bytes u) = Ok u;
  from_slice_ok bs : length bs = 16 -> exists u, from_slice bs = Ok u /\ as_bytes u = bs
}.

Definition FILE_NAME_LEN : nat := 256.
Definition DATAGRAM_HEADER_LEN : nat := 16 + 8 + 8 + 4 + FILE_NAME_LEN.

(** [char::is_whitespace]: the Unicode property [White_Space]. *)
Definition is_whitespace (c : Z) : bool :=
  bool_decide (9 <= c <= 13 \/ c = 32 \/ c = 0x85 \/ c = 0xA0 \/ c = 0x1680 \/
    0x2000 <= c <= 0x200A \/ c = 0x2028 \/ c = 0x2029 \/ c = 0x202F \/ c = 0x205F \/
    c = 0x3000)%Z.

(** [str::chars]. *)
Definition chars (s : list byte) : list Z := default [] (from_utf8 s).

(** Indexing with a range panics when it is out of bounds. *)
Definition slice {E} (buf : list byte) (a b : nat) : outcome E (list byte) :=
  if (a <=? b)%nat && (b <=? length buf)%nat then Ok (take (b - a) (drop a buf)) else Panic.

(** [<[u8; n]>::try_from] a slice. *)
Definition try_into {E} (n : nat) (bs : list byte) (e : E) : outcome E (list byte) :=
  if (length bs =? n)%nat then Ok bs else Err e.

(** [Iterator::position]. *)
Fixpoint position {A} (f : A -> bool) (l : list A) : option nat :=
  match l with
  | [] => None
  | x :: l => if f x then Some 0 else S <$> position f l
  end.

Section protocol.
Context `{U : UuidOps}.

Record DatagramHeader := MkDatagramHeader {
  file_id : Uuid;
  file_length : Z;
  chunk_offset : Z;
  payload_length : Z;
  file_name : list byte
}.

Inductive DatagramHeaderDeserializationError :=
| BufferTooSmall
| InvalidUuid (e : UuidError)
| InvalidUtf8.

(** The two [From] conversions. *)
Definition from_uuid_error (e : UuidError) : DatagramHeaderDeserializationError :=
  InvalidUuid e.
Definition from_utf8_error : DatagramHeaderDeserializationError := InvalidUtf8.

(** [impl Display]; the texts of the errors inside are their own. *)
Definition DatagramHeaderDeserializationError_fmt (uuid_fmt : UuidError -> string)
    (utf8_text : string) (e : DatagramHeaderDeserializationError) : string :=
  match e with
  | BufferTooSmall => "buffer too small"
  | InvalidUuid e => "invalid UUID: " +:+ uuid_fmt e
  | InvalidUtf8 => "file name contains invalid UTF-8: " +:+ utf8_text
  end.

Definition DatagramHeader_new (file_id : Uuid) (file_name : list byte)
    (file_length chunk_offset payload_length : Z) : DatagramHeader :=
  MkDatagramHeader file_id file_length chunk_offset payload_length file_name.

Definition serialize (self : DatagramHeader) : list byte :=
  let buf := [] in
  let buf := buf ++ as_bytes (file_id self) in
  let buf := buf ++ to_be_bytes 8 (file_length self) in
  let buf := buf ++ to_be_bytes 8 (chunk_offset self) in
  let buf := buf ++ to_be_bytes 4 (payload_length self) in
  let file_name :=
    encode (filter (fun c => ~ is_whitespace c)
      (chars (truncate_utf8 (file_name self) FILE_NAME_LEN))) in
  let name_bytes := file_name in
  let buf := buf ++ name_bytes in
  let padding := wsub 64 (Z.of_nat FILE_NAME_LEN) (Z.of_nat (length name_bytes)) in
  buf ++ replicate (Z.to_nat padding) x00.

Definition deserialize (buf : list byte)
    : outcome DatagramHeaderDeserializationError DatagramHeader :=
  if (length buf <? DATAGRAM_HEADER_LEN)%nat then Err BufferTooSmall
  else
    let offset := 0 in
    id_bytes <-? slice buf offset (offset + 16);;
    file_id <-? omap_err from_uuid_error (from_slice id_bytes);;
    let offset := offset + 16 in
    length_bytes <-? slice buf offset (offset + 8);;
    length_bytes <-? try_into 8 length_bytes BufferTooSmall;;
    let file_length := from_be_bytes length_bytes in
    let offset := offset + 8 in
    offset_bytes <-? slice buf offset (offset + 8);;
    offset_bytes <-? try_into 8 offset_bytes BufferTooSmall;;
    let chunk_offset := from_be_bytes offset_bytes in
    let offset := offset + 8 in
    payload_bytes <-? slice buf offset (offset + 4);;
    payload_bytes <-? try_into 4 payload_bytes BufferTooSmall;;
    let payload_length := from_be_bytes payload_bytes in
    let offset := offset + 4 in
    raw_name <-? slice buf offset (offset + FILE_NAME_LEN);;
    let end_ := default FILE_NAME_LEN (position (fun b => bool_decide (b = x00)) raw_name) in
    name_bytes <-? slice raw_name 0 end_;;
    match from_utf8 name_bytes with
    | Some _ =>
      Ok (MkDatagramHeader file_id file_length chunk_offset payload_length name_bytes)
    | None => Err from_utf8_error
    end.

(** ** The name on the wire *)

(** What [serialize] makes of a name. *)
Definition wire_name (name : list byte) : list byte :=
  encode (filter (fun c => ~ is_whitespace c) (chars (truncate_utf8 name FILE_NAME_LEN))).

Lemma encode_filter_length (P : Z -> Prop) `{forall c, Decision (P c)} cs :
  length (encode (filter P cs)) <= length (encode cs).
Proof.
  induction cs as [| c cs IH]; [done |]. rewrite filter_cons.
  change (encode (c :: cs)) with (encode_char c ++ encode cs).
  case_decide; [change (encode (c :: filter P cs)) with (encode_char c ++ encode (filter P cs)) |];
    rewrite ?length_app; lia.
Qed.

Lemma chars_encode cs : Forall scalar cs -> chars (encode cs) = cs.
Proof. intros Hcs. unfold chars. by rewrite from_utf8_encode. Qed.

Lemma wire_name_spec name :
  valid_utf8 name -> length (wire_name name) <= FILE_NAME_LEN /\ valid_utf8 (wire_name name).
Proof.
  intros [cs Hname]. apply encode_from_utf8 in Hname as [<- Hcs]. unfold wire_name.
  destruct (truncate_utf8_cases cs FILE_NAME_LEN Hcs) as (cs1 & cs2 & -> & -> & Hlen & _).
  apply Forall_app in Hcs as [Hcs1 _]. rewrite chars_encode by done. split.
  - etransitivity; [apply encode_filter_length | done].
  - eexists. apply from_utf8_encode. rewrite Forall_forall in *.
    intros c [_ Hc]%list_elem_of_filter. auto.
Qed.

(** A name that is short enough and free of white space goes unchanged. *)
Lemma wire_name_id cs :
  Forall scalar cs -> length (encode cs) <= FILE_NAME_LEN ->
  Forall (fun c => ~ is_whitespace c) cs -> wire_name (encode cs) = encode cs.
Proof.
  intros Hcs Hlen Hws. unfold wire_name, truncate_utf8.
  rewrite (proj2 (Nat.leb_le _ _)), chars_encode by done. f_equal. clear -Hws. induction Hws as [| c cs Hc _ IH]; [done |].
  by rewrite filter_cons_True, IH.
Qed.

Lemma serialize_eq self :
  valid_utf8 (file_name self) ->
  serialize self =
    as_bytes (file_id self) ++ to_be_bytes 8 (file_length self) ++
    to_be_bytes 8 (chunk_offset self) ++ to_be_bytes 4 (payload_length self) ++
    wire_name (file_name self) ++
    replicate (FILE_NAME_LEN - length (wire_name (file_name self))) x00.
Proof.
  intros Hname. destruct (wire_name_spec _ Hname) as [Hlen _]. unfold serialize.
  cbv zeta. fold (wire_name (file_name self)). unfold wsub.
  unfold FILE_NAME_LEN in *. rewrite wrap_small by (unfold fits; lia).
  rewrite <- !app_assoc. cbn [app]. do 6 f_equal. lia.
Qed.

Section laws.
Context `{!UuidLaws}.

Lemma serialize_length self :
  valid_utf8 (file_name self) -> length (serialize self) = DATAGRAM_HEADER_LEN.
Proof.
  intros Hname. rewrite serialize_eq by done. destruct (wire_name_spec _ Hname) as [Hlen _].
  rewrite !length_app, length_as_bytes, !length_to_be_bytes, length_replicate.
  unfold DATAGRAM_HEADER_LEN, FILE_NAME_LEN in *. lia.
Qed.

Lemma slice_ok {E} buf a b :
  a <= b <= length buf -> slice (E := E) buf a b = Ok (take (b - a) (drop a buf)).
Proof.
  intros Hab. unfold slice.
  by rewrite (proj2 (Nat.leb_le a b)), (proj2 (Nat.leb_le b (length buf))) by lia.
Qed.

Lemma try_into_ok {E} n bs (e : E) : length bs = n -> try_into n bs e = Ok bs.
Proof. intros <-. unfold try_into. by rewrite Nat.eqb_refl. Qed.

(** The name in a field: everything before the first null byte. *)
Definition until_null (raw : list byte) : list byte :=
  take (default (length raw) (position (fun b => bool_decide (b = x00)) raw)) raw.

Lemma position_bound {A} (f : A -> bool) l i : position f l = Some i -> i < length l.
Proof.
  revert i. induction l as [| x l IH]; intros i; cbn; [done |].
  destruct (f x); [intros [= <-]; lia |]. intros (j & Hj & ->)%fmap_Some.
  specialize (IH _ Hj). lia.
Qed.

Lemma until_null_padded name k :
  Forall (fun b => b <> x00) name -> until_null (name ++ replicate k x00) = name.
Proof.
  intros Hname. unfold until_null.
  assert (default (length (name ++ replicate k x00))
    (position (fun b => bool_decide (b = x00)) (name ++ replicate k x00)) = length name) as ->;
    [| by apply take_app_length].
  induction Hname as [| b name Hb _ IH]; cbn; [by destruct k |].
  rewrite bool_decide_eq_false_2 by done.
  destruct (position _ (name ++ replicate k x00)); cbn in *; congruence.
Qed.

Lemma slice_until_null {E} raw n :
  length raw = n ->
  slice (E := E) raw 0 (default n (position (fun b => bool_decide (b = x00)) raw))
    = Ok (until_null raw).
Proof.
  intros <-. rewrite slice_ok, drop_0, Nat.sub_0_r; [done |].
  destruct (position _ raw) eqn:Hp; cbn; [apply position_bound in Hp |]; lia.
Qed.

(** The fields of a buffer that is long enough. *)
Lemma deserialize_eq buf :
  DATAGRAM_HEADER_LEN <= length buf ->
  exists u, as_bytes u = take 16 buf /\
    deserialize buf =
      let name := until_null (take FILE_NAME_LEN (drop 36 buf)) in
      if decide (valid_utf8 name) then
        Ok (MkDatagramHeader u (from_be_bytes (take 8 (drop 16 buf)))
              (from_be_bytes (take 8 (drop 24 buf))) (from_be_bytes (take 4 (drop 32 buf))) name)
      else Err InvalidUtf8.
Proof.
  unfold DATAGRAM_HEADER_LEN, FILE_NAME_LEN. intros Hlen.
  destruct (from_slice_ok (take 16 buf)) as (u & Hu & Hbytes); [rewrite length_take; lia |].
  exists u. split; [done |]. unfold deserialize, DATAGRAM_HEADER_LEN, FILE_NAME_LEN.
  rewrite (proj2 (Nat.ltb_ge _ _)) by lia. cbv zeta.
  rewrite (slice_ok buf 0), drop_0 by lia. cbn [obind Nat.sub Nat.add]. rewrite Hu.
  cbn [omap_err obind].
  repeat (rewrite slice_ok by lia; cbn [obind];
    try (rewrite try_into_ok by (rewrite length_take, length_drop; lia); cbn [obind])).
  change (292 - 36) with 256. rewrite slice_until_null by (rewrite length_take, length_drop; lia).
  cbn [obind]. unfold valid_utf8. change (24 - 16) with 8. change (32 - 24) with 8.
  change (36 - 32) with 4.
  destruct (from_utf8 _) as [cs |] eqn:Hutf8.
  - by rewrite decide_True by (by eexists).
  - rewrite decide_False; [done | by intros [? ?]].
Qed.

(** Only the null character has a null byte. *)
Lemma encode_no_null cs :
  Forall scalar cs -> Forall (fun c => c <> 0%Z) cs -> Forall (fun b => b <> x00) (encode cs).
Proof.
  intros Hcs Hnz. unfold encode. apply Forall_bind. rewrite Forall_forall in *.
  intros c Hc. specialize (Hcs c Hc). specialize (Hnz c Hc). cbn.
  assert (forall z, (0 < z < 256)%Z -> byte_of_Z z <> x00) as Hbyte.
  { intros z Hz E. apply (f_equal Z_of_byte) in E. rewrite Z_of_byte_small in E by lia.
    vm_compute in E. lia. }
  destruct Hcs as [Hrange _]. unfold encode_char.
  pose proof (base_64 c). pose proof (base_64 (c / 64)). pose proof (base_64 (c / 64 / 64)).
  repeat case_decide; rewrite ?Forall_cons, ?Forall_nil;
    repeat split; apply Hbyte; lia.
Qed.

Lemma no_null_chars cs : x00 ∉ encode cs -> Forall (fun c => c <> 0%Z) cs.
Proof.
  intros Hnull. rewrite Forall_forall. intros c Hc ->. apply Hnull. unfold encode.
  apply list_elem_of_bind. exists 0%Z. split; [| done]. apply list_elem_of_here.
Qed.

Lemma wire_name_encode cs :
  Forall scalar cs ->
  exists cs', wire_name (encode cs) = encode cs' /\ Forall scalar cs' /\ cs' ⊆ cs.
Proof.
  intros Hcs. destruct (truncate_utf8_cases cs FILE_NAME_LEN Hcs) as (cs1 & cs2 & -> & E & _).
  apply Forall_app in Hcs as [Hcs1 _]. unfold wire_name. rewrite E, chars_encode by done.
  eexists. split; [done |]. split.
  - rewrite Forall_forall in *. intros c [_ Hc]%list_elem_of_filter. auto.
  - intros c [_ Hc]%list_elem_of_filter. set_solver.
Qed.

(** The two sides of the wire: what a header becomes. *)
Lemma header_roundtrip_cases self cs rest :
  file_name self = encode cs -> Forall scalar cs -> Forall (fun c => c <> 0%Z) cs ->
  fits 64 (file_length self) -> fits 64 (chunk_offset self) -> fits 32 (payload_length self) ->
  deserialize (serialize self ++ rest) =
    Ok (MkDatagramHeader (file_id self) (file_length self) (chunk_offset self)
      (payload_length self) (wire_name (file_name self))).
Proof.
  intros Hname Hcs Hnz Hfl Hco Hpl.
  assert (valid_utf8 (file_name self)) as Hvalid
    by (rewrite Hname; eexists; by apply from_utf8_encode).
  pose proof (serialize_length self Hvalid) as Hlen.
  destruct (deserialize_eq (serialize self ++ rest)) as (u & Hu & ->);
    [rewrite length_app; lia |].
  destruct (wire_name_spec _ Hvalid) as [Hwl Hwv].
  set (pad := replicate (FILE_NAME_LEN - length (wire_name (file_name self))) x00).
  assert (length (wire_name (file_name self) ++ pad) = FILE_NAME_LEN) as Hfield
    by (unfold pad; rewrite length_app, length_replicate; lia).
  assert (Forall (fun b => b <> x00) (wire_name (file_name self))) as Hnull.
  { destruct (wire_name_encode cs Hcs) as (cs' & E & Hcs' & Hsub).
    rewrite Hname, E. apply encode_no_null; [done |].
    rewrite Forall_forall in Hnz |- *. auto. }
  rewrite serialize_eq in * by done. fold pad in Hu |- *.
  pose proof (length_as_bytes (file_id self)) as Hid.
  rewrite <- !app_assoc in *. rewrite take_app_length' in Hu by done.
  assert (u = file_id self) as ->.
  { pose proof (from_slice_as_bytes u) as E. rewrite Hu, from_slice_as_bytes in E. congruence. }
  set (p := to_be_bytes 4 _ ++ _). set (o := to_be_bytes 8 (chunk_offset self) ++ p).
  set (l := to_be_bytes 8 (file_length self) ++ o).
  pose proof (length_to_be_bytes 8 (file_length self)) as Hl.
  pose proof (length_to_be_bytes 8 (chunk_offset self)) as Ho.
  pose proof (length_to_be_bytes 4 (payload_length self)) as Hp.
  change 36 with (16 + (8 + (8 + (4 + 0)))). change 32 with (16 + (8 + (8 + 0))).
  change 24 with (16 + (8 + 0)). change (drop 16) with (drop (A := byte) (16 + 0)).
  rewrite !(drop_app_add' (as_bytes _)) by done. unfold l.
  rewrite !(drop_app_add' (to_be_bytes 8 (file_length self))) by done. unfold o.
  rewrite !(drop_app_add' (to_be_bytes 8 (chunk_offset self))) by done. unfold p.
  rewrite !(drop_app_add' (to_be_bytes 4 (payload_length self))) by done.
  rewrite !drop_0, !(take_app_length' (to_be_bytes _ _)) by done.
  rewrite !from_to_be_bytes by done.
  rewrite app_assoc, take_app_length' by done. cbv zeta. unfold pad.
  rewrite until_null_padded by done. by rewrite decide_True.
Qed.

(** C35 A header whose numbers fit their fields and whose name has no null character
    takes exactly 292 bytes, and reading them back, whatever follows, gives the
    header again with the name cut to 256 bytes in whole characters and freed of
    its white space; a short name without white space is unchanged. *)
Theorem header_roundtrip self cs rest :
  file_name self = encode cs -> Forall scalar cs -> Forall (fun c => c <> 0%Z) cs ->
  fits 64 (file_length self) -> fits 64 (chunk_offset self) -> fits 32 (payload_length self) ->
  length (serialize self) = DATAGRAM_HEADER_LEN /\
  deserialize (serialize self ++ rest) =
    Ok (MkDatagramHeader (file_id self) (file_length self) (chunk_offset self)
      (payload_length self) (wire_name (file_name self))) /\
  (length (encode cs) <= FILE_NAME_LEN -> Forall (fun c => ~ is_whitespace c) cs ->
   deserialize (serialize self ++ rest) = Ok self).
Proof.
  intros Hname Hcs Hnz Hfl Hco Hpl. split; [| split].
  - apply serialize_length. rewrite Hname. eexists. by apply from_utf8_encode.
  - by eapply header_roundtrip_cases.
  - intros Hlen Hws. rewrite (header_roundtrip_cases self cs) by done.
    rewrite Hname, wire_name_id, <- Hname by done. by destruct self.
Qed.

(** C36 Reading a header never panics, whatever the bytes: a buffer shorter than a
    header is too small; a longer one gives numbers that fit their fields and a
    valid name of at most 256 bytes without a null byte, or is refused because the
    name is not UTF-8.  Nothing else is an error. *)
Theorem deserialize_spec buf :
  match deserialize buf with
  | Ok h =>
    DATAGRAM_HEADER_LEN <= length buf /\ fits 64 (file_length h) /\ fits 64 (chunk_offset h) /\
    fits 32 (payload_length h) /\ valid_utf8 (file_name h) /\
    length (file_name h) <= FILE_NAME_LEN /\
    file_name h = until_null (take FILE_NAME_LEN (drop 36 buf))
  | Err BufferTooSmall => length buf < DATAGRAM_HEADER_LEN
  | Err InvalidUtf8 =>
    DATAGRAM_HEADER_LEN <= length buf /\
    ~ valid_utf8 (until_null (take FILE_NAME_LEN (drop 36 buf)))
  | Err (InvalidUuid _) => False
  | Panic => False
  end.
Proof.
  destruct (decide (length buf < DATAGRAM_HEADER_LEN)) as [Hlt | Hge].
  { unfold deserialize. by rewrite (proj2 (Nat.ltb_lt _ _)). }
  destruct (deserialize_eq buf) as (u & _ & ->); [lia |]. cbv zeta.
  assert (forall n k, fits (8 * Z.of_nat n) (from_be_bytes (take n (drop k buf)))) as Hfits.
  { intros n k. pose proof (from_be_bytes_bound (take n (drop k buf))) as Hb. unfold fits.
    rewrite Z.pow_mul_r by lia. change (2 ^ 8)%Z with 256%Z.
    enough (256 ^ Z.of_nat (length (take n (drop k buf))) <= 256 ^ Z.of_nat n)%Z by lia.
    apply Z.pow_le_mono_r; [lia |]. rewrite length_take. lia. }
  case_decide; (split; [lia |]); [| done].
  do 2 (split; [apply (Hfits 8) |]). split; [apply (Hfits 4) |]. split; [done |].
  split; [| done]. cbn [file_name]. unfold until_null. rewrite !length_take. lia.
Qed.
End laws.
End protocol.

(** ** A concrete [uuid] *)
Module SixteenBytes.
Definition from_slice_16 (bs : list byte) : outcome nat { bs : list byte | length bs = 16 } :=
  match decide (length bs = 16) with
  | left H => Ok (exist _ bs H)
  | right _ => Err (length bs)
  end.

#[local] Instance uuid_ops : UuidOps := {|
  Uuid := { bs : list byte | length bs = 16 };
  UuidError := nat;
  as_bytes := @proj1_sig _ _;
  from_slice := from_slice_16
|}.

#[global] Instance uuid_laws : UuidLaws (U := uuid_ops).
Proof.
  split.
  - by intros [bs Hbs].
  - intros [bs Hbs]. cbn. unfold from_slice_16. destruct (decide _) as [H | H]; [| done].
    do 2 f_equal. apply proof_irrel.
  - intros bs Hbs. cbn. unfold from_slice_16. destruct (decide _); [| done]. by eexists.
Qed.

Definition demo_uuid : Uuid := exist _ (replicate 16 x2a) eq_refl.

(** The name "a é", whose space does not survive. *)
Definition demo_name : list Z := [97; 32; 233]%Z.

Lemma header_roundtrip_witness :
  let h := MkDatagramHeader demo_uuid 1000 8 4 (encode demo_name) in
  length (serialize h) = DATAGRAM_HEADER_LEN /\
  deserialize (serialize h ++ [x01]) =
    Ok (MkDatagramHeader demo_uuid 1000 8 4 (encode [97; 233]%Z)).
Proof.
  intros h. destruct (header_roundtrip h demo_name [x01]) as (Hlen & Hread & _).
  - reflexivity.
  - repeat constructor; try lia; intros []; lia.
  - repeat constructor; discriminate.
  - by_compute.
  - by_compute.
  - by_compute.
  - split; [exact Hlen | rewrite Hread; reflexivity].
Defined.

(** A buffer full of bytes that are in no UTF-8 string. *)
Lemma deserialize_spec_witness :
  deserialize (replicate 300 xff) = Err InvalidUtf8 /\
  ~ valid_utf8 (until_null (replicate 256 xff)).
Proof.
  pose proof (deserialize_spec (replicate 300 xff)) as Hspec.
  assert (deserialize (replicate 300 xff) = Err InvalidUtf8) as Heq by reflexivity.
  rewrite Heq in Hspec. split; [exact Heq | exact (proj2 Hspec)].
Defined.
End SixteenBytes.
