(* ===== verification/Path.v ===== *)
(** * The paths of the standard library

    [Path::file_name] and [Path::join] as they are on Unix, on the bytes of a path: the
    components are what stands between the slashes, without the empty ones and the
    current directory [.] ([transfer.rs] uses both). *)
From stdpp Require Import prelude list strings.
From Stdlib Require Import ZArith Lia.
From S2P Require Import Prelude Bytes Utf8.

Abbreviation path := (list byte) (only parsing).

Definition slash : byte := x2f.
Definition DOT : path := [x2e].
Definition DOT_DOT : path := [x2e; x2e].

(** What stands between the slashes. *)
Fixpoint split_slash (p : path) : list path :=
  match p with
  | [] => [[]]
  | b :: p =>
    match split_slash p with
    | c :: cs => if decide (b = slash) then [] :: c :: cs else (b :: c) :: cs
    | [] => []
    end
  end.

Definition is_component (c : path) : Prop := c <> [] /\ c <> DOT.

#[export] Instance is_component_dec c : Decision (is_component c).
Proof. unfold is_component. apply _. Defined.

(** [Path::file_name]: the last component, unless it is the parent directory. *)
Definition Path_file_name (p : path) : option path :=
  match last (filter is_component (split_slash p)) with
  | Some c => if decide (c = DOT_DOT) then None else Some c
  | None => None
  end.

(** [OsStr::to_str]. *)
Definition to_str (s : list byte) : option (list byte) :=
  match from_utf8 s with Some _ => Some s | None => None end.

(** [Path::join]: an absolute path replaces the directory. *)
Definition join (dir name : path) : path :=
  match name with
  | x2f :: _ => name
  | _ =>
    match last dir with
    | None | Some x2f => dir ++ name
    | _ => dir ++ x2f :: name
    end
  end.

(** A component that is a name: neither empty nor [.] nor [..], without a slash. *)
Definition is_name (c : path) : Prop := is_component c /\ c <> DOT_DOT /\ slash ∉ c.

(** What an absolute path names on a file system without symbolic links, as the
    directories from the root on: [..] is the directory above. *)
Definition enter (dir : list path) (c : path) : list path :=
  if decide (c = DOT_DOT) then removelast dir
  else if decide (is_component c) then dir ++ [c] else dir.

Definition resolve (p : path) : list path := foldl enter [] (split_slash p).

(** ** Splitting *)
Lemma split_slash_cons p : exists c cs, split_slash p = c :: cs.
Proof.
  induction p as [| b p (c & cs & IH)]; cbn; [eauto |]. rewrite IH. case_decide; eauto.
Qed.

(** The parts hold no slash. *)
Lemma split_slash_no_slash p : Forall (fun c => slash ∉ c) (split_slash p).
Proof.
  induction p as [| b p IH]; cbn; [repeat constructor; apply not_elem_of_nil |].
  destruct (split_slash p) as [| c cs]; [constructor |]. inversion_clear IH as [| ? ? Hc Hcs].
  case_decide as Hb; repeat constructor; try done; [apply not_elem_of_nil |].
  rewrite not_elem_of_cons. split; [congruence | done].
Qed.

(** A path without a slash is one part, and a slash separates the parts. *)
Lemma split_slash_name c : slash ∉ c -> split_slash c = [c].
Proof.
  induction c as [| b c IH]; [done |]. rewrite not_elem_of_cons. intros [Hb Hc]. cbn.
  rewrite IH by done. rewrite decide_False by congruence. done.
Qed.

Lemma split_slash_app p q : split_slash (p ++ slash :: q) = split_slash p ++ split_slash q.
Proof.
  induction p as [| b p IH]; cbn.
  - destruct (split_slash_cons q) as (c & cs & ->). done.
  - rewrite IH. destruct (split_slash_cons p) as (c & cs & ->). cbn. by case_decide.
Qed.

(** [join] with a name that is not absolute. *)
Lemma join_relative dir b name :
  dir <> [] -> b <> slash ->
  join dir (b :: name) =
    (if decide (last dir = Some slash) then dir ++ b :: name else dir ++ slash :: b :: name).
Proof.
  intros Hdir Hb. assert (forall A (x y : A), match b with x2f => x | _ => y end = y) as Hname
    by (intros A x y; destruct b; try done; by destruct Hb).
  unfold join. rewrite Hname. destruct (last dir) as [c |] eqn:Hlast;
    [| by apply last_None in Hlast].
  destruct (decide (c = slash)) as [-> | Hc]; [by rewrite decide_True |].
  rewrite decide_False by congruence. destruct c; try done; by destruct Hc.
Qed.

(** It names what the name leads to from the directory. *)
Lemma resolve_join dir b name :
  dir <> [] -> b <> slash ->
  resolve (join dir (b :: name)) = foldl enter (resolve dir) (split_slash (b :: name)).
Proof.
  intros Hdir Hb. rewrite join_relative by done. unfold resolve. case_decide as Hlast.
  - apply last_Some in Hlast as [d ->]. rewrite <- app_assoc. cbn [app].
    rewrite !split_slash_app, !foldl_app. done.
  - by rewrite split_slash_app, foldl_app.
Qed.

Lemma resolve_join_up dir rest :
  dir <> [] ->
  resolve (join dir (DOT_DOT ++ slash :: rest)) =
    foldl enter (removelast (resolve dir)) (split_slash rest).
Proof.
  intros Hdir. change (DOT_DOT ++ slash :: rest) with (x2e :: [x2e] ++ slash :: rest) at 1.
  rewrite resolve_join by done.
  change (x2e :: [x2e] ++ slash :: rest) with (DOT_DOT ++ slash :: rest).
  by rewrite split_slash_app.
Qed.

(** Where a part stands in the path. *)
Lemma split_slash_part p l1 c l2 :
  split_slash p = l1 ++ c :: l2 ->
  exists pre post, p = pre ++ c ++ post /\
    (l1 = [] /\ pre = [] \/ exists d, pre = d ++ [slash] /\ split_slash d = l1) /\
    (l2 = [] /\ post = [] \/ exists t, post = slash :: t /\ split_slash t = l2).
Proof.
  revert l1 c l2. induction p as [| b p IH]; intros l1 c l2 Hs; cbn in Hs.
  { destruct l1 as [| ? []]; simplify_eq/=. exists [], []. by split; [| split; left]. }
  destruct (split_slash_cons p) as (c0 & cs0 & Hp). rewrite Hp in Hs, IH. case_decide as Hb.
  - subst b. destruct l1 as [| c1 l1]; cbn in Hs; injection Hs as <- Hs.
    { subst l2. exists [], (slash :: p). split; [done |]. split; [by left | right; by exists p]. }
    destruct (IH _ _ _ Hs) as (pre & post & -> & Hpre & Hpost). exists (slash :: pre), post.
    split; [done |]. split; [right | done].
    destruct Hpre as [[-> ->] | (d & -> & Hd)]; [by exists [] |].
    exists (slash :: d). split; [done |]. cbn. destruct (split_slash_cons d) as (? & ? & E).
    by rewrite <- Hd, E, decide_True.
  - destruct l1 as [| c1 l1]; cbn in Hs; injection Hs as <- Hs.
    + subst l2. destruct (IH [] c0 cs0 eq_refl) as (pre & post & E & Hpre & Hpost).
      exists [], post. split; [| by split; [left |]].
      destruct Hpre as [[_ ->] | (d & _ & Hd)]; [by rewrite E |].
      destruct (split_slash_cons d) as (? & ? & E'). by rewrite E' in Hd.
    + destruct (IH (c0 :: l1) c l2) as (pre & post & -> & [[? _] | (d & -> & Hd)] & Hpost);
        [by rewrite Hs | done |].
      exists (b :: d ++ [slash]), post. split; [done |]. split; [right | done].
      exists (b :: d). split; [done |]. cbn. by rewrite Hd, decide_False.
Qed.

Lemma split_slash_glue l p c cs :
  slash ∉ l -> split_slash p = c :: cs -> split_slash (l ++ p) = (l ++ c) :: cs.
Proof.
  intros Hl Hp. induction l as [| b l IH]; [done |]. apply not_elem_of_cons in Hl as [Hb Hl].
  cbn. rewrite (IH Hl), decide_False by congruence. done.
Qed.

(** ** Characters *)
Lemma encode_char_slash c : scalar c -> c <> 47%Z -> slash ∉ encode_char c.
Proof.
  intros [Hc _] Hne. unfold encode_char. pose proof (base_64 c). pose proof (base_64 (c / 64)).
  pose proof (base_64 (c / 64 / 64)).
  repeat case_decide; rewrite ?not_elem_of_cons; split_and?; try apply not_elem_of_nil;
    intros E%(f_equal Z_of_byte); rewrite Z_of_byte_small in E by lia;
    change (Z_of_byte slash) with 47%Z in E; lia.
Qed.

(** The parts of a string are strings. *)
Lemma split_slash_utf8 p : valid_utf8 p -> Forall valid_utf8 (split_slash p).
Proof.
  intros [cs Hcs]. apply encode_from_utf8 in Hcs as [<- Hcs].
  induction Hcs as [| c cs Hc _ IH]; [repeat constructor; by eexists |].
  change (encode (c :: cs)) with (encode_char c ++ encode cs).
  destruct (split_slash_cons (encode cs)) as (d & ds & Hd). rewrite Hd in IH.
  destruct (decide (c = 47%Z)) as [-> | Hne].
  - change (encode_char 47 ++ encode cs) with (slash :: encode cs). cbn. rewrite Hd.
    constructor; [by eexists | done].
  - rewrite (split_slash_glue _ _ d ds) by (done || by apply encode_char_slash).
    inversion_clear IH as [| ? ? [es He] Hds]. constructor; [| done].
    exists (c :: es). by rewrite from_utf8_cons, He.
Qed.

(** ** The file name *)

(** The name of a file in a path: before it nothing or a directory, after it nothing or
    a slash and parts that are no components. *)
Definition names_in (p c : path) : Prop :=
  exists pre post, p = pre ++ c ++ post /\
    (pre = [] \/ exists d, pre = d ++ [slash]) /\
    (post = [] \/
     exists t, post = slash :: t /\ Forall (fun t => ~ is_component t) (split_slash t)).

Lemma filter_no_components ts :
  Forall (fun t => ~ is_component t) ts -> filter is_component ts = [].
Proof. induction 1 as [| t ts Ht _ IH]; [done |]. by rewrite filter_cons_False. Qed.

(** Where the last element that satisfies a predicate stands. *)
Lemma last_filter {A} (P : A -> Prop) `{forall x, Decision (P x)} l x :
  last (filter P l) = Some x -> exists l1 l2, l = l1 ++ x :: l2 /\ P x /\
    Forall (fun y => ~ P y) l2.
Proof.
  induction l as [| y l IH] using rev_ind; [done |]. rewrite filter_app, filter_cons, filter_nil.
  case_decide as Hy.
  - rewrite last_snoc. intros [= <-]. by exists l, [].
  - rewrite app_nil_r. intros (l1 & l2 & -> & Hx & Hl2)%IH. exists l1, (l2 ++ [y]).
    rewrite <- app_assoc. split; [done |]. split; [done |]. apply Forall_app. by repeat constructor.
Qed.

Lemma split_slash_pre pre q :
  pre = [] \/ (exists d, pre = d ++ [slash]) ->
  exists l, split_slash (pre ++ q) = l ++ split_slash q.
Proof.
  intros [-> | [d ->]]; [by exists [] |]. rewrite <- app_assoc. cbn [app].
  rewrite split_slash_app. by eexists.
Qed.

(** [Path::file_name] finds exactly the names that end a path, up to slashes and current
    directories after them; the name of a path that is a string is a string. *)
Lemma file_name_cases p c :
  (Path_file_name p = Some c <-> is_name c /\ names_in p c) /\
  (valid_utf8 p -> Path_file_name p = Some c -> to_str c = Some c).
Proof.
  unfold Path_file_name. split; [split |].
  - destruct (last _) as [c' |] eqn:Hlast; [| done]. case_decide as Hd; [done |]. intros [= ->].
    apply last_filter in Hlast as (l1 & l2 & Hs & Hc & Hl2). split.
    + split_and!; [done | done |]. pose proof (split_slash_no_slash p) as Hall.
      rewrite Hs, Forall_app, Forall_cons in Hall. apply Hall.
    + apply split_slash_part in Hs as (pre & post & -> & Hpre & Hpost). exists pre, post.
      split; [done |]. split; [naive_solver |].
      destruct Hpost as [[-> ->] | (t & -> & <-)]; [by left | right; by exists t].
  - intros [(Hc & Hd & Hslash) (pre & post & -> & Hpre & Hpost)].
    assert (exists ts, split_slash (c ++ post) = c :: ts /\ filter is_component ts = [])
      as (ts & Hts & Hfilter).
    { destruct Hpost as [-> | (t & -> & Ht)].
      - exists []. by rewrite app_nil_r, split_slash_name.
      - exists (split_slash t). rewrite split_slash_app, split_slash_name by done.
        split; [done | by apply filter_no_components]. }
    destruct (split_slash_pre pre (c ++ post) Hpre) as [l ->].
    rewrite Hts, filter_app, filter_cons_True, Hfilter by done.
    by rewrite last_snoc, decide_False.
  - intros Hp. destruct (last _) as [c' |] eqn:Hlast; [| done]. case_decide; [done |].
    intros [= ->]. apply last_filter in Hlast as (l1 & l2 & Hs & _).
    apply split_slash_utf8 in Hp. rewrite Hs, Forall_app, Forall_cons in Hp.
    destruct Hp as (_ & [cs Hcs] & _). unfold to_str. by rewrite Hcs.
Qed.

Module PathDemo.
Definition bytes_of := String.list_byte_of_string.

(** The cases the documentation of the standard library lists, and a few more. *)
Example demo_file_names :
  Path_file_name <$> (bytes_of <$>
    ["/usr/bin/"; "tmp/foo.txt"; "foo.txt/."; "foo.txt/.//"; "foo.txt/.."; "/"; ""; "."; ".."])
  = [Some (bytes_of "bin"); Some (bytes_of "foo.txt"); Some (bytes_of "foo.txt");
     Some (bytes_of "foo.txt"); None; None; None; None; None].
Proof. by vm_compute. Qed.
End PathDemo.
