(* ===== verification/Socket.v ===== *)
(** * [socket.rs]: raw packet sockets

    The system calls are the interface [Kernel]; what the program relies on is
    [KernelLaws], over the set of open descriptors of the process.  A [RawSocket]
    owns its descriptor: Rust's [drop] is an operation of its own, called where the
    code lets a value go out of scope.  [apply] and [run] are the operations on the
    sockets a program holds, in any order; [raw_socket_lifecycle] is the ownership
    invariant.  [sim] is a kernel that satisfies the laws. *)
From stdpp Require Import prelude list gmap.
From Stdlib Require Import ZArith Lia.
From S2P Require Import Prelude Io Bytes.

Record sockaddr_ll := SockaddrLl {
  sll_family : Z;
  sll_protocol : Z;
  sll_ifindex : Z;
  sll_hatype : Z;
  sll_pkttype : Z;
  sll_halen : Z;
  sll_addr : list Z
}.

(** The constants of [libc] the code names (Linux). *)
Definition AF_PACKET : Z := 17.
Definition SOCK_RAW : Z := 3.
Definition ETH_P_ALL : Z := 3.
Definition SOL_SOCKET : Z := 1.
Definition SO_RCVTIMEO : Z := 20.

(** [to_be] of an integer of [n] bytes on a little-endian machine. *)
Definition to_be (n : nat) (z : Z) : Z := from_be_bytes (rev (to_be_bytes n z)).

(** [as c_int] of a [c_uint]. *)
Definition as_c_int (z : Z) : Z := if (z <? 2 ^ 31)%Z then z else z - 2 ^ 32.

(** [ErrorKind] of an error number (the standard library's [decode_error_kind]). *)
Definition error_kind (errno : Z) : ErrorKind :=
  (if errno =? 2 then NotFound
   else if errno =? 4 then Interrupted
   else if errno =? 11 then WouldBlock
   else if errno =? 22 then InvalidInput
   else if errno =? 110 then TimedOut
   else OtherKind errno)%Z.

(** [ErrorKind::Other], the kind of [io::Error::other]; no error number is 0. *)
Definition Other : ErrorKind := OtherKind 0.

(** [CString::new]: the bytes, terminated by a zero byte; none may be zero before. *)
Definition CString_new (s : list byte) : option (list byte) :=
  if decide (x00 ∈ s) then None else Some (s ++ [x00]).

(** The system calls, with their arguments as the code passes them. *)
Class Kernel (K : Type) := {
  sys_socket : Z -> Z -> Z -> K -> Z * K;
  sys_if_nametoindex : list byte -> K -> Z * K;
  sys_bind : Z -> sockaddr_ll -> K -> Z * K;
  sys_setsockopt : Z -> Z -> Z -> (Z * Z) -> K -> Z * K;
  sys_sendto : Z -> list byte -> Z -> sockaddr_ll -> K -> Z * K;
  sys_recvfrom : Z -> nat -> Z -> K -> Z * list byte * K;
  sys_close : Z -> K -> Z * K;
  sys_dup : Z -> K -> Z * K;
  errno : K -> Z
}.

(** ** What the calls promise: [fds] are the open descriptors *)
Class KernelLaws (K : Type) `{Kernel K} := {
  fds : K -> gset Z;
  fds_nonneg k fd : fd ∈ fds k -> (0 <= fd)%Z;
  socket_law d t p k r k' : sys_socket d t p k = (r, k') ->
    (r < 0)%Z /\ fds k' = fds k \/ (0 <= r)%Z /\ (r ∉ fds k) /\ fds k' = {[r]} ∪ fds k;
  nametoindex_law n k r k' : sys_if_nametoindex n k = (r, k') ->
    fits 32 r /\ fds k' = fds k;
  bind_law fd a k r k' : sys_bind fd a k = (r, k') -> fds k' = fds k;
  setsockopt_law fd l o v k r k' : sys_setsockopt fd l o v k = (r, k') -> fds k' = fds k;
  sendto_law fd b fl a k r k' : sys_sendto fd b fl a k = (r, k') ->
    (r <= Z.of_nat (length b))%Z /\ fds k' = fds k;
  recvfrom_law fd n fl k r bs k' : sys_recvfrom fd n fl k = (r, bs, k') ->
    (r <= Z.of_nat n)%Z /\ ((0 <= r)%Z -> Z.of_nat (length bs) = r) /\ fds k' = fds k;
  close_law fd k r k' : sys_close fd k = (r, k') -> fds k' = (fds k ∖ {[fd]});
  dup_law fd k r k' : sys_dup fd k = (r, k') ->
    (r < 0)%Z /\ fds k' = fds k \/
    (0 <= r)%Z /\ (fd ∈ fds k) /\ (r ∉ fds k) /\ fds k' = {[r]} ∪ fds k
}.

(** ** The code *)
Record RawSocket := MkRawSocket { socket_fd : Z; sockaddr : sockaddr_ll }.
Record RawSocketReader := MkRawSocketReader { socket : RawSocket }.

Section code.
Context `{Kernel K}.

(** [io::Error::last_os_error]. *)
Definition last_os_error (k : K) : ErrorKind := error_kind (errno k).

(** The address that [new] makes of an interface's index. *)
Definition interface_addr (if_index : Z) : sockaddr_ll :=
  SockaddrLl (wrap 16 AF_PACKET) (to_be 2 (wrap 16 ETH_P_ALL)) (as_c_int if_index)
    0 0 0 (replicate 8 0%Z).

Definition RawSocket_new (interface_name : list byte) (k : K)
    : outcome ErrorKind RawSocket * K :=
  let (socket_fd, k) := sys_socket AF_PACKET SOCK_RAW (to_be 4 ETH_P_ALL) k in
  if (socket_fd <? 0)%Z then (Err (last_os_error k), k)
  else
    match CString_new interface_name with
    | None => (Err Other, k)
    | Some if_name =>
      let (if_index, k) := sys_if_nametoindex if_name k in
      if (if_index =? 0)%Z then (Err (last_os_error k), k)
      else (Ok (MkRawSocket socket_fd (interface_addr if_index)), k)
    end.

Definition set_receive_timeout (secs usecs : Z) (self : RawSocket) (k : K)
    : outcome ErrorKind unit * K :=
  let (result, k) :=
    sys_setsockopt (socket_fd self) SOL_SOCKET SO_RCVTIMEO (secs, usecs) k in
  if (result <? 0)%Z then (Err (last_os_error k), k) else (Ok tt, k).

(** [Drop for RawSocket]; a failure is only reported. *)
Definition drop_socket (self : RawSocket) (k : K) : K :=
  let (result, k) := sys_close (socket_fd self) k in k.

(** [bind] takes the socket; when it fails, the socket is dropped. *)
Definition bind (self : RawSocket) (k : K) : outcome ErrorKind RawSocketReader * K :=
  match set_receive_timeout 1 0 self k with
  | (Err e, k) => (Err e, drop_socket self k)
  | (Panic, k) => (Panic, drop_socket self k)
  | (Ok _, k) =>
    let (result, k) := sys_bind (socket_fd self) (sockaddr self) k in
    if (result <? 0)%Z then
      let e := last_os_error k in (Err e, drop_socket self k)
    else (Ok (MkRawSocketReader self), k)
  end.

Definition write_socket (self : RawSocket) (buf : list byte) (k : K) : write_result * K :=
  let (bytes_sent, k) := sys_sendto (socket_fd self) buf 0 (sockaddr self) k in
  if (bytes_sent <? 0)%Z then (WriteErr (last_os_error k), k)
  else (WriteOk (Z.to_nat bytes_sent), k).

Definition flush_socket (self : RawSocket) : outcome ErrorKind unit := Ok tt.

(** [Clone for RawSocket]: a failure of [dup] is not looked at. *)
Definition clone_socket (self : RawSocket) (k : K) : RawSocket * K :=
  let (new_fd, k) := sys_dup (socket_fd self) k in
  (MkRawSocket new_fd (sockaddr self), k).

(** [read] with a buffer of [n] bytes. *)
Definition read_socket (self : RawSocketReader) (n : nat) (k : K) : read_result * K :=
  let '(bytes_received, bs, k) := sys_recvfrom (socket_fd (socket self)) n 0 k in
  if (bytes_received <? 0)%Z then (ReadErr (last_os_error k), k)
  else (ReadOk bs, k).

Definition clone_reader (self : RawSocketReader) (k : K) : RawSocketReader * K :=
  let (s, k) := clone_socket (socket self) k in (MkRawSocketReader s, k).

(** ** A program that uses sockets

    It holds writers and readers by position; an operation on a position that holds
    none is not a program. *)
Record holding := Holding { writers : list RawSocket; readers : list RawSocketReader }.

Inductive operation :=
| New (interface_name : list byte)
| Bind (i : nat)
| Write (i : nat) (buf : list byte)
| Flush (i : nat)
| Clone (i : nat)
| DropSocket (i : nat)
| Read (i : nat) (n : nat)
| CloneReader (i : nat)
| DropReader (i : nat).

Definition apply (op : operation) (st : holding * K) : option (holding * K) :=
  let (h, k) := st in
  match op with
  | New name =>
    match RawSocket_new name k with
    | (Ok s, k) => Some (Holding (writers h ++ [s]) (readers h), k)
    | (_, k) => Some (h, k)
    end
  | Bind i =>
    s ← writers h !! i;
    match bind s k with
    | (Ok r, k) => Some (Holding (delete i (writers h)) (readers h ++ [r]), k)
    | (_, k) => Some (Holding (delete i (writers h)) (readers h), k)
    end
  | Write i buf => s ← writers h !! i; Some (h, (write_socket s buf k).2)
  | Flush i => s ← writers h !! i; Some (h, k)
  | Clone i =>
    s ← writers h !! i;
    let (c, k) := clone_socket s k in Some (Holding (writers h ++ [c]) (readers h), k)
  | DropSocket i =>
    s ← writers h !! i;
    Some (Holding (delete i (writers h)) (readers h), drop_socket s k)
  | Read i n => r ← readers h !! i; Some (h, (read_socket r n k).2)
  | CloneReader i =>
    r ← readers h !! i;
    let (c, k) := clone_reader r k in Some (Holding (writers h) (readers h ++ [c]), k)
  | DropReader i =>
    r ← readers h !! i;
    Some (Holding (writers h) (delete i (readers h)), drop_socket (socket r) k)
  end.

Fixpoint run (ops : list operation) (st : holding * K) : option (holding * K) :=
  match ops with
  | [] => Some st
  | op :: ops => st ← apply op st; run ops st
  end.

(** The sockets held, and those of their descriptors that are open ones: a clone
    whose [dup] failed holds a negative number. *)
Definition held (h : holding) : list RawSocket := writers h ++ (socket <$> readers h).
Definition owned (l : list RawSocket) : list Z :=
  filter (fun fd : Z => (0 <= fd)%Z) (socket_fd <$> l).

(** [New] obtains a descriptor and returns an error all the same. *)
Definition leaks (interface_name : list byte) (k : K) : bool :=
  match (RawSocket_new interface_name k).1 with
  | Ok _ => false
  | _ => (0 <=? (sys_socket AF_PACKET SOCK_RAW (to_be 4 ETH_P_ALL) k).1)%Z
  end.

(** How often that happens in a run. *)
Fixpoint leaked (ops : list operation) (st : holding * K) : nat :=
  match ops with
  | [] => 0
  | op :: ops =>
    (match op with New name => if leaks name st.2 then 1 else 0 | _ => 0 end) +
    match apply op st with Some st => leaked ops st | None => 0 end
  end.
End code.

(** ** Ownership of descriptors *)
Section ownership.
Context `{KernelLaws K} (base : gset Z).

(** The open descriptors are those that were open before ([base]), those of the
    sockets [l] and the ones [lost]; no two of these are the same. *)
Record owns (l : list RawSocket) (lost : list Z) (k : K) : Prop := {
  owns_NoDup : NoDup (owned l ++ lost);
  owns_fresh fd : fd ∈ (owned l ++ lost) -> fd ∉ base;
  owns_fds : fds k = base ∪ list_to_set (owned l ++ lost)
}.

Lemma owned_cons s l :
  owned (s :: l) = if decide (0 <= socket_fd s)%Z then socket_fd s :: owned l else owned l.
Proof. unfold owned. rewrite fmap_cons, filter_cons. done. Qed.

Lemma owned_Permutation l l' : l ≡ₚ l' -> owned l ≡ₚ owned l'.
Proof. intros Hl. unfold owned. by rewrite Hl. Qed.

#[local] Instance owns_Proper : Proper (Permutation ==> Permutation ==> eq ==> iff) owns.
Proof.
  assert (forall l l' lost lost' k, l ≡ₚ l' -> lost ≡ₚ lost' ->
    owns l lost k -> owns l' lost' k) as Hproper.
  { intros l l' lost lost' k Hl%owned_Permutation Hlost [Hnd Hfresh Hfds]. split.
    - by rewrite <- Hl, <- Hlost.
    - intros fd. rewrite <- Hl, <- Hlost. apply Hfresh.
    - rewrite Hfds. apply leibniz_equiv. by rewrite Hl, Hlost. }
  intros l l' Hl lost lost' Hlost k ? <-. split; by apply Hproper.
Qed.

Lemma owns_same l lost k k' : owns l lost k -> fds k' = fds k -> owns l lost k'.
Proof. intros [] Hk. split; auto. by rewrite Hk. Qed.

(** A call that returned a new descriptor, which a socket takes or nobody does. *)
Lemma owns_open l lost k fd k' :
  owns l lost k -> fd ∉ fds k -> fds k' = {[fd]} ∪ fds k -> owns l (fd :: lost) k'.
Proof.
  intros [Hnd Hfresh Hfds] Hfd Hk. rewrite Hfds in Hfd. split.
  - rewrite <- Permutation_middle. constructor; [set_solver | done].
  - intros x. rewrite <- Permutation_middle. set_solver.
  - rewrite Hk, Hfds. apply leibniz_equiv. rewrite <- Permutation_middle. set_solver.
Qed.

Lemma owns_take s l lost k :
  (0 <= socket_fd s)%Z -> owns l (socket_fd s :: lost) k -> owns (s :: l) lost k.
Proof.
  intros Hs [Hnd Hfresh Hfds].
  assert (owned (s :: l) ++ lost ≡ₚ owned l ++ socket_fd s :: lost) as Hp.
  { rewrite owned_cons, decide_True by done. apply Permutation_middle. }
  split; [by rewrite Hp | intros fd; rewrite Hp; apply Hfresh |].
  rewrite Hfds. apply leibniz_equiv. by rewrite Hp.
Qed.

Lemma owns_negative s l lost k :
  (socket_fd s < 0)%Z -> owns (s :: l) lost k <-> owns l lost k.
Proof.
  intros Hs. assert (owned (s :: l) = owned l) as E
    by (rewrite owned_cons, decide_False by lia; done).
  split; intros [Hnd Hfresh Hfds]; split; rewrite ?E in *; auto.
Qed.

Lemma owns_close s l lost k :
  owns (s :: l) lost k -> owns l lost (drop_socket s k).
Proof.
  intros Hown. unfold drop_socket. destruct (sys_close (socket_fd s) k) as [r k'] eqn:Hc.
  apply close_law in Hc. destruct (decide (0 <= socket_fd s)%Z) as [Hs | Hs].
  - destruct Hown as [Hnd Hfresh Hfds]. rewrite owned_cons, decide_True in * by done.
    cbn in Hnd, Hfresh, Hfds. apply NoDup_cons in Hnd as [Hn Hnd]. split; [done | |].
    + intros fd Hfd. apply Hfresh. set_solver.
    + rewrite Hc, Hfds. specialize (Hfresh (socket_fd s) ltac:(set_solver)). set_solver.
  - apply (proj1 (owns_negative s l lost k ltac:(lia))) in Hown.
    eapply owns_same; [done |]. rewrite Hc.
    assert (socket_fd s ∉ fds k) by (intros Hin%fds_nonneg; lia). set_solver.
Qed.

(** ** The operations *)

(** [new]: a socket with a new descriptor; or an error that leaves a new descriptor
    open, or none. *)
Lemma RawSocket_new_cases name k l lost :
  owns l lost k ->
  let (res, k') := RawSocket_new name k in
  match res with
  | Ok s => (0 <= socket_fd s)%Z /\ leaks name k = false /\ owns (s :: l) lost k'
  | Err _ => exists lost', owns l (lost' ++ lost) k' /\
      length lost' = (if leaks name k then 1 else 0)
  | Panic => False
  end.
Proof.
  intros Hown. unfold leaks, RawSocket_new.
  destruct (sys_socket _ _ _ k) as [fd k1] eqn:Hs. cbn.
  apply socket_law in Hs as [[Hfd Hk] | (Hfd & Hfresh & Hk)].
  - rewrite (proj2 (Z.ltb_lt _ _)) by done. cbn. rewrite (proj2 (Z.leb_gt _ _)) by done.
    exists []. split; [by eapply owns_same | done].
  - rewrite (proj2 (Z.ltb_ge _ _)), (proj2 (Z.leb_le _ _)) by done.
    pose proof (owns_open _ _ _ _ _ Hown Hfresh Hk) as Hown1.
    destruct (CString_new name) as [if_name |]; [| by exists [fd]].
    destruct (sys_if_nametoindex if_name k1) as [index k2] eqn:Hn. cbn.
    apply nametoindex_law in Hn as [_ Hk2].
    destruct (index =? 0)%Z; cbn.
    + exists [fd]. split; [by eapply owns_same | done].
    + split_and!; [done | done |]. apply owns_take; [done |]. by eapply owns_same.
Qed.

Lemma set_receive_timeout_fds secs usecs s k :
  let (res, k') := set_receive_timeout secs usecs s k in fds k' = fds k /\ res <> Panic.
Proof.
  unfold set_receive_timeout. destruct (sys_setsockopt _ _ _ _ k) as [r k1] eqn:Hs.
  apply setsockopt_law in Hs. by destruct (r <? 0)%Z.
Qed.

(** [bind] keeps the descriptor or closes it. *)
Lemma bind_cases s k l lost :
  owns (s :: l) lost k ->
  let (res, k') := bind s k in
  match res with
  | Ok r => socket r = s /\ owns (s :: l) lost k'
  | Err _ => owns l lost k'
  | Panic => False
  end.
Proof.
  intros Hown. unfold bind. pose proof (set_receive_timeout_fds 1 0 s k) as Ht.
  destruct (set_receive_timeout 1 0 s k) as [[[] | e |] k1], Ht as [Hk1 Hres]; [| | done].
  - destruct (sys_bind _ _ k1) as [r k2] eqn:Hb. apply bind_law in Hb.
    assert (owns (s :: l) lost k2) as Hown2 by (eapply owns_same; [done | congruence]).
    destruct (r <? 0)%Z; [by apply owns_close | by split].
  - apply owns_close. by eapply owns_same.
Qed.

Lemma clone_cases s k l lost :
  owns l lost k ->
  let (c, k') := clone_socket s k in sockaddr c = sockaddr s /\ owns (c :: l) lost k'.
Proof.
  intros Hown. unfold clone_socket. destruct (sys_dup (socket_fd s) k) as [fd k1] eqn:Hd.
  split; [done |]. apply dup_law in Hd as [[Hfd Hk] | (Hfd & _ & Hfresh & Hk)].
  - apply owns_negative; [done |]. by eapply owns_same.
  - apply owns_take; [done |]. by eapply owns_open.
Qed.

Lemma write_socket_fds s buf k : fds (write_socket s buf k).2 = fds k.
Proof.
  unfold write_socket. destruct (sys_sendto _ _ _ _ k) as [r k1] eqn:Hs.
  apply sendto_law in Hs as [_ Hs]. by destruct (r <? 0)%Z.
Qed.

Lemma read_socket_fds s n k : fds (read_socket s n k).2 = fds k.
Proof.
  unfold read_socket. destruct (sys_recvfrom _ _ _ k) as [[r bs] k1] eqn:Hs.
  apply recvfrom_law in Hs as (_ & _ & Hs). by destruct (r <? 0)%Z.
Qed.
(** What one operation leaks. *)
Abbreviation leaks_of op k :=
  (match op with New name => if leaks name k then 1 else 0 | _ => 0 end).

Lemma held_writers h i s :
  writers h !! i = Some s -> held h ≡ₚ s :: delete i (writers h) ++ (socket <$> readers h).
Proof. intros Hi%delete_Permutation. unfold held. by rewrite Hi at 1. Qed.

Lemma held_readers h i r :
  readers h !! i = Some r -> held h ≡ₚ socket r :: writers h ++ (socket <$> delete i (readers h)).
Proof.
  intros Hi%delete_Permutation. unfold held. rewrite Hi at 1. cbn.
  by rewrite <- Permutation_middle.
Qed.

Lemma held_new ws rs s : held (Holding (ws ++ [s]) rs) ≡ₚ s :: held (Holding ws rs).
Proof. unfold held. cbn. rewrite <- app_assoc. cbn. by rewrite <- Permutation_middle. Qed.

Lemma held_new_reader ws rs r :
  held (Holding ws (rs ++ [r])) ≡ₚ socket r :: held (Holding ws rs).
Proof.
  unfold held. cbn. rewrite fmap_app, app_assoc. cbn. by rewrite <- Permutation_cons_append.
Qed.

Lemma apply_owns op h k lost h' k' :
  owns (held h) lost k -> apply op (h, k) = Some (h', k') ->
  exists lost', owns (held h') (lost' ++ lost) k' /\ length lost' = leaks_of op k.
Proof.
  intros Hown Happly. destruct op as [name | i | i buf | i | i | i | i n | i | i];
    cbn [apply] in Happly;
    try (destruct (writers h !! i) as [s |] eqn:Hi; [cbn in Happly | done]);
    try (destruct (readers h !! i) as [r |] eqn:Hi; [cbn in Happly | done]).
  - pose proof (RawSocket_new_cases name k _ _ Hown) as Hnew.
    destruct (RawSocket_new name k) as [[s | e |] k1]; simplify_eq; [| done..].
    destruct Hnew as (_ & -> & Hown'). exists []. split; [| done].
    destruct h. by rewrite held_new.
  - exists []. split; [| done]. rewrite (held_writers h i s) in Hown by done.
    pose proof (bind_cases s k _ _ Hown) as Hb.
    destruct (bind s k) as [[r | e |] k1]; simplify_eq; [| done..].
    destruct Hb as [<- Hown']. by rewrite held_new_reader.
  - simplify_eq. exists []. split; [| done]. eapply owns_same; [done | apply write_socket_fds].
  - simplify_eq. by exists [].
  - exists []. split; [| done]. pose proof (clone_cases s k _ _ Hown) as Hc.
    destruct (clone_socket s k) as [c k1]. simplify_eq. destruct h. rewrite held_new. apply Hc.
  - simplify_eq. exists []. split; [| done]. apply owns_close.
    by rewrite (held_writers h i s) in Hown.
  - simplify_eq. exists []. split; [| done]. eapply owns_same; [done | apply read_socket_fds].
  - exists []. split; [| done]. pose proof (clone_cases (socket r) k _ _ Hown) as Hc.
    unfold clone_reader in Happly.
    destruct (clone_socket (socket r) k) as [c k1]. simplify_eq. destruct h.
    rewrite held_new_reader. apply Hc.
  - simplify_eq. exists []. split; [| done]. apply owns_close.
    by rewrite (held_readers h i r) in Hown.
Qed.

Lemma run_owns ops h k lost h' k' :
  owns (held h) lost k -> run ops (h, k) = Some (h', k') ->
  exists lost', owns (held h') (lost' ++ lost) k' /\ length lost' = leaked ops (h, k).
Proof.
  revert h k lost. induction ops as [| op ops IH]; intros h k lost Hown Hrun.
  - cbn in Hrun. simplify_eq. by exists [].
  - cbn [run leaked] in *. destruct (apply op (h, k)) as [[h1 k1] |] eqn:Ha; [cbn in Hrun | done].
    destruct (apply_owns _ _ _ _ _ _ Hown Ha) as (lost1 & Hown1 & Hl1).
    destruct (IH _ _ _ Hown1 Hrun) as (lost2 & Hown2 & Hl2).
    exists (lost2 ++ lost1). rewrite <- app_assoc. split; [done |].
    rewrite length_app. cbn [snd]. lia.
Qed.
End ownership.

(** C38 Whatever a program does with raw sockets, in any order: every open descriptor
    was open before, or belongs to exactly one of the sockets it holds (a clone
    whose [dup] failed owns none), or was lost by a [RawSocket::new] that failed
    after the first call; and there is exactly one lost descriptor for each such
    call.  So dropping a socket never closes the descriptor of another one, and
    when no [new] fails and every socket is dropped, nothing stays open. *)
Theorem raw_socket_lifecycle `{KernelLaws K} ops (k : K) h k' :
  run ops (Holding [] [], k) = Some (h, k') ->
  exists lost, length lost = leaked ops (Holding [] [], k) /\
    NoDup (owned (held h) ++ lost) /\
    (forall fd, fd ∈ owned (held h) ++ lost -> fd ∉ fds k) /\
    fds k' = fds k ∪ list_to_set (owned (held h) ++ lost).
Proof.
  intros Hrun.
  destruct (run_owns (fds k) ops (Holding [] []) k [] h k') as (lost & [] & Hlost);
    [| done | rewrite app_nil_r in *; by exists lost].
  split; cbn; [constructor | set_solver | set_solver].
Qed.

(** ** A kernel

    Descriptors are allocated up to a limit; the interfaces are known by name;
    frames wait to be received, and those sent are kept. *)
Record sim := Sim {
  open_fds : gset nat;
  fd_limit : nat;
  interfaces : list (list byte * Z);
  frames : list (list byte);
  sent : list (sockaddr_ll * list byte);
  sim_errno : Z
}.

Definition sim_fail (e : Z) (k : sim) : Z * sim :=
  ((-1)%Z, Sim (open_fds k) (fd_limit k) (interfaces k) (frames k) (sent k) e).

Definition sim_open (k : sim) : Z * sim :=
  let fd := fresh (open_fds k) in
  if decide (fd < fd_limit k) then
    (Z.of_nat fd, Sim ({[fd]} ∪ open_fds k) (fd_limit k) (interfaces k) (frames k) (sent k)
       (sim_errno k))
  else sim_fail 24 k.

Definition sim_isopen (fd : Z) (k : sim) : bool :=
  bool_decide (fd ∈ set_map (D := gset Z) Z.of_nat (open_fds k)).

Definition sim_nametoindex (name : list byte) (k : sim) : Z * sim :=
  match list_find (fun i => i.1 ++ [x00] = name) (interfaces k) with
  | Some (_, (_, i)) => (wrap 32 i, k)
  | None => let (_, k) := sim_fail 19 k in (0%Z, k)
  end.

Definition sim_close (fd : Z) (k : sim) : Z * sim :=
  if sim_isopen fd k then
    (0%Z, Sim (open_fds k ∖ {[Z.to_nat fd]}) (fd_limit k) (interfaces k) (frames k) (sent k)
       (sim_errno k))
  else sim_fail 9 k.

(** A frame is received whole: what does not fit into the buffer is lost. *)
Definition sim_recvfrom (fd : Z) (n : nat) (k : sim) : Z * list byte * sim :=
  if sim_isopen fd k then
    match frames k with
    | f :: fs =>
      (Z.of_nat (length (take n f)), take n f,
       Sim (open_fds k) (fd_limit k) (interfaces k) fs (sent k) (sim_errno k))
    | [] => let (r, k) := sim_fail 11 k in (r, [], k)
    end
  else let (r, k) := sim_fail 9 k in (r, [], k).

Definition sim_sendto (fd : Z) (buf : list byte) (a : sockaddr_ll) (k : sim) : Z * sim :=
  if sim_isopen fd k then
    (Z.of_nat (length buf),
     Sim (open_fds k) (fd_limit k) (interfaces k) (frames k) (sent k ++ [(a, buf)]) (sim_errno k))
  else sim_fail 9 k.

Definition sim_check (fd : Z) (k : sim) : Z * sim :=
  if sim_isopen fd k then (0%Z, k) else sim_fail 9 k.

#[export] Instance sim_kernel : Kernel sim := {|
  sys_socket _ _ _ k := sim_open k;
  sys_if_nametoindex := sim_nametoindex;
  sys_bind fd _ k := sim_check fd k;
  sys_setsockopt fd _ _ _ k := sim_check fd k;
  sys_sendto fd buf _ a k := sim_sendto fd buf a k;
  sys_recvfrom fd n _ k := sim_recvfrom fd n k;
  sys_close := sim_close;
  sys_dup fd k := if sim_isopen fd k then sim_open k else sim_fail 9 k;
  errno := sim_errno
|}.

Abbreviation sim_fds k := (set_map (D := gset Z) Z.of_nat (open_fds k)).

Lemma sim_open_law k r k' : sim_open k = (r, k') ->
  (r < 0)%Z /\ sim_fds k' = sim_fds k \/
  (0 <= r)%Z /\ (r ∉ sim_fds k) /\ sim_fds k' = {[r]} ∪ sim_fds k.
Proof.
  unfold sim_open, sim_fail. case_decide; intros [= <- <-]; [right | by left]. cbn.
  pose proof (is_fresh (open_fds k)). split_and!; [lia | set_solver |].
  apply leibniz_equiv. by rewrite set_map_union, set_map_singleton.
Qed.

#[export] Program Instance sim_laws : KernelLaws sim := {| fds k := sim_fds k |}.
Next Obligation. intros k fd Hfd. cbn in Hfd. apply elem_of_map in Hfd as (n & -> & _). lia. Qed.
Next Obligation. intros d t p k r k' Hs. by apply sim_open_law. Qed.
Next Obligation.
  intros n k r k'. cbn. unfold sim_nametoindex, sim_fail. case_match; intros; simplify_eq/=.
  - case_match. case_match. simplify_eq. split; [by apply wrap_fits | done].
  - by split.
Qed.
Next Obligation. intros fd a k r k'. cbn. unfold sim_check, sim_fail. case_match; intros; by simplify_eq/=. Qed.
Next Obligation. intros fd l o v k r k'. cbn. unfold sim_check, sim_fail. case_match; intros; by simplify_eq/=. Qed.
Next Obligation.
  intros fd b fl a k r k'. cbn. unfold sim_sendto, sim_fail.
  case_match; intros; simplify_eq/=; (split; [lia | done]).
Qed.
Next Obligation.
  intros fd n fl k r bs k'. cbn. unfold sim_recvfrom, sim_fail.
  case_match; [case_match |]; intros; simplify_eq/=;
    (split_and!; [rewrite ?length_take; lia | by intros ? | done]).
Qed.
Next Obligation.
  intros fd k r k'. cbn. unfold sim_close, sim_isopen, sim_fail.
  case_bool_decide as Hfd; intros; simplify_eq/=; [| set_solver].
  apply elem_of_map in Hfd as (z & -> & _). apply leibniz_equiv. intros x. rewrite elem_of_difference, elem_of_singleton, !elem_of_map.
  setoid_rewrite elem_of_difference. setoid_rewrite elem_of_singleton.
  split; [intros (y & -> & Hy & ?); split; [eauto | lia] |].
  intros [(y & -> & Hy) ?]. exists y. split_and!; [done | done | lia].
Qed.
Next Obligation.
  intros fd k r k'. cbn. unfold sim_isopen. case_bool_decide as Hfd.
  - intros [? | ?]%sim_open_law; [by left | right]. naive_solver.
  - intros [= <- <-]. by left.
Qed.

Module SocketDemo.
(** Two interface names, of which the kernel knows the first. *)
Definition eth : list byte := [x65; x74; x68].
Definition lan : list byte := [x6c; x61; x6e].

Definition demo_kernel : sim :=
  Sim {[0; 1; 2]} 8 [(eth, 7%Z)] [[x01; x02; x03]] [] 0.

Definition demo_ops : list operation :=
  [New eth; New eth; New lan; Clone 0; Write 2 [x0a; x0b]; Flush 2; Bind 0; CloneReader 0;
   Read 0 2; Read 1 2; DropReader 0; DropSocket 1].

Definition demo_end : option (holding * sim) := run demo_ops (Holding [] [], demo_kernel).

(** The two interface numbers in a call and in an address: the protocol is 16 bits in
    network order in the address, but 32 bits swapped in the call, of which the
    kernel keeps the lower 16, zero. *)
Lemma protocol_numbers :
  sll_protocol (interface_addr 7) = 0x0300%Z /\ to_be 4 ETH_P_ALL = 0x03000000%Z /\
  wrap 16 (to_be 4 ETH_P_ALL) = 0%Z.
Proof. by vm_compute. Qed.

(** A timeout of the socket is one of the errors after which [read_exact] looks at the
    stop flag. *)
Lemma timeout_retryable :
  (read_socket (MkRawSocketReader (MkRawSocket 0 (interface_addr 7))) 1
     (Sim {[0]} 8 [] [] [] 0)).1 = ReadErr WouldBlock /\ retryable WouldBlock = true.
Proof. by vm_compute. Qed.

Lemma raw_socket_lifecycle_witness :
  exists h k', demo_end = Some (h, k') /\ leaked demo_ops (Holding [] [], demo_kernel) = 1 /\
    sent k' = [(interface_addr 7, [x0a; x0b])] /\
    exists lost, length lost = leaked demo_ops (Holding [] [], demo_kernel) /\
      NoDup (owned (held h) ++ lost) /\
      (forall fd, fd ∈ owned (held h) ++ lost -> fd ∉ fds demo_kernel) /\
      fds k' = fds demo_kernel ∪ list_to_set (owned (held h) ++ lost).
Proof.
  eexists _, _. split; [vm_compute; reflexivity |].
  split; [vm_compute; reflexivity |]. split; [reflexivity |].
  apply raw_socket_lifecycle. vm_compute. reflexivity.
Defined.
End SocketDemo.
