(* ===== verification/IoStream.v ===== *)
(** * [io_stream.rs]: streams and listeners named by URIs

    The standard library's TCP and Unix sockets are two instances of one interface
    ([Sockets]); standard input and output and the removal of a file are [Host]; raw
    sockets are those of [Socket].  [endpoint] says what a URI names;
    [listener_spec] shows that both [from_uri] functions follow it, and what the
    iterator over the incoming streams delivers. *)
From stdpp Require Import prelude list strings gmap.
From Stdlib Require Import ZArith Lia.
From S2P Require Import Prelude Io Socket.

(** [io::Result] of a call of the standard library. *)
Abbreviation io_result A := (A + ErrorKind)%type.

Definition of_io_result {A} (r : io_result A) : outcome ErrorKind A :=
  match r with inl a => Ok a | inr e => Err e end.

(** [TcpStream] and [TcpListener], or [UnixStream] and [UnixListener]: a socket is
    a handle, its state is the host's. *)
Class Sockets (H Stream Listener : Type) := {
  sock_connect : list byte -> H -> io_result Stream * H;
  sock_try_clone : Stream -> H -> io_result Stream * H;
  sock_read : Stream -> nat -> H -> read_result * H;
  sock_write : Stream -> list byte -> H -> write_result * H;
  sock_flush : Stream -> H -> io_result unit * H;
  sock_listen : list byte -> H -> io_result Listener * H;
  sock_accept : Listener -> H -> io_result Stream * H
}.

Class Host (H : Type) := {
  stdin_read : nat -> H -> read_result * H;
  stdout_write : list byte -> H -> write_result * H;
  stdout_flush : H -> io_result unit * H;
  remove_file : list byte -> H -> io_result unit * H
}.

(** [str::strip_prefix]. *)
Definition strip_prefix (p s : list byte) : option (list byte) :=
  if decide (take (length p) s = p) then Some (drop (length p) s) else None.

Definition STDIN : list byte := String.list_byte_of_string "-".
Definition STDOUT : list byte := String.list_byte_of_string "-".
Definition TCP_URI_PREFIX : list byte := String.list_byte_of_string "tcp://".
Definition UNIX_SOCKET_URI_PREFIX : list byte := String.list_byte_of_string "unix://".
Definition AF_PACKET_SOCKET_URI_PREFIX : list byte := String.list_byte_of_string "af_packet://".

Inductive OutputStream (T U : Type) :=
| OutStdout
| OutTcp (s : T)
| OutUnix (s : U)
| OutRawSocket (s : RawSocket).
Arguments OutStdout {T U}.
Arguments OutTcp {T U} _.
Arguments OutUnix {T U} _.
Arguments OutRawSocket {T U} _.

Inductive InputStream (T U : Type) :=
| InStdin
| InTcp (s : T)
| InUnix (s : U)
| InRawSocket (s : RawSocketReader).
Arguments InStdin {T U}.
Arguments InTcp {T U} _.
Arguments InUnix {T U} _.
Arguments InRawSocket {T U} _.

Inductive Listener (TL UL : Type) :=
| ListenStdin (is_closed : bool)
| ListenTcp (l : TL)
| ListenUnix (l : UL)
| ListenRawSocket (interface_name : list byte).
Arguments ListenStdin {TL UL} _.
Arguments ListenTcp {TL UL} _.
Arguments ListenUnix {TL UL} _.
Arguments ListenRawSocket {TL UL} _.

Record Incoming (TL UL : Type) := MkIncoming { listener : Listener TL UL }.
Arguments MkIncoming {TL UL} _.
Arguments listener {TL UL} _.

Section code.
Context {H T TL U UL : Type}.
Context `{!Kernel H, !Host H, Tcp : !Sockets H T TL, Unix : !Sockets H U UL}.

(** Applying a constructor to the result of a call. *)
Definition wrap_ok {A B} (f : A -> B) (r : outcome ErrorKind A * H) : outcome ErrorKind B * H :=
  match r with
  | (Ok a, h) => (Ok (f a), h)
  | (Err e, h) => (Err e, h)
  | (Panic, h) => (Panic, h)
  end.

Definition call {A} (r : io_result A * H) : outcome ErrorKind A * H :=
  (of_io_result r.1, r.2).

(** ** Outputs *)
Definition OutputStream_from_uri (uri : list byte) (h : H)
    : outcome ErrorKind (OutputStream T U) * H :=
  if decide (uri = STDOUT) then (Ok OutStdout, h)
  else
    match strip_prefix TCP_URI_PREFIX uri with
    | Some addr => wrap_ok OutTcp (call (sock_connect addr h))
    | None =>
      match strip_prefix UNIX_SOCKET_URI_PREFIX uri with
      | Some addr => wrap_ok OutUnix (call (sock_connect addr h))
      | None =>
        match strip_prefix AF_PACKET_SOCKET_URI_PREFIX uri with
        | Some interface_name => wrap_ok OutRawSocket (RawSocket_new interface_name h)
        | None => (Err InvalidInput, h)
        end
      end
    end.

Definition try_clone (self : OutputStream T U) (h : H)
    : outcome ErrorKind (OutputStream T U) * H :=
  match self with
  | OutStdout => (Ok OutStdout, h)
  | OutTcp stream => wrap_ok OutTcp (call (sock_try_clone stream h))
  | OutUnix stream => wrap_ok OutUnix (call (sock_try_clone stream h))
  | OutRawSocket raw_socket =>
    let (c, h) := clone_socket raw_socket h in (Ok (OutRawSocket c), h)
  end.

Definition write_stream (self : OutputStream T U) (buf : list byte) (h : H)
    : write_result * H :=
  match self with
  | OutStdout => stdout_write buf h
  | OutTcp stream => sock_write stream buf h
  | OutUnix stream => sock_write stream buf h
  | OutRawSocket raw_socket => write_socket raw_socket buf h
  end.

Definition flush_stream (self : OutputStream T U) (h : H) : outcome ErrorKind unit * H :=
  match self with
  | OutStdout => call (stdout_flush h)
  | OutTcp stream => call (sock_flush stream h)
  | OutUnix stream => call (sock_flush stream h)
  | OutRawSocket raw_socket => (flush_socket raw_socket, h)
  end.

(** What Rust does where a stream goes out of scope: the descriptor of a raw socket is
    closed by the crate's [Drop]; the sockets of the standard library close themselves,
    which no operation of the program sees. *)
Definition drop_output (self : OutputStream T U) (h : H) : H :=
  match self with OutRawSocket raw_socket => drop_socket raw_socket h | _ => h end.

(** ** Inputs *)
Definition read_stream (self : InputStream T U) (n : nat) (h : H) : read_result * H :=
  match self with
  | InStdin => stdin_read n h
  | InTcp stream => sock_read stream n h
  | InUnix stream => sock_read stream n h
  | InRawSocket raw_socket => read_socket raw_socket n h
  end.

Definition drop_input (self : InputStream T U) (h : H) : H :=
  match self with InRawSocket raw_socket => drop_socket (socket raw_socket) h | _ => h end.

Definition Listener_from_uri (uri : list byte) (h : H)
    : outcome ErrorKind (Listener TL UL) * H :=
  if decide (uri = STDIN) then (Ok (ListenStdin false), h)
  else
    match strip_prefix TCP_URI_PREFIX uri with
    | Some addr => wrap_ok ListenTcp (call (sock_listen addr h))
    | None =>
      match strip_prefix UNIX_SOCKET_URI_PREFIX uri with
      | Some path =>
        match remove_file path h with
        | (inr NotFound, h) => wrap_ok ListenUnix (call (sock_listen path h))
        | (inr e, h) => (Err e, h)
        | (inl _, h) => wrap_ok ListenUnix (call (sock_listen path h))
        end
      | None =>
        match strip_prefix AF_PACKET_SOCKET_URI_PREFIX uri with
        | Some interface_name => (Ok (ListenRawSocket interface_name), h)
        | None => (Err InvalidInput, h)
        end
      end
    end.

Definition incoming (self : Listener TL UL) : Incoming TL UL := MkIncoming self.

(** [Iterator::next]. *)
Definition next (self : Incoming TL UL) (h : H)
    : option (outcome ErrorKind (InputStream T U)) * Incoming TL UL * H :=
  match listener self with
  | ListenStdin is_closed =>
    if is_closed then (None, self, h)
    else (Some (Ok InStdin), MkIncoming (ListenStdin true), h)
  | ListenTcp l => let (r, h) := wrap_ok InTcp (call (sock_accept l h)) in (Some r, self, h)
  | ListenUnix l => let (r, h) := wrap_ok InUnix (call (sock_accept l h)) in (Some r, self, h)
  | ListenRawSocket interface_name =>
    match RawSocket_new interface_name h with
    | (Ok socket, h) =>
      let (r, h) := wrap_ok InRawSocket (bind socket h) in (Some r, self, h)
    | (Err e, h) => (Some (Err e), self, h)
    | (Panic, h) => (Some Panic, self, h)
    end
  end.

(** The results of [n] calls of [next]. *)
Fixpoint calls (n : nat) (self : Incoming TL UL) (h : H)
    : list (option (outcome ErrorKind (InputStream T U))) :=
  match n with
  | 0 => []
  | S n => let '(r, self, h) := next self h in r :: calls n self h
  end.

(** ** What a URI names *)
Inductive endpoint :=
| Standard
| TcpAt (addr : list byte)
| UnixAt (path : list byte)
| PacketAt (interface_name : list byte).

(** The URI of an endpoint. *)
Definition uri_of (e : endpoint) : list byte :=
  match e with
  | Standard => STDIN
  | TcpAt addr => TCP_URI_PREFIX ++ addr
  | UnixAt path => UNIX_SOCKET_URI_PREFIX ++ path
  | PacketAt name => AF_PACKET_SOCKET_URI_PREFIX ++ name
  end.

Definition listen_at (e : endpoint) (h : H) : outcome ErrorKind (Listener TL UL) * H :=
  match e with
  | Standard => (Ok (ListenStdin false), h)
  | TcpAt addr => wrap_ok ListenTcp (call (sock_listen addr h))
  | UnixAt path =>
    match remove_file path h with
    | (inr e, h) =>
      if decide (e = NotFound) then wrap_ok ListenUnix (call (sock_listen path h))
      else (Err e, h)
    | (inl _, h) => wrap_ok ListenUnix (call (sock_listen path h))
    end
  | PacketAt name => (Ok (ListenRawSocket name), h)
  end.

Definition connect_to (e : endpoint) (h : H) : outcome ErrorKind (OutputStream T U) * H :=
  match e with
  | Standard => (Ok OutStdout, h)
  | TcpAt addr => wrap_ok OutTcp (call (sock_connect addr h))
  | UnixAt path => wrap_ok OutUnix (call (sock_connect path h))
  | PacketAt name => wrap_ok OutRawSocket (RawSocket_new name h)
  end.

Lemma strip_prefix_app p s : strip_prefix p (p ++ s) = Some s.
Proof. unfold strip_prefix. by rewrite take_app_length, drop_app_length, decide_True. Qed.

Lemma strip_prefix_Some p s r : strip_prefix p s = Some r -> s = p ++ r.
Proof.
  unfold strip_prefix. case_decide as E; [intros [= <-] | done].
  rewrite <- E at 1. by rewrite take_drop.
Qed.

(** The URIs of different endpoints differ, and both functions do what the endpoint
    says. *)
Lemma from_uri_endpoint e h :
  Listener_from_uri (uri_of e) h = listen_at e h /\
  OutputStream_from_uri (uri_of e) h = connect_to e h.
Proof.
  destruct e as [| addr | path | name]; unfold Listener_from_uri, OutputStream_from_uri;
    cbn [uri_of]; [done | ..]; rewrite !decide_False by done.
  - by rewrite !strip_prefix_app.
  - rewrite !strip_prefix_app. cbn. split; [| done].
    destruct (remove_file path h) as [[[] | []] h']; done.
  - by rewrite !strip_prefix_app.
Qed.

(** A URI that names nothing is refused before anything is done. *)
Lemma from_uri_unsupported uri h :
  (forall e, uri <> uri_of e) ->
  Listener_from_uri uri h = (Err InvalidInput, h) /\
  OutputStream_from_uri uri h = (Err InvalidInput, h).
Proof.
  intros Hno. unfold Listener_from_uri, OutputStream_from_uri.
  rewrite !decide_False by apply (Hno Standard).
  destruct (strip_prefix TCP_URI_PREFIX uri) as [r |] eqn:E.
  { by apply strip_prefix_Some, (Hno (TcpAt r)) in E. }
  destruct (strip_prefix UNIX_SOCKET_URI_PREFIX uri) as [r |] eqn:E'.
  { by apply strip_prefix_Some, (Hno (UnixAt r)) in E'. }
  destruct (strip_prefix AF_PACKET_SOCKET_URI_PREFIX uri) as [r |] eqn:E''; [| done].
  by apply strip_prefix_Some, (Hno (PacketAt r)) in E''.
Qed.

Lemma uri_of_inj : Inj (=) (=) uri_of.
Proof.
  intros [| a | a | a] [| b | b | b] E; try done; cbn [uri_of] in E;
    try (apply app_inv_head in E; by subst); discriminate E.
Qed.

(** Only the URI of standard input gives a listener on it. *)
Lemma listen_stdin uri h c :
  (Listener_from_uri uri h).1 = Ok (ListenStdin c) ->
  uri = STDIN /\ c = false.
Proof.
  unfold Listener_from_uri. case_decide; [by intros [= <-] |].
  repeat case_match; unfold call, wrap_ok, of_io_result in *; intros;
    repeat (simplify_eq/= || case_match).
Qed.

(** ** The iterator *)

(** Standard input is delivered once. *)
Lemma calls_stdin n h :
  calls (S n) (incoming (ListenStdin false)) h = Some (Ok InStdin) :: replicate n None.
Proof. cbn. f_equal. induction n as [| n IH]; cbn; [done | by rewrite IH]. Qed.

(** The other listeners stay as they are and never end. *)
Lemma next_listener l h :
  (forall c, l <> ListenStdin c) ->
  exists r h', next (MkIncoming l) h = (Some r, MkIncoming l, h').
Proof.
  intros Hl. destruct l as [c | l | l | name]; [by destruct (Hl c) | ..]; unfold next; cbn [listener].
  - destruct (wrap_ok _ _). eauto.
  - destruct (wrap_ok _ _). eauto.
  - destruct (RawSocket_new name h) as [[s | e |] h1]; [| eauto..].
    destruct (wrap_ok _ _). eauto.
Qed.

Lemma calls_listener n l h :
  (forall c, l <> ListenStdin c) -> Forall is_Some (calls n (incoming l) h).
Proof.
  intros Hl. revert h. induction n as [| n IH]; intros h; [constructor |].
  unfold incoming in *. cbn [calls]. destruct (next_listener l h Hl) as (r & h' & ->).
  by constructor.
Qed.
End code.

(** A stream and the state of its host are a reader or a writer for the loops of [Io].
    Where they are used there is no stop flag. *)
Record opened (Stream H : Type) := Opened { stream : Stream; host : H }.
Arguments Opened {Stream H} _ _.
Arguments stream {Stream H} _.
Arguments host {Stream H} _.

#[export] Instance opened_reader {H T TL U UL} `{!Kernel H, !Host H, !Sockets H T TL,
    !Sockets H U UL} : Reader (opened (InputStream T U) H) := {|
  read r n := let (res, h) := read_stream (stream r) n (host r) in (res, Opened (stream r) h);
  load r := (false, r)
|}.

#[export] Instance opened_writer {H T TL U UL} `{!Kernel H, !Host H, !Sockets H T TL,
    !Sockets H U UL} : Writer (opened (OutputStream T U) H) := {|
  write w buf :=
    let (res, h) := write_stream (stream w) buf (host w) in (res, Opened (stream w) h)
|}.

Section streams.
Context {H T TL U UL : Type}.
Context `{L : KernelLaws H, !Host H, Tcp : !Sockets H T TL, Unix : !Sockets H U UL}.

(** What one call of [next] of a raw listener does to the descriptors: the reader it
    delivers owns a new one; an error leaves one open exactly when [RawSocket::new]
    lost it. *)
Lemma next_raw_socket base l lost name h :
  owns base l lost h ->
  let '(r, self, h') := next (T := T) (TL := TL) (U := U) (UL := UL)
                          (MkIncoming (ListenRawSocket name)) h in
  self = MkIncoming (ListenRawSocket name) /\
  match r with
  | Some (Ok (InRawSocket s)) => owns base (socket s :: l) lost h'
  | Some (Err _) =>
    exists lost', owns base l (lost' ++ lost) h' /\
      length lost' = (if leaks name h then 1 else 0)
  | _ => False
  end.
Proof.
  intros Hown. pose proof (RawSocket_new_cases base name h l lost Hown) as Hnew.
  unfold next. cbn [listener].
  destruct (RawSocket_new name h) as [[s | e |] h1]; [| by split | done].
  destruct Hnew as (_ & Hleak & Hown1). pose proof (bind_cases base s h1 l lost Hown1) as Hb.
  destruct (bind s h1) as [[r | e |] h2]; cbn; [| | done].
  - destruct Hb as [<- Hown2]. by split.
  - split; [done |]. exists []. by rewrite Hleak.
Qed.

(** C39 Both [from_uri] functions recognise the same URIs: for the URI of an endpoint
    they do what that endpoint stands for (a Unix listener first removes the file of
    that name, which may be missing), and any other URI is [InvalidInput] before the
    system is asked for anything.  A listener on standard input delivers it exactly
    once and then ends; every other listener delivers something at every call.  Each
    stream of a raw listener owns a descriptor of its own. *)
Theorem listener_spec uri h :
  (forall e, Listener_from_uri (uri_of e) h = listen_at (TL := TL) (UL := UL) e h /\
     OutputStream_from_uri (uri_of e) h = connect_to (T := T) (U := U) e h) /\
  ((forall e, uri <> uri_of e) ->
     Listener_from_uri (TL := TL) (UL := UL) uri h = (Err InvalidInput, h) /\
     OutputStream_from_uri (T := T) (U := U) uri h = (Err InvalidInput, h)) /\
  (forall n, calls (S n) (incoming (ListenStdin (TL := TL) (UL := UL) false)) h =
     Some (Ok (InStdin (T := T) (U := U))) :: replicate n None) /\
  (forall n (l : Listener TL UL), (forall c, l <> ListenStdin c) ->
     Forall is_Some (calls (T := T) (U := U) n (incoming l) h)) /\
  (forall base l lost name, owns base l lost h ->
     let '(r, self, h') := next (T := T) (TL := TL) (U := U) (UL := UL)
                             (incoming (ListenRawSocket name)) h in
     self = incoming (ListenRawSocket name) /\
     match r with
     | Some (Ok (InRawSocket s)) => owns base (socket s :: l) lost h'
     | Some (Err _) =>
       exists lost', owns base l (lost' ++ lost) h' /\
         length lost' = (if leaks name h then 1 else 0)
     | _ => False
     end).
Proof.
  split_and!.
  - intros e. apply from_uri_endpoint.
  - apply from_uri_unsupported.
  - intros n. apply calls_stdin.
  - intros n l. apply calls_listener.
  - intros base l lost name. apply next_raw_socket.
Qed.
End streams.

(** ** A host with standard input and output only

    What is read comes from a list of bytes and what is written is added to one; there
    are no sockets, and every system call fails with [EINVAL]. *)
Record pipes := Pipes { stdin_bytes : list byte; stdout_bytes : list byte }.

#[export] Instance pipes_kernel : Kernel pipes := {|
  sys_socket _ _ _ k := ((-1)%Z, k);
  sys_if_nametoindex _ k := (0%Z, k);
  sys_bind _ _ k := ((-1)%Z, k);
  sys_setsockopt _ _ _ _ k := ((-1)%Z, k);
  sys_sendto _ _ _ _ k := ((-1)%Z, k);
  sys_recvfrom _ _ _ k := ((-1)%Z, [], k);
  sys_close _ k := ((-1)%Z, k);
  sys_dup _ k := ((-1)%Z, k);
  errno _ := 22%Z
|}.

#[export] Instance pipes_sockets : Sockets pipes Empty_set Empty_set := {|
  sock_connect _ k := (inr InvalidInput, k);
  sock_try_clone (s : Empty_set) k := match s with end;
  sock_read (s : Empty_set) _ k := match s with end;
  sock_write (s : Empty_set) _ k := match s with end;
  sock_flush (s : Empty_set) k := match s with end;
  sock_listen _ k := (inr InvalidInput, k);
  sock_accept (l : Empty_set) k := match l with end
|}.

#[export] Instance pipes_host : Host pipes := {|
  stdin_read n k :=
    (ReadOk (take n (stdin_bytes k)), Pipes (drop n (stdin_bytes k)) (stdout_bytes k));
  stdout_write buf k :=
    (WriteOk (length buf), Pipes (stdin_bytes k) (stdout_bytes k ++ buf));
  stdout_flush k := (inl tt, k);
  remove_file _ k := (inr NotFound, k)
|}.

Abbreviation pipe_reader := (opened (InputStream Empty_set Empty_set) pipes).
Abbreviation pipe_writer := (opened (OutputStream Empty_set Empty_set) pipes).

Definition pipe_contents (r : pipe_reader) : list byte :=
  match stream r with InStdin => stdin_bytes (host r) | _ => [] end.
Definition pipe_ending (r : pipe_reader) : ErrorKind :=
  match stream r with InStdin => UnexpectedEof | _ => InvalidInput end.
Definition pipe_written (w : pipe_writer) : list byte :=
  match stream w with OutStdout => stdout_bytes (host w) | _ => [] end.

#[export] Program Instance pipes_source : Source pipe_reader := {|
  contents := pipe_contents; ending := pipe_ending; retries _ := 0
|}.
Next Obligation.
  intros [[| [] | [] | s] [l o]] n b bs r' Hn Hread; unfold read in Hread; cbn in Hread; [| done].
  injection Hread as E <-. unfold pipe_contents. cbn [stream host stdin_bytes].
  rewrite <- E, length_take, take_drop. split_and!; (done || lia).
Qed.
Next Obligation.
  intros [[| [] | [] | s] [[| b l] o]] [| n] r' Hn; unfold read; cbn; intros; (lia || by simplify_eq).
Qed.
Next Obligation. intros [[| [] | [] | s] [l o]] n r' Hn Hread; unfold read in Hread; by cbn in Hread. Qed.
Next Obligation.
  intros [[| [] | [] | s] [l o]] n e r' Hn Hread Hne; unfold read in Hread; cbn in Hread; [done |].
  by simplify_eq.
Qed.

#[export] Program Instance pipes_sink : Sink pipe_writer := {|
  written := pipe_written; wpatience _ := 0
|}.
Next Obligation.
  intros [[| [] | [] | s] [l o]] buf n w' Hw; unfold write in Hw; cbn in Hw; [| done].
  injection Hw as <- <-. unfold pipe_written. cbn. by rewrite take_ge.
Qed.
Next Obligation. intros [[| [] | [] | s] [l o]] buf w' Hw; unfold write in Hw; by cbn in Hw. Qed.
Next Obligation.
  intros [[| [] | [] | s] [l o]] buf e w' Hw; unfold write in Hw; cbn in Hw; by simplify_eq.
Qed.

Module StreamDemo.
(** A host on the kernel of [Socket]: a TCP or Unix socket is the address it was opened
    with, nothing listens at the empty address, and there are no files. *)
Definition demo_open (addr : list byte) (k : sim) : io_result (list byte) * sim :=
  (if decide (addr = []) then inr (OtherKind 111) else inl addr, k).

#[export] Instance demo_sockets : Sockets sim (list byte) (list byte) := {|
  sock_connect := demo_open;
  sock_try_clone s k := (inl s, k);
  sock_read _ _ k := (ReadOk [], k);
  sock_write _ buf k := (WriteOk (length buf), k);
  sock_flush _ k := (inl tt, k);
  sock_listen := demo_open;
  sock_accept := demo_open
|}.

#[export] Instance demo_host : Host sim := {|
  stdin_read _ k := (ReadOk [], k);
  stdout_write buf k := (WriteOk (length buf), k);
  stdout_flush k := (inl tt, k);
  remove_file _ k := (inr NotFound, k)
|}.

Definition demo_uri : list byte := String.list_byte_of_string "udp://host:1".
Definition unix_uri : list byte := String.list_byte_of_string "unix:///tmp/s".

Definition tmp_s : list byte := String.list_byte_of_string "/tmp/s".

Lemma listener_spec_witness :
  uri_of (UnixAt tmp_s) = unix_uri /\
  Listener_from_uri (TL := list byte) (UL := list byte) unix_uri SocketDemo.demo_kernel =
    (Ok (ListenUnix tmp_s), SocketDemo.demo_kernel) /\
  (forall e, demo_uri <> uri_of e) /\
  Listener_from_uri (TL := list byte) (UL := list byte) demo_uri SocketDemo.demo_kernel =
    (Err InvalidInput, SocketDemo.demo_kernel) /\
  calls (T := list byte) (U := list byte) 3
    (incoming (ListenStdin (TL := list byte) (UL := list byte) false)) SocketDemo.demo_kernel =
    [Some (Ok InStdin); None; None].
Proof.
  destruct (listener_spec (T := list byte) (U := list byte) (TL := list byte) (UL := list byte)
    demo_uri SocketDemo.demo_kernel) as (Hsame & Hunsupported & Honce & _).
  assert (forall e, demo_uri <> uri_of e) as Hno by (intros []; discriminate).
  split; [by vm_compute |]. split; [| split; [done | split]].
  - apply (Hsame (UnixAt tmp_s)).
  - apply Hunsupported, Hno.
  - apply (Honce 2).
Defined.
End StreamDemo.
