(* ===== verification/Transfer.v ===== *)
(** * [transfer.rs]: sending and receiving files

    [send_loop] cuts a file into datagrams of one block each, [process_stream] writes
    the payloads of the datagrams it reads at their offsets.  The files are a map from
    paths to contents; what the operating system may refuse is the record [os].
    [send] and [process_stream] work on any writer and reader; [send_file] and
    [receive] are the functions as the program calls them, on the streams of
    [IoStream] in the state of their host. *)
From stdpp Require Import prelude list strings gmap.
From Stdlib Require Import ZArith Lia.
From S2P Require Import Prelude Io Bytes Utf8 Protocol Dispatch Path Socket IoStream.

#[export] Program Instance byte_countable : Countable byte :=
  inj_countable Byte.to_N Byte.of_N _.
Next Obligation. apply Byte.of_to_N. Qed.

(** What [Box<dyn Error>] boxes. *)
Inductive TransferError :=
| TransferIO (e : ErrorKind)
| TransferOther (message : string)
| TransferTryFromInt.

(** The name [send] gives the file. *)
Definition file_name_of (file_path : path) : outcome TransferError (list byte) :=
  match Path_file_name file_path with
  | None => Err (TransferOther "invalid filename")
  | Some name =>
    match to_str name with
    | None => Err (TransferOther "cannot convert filename to string")
    | Some file_name => Ok file_name
    end
  end.

(** [isize::MAX], the most a vector can hold. *)
Definition isize_max : Z := 2 ^ 63 - 1.

Section send.
Context `{U : UuidOps} {R W : Type} `{Reader R, Writer W}.

(** The loop of [send]; [buffer] keeps the bytes of the reads before where a read does
    not fill it. *)
Fixpoint send_loop (fuel wfuel : nat) (file_id : Uuid) (file_name : list byte)
    (file_length : Z) (file : R) (buffer : list byte) (offset : Z) (stream : W)
    : option (outcome TransferError unit * W) :=
  match fuel with
  | 0 => None
  | S fuel =>
    match read file (length buffer) with
    | (ReadErr e, _) => Some (Err (TransferIO e), stream)
    | (ReadOk [], _) => Some (Ok tt, stream)
    | (ReadOk bs, file) =>
      if (length bs <=? length buffer)%nat then
        let n := Z.of_nat (length bs) in
        let buffer := bs ++ drop (length bs) buffer in
        if (n <? 2 ^ 32)%Z then
          let header := DatagramHeader_new file_id file_name file_length offset n in
          match write_all wfuel stream (serialize header) with
          | Some (Ok _, stream) =>
            match write_all wfuel stream buffer with
            | Some (Ok _, stream) =>
              let offset := wadd 64 offset n in
              send_loop fuel wfuel file_id file_name file_length file buffer offset stream
            | Some (Err e, stream) => Some (Err (TransferIO e), stream)
            | Some (Panic, stream) => Some (Panic, stream)
            | None => None
            end
          | Some (Err e, stream) => Some (Err (TransferIO e), stream)
          | Some (Panic, stream) => Some (Panic, stream)
          | None => None
          end
        else Some (Err TransferTryFromInt, stream)
      else Some (Panic, stream)
    end
  end.

(** What [send] gets from its surroundings: the stream opened from the URI, the random
    identifier, the name in the path or the error, the length in the metadata, the
    opened file. *)
Record send_env := SendEnv {
  from_uri : outcome TransferError W;
  new_v4 : Uuid;
  path_file_name : outcome TransferError (list byte);
  metadata_len : outcome ErrorKind Z;
  open_file : outcome ErrorKind R
}.

(** [None]: out of fuel.  The stream is [None] when it was not opened. *)
Definition send (fuel wfuel : nat) (env : send_env) (block_size : Z)
    : option (outcome TransferError unit * option W) :=
  match from_uri env with
  | Err e => Some (Err e, None)
  | Panic => Some (Panic, None)
  | Ok stream =>
    let file_id := new_v4 env in
    match path_file_name env with
    | Err e => Some (Err e, Some stream)
    | Panic => Some (Panic, Some stream)
    | Ok file_name =>
      match metadata_len env with
      | Err e => Some (Err (TransferIO e), Some stream)
      | Panic => Some (Panic, Some stream)
      | Ok file_length =>
        match open_file env with
        | Err e => Some (Err (TransferIO e), Some stream)
        | Panic => Some (Panic, Some stream)
        | Ok file =>
          let payload_size := wsub 64 block_size (Z.of_nat DATAGRAM_HEADER_LEN) in
          if (isize_max <? payload_size)%Z then Some (Panic, Some stream)
          else
            let buffer := replicate (Z.to_nat payload_size) x00 in
            match send_loop fuel wfuel file_id file_name file_length file buffer 0 stream with
            | Some (res, stream) => Some (res, Some stream)
            | None => None
            end
        end
      end
    end
  end.
End send.

Lemma file_name_of_name p c :
  valid_utf8 p -> file_name_of p = Ok c <-> Path_file_name p = Some c.
Proof.
  intros Hp. unfold file_name_of. destruct (Path_file_name p) as [c' |] eqn:Hc; [| done].
  destruct (file_name_cases p c') as [_ Hstr]. rewrite (Hstr Hp Hc). split; by intros [= ->].
Qed.

Lemma file_name_valid p c : valid_utf8 p -> file_name_of p = Ok c -> valid_utf8 c.
Proof.
  intros Hp Hc. apply file_name_of_name in Hc; [| done].
  destruct (file_name_cases p c) as [_ Hstr]. specialize (Hstr Hp Hc). unfold to_str in Hstr.
  by destruct (from_utf8 c) eqn:E; [eexists |].
Qed.

(** C33 The name [send] puts into its headers is a string and a single component
    of the path, its last up to slashes and current directories after it; the only
    error is a path that ends in no name, and the other one the code foresees, a name
    that is no string, cannot occur. *)
Theorem file_name_spec file_path :
  valid_utf8 file_path ->
  match file_name_of file_path with
  | Ok name => valid_utf8 name /\ is_name name /\ names_in file_path name
  | Err e => e = TransferOther "invalid filename" /\
      forall name, ~ (is_name name /\ names_in file_path name)
  | Panic => False
  end.
Proof.
  intros Hp. destruct (file_name_of file_path) as [name | e |] eqn:Hname.
  - split; [by eapply file_name_valid |].
    by apply (file_name_cases file_path name), file_name_of_name.
  - assert (Path_file_name file_path = None) as Hnone.
    { destruct (Path_file_name file_path) as [name |] eqn:E; [| done].
      apply file_name_of_name in E; [congruence | done]. }
    unfold file_name_of in Hname. rewrite Hnone in Hname. injection Hname as <-.
    split; [done |]. intros name Hc%(proj1 (file_name_cases file_path name)). congruence.
  - unfold file_name_of in Hname. by repeat case_match.
Qed.

(** What every write keeps, [send] keeps. *)
Lemma send_loop_stable `{Ids : UuidOps} {R W X} `{Reader R, Writer W} (f : W -> X)
    fuel wfuel id name flen (file : R) buffer o (w : W) res w' :
  (forall w buf, f (write w buf).2 = f w) ->
  send_loop fuel wfuel id name flen file buffer o w = Some (res, w') -> f w' = f w.
Proof.
  intros Hf. revert file buffer o w. induction fuel as [| fuel IH]; intros file buffer o w;
    cbn [send_loop]; [done |].
  assert (forall w buf res w', write_all wfuel w buf = Some (res, w') -> f w' = f w) as Hall
    by (intros; by eapply write_all_stable).
  destruct (read file _) as [[[| b bs] | e] file']; [by intros [= _ <-] | | by intros [= _ <-]].
  repeat case_match; try (by intros [= _ <-]); try done;
    repeat match goal with E : write_all _ _ _ = Some _ |- _ => apply Hall in E end;
    intros Hrun; first [apply IH in Hrun | injection Hrun as _ <-]; congruence.
Qed.

Lemma send_stable `{Ids : UuidOps} {R W X} `{Reader R, Writer W} (f : W -> X)
    fuel wfuel (w w' : W) id name len (file : outcome ErrorKind R) block_size res :
  (forall w buf, f (write w buf).2 = f w) ->
  send fuel wfuel (SendEnv (Ok w) id name len file) block_size = Some (res, Some w') ->
  f w' = f w.
Proof.
  intros Hf. unfold send. cbn [from_uri path_file_name metadata_len open_file new_v4].
  repeat case_match; intros; simplify_eq; try done. by eapply send_loop_stable.
Qed.

(** ** The receiver's files *)

Abbreviation files := (gmap path (list byte)) (only parsing).

(** What may fail: creating a directory, opening a path for writing, and a write at an
    offset, after some of its bytes. *)
Record os := Os {
  create_dir_error : path -> option ErrorKind;
  open_error : path -> option ErrorKind;
  write_error : path -> Z -> list byte -> option (nat * ErrorKind)
}.

(** Writing at an offset; bytes between the end of the file and the offset are zero. *)
Definition write_at (content : list byte) (offset : nat) (bytes : list byte) : list byte :=
  match bytes with
  | [] => content
  | _ =>
    take offset (content ++ replicate (offset - length content) x00)
      ++ bytes ++ drop (offset + length bytes) content
  end.

Section receive.
Context `{U : UuidOps} (sys : os).

(** [OpenOptions::open] with [create], [write] and no truncation. *)
Definition open_for_writing (p : path) (fs : files) : outcome ErrorKind files :=
  match open_error sys p with
  | Some e => Err e
  | None => Ok (match fs !! p with Some _ => fs | None => <[p := []]> fs end)
  end.

(** [seek(SeekFrom::Start(offset))], which the system refuses for a negative [i64],
    then [write_all]. *)
Definition seek_and_write (p : path) (offset : Z) (payload : list byte) (fs : files)
    : outcome ErrorKind unit * files :=
  if (2 ^ 63 <=? offset)%Z then (Err InvalidInput, fs)
  else
    let content := default [] (fs !! p) in
    match write_error sys p offset payload with
    | Some (n, e) => (Err e, <[p := write_at content (Z.to_nat offset) (take n payload)]> fs)
    | None => (Ok tt, <[p := write_at content (Z.to_nat offset) payload]> fs)
    end.

(** The body of the loop of [process_stream], from a full buffer on. *)
Definition process_block (output_path : path) (buffer : list byte) (fs : files)
    : outcome TransferError unit * files :=
  match deserialize buffer with
  | Err _ => (Ok tt, fs)
  | Panic => (Panic, fs)
  | Ok header =>
    match slice (E := TransferError) buffer DATAGRAM_HEADER_LEN
        (DATAGRAM_HEADER_LEN + Z.to_nat (payload_length header)) with
    | Ok payload =>
      let file_path := join output_path (file_name header) in
      match open_for_writing file_path fs with
      | Ok fs =>
        let (res, fs) := seek_and_write file_path (chunk_offset header) payload fs in
        (omap_err TransferIO res, fs)
      | Err e => (Err (TransferIO e), fs)
      | Panic => (Panic, fs)
      end
    | Err e => (Err e, fs)
    | Panic => (Panic, fs)
    end
  end.

Fixpoint process_loop {R} `{Reader R} (fuel rfuel : nat) (output_path : path) (stream : R)
    (buffer : list byte) (fs : files) : option (outcome TransferError unit * files * R) :=
  match fuel with
  | 0 => None
  | S fuel =>
    match std_read_exact rfuel stream [] buffer with
    | None => None
    | Some (Ok _, buffer, stream) =>
      match process_block output_path buffer fs with
      | (Ok _, fs) => process_loop fuel rfuel output_path stream buffer fs
      | (res, fs) => Some (res, fs, stream)
      end
    | Some (Err e, _, stream) => Some (Err (TransferIO e), fs, stream)
    | Some (Panic, _, stream) => Some (Panic, fs, stream)
    end
  end.

Definition process_stream {R} `{Reader R} (fuel rfuel : nat) (output_path : path) (stream : R)
    (block_size : Z) (fs : files) : option (outcome TransferError unit * files * R) :=
  if (isize_max <? block_size)%Z then Some (Panic, fs, stream)
  else
    let buffer := replicate (Z.to_nat block_size) x00 in
    process_loop fuel rfuel output_path stream buffer fs.

(** ** What a stream of blocks does to the files *)

(** One block after the other, up to the first that fails. *)
Fixpoint process_blocks (output_path : path) (blocks : list (list byte)) (fs : files)
    : outcome TransferError unit * files :=
  match blocks with
  | [] => (Ok tt, fs)
  | b :: blocks =>
    match process_block output_path b fs with
    | (Ok _, fs) => process_blocks output_path blocks fs
    | r => r
    end
  end.

Lemma process_loop_records {R} `{Source R} fuel rfuel output_path (r : R) buffer fs :
  let n := length buffer in
  0 < n -> length (contents r) / n < fuel -> std_read_fuel r n <= rfuel ->
  exists r', process_loop fuel rfuel output_path r buffer fs =
    Some (match process_blocks output_path (records n (contents r)) fs with
          | (Ok _, fs) => (Err (TransferIO (ending r)), fs)
          | r => r
          end, r').
Proof.
  revert buffer r fs. induction fuel as [| fuel IH]; intros buffer r fs n Hn; [lia |].
  cbn [process_loop]. intros Hfuel Hrfuel.
  destruct (std_read_exact_cases r buffer rfuel Hrfuel) as [Hc | Hc]; fold n in Hc.
  - destruct Hc as (Hlen & r' & -> & Ha & Hf & Hp).
    rewrite (records_cons n Hn) by done. cbn [process_blocks]. rewrite <- Ha.
    destruct (process_block _ _ fs) as [[[] | e |] fs1]; [| by exists r'..].
    assert (length (take n (contents r)) = n) as Hn' by (rewrite length_take; lia).
    destruct (IH (take n (contents r)) r' fs1) as [r'' Hr'']; rewrite ?Hn' in *;
      [done | | | rewrite Hf in Hr''; by exists r''].
    + rewrite Ha, length_drop.
      replace (length (contents r)) with ((length (contents r) - n) + 1 * n) in Hfuel by lia.
      rewrite Nat.div_add in Hfuel by lia. lia.
    + unfold std_read_fuel in *. lia.
  - destruct Hc as (Hlen & r' & junk & ->). rewrite records_short by done. by exists r'.
Qed.

Lemma process_stream_cases {R} `{Source R} fuel rfuel output_path (r : R) block_size fs :
  (0 < block_size <= isize_max)%Z ->
  let n := Z.to_nat block_size in
  length (contents r) / n < fuel -> std_read_fuel r n <= rfuel ->
  exists r', process_stream fuel rfuel output_path r block_size fs =
    Some (match process_blocks output_path (records n (contents r)) fs with
          | (Ok _, fs) => (Err (TransferIO (ending r)), fs)
          | r => r
          end, r').
Proof.
  intros Hbs n Hfuel Hrfuel. unfold process_stream.
  rewrite (proj2 (Z.ltb_ge _ _)) by lia.
  pose proof (process_loop_records fuel rfuel output_path r
    (replicate (Z.to_nat block_size) x00) fs) as Hloop.
  rewrite length_replicate in Hloop. apply Hloop; [lia | done | done].
Qed.

(** On a readable stream [process_stream] terminates.  It handles the complete
    blocks of the stream in order, ignoring the rest, up to the first that fails, and
    never returns [Ok]: when every block was handled it reports how the stream
    ended, the normal end of the stream included. *)
Theorem process_stream_spec {R} `{Source R} fuel rfuel output_path (r : R) block_size fs :
  (0 < block_size <= isize_max)%Z ->
  let n := Z.to_nat block_size in
  length (contents r) / n < fuel -> std_read_fuel r n <= rfuel ->
  exists res fs' r',
    process_stream fuel rfuel output_path r block_size fs = Some (res, fs', r') /\
    res <> Ok tt /\
    let (res', fs'') := process_blocks output_path (records n (contents r)) fs in
    fs' = fs'' /\ match res' with Ok _ => res = Err (TransferIO (ending r)) | _ => res = res' end.
Proof.
  intros Hbs n Hfuel Hrfuel.
  destruct (process_stream_cases fuel rfuel output_path r block_size fs) as [r' ->]; [done.. |].
  fold n.
  destruct (process_blocks _ _ fs) as [[[] | e |] fs1]; eexists _, _, r'; (split; [done |]); by split.
Qed.
End receive.

(** ** Datagrams *)

Lemma length_write_at f o d :
  d <> [] -> length (write_at f o d) = length f `max` (o + length d).
Proof.
  destruct d as [| b d]; [done |]. intros _. unfold write_at.
  rewrite !length_app, length_take, length_drop, length_app, length_replicate. lia.
Qed.

Lemma write_at_inside f o d i :
  o <= i < o + length d -> write_at f o d !! i = d !! (i - o).
Proof.
  intros Hi. destruct d as [| b d]; [cbn in *; lia |]. unfold write_at.
  assert (length (take o (f ++ replicate (o - length f) x00)) = o) as Ho
    by (rewrite length_take, length_app, length_replicate; lia).
  rewrite lookup_app_r, Ho by lia. by rewrite lookup_app_l by lia.
Qed.

Lemma write_at_before f o d i :
  i < o -> i < length f -> write_at f o d !! i = f !! i.
Proof.
  intros Ho Hf. destruct d as [| b d]; [done |]. unfold write_at.
  rewrite lookup_app_l by (rewrite length_take, length_app, length_replicate; lia).
  rewrite lookup_take_lt by done. by rewrite lookup_app_l.
Qed.

Lemma write_at_after f o d i :
  o + length d <= i -> write_at f o d !! i = f !! i.
Proof.
  intros Hi. destruct d as [| b d]; [done |]. unfold write_at.
  assert (length (take o (f ++ replicate (o - length f) x00)) = o) as Ho
    by (rewrite length_take, length_app, length_replicate; lia).
  rewrite lookup_app_r, Ho by lia. rewrite lookup_app_r by lia.
  rewrite lookup_drop. f_equal. lia.
Qed.

(** A piece of the content [c]: what is at an offset. *)
Definition piece_of (c : list byte) (p : nat * list byte) : Prop :=
  p.2 <> [] /\ p.2 = take (length p.2) (drop p.1 c).

(** [i] is in one of the pieces. *)
Definition covers (ps : list (nat * list byte)) (i : nat) : Prop :=
  exists p, p ∈ ps /\ p.1 <= i < p.1 + length p.2.

Lemma piece_lookup c p i :
  piece_of c p -> p.1 <= i < p.1 + length p.2 -> p.2 !! (i - p.1) = c !! i /\ i < length c.
Proof.
  intros [_ Hp] Hi.
  assert (p.2 !! (i - p.1) = c !! i) as E.
  { rewrite Hp. rewrite lookup_take_lt by lia. rewrite lookup_drop. f_equal. lia. }
  split; [done |]. apply lookup_lt_is_Some_1. rewrite <- E. apply lookup_lt_is_Some_2. lia.
Qed.

(** Writing pieces of [c] in any order onto [old]: what they cover is as in [c], what is
    after [c] as in [old]. *)
Lemma write_pieces c old ps :
  Forall (piece_of c) ps ->
  let f := foldl (fun f p => write_at f p.1 p.2) old ps in
  (forall i, covers ps i -> f !! i = c !! i) /\
  (forall i, length c <= i -> f !! i = old !! i).
Proof.
  induction ps as [| p ps IH] using rev_ind; cbn.
  { intros _. split; [| done]. by intros i (p & Hp%elem_of_nil & _). }
  rewrite Forall_app, Forall_singleton. intros [Hps Hp].
  destruct (IH Hps) as [Hin Hout]. rewrite foldl_app. cbn.
  set (f := foldl _ old ps) in *. split.
  - intros i (q & [Hq | ->%list_elem_of_singleton]%elem_of_app & Hi).
    + assert (f !! i = c !! i) as E by (apply Hin; by exists q).
      destruct (decide (p.1 <= i < p.1 + length p.2)) as [Hpi | Hpi].
      { rewrite write_at_inside by done. by apply piece_lookup. }
      destruct (decide (i < p.1)); [| rewrite write_at_after by lia; done].
      rewrite write_at_before; [done | done |].
      apply lookup_lt_is_Some_1. rewrite E. apply lookup_lt_is_Some_2.
      rewrite Forall_forall in Hps. eapply piece_lookup; [by apply Hps | done].
    + rewrite write_at_inside by done. by apply piece_lookup.
  - intros i Hi. rewrite <- Hout by done.
    destruct (decide (p.1 + length p.2 <= i)); [by apply write_at_after |].
    destruct (decide (p.1 <= i)) as [Hle | Hlt].
    + destruct (piece_lookup c p i Hp) as [_ ?]; lia.
    + exfalso. destruct Hp as [Hne Hp].
      destruct (piece_lookup c p p.1) as [_ ?]; [done | destruct p.2; [done | cbn; lia] | lia].
Qed.

(** All of [c] covered: [c], then what [old] has beyond it. *)
Lemma write_all_pieces c old ps :
  Forall (piece_of c) ps -> (forall i, i < length c -> covers ps i) ->
  foldl (fun f p => write_at f p.1 p.2) old ps = c ++ drop (length c) old.
Proof.
  intros Hps Hcover. destruct (write_pieces c old ps Hps) as [Hin Hout].
  apply list_eq. intros i. destruct (decide (i < length c)) as [Hi | Hi].
  - rewrite lookup_app_l by done. by apply Hin, Hcover.
  - rewrite lookup_app_r by lia. rewrite lookup_drop, Hout by lia. f_equal. lia.
Qed.

Section datagrams.
Context `{UuidLaws} (sys : os).
Context (id : Uuid) (name : list Z) (flen : Z) (size : nat).
Context (Hname : Forall scalar name) (Hnull : Forall (fun c => c <> 0%Z) name).
Context (Hflen : fits 64 flen) (Hsize : (Z.of_nat size < 2 ^ 32)%Z).

(** The block [send] makes of the piece at offset [o]; [tail] fills it up. *)
Definition datagram (o : nat) (piece tail : list byte) : list byte :=
  serialize (DatagramHeader_new id (encode name) flen (Z.of_nat o) (Z.of_nat (length piece)))
    ++ piece ++ tail.

(** The blocks a content is sent as, from offset [o] on: non-empty pieces one after the
    other, however the reads cut them. *)
Inductive datagrams : nat -> list byte -> list (list byte) -> Prop :=
| datagrams_nil o : datagrams o [] []
| datagrams_cons o piece tail rest blocks :
    piece <> [] -> length piece + length tail = size ->
    datagrams (o + length piece) rest blocks ->
    datagrams o (piece ++ rest) (datagram o piece tail :: blocks).

(** A block carries a piece. *)
Definition carries (b : list byte) (p : nat * list byte) : Prop :=
  exists tail, b = datagram p.1 p.2 tail /\ length p.2 + length tail = size.

Lemma valid_name : valid_utf8 (encode name).
Proof using Hname. eexists. by apply from_utf8_encode. Qed.

Lemma carries_length b p : carries b p -> length b = DATAGRAM_HEADER_LEN + size.
Proof using Hname H.
  intros (tail & -> & Hlen). unfold datagram.
  rewrite !length_app, serialize_length by apply valid_name. lia.
Qed.

Lemma datagrams_pieces c o rest blocks :
  datagrams o rest blocks -> rest = drop o c -> o <= length c ->
  exists ps, Forall2 carries blocks ps /\ Forall (piece_of c) ps /\
    forall i, o <= i < length c -> covers ps i.
Proof using.
  induction 1 as [o | o piece tail rest blocks Hne Hlen _ IH]; intros E Ho.
  - exists []. split; [done |]. split; [done |]. intros i Hi.
    apply (f_equal length) in E. rewrite length_drop in E. cbn in E. lia.
  - pose proof (f_equal length E) as El. rewrite length_app, length_drop in El.
    destruct IH as (ps & Hps & Hpieces & Hcover).
    { rewrite <- drop_drop, <- E. by rewrite drop_app_length. }
    { lia. }
    exists ((o, piece) :: ps). split; [constructor; [by exists tail | done] |]. split.
    + constructor; [| done]. split; [done |]. cbn. by rewrite <- E, take_app_length.
    + intros i Hi. destruct (decide (i < o + length piece)) as [Hin | Hout].
      * exists (o, piece). split; [by left | cbn; lia].
      * destruct (Hcover i) as (p & Hp & Hpi); [lia |]. exists p. split; [by right | done].
Qed.

Context (output_path : path).
Abbreviation file_path := (join output_path (wire_name (encode name))).
Context (Hopen : open_error sys file_path = None).
Context (Hwrite : forall o d, write_error sys file_path o d = None).

Lemma process_datagram b p fs :
  carries b p -> p.2 <> [] -> (Z.of_nat p.1 < 2 ^ 63)%Z ->
  process_block sys output_path b fs =
    (Ok tt, <[file_path := write_at (default [] (fs !! file_path)) p.1 p.2]> fs).
Proof using Hname Hnull Hflen Hsize Hopen Hwrite H.
  intros Hb Hne Ho. pose proof (carries_length _ _ Hb) as Hlen.
  destruct Hb as (tail & -> & Htail). unfold process_block, datagram.
  rewrite (header_roundtrip_cases _ name) by (done || (unfold fits; cbn; lia)).
  cbn [payload_length chunk_offset file_name DatagramHeader_new].
  rewrite Nat2Z.id. rewrite slice_ok.
  2: { unfold datagram in Hlen. rewrite Hlen. lia. }
  rewrite drop_app_length', Nat.add_comm, Nat.add_sub, take_app_length
    by (by rewrite serialize_length by apply valid_name).
  unfold open_for_writing. rewrite Hopen. unfold seek_and_write.
  rewrite (proj2 (Z.leb_gt _ _)) by lia. rewrite Hwrite, Nat2Z.id. cbn [omap_err].
  destruct (fs !! file_path) as [old |] eqn:Hold; [by rewrite Hold |].
  rewrite lookup_insert_eq. by rewrite insert_insert_eq.
Qed.

Lemma process_pieces blocks ps fs :
  Forall2 carries blocks ps -> Forall (fun p => p.2 <> [] /\ (Z.of_nat p.1 < 2 ^ 63)%Z) ps ->
  process_blocks sys output_path blocks fs =
    (Ok tt, match ps with
            | [] => fs
            | _ => <[file_path :=
                foldl (fun f p => write_at f p.1 p.2) (default [] (fs !! file_path)) ps]> fs
            end).
Proof using Hname Hnull Hflen Hsize Hopen Hwrite H.
  intros Hbs. revert fs. induction Hbs as [| b p blocks ps Hb Hbs IH]; intros fs Hps; [done |].
  inversion_clear Hps as [| ? ? [Hne Ho] Hps']. cbn [process_blocks].
  rewrite (process_datagram _ _ _ Hb Hne Ho), IH by done. f_equal.
  destruct ps as [| q ps]; [done |]. by rewrite lookup_insert_eq, insert_insert_eq.
Qed.

(** The receiver puts the file back together, in whatever order the blocks come. *)
Lemma reassemble c blocks received fs :
  datagrams 0 c blocks -> received ≡ₚ blocks -> (Z.of_nat (length c) < 2 ^ 63)%Z ->
  process_blocks sys output_path received fs =
    (Ok tt, match c with
            | [] => fs
            | _ => <[file_path := c ++ drop (length c) (default [] (fs !! file_path))]> fs
            end).
Proof using Hname Hnull Hflen Hsize Hopen Hwrite H.
  intros Hdata Hperm Hc.
  destruct (datagrams_pieces c 0 c blocks Hdata) as (ps & Hps & Hpieces & Hcover); [done | lia |].
  destruct (Permutation_Forall2 (symmetry Hperm) Hps) as (ps' & Hperm' & Hps').
  rewrite Hperm' in Hpieces.
  rewrite (process_pieces received ps' fs Hps').
  - f_equal. destruct c as [| x c].
    + inversion Hdata; subst; [| by destruct piece]. apply Permutation_nil_r in Hperm as ->.
      by inversion Hps'.
    + destruct ps' as [| p ps'].
      { exfalso. apply Permutation_nil_r in Hperm' as ->.
        destruct (Hcover 0) as (q & Hq & _); [cbn; lia | by apply elem_of_nil in Hq]. }
      f_equal. apply write_all_pieces; [done |]. intros i Hi.
      destruct (Hcover i) as (q & Hq & Hqi); [lia |]. exists q. by rewrite <- Hperm'.
  - eapply Forall_impl; [exact Hpieces |]. intros p Hp. split; [apply Hp |].
    destruct Hp as [Hne Hp]. destruct (piece_lookup c p p.1) as [_ ?]; [done | | lia].
    destruct p.2; [done | cbn; lia].
Qed.
End datagrams.

(** ** Sending *)
Section sending.
Context `{UuidLaws} {R W : Type} `{Source R, Sink W}.
Context (id : Uuid) (name : list Z) (flen : Z) (size : nat).
Context (Hname : Forall scalar name) (Hsize : 0 < size) (Hmax : (Z.of_nat size < 2 ^ 32)%Z).

(** A file whose reads never fail. *)
Definition readable : Prop :=
  forall (r : R) n e r', 0 < n -> read r n <> (ReadErr e, r').

(** What one turn of the loop writes, when the writes succeed. *)
Lemma write_datagram wfuel (w : W) o piece tail :
  length piece + length tail = size -> write_fuel w (DATAGRAM_HEADER_LEN + size) <= wfuel ->
  exists res w',
    match write_all wfuel w
        (serialize (DatagramHeader_new id (encode name) flen (Z.of_nat o)
          (Z.of_nat (length piece)))) with
    | Some (Ok _, w) => write_all wfuel w (piece ++ tail)
    | r => r
    end = Some (res, w') /\ res <> Panic /\
    (res = Ok tt -> wpatience w' <= wpatience w /\
       written w' = written w ++ datagram id name flen o piece tail) /\
    (reliable W -> res = Ok tt).
Proof using Hname Hsize H.
  intros Htail Hfuel. set (header := serialize _). unfold write_fuel in *.
  assert (length header = DATAGRAM_HEADER_LEN) as Hheader.
  { apply serialize_length. eexists. by apply from_utf8_encode. }
  destruct (write_all_spec wfuel w header) as (res & w1 & Hrun & Hres & Hp & k & Hwr & Hk);
    [unfold write_fuel; lia |].
  assert (reliable W -> res = Ok tt) as Hrel.
  { intros Hrel. destruct (write_all_reliable wfuel w header Hrel) as [w' Hw];
      [unfold write_fuel; lia | congruence]. }
  rewrite Hrun. destruct res as [[] | e |]; [| by exists (Err e), w1 | done].
  specialize (Hp eq_refl). rewrite (Hk eq_refl) in Hwr.
  destruct (write_all_spec wfuel w1 (piece ++ tail))
    as (res & w2 & Hrun2 & Hres2 & Hp2 & k2 & Hwr2 & Hk2);
    [unfold write_fuel; rewrite length_app; lia |].
  exists res, w2. split; [done |]. split; [done |]. split.
  - intros Hok. split; [specialize (Hp2 Hok); lia |].
    rewrite Hwr2, (Hk2 Hok), Hwr, <- app_assoc. done.
  - intros Hrel2. destruct (write_all_reliable wfuel w1 (piece ++ tail) Hrel2) as [w' Hw];
      [unfold write_fuel; rewrite length_app; lia | congruence].
Qed.

Lemma send_loop_cases fuel wfuel (file : R) buffer o (w : W) :
  length buffer = size -> length (contents file) < fuel ->
  write_fuel w (DATAGRAM_HEADER_LEN + size) <= wfuel ->
  (Z.of_nat (o + length (contents file)) < 2 ^ 64)%Z ->
  exists res w',
    send_loop fuel wfuel id (encode name) flen file buffer (Z.of_nat o) w = Some (res, w') /\
    res <> Panic /\
    (res = Ok tt -> exists blocks, datagrams id name flen size o (contents file) blocks /\
       written w' = written w ++ concat blocks) /\
    (readable -> reliable W -> res = Ok tt).
Proof using Hname Hsize Hmax H.
  revert file buffer o w. induction fuel as [| fuel IH]; intros file buffer o w Hbuf Hfuel Hwf Ho;
    [lia |]. cbn [send_loop]. rewrite Hbuf.
  destruct (read file size) as [[[| b bs] | e] file'] eqn:Hread.
  - exists (Ok tt), w. split; [done |]. split; [done |]. split; [| done]. intros _.
    exists []. rewrite app_nil_r. apply source_none in Hread as [-> _]; [| done].
    split; [constructor | done].
  - apply source_some in Hread as (Hlen & Hc & _); [| done]. cbv beta iota.
    set (piece := b :: bs) in *. assert (0 < length piece) as Hpos by (cbn; lia).
    assert (piece <> []) as Hne by done. generalize dependent piece. intros piece Hlen Hc Hpos Hne.
    rewrite (proj2 (Nat.leb_le _ _)), (proj2 (Z.ltb_lt _ _)) by lia.
    assert (length piece + length (drop (length piece) buffer) = size) as Htail
      by (rewrite length_drop; lia).
    destruct (write_datagram wfuel w o piece (drop (length piece) buffer) Htail Hwf)
      as (res & w1 & Hrun & Hres & Hok & Hrel).
    rewrite Hc, length_app in Hfuel, Ho.
    assert (forall e, res = Err e -> exists res' w',
      Some (Err (TransferIO e), w1) = Some (res', w') /\ res' <> Panic /\
      (res' = Ok tt -> exists blocks, datagrams id name flen size o (contents file) blocks /\
         written w' = written w ++ concat blocks) /\
      (readable -> reliable W -> res' = Ok tt)) as Hfail.
    { intros e ->. eexists _, w1. split; [done |]. split; [done |]. split; [done |].
      intros _ Hr. by specialize (Hrel Hr). }
    destruct (write_all wfuel w _) as [[[[] | e |] w0] |];
      [| by simplify_eq; apply Hfail | by simplify_eq | done].
    rewrite Hrun. destruct res as [[] | e |];
      [| by apply Hfail | done].
    destruct (Hok eq_refl) as [Hp Hwr]. unfold wadd. rewrite wrap_small by (unfold fits; lia).
    rewrite <- Nat2Z.inj_add.
    destruct (IH file' (piece ++ drop (length piece) buffer) (o + length piece) w1)
      as (res & w2 & -> & Hres2 & Hok2 & Hrel2);
      [by rewrite length_app | lia | unfold write_fuel in *; lia | lia |].
    exists res, w2. split; [done |]. split; [done |]. split; [| done]. intros Hok'.
    destruct (Hok2 Hok') as (blocks & Hblocks & Hwr2).
    exists (datagram id name flen o piece (drop (length piece) buffer) :: blocks).
    rewrite Hc. split; [by constructor |]. by rewrite Hwr2, Hwr, <- app_assoc.
  - exists (Err (TransferIO e)), w. split; [done |]. split; [done |]. split; [done |].
    intros Hr. by destruct (Hr _ _ _ _ Hsize Hread).
Qed.
End sending.

(** ** The two programs *)
Section theorems.
Context `{UuidLaws}.

Lemma datagrams_lengths id name flen size o c blocks :
  Forall scalar name -> datagrams id name flen size o c blocks ->
  Forall (fun b => length b = DATAGRAM_HEADER_LEN + size) blocks.
Proof.
  intros Hname. induction 1 as [| o piece tail rest blocks Hne Hlen _ IH]; constructor; [| done].
  unfold datagram. rewrite !length_app, serialize_length by (eexists; by apply from_utf8_encode).
  lia.
Qed.

Lemma send_cases {R W} `{Source R, Sink W} fuel wfuel
    (stream : W) id name flen (file : R) block_size :
  Forall scalar name -> (292 < block_size < 2 ^ 32)%Z ->
  (Z.of_nat (length (contents file)) < 2 ^ 64)%Z ->
  length (contents file) < fuel -> write_fuel stream (Z.to_nat block_size) <= wfuel ->
  exists res stream',
    send fuel wfuel (SendEnv (Ok stream) id (Ok (encode name)) (Ok flen) (Ok file))
      block_size = Some (res, Some stream') /\
    res <> Panic /\
    (res = Ok tt -> exists blocks,
       datagrams id name flen (Z.to_nat block_size - 292) 0 (contents file) blocks /\
       Forall (fun b => length b = Z.to_nat block_size) blocks /\
       written stream' = written stream ++ concat blocks) /\
    (readable (R := R) -> reliable W -> res = Ok tt).
Proof.
  intros Hname Hbs Hlen Hfuel Hwf. unfold send. cbn [from_uri path_file_name metadata_len open_file
    new_v4].
  assert (wsub 64 block_size (Z.of_nat DATAGRAM_HEADER_LEN) = block_size - 292)%Z as ->.
  { unfold wsub. rewrite wrap_small; [done |]. unfold fits.
    change (Z.of_nat DATAGRAM_HEADER_LEN) with 292%Z. lia. }
  rewrite (proj2 (Z.ltb_ge _ _)) by (unfold isize_max; lia).
  replace (Z.to_nat (block_size - 292)) with (Z.to_nat block_size - 292) by lia.
  set (size := Z.to_nat block_size - 292).
  assert (DATAGRAM_HEADER_LEN + size = Z.to_nat block_size) as Hsum.
  { change DATAGRAM_HEADER_LEN with 292. lia. }
  destruct (send_loop_cases id name flen size Hname ltac:(lia) ltac:(lia) fuel wfuel file
    (replicate size x00) 0 stream) as (res & w' & Hrun & Hres & Hok & Hrel);
    [apply length_replicate | done | by rewrite Hsum | lia |].
  change (Z.of_nat 0) with 0%Z in Hrun. rewrite Hrun. exists res, w'.
  split; [done |]. split; [done |]. split; [| done]. intros Hr. destruct (Hok Hr) as (blocks & Hblocks & Hwr). exists blocks. split; [done |].
  split; [| done]. rewrite <- Hsum. by eapply datagrams_lengths.
Qed.

(** C30 With a block size above the header's 292 bytes [send] terminates and does not
    panic.  When it succeeds, as it does when the file and the stream do not fail,
    the stream has received the file as a sequence of blocks of exactly the block
    size: consecutive non-empty pieces, each after a header with its offset and
    length, filled up to the block size. *)
Theorem send_spec {R W} `{Source R, Sink W} fuel wfuel
    (stream : W) id name flen (file : R) block_size :
  Forall scalar name -> (292 < block_size < 2 ^ 32)%Z ->
  (Z.of_nat (length (contents file)) < 2 ^ 64)%Z ->
  length (contents file) < fuel -> write_fuel stream (Z.to_nat block_size) <= wfuel ->
  exists res stream',
    send fuel wfuel (SendEnv (Ok stream) id (Ok (encode name)) (Ok flen) (Ok file))
      block_size = Some (res, Some stream') /\
    res <> Panic /\
    (res = Ok tt -> exists blocks,
       datagrams id name flen (Z.to_nat block_size - 292) 0 (contents file) blocks /\
       Forall (fun b => length b = Z.to_nat block_size) blocks /\
       written stream' = written stream ++ concat blocks) /\
    (readable (R := R) -> reliable W -> res = Ok tt).
Proof. apply send_cases. Qed.

(** C34 The block size is not checked: below the 292 bytes of a header [send] panics,
    and at exactly 292 it reports success without having sent anything of the
    file. *)
Theorem send_small_blocks {R W} `{Source R, Writer W} fuel wfuel (env : send_env) block_size
    stream name flen (file : R) :
  from_uri (W := W) env = Ok stream -> path_file_name env = Ok name ->
  metadata_len env = Ok flen -> open_file env = Ok file ->
  (forall file', fst (read file 0) = ReadErr file' -> False) ->
  (forall bs, fst (read file 0) = ReadOk bs -> bs = []) ->
  0 < fuel -> (0 <= block_size <= 292)%Z ->
  send fuel wfuel env block_size =
    Some (if decide (block_size = 292)%Z then Ok tt else Panic, Some stream).
Proof.
  intros Hs Hn Hm Hf Hnoerr Hnil Hfuel Hbs. unfold send. rewrite Hs, Hn, Hm, Hf.
  change (Z.of_nat DATAGRAM_HEADER_LEN) with 292%Z. unfold wsub.
  case_decide as Hd.
  - subst. change (wrap 64 (292 - 292)) with 0%Z.
    change (replicate (Z.to_nat 0) x00) with (@nil byte).
    destruct fuel as [| fuel]; [lia |]. cbn.
    destruct (read file 0) as [[bs | e] file'] eqn:Hread; cbn in *.
    + by rewrite (Hnil bs eq_refl).
    + by destruct (Hnoerr e).
  - assert (wrap 64 (block_size - 292) = block_size - 292 + 2 ^ 64)%Z as ->.
    { unfold wrap. rewrite <- (Z.mod_add _ 1) by lia. rewrite Z.mod_small; lia. }
    by rewrite (proj2 (Z.ltb_lt _ _)) by (unfold isize_max; lia).
Qed.

Lemma process_stream_reassembles_cases {R} `{Source R} sys fuel rfuel output_path (stream : R)
    block_size fs id name flen c blocks received :
  Forall scalar name -> Forall (fun c => c <> 0%Z) name -> fits 64 flen ->
  (292 < block_size < 2 ^ 32)%Z -> (Z.of_nat (length c) < 2 ^ 63)%Z ->
  let path := join output_path (wire_name (encode name)) in
  open_error sys path = None -> (forall o d, write_error sys path o d = None) ->
  datagrams id name flen (Z.to_nat block_size - 292) 0 c blocks -> received ≡ₚ blocks ->
  contents stream = concat received ->
  length received < fuel -> std_read_fuel stream (Z.to_nat block_size) <= rfuel ->
  exists stream', process_stream sys fuel rfuel output_path stream block_size fs =
    Some (Err (TransferIO (ending stream)),
      match c with
      | [] => fs
      | _ => <[path := c ++ drop (length c) (default [] (fs !! path))]> fs
      end, stream').
Proof.
  intros Hname Hnull Hflen Hbs Hc path Hopen Hwrite Hdata Hperm Hstream Hfuel Hrfuel.
  pose proof (datagrams_lengths _ _ _ _ _ _ _ Hname Hdata) as Hlens.
  change DATAGRAM_HEADER_LEN with 292 in Hlens.
  replace (292 + (Z.to_nat block_size - 292)) with (Z.to_nat block_size) in Hlens by lia.
  rewrite <- Hperm in Hlens.
  assert (records (Z.to_nat block_size) (contents stream) = received) as Hrecords.
  { rewrite Hstream, <- (app_nil_r (concat received)). apply records_concat; [lia | done | cbn; lia]. }
  destruct (process_stream_cases sys fuel rfuel output_path stream block_size fs)
    as [stream' ->]; [unfold isize_max; lia | | done |].
  2: { rewrite Hrecords, (reassemble sys id name flen (Z.to_nat block_size - 292)
         Hname Hnull Hflen ltac:(lia) output_path Hopen Hwrite c blocks received fs) by done.
       by exists stream'. }
  by rewrite <- length_records, Hrecords.
Qed.

(** The receiver rebuilds the file whatever the order the blocks arrive in: after
    [process_stream] on a stream that carries a file's blocks in any order, the file
    of that name in the output directory begins with the content that was sent.  What
    a longer file of the same name had beyond it stays, no other file is touched,
    and nothing is created for an empty file. *)
Theorem process_stream_reassembles {R} `{Source R} sys fuel rfuel output_path (stream : R)
    block_size fs id name flen c blocks received :
  Forall scalar name -> Forall (fun c => c <> 0%Z) name -> fits 64 flen ->
  (292 < block_size < 2 ^ 32)%Z -> (Z.of_nat (length c) < 2 ^ 63)%Z ->
  let path := join output_path (wire_name (encode name)) in
  open_error sys path = None -> (forall o d, write_error sys path o d = None) ->
  datagrams id name flen (Z.to_nat block_size - 292) 0 c blocks -> received ≡ₚ blocks ->
  contents stream = concat received ->
  length received < fuel -> std_read_fuel stream (Z.to_nat block_size) <= rfuel ->
  exists stream', process_stream sys fuel rfuel output_path stream block_size fs =
    Some (Err (TransferIO (ending stream)),
      match c with
      | [] => fs
      | _ => <[path := c ++ drop (length c) (default [] (fs !! path))]> fs
      end, stream').
Proof. apply process_stream_reassembles_cases. Qed.

End theorems.

(** ** Witnesses *)
Module TransferDemo.
Import SixteenBytes.
#[local] Existing Instance uuid_ops.

(** "é.bin" *)
Definition demo_name : list Z := [233; 46; 98; 105; 110]%Z.

Lemma demo_name_scalar : Forall scalar demo_name.
Proof. repeat constructor; try lia; intros []; lia. Qed.

Lemma demo_name_null : Forall (fun c => c <> 0%Z) demo_name.
Proof. repeat constructor; discriminate. Qed.

(** "./a//é.bin/./" *)
Definition demo_path : list byte := encode ([46; 47; 97; 47; 47] ++ demo_name ++ [47; 46; 47])%Z.

Lemma file_name_spec_witness :
  file_name_of demo_path = Ok (encode demo_name) /\ is_name (encode demo_name) /\
  names_in demo_path (encode demo_name) /\
  file_name_of [x2e; x2e] = Err (TransferOther "invalid filename").
Proof.
  pose proof (file_name_spec demo_path) as Hspec.
  assert (file_name_of demo_path = Ok (encode demo_name)) as E by (vm_compute; reflexivity).
  rewrite E in Hspec. destruct Hspec as (_ & Hname & Hin).
  - eexists. vm_compute. reflexivity.
  - split; [exact E |]. split; [exact Hname |]. split; [exact Hin |]. reflexivity.
Defined.

Definition demo_content : list byte := replicate 8 x01 ++ replicate 4 x02.

Definition demo_env (l : list byte) : send_env (R := cursor) (W := vector) :=
  SendEnv (Ok (Vector [])) demo_uuid (Ok (encode demo_name)) (Ok 12%Z) (Ok (Cursor l)).

Lemma send_spec_witness :
  exists stream' blocks,
    send 20 400 (demo_env demo_content) 300 = Some (Ok tt, Some stream') /\
    datagrams demo_uuid demo_name 12 8 0 demo_content blocks /\ bytes stream' = concat blocks.
Proof.
  assert (292 < 300 < 2 ^ 32)%Z as Hbs by by_compute.
  assert (Z.of_nat (length (contents (Cursor demo_content))) < 2 ^ 64)%Z as Hlen by reflexivity.
  assert (length (contents (Cursor demo_content)) < 20) as Hfuel by (cbn; lia).
  assert (write_fuel (Vector []) (Z.to_nat 300) <= 400) as Hwf by (apply Nat.leb_le; reflexivity).
  destruct (send_spec 20 400 (Vector []) demo_uuid demo_name 12 (Cursor demo_content) 300
    demo_name_scalar Hbs Hlen Hfuel Hwf)
    as (res & stream' & Hrun & _ & Hok & Hrel).
  assert (res = Ok tt) as ->.
  { apply Hrel; [by intros r n e r' _ | apply vector_reliable]. }
  destruct (Hok eq_refl) as (blocks & Hblocks & _ & Hwr).
  exists stream', blocks. split; [exact Hrun |]. split; [exact Hblocks | exact Hwr].
Defined.

Lemma send_small_blocks_witness :
  send 1 0 (demo_env demo_content) 292 = Some (Ok tt, Some (Vector [])) /\
  send 1 0 (demo_env demo_content) 291 = Some (Panic, Some (Vector [])).
Proof.
  split.
  - apply (send_small_blocks 1 0 (demo_env demo_content) 292 (Vector []) (encode demo_name) 12
      (Cursor demo_content)); try reflexivity; try lia; [done | by intros bs [= <-]].
  - apply (send_small_blocks 1 0 (demo_env demo_content) 291 (Vector []) (encode demo_name) 12
      (Cursor demo_content)); try reflexivity; try lia; [done | by intros bs [= <-]].
Defined.

(** Everything is allowed. *)
Definition demo_os : os := Os (fun _ => None) (fun _ => None) (fun _ _ _ => None).

Definition demo_blocks : list (list byte) :=
  [datagram demo_uuid demo_name 12 0 (replicate 8 x01) [];
   datagram demo_uuid demo_name 12 8 (replicate 4 x02) (replicate 4 x01)].

Lemma demo_datagrams : datagrams demo_uuid demo_name 12 8 0 demo_content demo_blocks.
Proof.
  apply (datagrams_cons _ _ _ _ 0 (replicate 8 x01) [] (replicate 4 x02)); [done.. |].
  apply (datagrams_cons _ _ _ _ 8 (replicate 4 x02) (replicate 4 x01) []); [done.. |].
  constructor.
Qed.

(** "out" *)
Definition demo_dir : list byte := [x6f; x75; x74].

(** The second block arrives first, and the file was there before, longer. *)
Lemma process_stream_reassembles_witness :
  let path := join demo_dir (encode demo_name) in
  exists stream', process_stream demo_os 3 400 demo_dir (Cursor (concat (rev demo_blocks))) 300
      {[ path := replicate 14 x09 ]}
    = Some (Err (TransferIO UnexpectedEof),
        <[path := demo_content ++ [x09; x09]]> {[ path := replicate 14 x09 ]}, stream').
Proof.
  intros path.
  destruct (process_stream_reassembles demo_os 3 400 demo_dir (Cursor (concat (rev demo_blocks)))
    300 {[ path := replicate 14 x09 ]} demo_uuid demo_name 12 demo_content demo_blocks
    (rev demo_blocks)) as [stream' Hrun].
  - exact demo_name_scalar.
  - exact demo_name_null.
  - by_compute.
  - lia.
  - reflexivity.
  - reflexivity.
  - done.
  - exact demo_datagrams.
  - symmetry. apply Permutation_rev.
  - reflexivity.
  - cbn. lia.
  - apply Nat.leb_le. reflexivity.
  - exists stream'. rewrite Hrun. reflexivity.
Defined.

Lemma process_stream_spec_witness :
  exists fs' r', process_stream demo_os 10 10 demo_dir (Cursor (replicate 7 x00)) 3 ∅
    = Some (Err (TransferIO UnexpectedEof), fs', r').
Proof.
  destruct (process_stream_spec demo_os 10 10 demo_dir (Cursor (replicate 7 x00)) 3 ∅
    ltac:(by_compute) ltac:(vm_compute; lia) ltac:(vm_compute; lia))
    as (res & fs' & r' & Hrun & _ & Hres).
  exists fs', r'. rewrite Hrun. cbn in Hres. destruct Hres as [_ ->]. reflexivity.
Defined.

End TransferDemo.
