(* ===== verification/TransferHost.v ===== *)
(** * [transfer.rs]: [send] and [receive] in their surroundings

    [Transfer] has the loops of both functions on any writer and reader; here they open
    their streams from URIs and read and write through the host of [IoStream], and
    [receive] serves the streams its listener delivers one after the other. *)
From stdpp Require Import prelude list strings gmap.
From Stdlib Require Import ZArith Lia.
From S2P Require Import Prelude Io Bytes Utf8 Protocol Dispatch Path Socket IoStream Transfer.

(** What [send] asks the system for: the length in a file's metadata, the open file. *)
Record disk (F : Type) := Disk {
  metadata : path -> outcome ErrorKind Z;
  open : path -> outcome ErrorKind F
}.
Arguments Disk {F} _ _.
Arguments metadata {F} _ _.
Arguments open {F} _ _.

Section programs.
Context `{Ids : UuidOps} {H T TL S SL : Type}.
Context `{!Kernel H, !Host H, Tcp : !Sockets H T TL, Unix : !Sockets H S SL}.

(** [send]; the stream is dropped when the function returns. *)
Definition send_file {F} `{Reader F} (fuel wfuel : nat) (d : disk F) (file_id : Uuid)
    (file_path output_uri : path) (block_size : Z) (h : H)
    : option (outcome TransferError unit * H) :=
  let (opening, h) := OutputStream_from_uri (T := T) (U := S) output_uri h in
  let from_uri :=
    match opening with
    | Ok s => Ok (Opened s h)
    | Err e => Err (TransferIO e)
    | Panic => Panic
    end in
  match send fuel wfuel (SendEnv from_uri file_id (file_name_of file_path)
          (metadata d file_path) (open d file_path)) block_size with
  | Some (res, Some o) => Some (res, drop_output (stream o) (host o))
  | Some (res, None) => Some (res, h)
  | None => None
  end.

(** The loop of [receive].  A stream that cannot be accepted ends it; a stream that fails
    is only reported; a panic ends the program.  [process_stream] owns its stream, which
    is dropped when it returns. *)
Fixpoint receive_loop (fuel lfuel rfuel : nat) (sys : os) (output_path : path)
    (streams : Incoming TL SL) (block_size : Z) (fs : files) (h : H)
    : option (outcome TransferError unit * files * H) :=
  match fuel with
  | 0 => None
  | Datatypes.S fuel =>
    let '(item, streams, h) := next (T := T) (U := S) streams h in
    match item with
    | None => Some (Ok tt, fs, h)
    | Some (Err e) => Some (Err (TransferIO e), fs, h)
    | Some Panic => Some (Panic, fs, h)
    | Some (Ok s) =>
      match process_stream sys lfuel rfuel output_path (Opened s h) block_size fs with
      | None => None
      | Some (res, fs, o) =>
        let h := drop_input (stream o) (host o) in
        match res with
        | Panic => Some (Panic, fs, h)
        | _ => receive_loop fuel lfuel rfuel sys output_path streams block_size fs h
        end
      end
    end
  end.

Definition receive (fuel lfuel rfuel : nat) (sys : os) (output_path input_uri : path)
    (block_size : Z) (fs : files) (h : H) : option (outcome TransferError unit * files * H) :=
  match create_dir_error sys output_path with
  | Some e => Some (Err (TransferIO e), fs, h)
  | None =>
    match Listener_from_uri input_uri h with
    | (Err e, h) => Some (Err (TransferIO e), fs, h)
    | (Panic, h) => Some (Panic, fs, h)
    | (Ok listener, h) =>
      receive_loop fuel lfuel rfuel sys output_path (incoming listener) block_size fs h
    end
  end.

(** ** Receiving *)

(** Only the listener on standard input comes to an end. *)
Lemma receive_loop_ok fuel lfuel rfuel sys output_path l block_size fs h fs' h' :
  receive_loop fuel lfuel rfuel sys output_path (incoming l) block_size fs h =
    Some (Ok tt, fs', h') -> exists c, l = ListenStdin c.
Proof.
  revert l fs h. induction fuel as [| fuel IH]; intros l fs h Hrun; cbn in Hrun; [done |].
  destruct l as [c | l | l | name]; [by exists c | exfalso..];
    match type of Hrun with context [next ?streams h] =>
      destruct (next_listener (T := T) (U := S) (listener streams) h) as (i & h1 & Hn);
        [done | cbn [incoming listener] in Hn; unfold incoming in Hrun; rewrite Hn in Hrun] end;
    destruct i as [s | e |]; try done;
    destruct (process_stream _ _ _ _ _ _ _) as [[[[[] | e |] fs1] o] |]; try done;
    apply IH in Hrun as [c Hc]; done.
Qed.

Context `{Src : !Source (opened (InputStream T S) H)}.

(** A stream the listener delivers. *)
Lemma receive_loop_stream fuel lfuel rfuel sys output_path streams streams' block_size fs s h h1 :
  next streams h = (Some (Ok s), streams', h1) ->
  (0 < block_size <= isize_max)%Z ->
  let r := Opened s h1 in
  let n := Z.to_nat block_size in
  length (contents r) / n < lfuel -> std_read_fuel r n <= rfuel ->
  exists h2,
  receive_loop (Datatypes.S fuel) lfuel rfuel sys output_path streams block_size fs h =
    match process_blocks sys output_path (records n (contents r)) fs with
    | (Panic, fs) => Some (Panic, fs, h2)
    | (_, fs) => receive_loop fuel lfuel rfuel sys output_path streams' block_size fs h2
    end.
Proof.
  intros Hn Hbs r n Hl Hr. cbn [receive_loop]. rewrite Hn. fold r.
  destruct (process_stream_cases sys lfuel rfuel output_path r block_size fs) as [r' ->];
    [done.. |].
  exists (drop_input (stream r') (host r')). fold n.
  by destruct (process_blocks _ _ _ fs) as [[[] | e |] fs1].
Qed.

(** [receive] on standard input. *)
Lemma receive_stdin fuel lfuel rfuel sys output_path block_size fs h :
  create_dir_error sys output_path = None -> (0 < block_size <= isize_max)%Z ->
  let r := Opened InStdin h in
  let n := Z.to_nat block_size in
  length (contents r) / n < lfuel -> std_read_fuel r n <= rfuel ->
  exists h', receive (2 + fuel) lfuel rfuel sys output_path STDIN block_size fs h =
    Some (match process_blocks sys output_path (records n (contents r)) fs with
          | (Panic, fs) => (Panic, fs)
          | (_, fs) => (Ok tt, fs)
          end, h').
Proof.
  intros Hdir Hbs r n Hl Hr. unfold receive. rewrite Hdir.
  unfold Listener_from_uri. rewrite decide_True by done.
  destruct (receive_loop_stream (1 + fuel) lfuel rfuel sys output_path
    (incoming (ListenStdin false)) (MkIncoming (ListenStdin true)) block_size fs InStdin h h)
    as [h2 Hrun]; [done.. |].
  cbn [Nat.add] in *. rewrite Hrun. exists h2. fold r n.
  by destruct (process_blocks _ _ _ fs) as [[[] | e |] fs1].
Qed.

(** C31 [receive] creates the output directory before it opens anything.  On standard
    input it always terminates: it handles the complete blocks, in order, up to the
    first that fails, and returns [Ok] whether one failed or not, unless handling a
    block panics.  Whatever the streams do, only on standard input does it ever
    return [Ok]. *)
Theorem receive_spec fuel lfuel rfuel sys output_path uri block_size fs h :
  (forall e, create_dir_error sys output_path = Some e ->
     receive fuel lfuel rfuel sys output_path uri block_size fs h
       = Some (Err (TransferIO e), fs, h)) /\
  (create_dir_error sys output_path = None -> (0 < block_size <= isize_max)%Z ->
   let r := Opened InStdin h in
   let n := Z.to_nat block_size in
   length (contents r) / n < lfuel -> std_read_fuel r n <= rfuel ->
   exists h', receive (2 + fuel) lfuel rfuel sys output_path STDIN block_size fs h =
     Some (match process_blocks sys output_path (records n (contents r)) fs with
           | (Panic, fs) => (Panic, fs)
           | (_, fs) => (Ok tt, fs)
           end, h')) /\
  (forall fs' h', receive fuel lfuel rfuel sys output_path uri block_size fs h
     = Some (Ok tt, fs', h') -> uri = STDIN).
Proof.
  split_and!.
  - unfold receive. by intros e ->.
  - apply receive_stdin.
  - intros fs' h' Hrun. unfold receive in Hrun. destruct (create_dir_error sys output_path); [done |].
    destruct (Listener_from_uri uri h) as [[l | e |] h1] eqn:Hl; [| done..].
    apply receive_loop_ok in Hrun as [c ->].
    eapply (listen_stdin (H := H) (TL := TL) (UL := SL) uri h c). by rewrite Hl.
Qed.

(** What a stream of one whole block does. *)
Lemma receive_loop_block fuel lfuel rfuel sys output_path streams streams' block_size fs s h h1 b :
  next streams h = (Some (Ok s), streams', h1) ->
  (0 < block_size <= isize_max)%Z -> length b = Z.to_nat block_size ->
  contents (Opened s h1) = b ->
  1 < lfuel -> std_read_fuel (Opened s h1) (Z.to_nat block_size) <= rfuel ->
  exists h2,
  receive_loop (Datatypes.S fuel) lfuel rfuel sys output_path streams block_size fs h =
    match process_block sys output_path b fs with
    | (Panic, fs) => Some (Panic, fs, h2)
    | (_, fs) => receive_loop fuel lfuel rfuel sys output_path streams' block_size fs h2
    end.
Proof.
  intros Hn Hbs Hb Hs Hl Hr.
  assert (records (Z.to_nat block_size) b = [b]) as Hrecords.
  { replace b with (concat [b] ++ []) at 1 by (cbn; by rewrite !app_nil_r).
    apply records_concat; [lia | by constructor | cbn; lia]. }
  destruct (receive_loop_stream fuel lfuel rfuel sys output_path streams streams' block_size fs
    s h h1) as [h2 Hrun]; [done.. | | done |].
  { rewrite Hs, Hb, Nat.div_same by lia. done. }
  exists h2. rewrite Hrun, Hs, Hrecords. cbn [process_blocks].
  by destruct (process_block _ _ b fs) as [[[] | e |] fs1].
Qed.

(** What [process_block] does with a block whose payload it holds. *)
Lemma process_block_writes sys output_path b header fs :
  let target := join output_path (file_name header) in
  deserialize b = Ok header -> 292 + Z.to_nat (payload_length header) <= length b ->
  (chunk_offset header < 2 ^ 63)%Z ->
  open_error sys target = None -> (forall o p, write_error sys target o p = None) ->
  process_block sys output_path b fs =
    (Ok tt, <[target := write_at (default [] (fs !! target)) (Z.to_nat (chunk_offset header))
      (take (Z.to_nat (payload_length header)) (drop 292 b))]> fs).
Proof.
  intros target Hh Hlen Hoff Hopen Hwrite. unfold process_block. rewrite Hh. unfold slice.
  change DATAGRAM_HEADER_LEN with 292.
  rewrite (proj2 (Nat.leb_le 292 _)), (proj2 (Nat.leb_le _ (length b))) by lia. cbn [andb].
  rewrite (Nat.add_comm 292), Nat.add_sub. unfold open_for_writing, seek_and_write. fold target.
  rewrite Hopen, Hwrite, (proj2 (Z.leb_gt _ _)) by done.
  destruct (fs !! target) as [content |] eqn:Hfile; cbn; [by rewrite Hfile |].
  by rewrite lookup_insert_eq, insert_insert_eq.
Qed.

(** C32 The fields of a header are believed.  A payload longer than the block makes the
    receiver panic, which ends [receive] whatever other streams follow.  Any other
    payload is written to the path the name gives when joined to the output directory,
    whatever the name is: to the name itself when it is absolute; and when it begins
    with [..], to what the rest of the name names above the output directory. *)
Theorem unchecked_header fuel lfuel rfuel sys output_path streams streams' block_size fs s h h1
    header b :
  next streams h = (Some (Ok s), streams', h1) ->
  (0 < block_size <= isize_max)%Z -> length b = Z.to_nat block_size ->
  deserialize b = Ok header -> contents (Opened s h1) = b ->
  1 < lfuel -> std_read_fuel (Opened s h1) (Z.to_nat block_size) <= rfuel ->
  let target := join output_path (file_name header) in
  ((block_size < 292 + payload_length header)%Z ->
   exists h', receive_loop (Datatypes.S fuel) lfuel rfuel sys output_path streams block_size fs h
     = Some (Panic, fs, h')) /\
  ((292 + payload_length header <= block_size)%Z -> (0 <= payload_length header)%Z ->
   (chunk_offset header < 2 ^ 63)%Z ->
   open_error sys target = None -> (forall o p, write_error sys target o p = None) ->
   exists h', receive_loop (Datatypes.S fuel) lfuel rfuel sys output_path streams block_size fs h
     = receive_loop fuel lfuel rfuel sys output_path streams' block_size
         (<[target := write_at (default [] (fs !! target)) (Z.to_nat (chunk_offset header))
            (take (Z.to_nat (payload_length header)) (drop 292 b))]> fs) h') /\
  (forall rest, file_name header = slash :: rest -> target = file_name header) /\
  (forall rest, file_name header = DOT_DOT ++ slash :: rest -> output_path <> [] ->
     resolve target = foldl enter (removelast (resolve output_path)) (split_slash rest)).
Proof.
  intros Hn Hbs Hb Hh Hs Hl Hr target.
  destruct (receive_loop_block fuel lfuel rfuel sys output_path streams streams' block_size fs
    s h h1 b) as [h2 Hrun]; [done.. |].
  split_and!.
  - intros Hlong. exists h2. rewrite Hrun. unfold process_block. rewrite Hh.
    unfold slice. change DATAGRAM_HEADER_LEN with 292.
    by rewrite (proj2 (Nat.leb_gt (292 + _) (length b))), andb_false_r by lia.
  - intros Hfit Hpos Hoff Hopen Hwrite. exists h2. rewrite Hrun.
    by rewrite (process_block_writes _ _ _ header) by (done || lia).
  - unfold target. by intros rest ->.
  - unfold target. intros rest -> Hout. by apply resolve_join_up.
Qed.
End programs.

Module ReceiveDemo.
Import SixteenBytes TransferDemo.
#[local] Existing Instance uuid_ops.

(** The blocks of the file of [TransferDemo] on standard input, in reverse. *)
Definition demo_host : pipes := Pipes (concat (rev demo_blocks)) [].

Lemma receive_spec_witness :
  exists h', receive 2 3 400 demo_os demo_dir STDIN 300 ∅ demo_host
    = Some (Ok tt, {[ join demo_dir (encode demo_name) := demo_content ]}, h').
Proof.
  destruct (receive_spec 0 3 400 demo_os demo_dir STDIN 300 ∅ demo_host) as (_ & Hrun & _).
  destruct Hrun as [h' Hrun].
  - reflexivity.
  - by_compute.
  - apply Nat.ltb_lt. reflexivity.
  - apply Nat.leb_le. reflexivity.
  - exists h'. etransitivity; [exact Hrun | reflexivity].
Defined.

(** A block that claims to carry nine bytes where eight fit. *)
Definition long_header : DatagramHeader :=
  MkDatagramHeader demo_uuid 12 0 9 (encode demo_name).

Definition long_block : list byte := serialize long_header ++ replicate 8 x01.

(** The name "../x", and a payload of eight bytes. *)
Definition up_header : DatagramHeader :=
  MkDatagramHeader demo_uuid 12 0 8 [x2e; x2e; x2f; x78].

Definition up_block : list byte := serialize up_header ++ replicate 8 x01.

(** In the directory "/a/b" it is written to "/a/b/../x", which is "/a/x". *)
Lemma unchecked_header_witness :
  (exists h', receive_loop 2 3 400 demo_os demo_dir (incoming (ListenStdin false)) 300 ∅
    (Pipes long_block []) = Some (Panic, ∅, h')) /\
  let dir := PathDemo.bytes_of "/a/b" in
  let target := PathDemo.bytes_of "/a/b/../x" in
  (exists h', receive_loop 2 3 400 demo_os dir (incoming (ListenStdin false)) 300 ∅
    (Pipes up_block []) = Some (Ok tt, {[ target := replicate 8 x01 ]}, h')) /\
  resolve target = [[x61]; [x78]].
Proof.
  split; [| split].
  - refine (proj1 (unchecked_header 1 3 400 demo_os demo_dir (incoming (ListenStdin false))
      (MkIncoming (ListenStdin true)) 300 ∅ InStdin (Pipes long_block []) (Pipes long_block [])
      long_header long_block eq_refl _ _ _ _ _ _) _).
    + by_compute.
    + reflexivity.
    + reflexivity.
    + reflexivity.
    + lia.
    + apply Nat.leb_le. reflexivity.
    + cbn. lia.
  - destruct (unchecked_header 1 3 400 demo_os (PathDemo.bytes_of "/a/b")
      (incoming (ListenStdin false)) (MkIncoming (ListenStdin true)) 300 ∅ InStdin
      (Pipes up_block []) (Pipes up_block []) up_header up_block eq_refl) as (_ & Hwrites & _).
    + by_compute.
    + reflexivity.
    + reflexivity.
    + reflexivity.
    + lia.
    + apply Nat.leb_le. reflexivity.
    + destruct Hwrites as [h' Hrun]; [by_compute.. | reflexivity | reflexivity |].
      exists h'. etransitivity; [exact Hrun | reflexivity].
  - reflexivity.
Defined.
End ReceiveDemo.
