(* ===== verification/Cli.v ===== *)
(** * [main.rs]: the four commands

    [main] runs the command the arguments name: [send_file] and [receive] of
    [TransferHost], or [run_encoder] and [run_decoder]: the arguments, the opening of the streams, and the
    [for] loop over the incoming streams, each served by an encoder or decoder of its
    own.  What the threads of a session do to the host until they are joined, and
    which of them panic, is the parameter [work]; the threads themselves are those of
    [Encoder] and [Decoder], spawned and joined in the store of [Threads]. *)
From stdpp Require Import prelude list strings gmap.
From Stdlib Require Import ZArith Lia.
From S2P Require Import Prelude Io RaptorQ BlockEncoder BlockDecoder Threads Encoder Decoder.
From S2P Require Import Protocol Path Socket IoStream Transfer TransferHost.

(** The command line arguments with their defaults. *)
Record CodecArgs := MkCodecArgs {
  input : list byte;
  output : list byte;
  block_size : Z;
  max_packet_size : Z;
  workers : nat
}.

Record EncoderArgs := MkEncoderArgs { codec_args : CodecArgs; redundancy : Z }.

Definition codec_defaults (input output : list byte) : CodecArgs :=
  MkCodecArgs input output 287232 1500 1.

Definition encoder_defaults (input output : list byte) : EncoderArgs :=
  MkEncoderArgs (codec_defaults input output) 30.

Record SendArgs := MkSendArgs {
  file_path : list byte;
  send_address : list byte;
  send_block_size : Z
}.

Record ReceiveArgs := MkReceiveArgs {
  directory : list byte;
  receive_address : list byte;
  receive_block_size : Z
}.

Definition send_defaults (file_path address : list byte) : SendArgs :=
  MkSendArgs file_path address 287232.

Definition receive_defaults (directory address : list byte) : ReceiveArgs :=
  MkReceiveArgs directory address 287232.

Inductive Commands :=
| CmdEncoder (args : EncoderArgs)
| CmdDecoder (args : CodecArgs)
| CmdSend (args : SendArgs)
| CmdReceive (args : ReceiveArgs).

Record Cli := MkCli { command : Commands }.

Section errors.
Context `{C : RaptorQ}.

(** What [Box<dyn Error>] boxes. *)
Inductive BoxError :=
| BoxIO (e : ErrorKind)
| BoxCompute (e : ComputeError)
| BoxEncoder (e : EncoderError)
| BoxDecoder (e : DecoderError)
| BoxTransfer (e : TransferError).
End errors.

(** ** The [for] loop over the incoming streams

    [session] serves one of them: on success it gives the threads it joined, in
    order.  The loop ends with the iterator, or at the first session that fails. *)
Section serve.
Context {H T TL U UL Task E : Type}.
Context `{!Kernel H, !Host H, Tcp : !Sockets H T TL, Unix : !Sockets H U UL}.

Abbreviation state := (threads Task * H)%type.
Abbreviation accepted := (outcome ErrorKind (InputStream T U)).

Fixpoint serve (fuel : nat) (session : accepted -> state -> outcome E (list handle) * state)
    (streams : Incoming TL UL) (st : state)
    : option (outcome E unit * list (list handle) * state) :=
  match fuel with
  | 0 => None
  | S fuel =>
    let '(item, streams, h) := next streams st.2 in
    match item with
    | None => Some (Ok tt, [], (st.1, h))
    | Some input_stream =>
      match session input_stream (st.1, h) with
      | (Ok joined, st) =>
        match serve fuel session streams st with
        | Some (res, log, st) => Some (res, joined :: log, st)
        | None => None
        end
      | (Err e, st) => Some (Err e, [], st)
      | (Panic, st) => Some (Panic, [], st)
      end
    end
  end.

(** The threads of a session whose first thread is [first]: the dispatcher, spawned
    last, the [n] workers, and the forwarder, spawned first. *)
Definition session_handles (n first : nat) : list handle :=
  first + S n :: seq (S first) n ++ [first].

Lemma session_handles_Permutation n first : session_handles n first ≡ₚ seq first (S (S n)).
Proof.
  unfold session_handles. change (seq first (S (S n))) with (first :: seq (S first) (S n)).
  rewrite seq_S, <- Nat.add_succ_comm.
  rewrite <- !Permutation_cons_append. constructor.
Qed.

Context (n : nat) (tasks_ok : list Task -> Prop).
Context (session : accepted -> state -> outcome E (list handle) * state).

(** What a session does to the threads. *)
Definition serves : Prop := forall i w h,
  let '(res, (w', h')) := session i (w, h) in
  exists tasks, spawned w' = spawned w ++ tasks /\
  match res with
  | Ok js => js = session_handles n (length (spawned w)) /\
      length tasks = S (S n) /\ tasks_ok tasks
  | _ => True
  end.

(** The finished sessions: their threads come one group after the other, each joined
    before the next is spawned. *)
Lemma serve_sessions fuel streams w h res log w' h' :
  serves -> serve fuel session streams (w, h) = Some (res, log, (w', h')) ->
  (forall i js, log !! i = Some js ->
     js = session_handles n (length (spawned w) + i * S (S n))) /\
  exists groups rest, spawned w' = spawned w ++ concat groups ++ rest /\
    length groups = length log /\
    Forall (fun g => length g = S (S n) /\ tasks_ok g) groups /\
    (res = Ok tt -> rest = []).
Proof.
  intros Hserves. revert streams w h log.
  induction fuel as [| fuel IH]; intros streams w h log Hrun; cbn in Hrun; [done |].
  destruct (next streams h) as [[item streams1] h1].
  destruct item as [i |]; simplify_eq.
  - specialize (Hserves i w h1).
    destruct (session i (w, h1)) as [[js | e |] [w1 h2]];
      destruct Hserves as (tasks & Hsp & Hok).
    + destruct (serve fuel session streams1 (w1, h2)) as [[[res1 log1] [w2 h3]] |] eqn:Hs;
        simplify_eq.
      destruct Hok as (-> & Hlen & Htasks).
      destruct (IH _ _ _ _ Hs) as (Hlog & groups & rest & Hsp' & Hg & Hgs & Hrest).
      split.
      * intros [| j] js Hj; simplify_eq/=; [f_equal; lia |].
        rewrite (Hlog j js Hj), Hsp, length_app, Hlen. f_equal. lia.
      * exists (tasks :: groups), rest. cbn. rewrite Hsp', Hsp, <- !app_assoc.
        split_and!; [done | lia | by constructor | done].
    + simplify_eq. split; [done |]. by exists [], tasks.
    + simplify_eq. split; [done |]. by exists [], tasks.
  - split; [done |]. exists [], []. cbn. by rewrite app_nil_r.
Qed.

(** The loop ends well only on standard input, after one session. *)
Lemma serve_ok fuel l w h log st :
  serve fuel session (incoming l) (w, h) = Some (Ok tt, log, st) ->
  exists c, l = ListenStdin c /\ length log = if c then 0 else 1.
Proof.
  revert l w h log st. induction fuel as [| fuel IH]; intros l w h log st Hrun; cbn in Hrun; [done |].
  assert ((forall c, l <> ListenStdin c) \/ exists c, l = ListenStdin c) as [Hl | [[] ->]]
    by (destruct l; eauto; by left).
  - destruct (next_listener (T := T) (U := U) l h Hl) as (i & h1 & Hn).
    unfold incoming in Hrun. rewrite Hn in Hrun. cbn in Hrun.
    destruct (session _ _) as [[js | e |] [w1 h2]]; [| done..].
    destruct (serve fuel session _ (w1, h2)) as [[[res1 log1] st2] |] eqn:Hs; simplify_eq.
    apply IH in Hs as (c & -> & _). by destruct (Hl c).
  - exists true. cbn in Hrun. by simplify_eq.
  - exists false. split; [done |]. cbn in Hrun.
    destruct (session _ _) as [[js | e |] [w1 h2]]; [| done..].
    destruct (serve fuel session _ (w1, h2)) as [[[res1 log1] st2] |] eqn:Hs; simplify_eq.
    apply (IH (ListenStdin true)) in Hs as (c & [= <-] & Hlog). cbn. by rewrite Hlog.
Qed.

(** On standard input two rounds are enough. *)
Lemma serve_stdin fuel st :
  exists r, serve (S (S fuel)) session (incoming (ListenStdin false)) st = Some r.
Proof.
  cbn. destruct (session _ _) as [[js | e |] [w1 h2]]; cbn; eauto.
Qed.
End serve.

(** ** The two programs *)
Section programs.
Context `{C : RaptorQ} {H T TL U UL : Type}.
Context `{!Kernel H, !Host H, Tcp : !Sockets H T TL, Unix : !Sockets H U UL}.

(** What [get_random_u8] returns, and what the threads of a session do. *)
Context (entropy : H -> outcome ErrorKind Z).
Context (encoder_work : list encoder_task -> InputStream T U -> OutputStream T U -> H ->
                        (handle -> bool) * H).
Context (decoder_work : list decoder_task -> InputStream T U -> OutputStream T U -> H ->
                        (handle -> bool) * H).

(** The body of the loop of [run_encoder].  The accepted stream is closed when the clone
    of the output or the start fails; the threads of a session own both streams, and
    closing them is part of what [encoder_work] does. *)
Definition encoder_session (args : EncoderArgs) (repair_packets_per_block : Z)
    (output_stream : OutputStream T U) (input_stream : outcome ErrorKind (InputStream T U))
    (st : threads encoder_task * H)
    : outcome BoxError (list handle) * (threads encoder_task * H) :=
  let (w, h) := st in
  let (encoder, w) :=
    Encoder_new (block_size (codec_args args)) (max_packet_size (codec_args args))
      repair_packets_per_block (workers (codec_args args)) w in
  match input_stream with
  | Err e => (Err (BoxIO e), (w, h))
  | Panic => (Panic, (w, h))
  | Ok input_stream =>
    match try_clone (TL := TL) (UL := UL) output_stream h with
    | (Err e, h) => (Err (BoxIO e), (w, drop_input input_stream h))
    | (Panic, h) => (Panic, (w, drop_input input_stream h))
    | (Ok output_stream, h) =>
      let before := length (spawned w) in
      match start_encoding (entropy h) encoder w with
      | (Err e, _, w) => (Err (BoxEncoder e), (w, drop_input input_stream h))
      | (Panic, _, w) => (Panic, (w, drop_input input_stream h))
      | (Ok _, encoder, w) =>
        let (panicked, h) :=
          encoder_work (drop before (spawned w)) input_stream output_stream h in
        match Encoder.wait panicked encoder with
        | (Ok _, _, joined) => (Ok joined, (w, h))
        | (Err e, _, _) => (Err (BoxEncoder e), (w, h))
        | (Panic, _, _) => (Panic, (w, h))
        end
      end
    end
  end.

(** The output stream goes out of scope when the program returns. *)
Definition closing {X Y} (output_stream : OutputStream T U) (r : option (X * (Y * H)))
    : option (X * (Y * H)) :=
  match r with
  | Some (x, (y, h)) => Some (x, (y, drop_output output_stream h))
  | None => None
  end.

Definition run_encoder (fuel : nat) (args : EncoderArgs) (h : H)
    : option (outcome BoxError unit * list (list handle) * (threads encoder_task * H)) :=
  let w := Threads [] [] in
  match compute_repair_packets_per_block (block_size (codec_args args))
          (max_packet_size (codec_args args)) (redundancy args) with
  | Err e => Some (Err (BoxCompute e), [], (w, h))
  | Panic => Some (Panic, [], (w, h))
  | Ok repair_packets_per_block =>
    match Listener_from_uri (TL := TL) (UL := UL) (input (codec_args args)) h with
    | (Err e, h) => Some (Err (BoxIO e), [], (w, h))
    | (Panic, h) => Some (Panic, [], (w, h))
    | (Ok listener, h) =>
      match OutputStream_from_uri (output (codec_args args)) h with
      | (Err e, h) => Some (Err (BoxIO e), [], (w, h))
      | (Panic, h) => Some (Panic, [], (w, h))
      | (Ok output_stream, h) =>
        closing output_stream
          (serve fuel (encoder_session args repair_packets_per_block output_stream)
            (incoming listener) (w, h))
      end
    end
  end.

(** The body of the loop of [run_decoder]. *)
Definition decoder_session (args : CodecArgs)
    (output_stream : OutputStream T U) (input_stream : outcome ErrorKind (InputStream T U))
    (st : threads decoder_task * H)
    : outcome BoxError (list handle) * (threads decoder_task * H) :=
  let (w, h) := st in
  let (decoder, w) :=
    Decoder_new (block_size args) (workers args) (max_packet_size args) w in
  match input_stream with
  | Err e => (Err (BoxIO e), (w, h))
  | Panic => (Panic, (w, h))
  | Ok input_stream =>
    match try_clone (TL := TL) (UL := UL) output_stream h with
    | (Err e, h) => (Err (BoxIO e), (w, drop_input input_stream h))
    | (Panic, h) => (Panic, (w, drop_input input_stream h))
    | (Ok output_stream, h) =>
      let before := length (spawned w) in
      match start_decoding decoder w with
      | (Err e, _, w) => (Err (BoxDecoder e), (w, drop_input input_stream h))
      | (Panic, _, w) => (Panic, (w, drop_input input_stream h))
      | (Ok _, decoder, w) =>
        let (panicked, h) :=
          decoder_work (drop before (spawned w)) input_stream output_stream h in
        match Decoder.wait panicked decoder with
        | (Ok _, _, joined) => (Ok joined, (w, h))
        | (Err e, _, _) => (Err (BoxDecoder e), (w, h))
        | (Panic, _, _) => (Panic, (w, h))
        end
      end
    end
  end.

Definition run_decoder (fuel : nat) (args : CodecArgs) (h : H)
    : option (outcome BoxError unit * list (list handle) * (threads decoder_task * H)) :=
  let w := Threads [] [] in
  match Listener_from_uri (TL := TL) (UL := UL) (input args) h with
  | (Err e, h) => Some (Err (BoxIO e), [], (w, h))
  | (Panic, h) => Some (Panic, [], (w, h))
  | (Ok listener, h) =>
    match OutputStream_from_uri (output args) h with
    | (Err e, h) => Some (Err (BoxIO e), [], (w, h))
    | (Panic, h) => Some (Panic, [], (w, h))
    | (Ok output_stream, h) =>
      closing output_stream
        (serve fuel (decoder_session args output_stream) (incoming listener) (w, h))
    end
  end.

(** ** The program

    [d] and [sys] are the file system as [send] and [receive] see it, [new_v4] is the
    random identifier; one [fuel] bounds every loop. *)
Definition main `{Ids : UuidOps} {F} `{Reader F} (d : disk F) (sys : os) (new_v4 : H -> Uuid)
    (fuel : nat) (cli : Cli) (h : H) (fs : files)
    : option (outcome BoxError unit * (H * files)) :=
  match command cli with
  | CmdEncoder args =>
    match run_encoder fuel args h with
    | Some (res, _, (_, h)) => Some (res, (h, fs))
    | None => None
    end
  | CmdDecoder args =>
    match run_decoder fuel args h with
    | Some (res, _, (_, h)) => Some (res, (h, fs))
    | None => None
    end
  | CmdSend args =>
    match send_file (TL := TL) (SL := UL) fuel fuel d (new_v4 h) (file_path args)
            (send_address args) (send_block_size args) h with
    | Some (res, h) => Some (omap_err BoxTransfer res, (h, fs))
    | None => None
    end
  | CmdReceive args =>
    match receive (TL := TL) (SL := UL) fuel fuel fuel sys (directory args)
            (receive_address args) (receive_block_size args) fs h with
    | Some (res, fs, h) => Some (omap_err BoxTransfer res, (h, fs))
    | None => None
    end
  end.

(** ** What a session spawns *)
Definition encoder_tasks (args : EncoderArgs) (ts : list encoder_task) : Prop :=
  exists repair es d,
    compute_repair_packets_per_block (block_size (codec_args args))
      (max_packet_size (codec_args args)) (redundancy args) = Ok repair /\
    ts = PacketForwarderTask :: es ++ [BlockDispatcherTask d] /\
    length es = workers (codec_args args) /\
    disp_block_size d = block_size (codec_args args) /\
    forall t, t ∈ es -> exists e, t = BlockEncoderTask e /\
      BlockEncoder_new (block_size (codec_args args)) (max_packet_size (codec_args args))
        repair = Ok e.

Definition decoder_tasks (args : CodecArgs) (ts : list decoder_task) : Prop :=
  exists ds d, ts = BlockForwarderTask :: ds ++ [PacketDispatcherTask d] /\
    length ds = workers args /\
    infer_packet_size (block_size args) (max_packet_size args) = Ok (disp_packet_size d) /\
    forall t, t ∈ ds -> exists d, t = BlockDecoderTask d /\
      BlockDecoder_new (block_size args) (max_packet_size args) = Ok d.

Lemma start_block_encoders_spawned n self (w : threads encoder_task) :
  exists ts, spawned (start_block_encoders n self w).2 = spawned w ++ ts.
Proof.
  revert self w. induction n as [| n IH]; intros self w; cbn; [exists []; by rewrite app_nil_r |].
  destruct (BlockEncoder_new _ _ _) as [e | e |]; cbn; [| exists []; by rewrite app_nil_r..].
  edestruct IH as [ts ->]. cbn. rewrite <- app_assoc. eauto.
Qed.

Lemma start_encoding_spawned random self (w : threads encoder_task) :
  exists ts, spawned (start_encoding random self w).2 = spawned w ++ ts.
Proof.
  unfold start_encoding. cbn [spawn].
  destruct (start_block_encoders _ _ _) as [[[[] | e |] self1] w1] eqn:Hs;
    match type of Hs with start_block_encoders ?n ?s ?w = _ =>
      destruct (start_block_encoders_spawned n s w) as [ts Hts] end;
    rewrite Hs in Hts; cbn in Hts |- *; rewrite <- app_assoc in Hts; [| eauto..].
  destruct random as [id | e |]; cbn; rewrite Hts, <- ?app_assoc; eauto.
Qed.

Lemma start_block_decoders_spawned n self (w : threads decoder_task) :
  exists ts, spawned (start_block_decoders n self w).2 = spawned w ++ ts.
Proof.
  revert self w. induction n as [| n IH]; intros self w; cbn; [exists []; by rewrite app_nil_r |].
  destruct (BlockDecoder_new _ _) as [e | e |]; cbn; [| exists []; by rewrite app_nil_r..].
  edestruct IH as [ts ->]. cbn. rewrite <- app_assoc. eauto.
Qed.

Lemma start_decoding_spawned self (w : threads decoder_task) :
  exists ts, spawned (start_decoding self w).2 = spawned w ++ ts.
Proof.
  unfold start_decoding. cbn [spawn].
  destruct (start_block_decoders _ _ _) as [[[[] | e |] self1] w1] eqn:Hs;
    match type of Hs with start_block_decoders ?n ?s ?w = _ =>
      destruct (start_block_decoders_spawned n s w) as [ts Hts] end;
    rewrite Hs in Hts; cbn in Hts |- *; rewrite <- app_assoc in Hts; [| eauto..].
  destruct (infer_packet_size _ _) as [size | e |]; cbn; rewrite Hts, <- ?app_assoc; eauto.
Qed.

Lemma encoder_session_serves args repair out :
  compute_repair_packets_per_block (block_size (codec_args args))
    (max_packet_size (codec_args args)) (redundancy args) = Ok repair ->
  serves (workers (codec_args args)) (encoder_tasks args) (encoder_session args repair out).
Proof.
  intros Hrepair i w h. unfold encoder_session, Encoder_new. cbn [new_flag].
  set (self := MkEncoder _ _ _ _ _ _ _ _). set (w1 := Threads (spawned w) _).
  assert (exists ts, spawned w1 = spawned w ++ ts /\ True) as Hnone
    by (exists []; by rewrite app_nil_r).
  destruct i as [i | e |]; [| done..].
  destruct (try_clone out h) as [[out1 | e |] h1]; [| done..].
  pose proof (start_encoding_cases (entropy h1) self w1) as Hcases.
  destruct (start_encoding_spawned (entropy h1) self w1) as [ts Hts].
  destruct (start_encoding (entropy h1) self w1) as [[[[] | e |] self'] w'];
    cbn in Hts; [| by exists ts..].
  destruct Hcases as (es & d & [Hsp Hes _ _ Hsize ->] & _ & Htasks).
  destruct (encoder_work _ i out1 h1) as [panicked h2].
  set (self' := set_dispatcher _ _).
  pose proof (wait_handles panicked self' _ _ eq_refl eq_refl) as Hwait.
  set (hs := _ :: _) in Hwait. destruct (join_each panicked hs) as [js p] eqn:Hj.
  destruct Hwait as (self'' & -> & _ & _).
  destruct p; exists (PacketForwarderTask :: es ++ [BlockDispatcherTask d]);
    (split; [done |]); [done |].
  apply join_each_done in Hj as ->. cbn in Hes, Htasks. subst hs. cbn. rewrite Hes.
  split_and!; [done | rewrite length_app; cbn; lia | by exists repair, es, d].
Qed.

Lemma decoder_session_serves args out :
  serves (workers args) (decoder_tasks args) (decoder_session args out).
Proof.
  intros i w h. unfold decoder_session, Decoder_new. cbn [new_flag].
  set (self := MkDecoder _ _ _ _ _ _ _). set (w1 := Threads (spawned w) _).
  assert (exists ts, spawned w1 = spawned w ++ ts /\ True) as Hnone
    by (exists []; by rewrite app_nil_r).
  destruct i as [i | e |]; [| done..].
  destruct (try_clone out h) as [[out1 | e |] h1]; [| done..].
  pose proof (start_decoding_cases self w1) as Hcases.
  destruct (start_decoding_spawned self w1) as [ts Hts].
  destruct (start_decoding self w1) as [[[[] | e |] self'] w'];
    cbn in Hts; [| by exists ts..].
  destruct Hcases as (ds & d & [Hsp Hds _ _ Hsize ->] & Htasks).
  destruct (decoder_work _ i out1 h1) as [panicked h2].
  set (self' := set_packet_dispatcher _ _).
  pose proof (decoder_wait_handles panicked self' _ _ eq_refl eq_refl) as Hwait.
  set (hs := _ :: _) in Hwait. destruct (join_each panicked hs) as [js p] eqn:Hj.
  destruct Hwait as (self'' & -> & _ & _).
  destruct p; exists (BlockForwarderTask :: ds ++ [PacketDispatcherTask d]);
    (split; [done |]); [done |].
  apply join_each_done in Hj as ->. cbn in Hds, Htasks. subst hs. cbn. rewrite Hds.
  split_and!; [done | rewrite length_app; cbn; lia | by exists ds, d].
Qed.

Lemma closing_Some {X Y} out (r : option (X * (Y * H))) x y h :
  closing out r = Some (x, (y, h)) -> exists h', r = Some (x, (y, h')).
Proof. destruct r as [[x' [y' h']] |]; [| done]. intros [= -> -> _]. by exists h'. Qed.

Lemma closing_total {X Y} out (r : option (X * (Y * H))) :
  (exists x, r = Some x) -> exists x, closing out r = Some x.
Proof. intros [[x [y h]] ->]. by eexists. Qed.

(** Both programs, from their arguments. *)
Lemma run_encoder_serve fuel args h res log st :
  run_encoder fuel args h = Some (res, log, st) ->
  (res <> Ok tt /\ log = [] /\ st.1 = Threads [] []) \/
  exists repair l out h1,
    compute_repair_packets_per_block (block_size (codec_args args))
      (max_packet_size (codec_args args)) (redundancy args) = Ok repair /\
    (Listener_from_uri (TL := TL) (UL := UL) (input (codec_args args)) h).1 = Ok l /\
    exists h', serve fuel (encoder_session args repair out) (incoming l) (Threads [] [], h1)
      = Some (res, log, (st.1, h')).
Proof.
  unfold run_encoder. intros Hrun.
  destruct (compute_repair_packets_per_block _ _ _) as [repair | e |];
    [| left; by simplify_eq..].
  destruct (Listener_from_uri _ h) as [[l | e |] h1] eqn:Hl; [| left; by simplify_eq..].
  destruct (OutputStream_from_uri _ h1) as [[out | e |] h2]; [| left; by simplify_eq..].
  destruct st as [w h3]. apply closing_Some in Hrun as [h4 Hrun].
  right. exists repair, l, out, h2. split_and!; [done | done |]. by exists h4.
Qed.

Lemma run_decoder_serve fuel args h res log st :
  run_decoder fuel args h = Some (res, log, st) ->
  (res <> Ok tt /\ log = [] /\ st.1 = Threads [] []) \/
  exists l out h1,
    (Listener_from_uri (TL := TL) (UL := UL) (input args) h).1 = Ok l /\
    exists h', serve fuel (decoder_session args out) (incoming l) (Threads [] [], h1)
      = Some (res, log, (st.1, h')).
Proof.
  unfold run_decoder. intros Hrun.
  destruct (Listener_from_uri _ h) as [[l | e |] h1] eqn:Hl; [| left; by simplify_eq..].
  destruct (OutputStream_from_uri _ h1) as [[out | e |] h2]; [| left; by simplify_eq..].
  destruct st as [w h3]. apply closing_Some in Hrun as [h4 Hrun].
  right. exists l, out, h2. split; [done |]. by exists h4.
Qed.

(** What the finished sessions of a program have done: see [codec_sessions]. *)
Record sessions {Task E : Type} (n : nat) (tasks_ok : list Task -> Prop) (uri : list byte)
    (res : outcome E unit) (log : list (list handle)) (w : threads Task) : Prop := {
  sessions_joined i js :
    log !! i = Some js -> js = session_handles n (i * S (S n));
  sessions_spawned : exists groups rest, spawned w = concat groups ++ rest /\
    length groups = length log /\
    Forall (fun g => length g = S (S n) /\ tasks_ok g) groups /\ (res = Ok tt -> rest = []);
  sessions_ok : res = Ok tt -> uri = STDIN /\ length log = 1 /\
    concat log ≡ₚ seq 0 (length (spawned w))
}.

Lemma sessions_none {Task E} n (tasks_ok : list Task -> Prop) uri (res : outcome E unit) :
  res <> Ok tt -> sessions n tasks_ok uri res [] (Threads [] []).
Proof. intros Hres. split; [done | by exists [], [] | done]. Qed.

Lemma sessions_serve {Task E} n (tasks_ok : list Task -> Prop) uri fuel
    (session : outcome ErrorKind (InputStream T U) -> (threads Task * H) ->
               outcome E (list handle) * (threads Task * H)) l h0 h res log w h' :
  serves n tasks_ok session ->
  (Listener_from_uri (TL := TL) (UL := UL) uri h0).1 = Ok l ->
  serve fuel session (incoming l) (Threads [] [], h) = Some (res, log, (w, h')) ->
  sessions n tasks_ok uri res log w.
Proof.
  intros Hserves Hl Hrun.
  destruct (serve_sessions _ _ _ _ _ _ _ _ _ _ _ Hserves Hrun)
    as (Hlog & groups & rest & Hsp & Hlen & Hgs & Hrest). cbn in Hlog, Hsp.
  split; [done | by exists groups, rest |].
  intros ->. destruct (serve_ok _ _ _ _ _ _ _ Hrun) as (c & -> & Hone).
  apply listen_stdin in Hl as [-> ->]. split_and!; [done | done |].
  destruct log as [| js [|]]; [done | | done].
  destruct groups as [| g [|]]; [done | | done].
  apply Forall_singleton in Hgs as [Hg _].
  rewrite Hsp, (Hrest eq_refl). cbn. rewrite !app_nil_r, Hg, (Hlog 0 js eq_refl).
  apply session_handles_Permutation.
Qed.
(** C40 The programs serve their sessions one at a time: whatever the threads do, the
    threads of a session (a forwarder, the configured number of workers, all set up
    from the arguments, and a dispatcher) are all joined, in the order dispatcher,
    workers, forwarder, before the next stream is accepted.  A program ends without
    an error only on standard input, after the one session, and leaves no thread
    behind; on standard input two rounds of the loop are always enough. *)
Theorem codec_sessions :
  (forall fuel args h res log w h',
     run_encoder fuel args h = Some (res, log, (w, h')) ->
     sessions (workers (codec_args args)) (encoder_tasks args) (input (codec_args args))
       res log w) /\
  (forall fuel args h res log w h',
     run_decoder fuel args h = Some (res, log, (w, h')) ->
     sessions (workers args) (decoder_tasks args) (input args) res log w) /\
  (forall fuel args h, input (codec_args args) = STDIN ->
     exists r, run_encoder (S (S fuel)) args h = Some r) /\
  (forall fuel args h, input args = STDIN ->
     exists r, run_decoder (S (S fuel)) args h = Some r).
Proof.
  split_and!.
  - intros fuel args h res log w h' [(Hres & -> & E) | Hrun]%run_encoder_serve;
      [cbn in E; subst w; by apply sessions_none |].
    destruct Hrun as (repair & l & out & h1 & Hrepair & Hl & h2 & Hrun).
    eapply sessions_serve; [by apply encoder_session_serves | exact Hl | exact Hrun].
  - intros fuel args h res log w h' [(Hres & -> & E) | Hrun]%run_decoder_serve;
      [cbn in E; subst w; by apply sessions_none |].
    destruct Hrun as (l & out & h1 & Hl & h2 & Hrun).
    eapply sessions_serve; [by apply decoder_session_serves | exact Hl | exact Hrun].
  - intros fuel args h Hin. unfold run_encoder.
    destruct (compute_repair_packets_per_block _ _ _); [| eauto..].
    rewrite Hin. unfold Listener_from_uri. rewrite decide_True by done.
    destruct (OutputStream_from_uri _ h) as [[out | e |] h2]; [apply closing_total, serve_stdin | eauto..].
  - intros fuel args h Hin. unfold run_decoder.
    rewrite Hin. unfold Listener_from_uri. rewrite decide_True by done.
    destruct (OutputStream_from_uri _ h) as [[out | e |] h2]; [apply closing_total, serve_stdin | eauto..].
Qed.
End programs.

Module CliDemo.
Import StreamDemo.

(** Two workers, from standard input to a TCP connection, and from a TCP port. *)
Definition demo_args (uri : list byte) : EncoderArgs :=
  MkEncoderArgs (MkCodecArgs uri (TCP_URI_PREFIX ++ [x61]) 16 11 2) 25.

Definition demo_encoder_run (uri : list byte) :=
  run_encoder (C := Repetition.code) (T := list byte) (TL := list byte) (U := list byte)
    (UL := list byte) (fun _ => Ok 7%Z) (fun _ _ _ h => (fun _ => false, h))
    2 (demo_args uri) SocketDemo.demo_kernel.

(** How a run ended, and its log. *)
Definition ending {E S} (r : option (outcome E unit * list (list handle) * S))
    : option (option bool * list (list handle)) :=
  match r with
  | Some (Ok _, log, _) => Some (Some true, log)
  | Some (Err _, log, _) => Some (Some false, log)
  | Some (Panic, log, _) => Some (None, log)
  | None => None
  end.

Lemma demo_run_stdin : ending (demo_encoder_run STDIN) = Some (Some true, [[3; 1; 2; 0]]).
Proof. by vm_compute. Qed.

Lemma codec_sessions_witness :
  exists w h, demo_encoder_run STDIN = Some (Ok tt, [[3; 1; 2; 0]], (w, h)) /\
    concat [[3; 1; 2; 0]] ≡ₚ seq 0 (length (spawned w)).
Proof.
  pose proof demo_run_stdin as Hend.
  destruct (demo_encoder_run STDIN) as [[[[[] | e |] log] [w h]] |] eqn:Hrun; try discriminate.
  injection Hend as ->. exists w, h. split; [reflexivity |].
  destruct (codec_sessions (C := Repetition.code) (T := list byte) (TL := list byte)
    (U := list byte) (UL := list byte) (fun _ => Ok 7%Z) (fun _ _ _ h => (fun _ => false, h))
    (fun _ _ _ h => (fun _ => false, h))) as (Hsessions & _).
  apply (Hsessions _ _ _ _ _ _ _ Hrun). reflexivity.
Defined.

(** On a TCP port the second session has threads of its own; one of them panics. *)
Definition panics_second (ts : list (encoder_task (C := Repetition.code))) (i : InputStream (list byte) (list byte))
    (o : OutputStream (list byte) (list byte)) (h : sim) : (handle -> bool) * sim :=
  (fun t => t =? 5, h).

Example demo_run_tcp :
  ending (run_encoder (C := Repetition.code) (T := list byte) (TL := list byte)
    (U := list byte) (UL := list byte) (fun _ => Ok 7%Z) panics_second
    5 (demo_args (TCP_URI_PREFIX ++ [x62])) SocketDemo.demo_kernel)
  = Some (None, [[3; 1; 2; 0]]).
Proof. by vm_compute. Qed.
End CliDemo.
