(* ===== verification/FileTransfer.v ===== *)
(** * A file through the whole system

    [garuda send], [garuda encoder], [garuda decoder] and [garuda receive] one after the
    other: the composition of [Cli], [TransferHost] and [System]. *)
From stdpp Require Import prelude list strings gmap.
From Stdlib Require Import ZArith Lia.
From S2P Require Import Prelude Io Bytes Utf8 Protocol RaptorQ BlockEncoder BlockDecoder.
From S2P Require Import Dispatch Machine Threads Encoder Decoder EndToEnd System.
From S2P Require Import Path Socket IoStream Transfer TransferHost Cli.

Section commands.
Context `{L : RaptorQLaws} `{UL : UuidLaws} {H T TL S SL F : Type}.
Context `{!Kernel H, !Host H, Tcp : !Sockets H T TL, Unix : !Sockets H S SL}.
Context `{Src : !Source (opened (InputStream T S) H)}.
Context `{Snk : !Sink (opened (OutputStream T S) H)} `{Source F}.
Context (entropy : H -> outcome ErrorKind Z).
Context (encoder_work : list encoder_task -> InputStream T S -> OutputStream T S -> H ->
                        (handle -> bool) * H).
Context (decoder_work : list decoder_task -> InputStream T S -> OutputStream T S -> H ->
                        (handle -> bool) * H).
Context (d : disk F) (sys : os) (new_v4 : H -> Uuid).

Abbreviation main_on := (main entropy encoder_work decoder_work d sys new_v4).
Abbreviation standard_output h := (written (Opened (OutStdout (T := T) (U := S)) h)).
Abbreviation standard_input h := (contents (Opened (InStdin (T := T) (U := S)) h)).

(** What [garuda send] writes to its standard output: the datagrams of the file. *)
Lemma main_send fuel path block_size h fs h' fs' c flen file :
  valid_utf8 path -> file_name_of path = Ok c ->
  metadata d path = Ok flen -> open d path = Ok file ->
  (292 < block_size < 2 ^ 32)%Z -> (Z.of_nat (length (contents file)) < 2 ^ 64)%Z ->
  length (contents file) < fuel ->
  write_fuel (Opened (OutStdout (T := T) (U := S)) h) (Z.to_nat block_size) <= fuel ->
  main_on fuel (MkCli (CmdSend (MkSendArgs path STDOUT block_size))) h fs = Some (Ok tt, (h', fs')) ->
  exists name blocks, c = Utf8.encode name /\ Forall scalar name /\
    datagrams (new_v4 h) name flen (Z.to_nat block_size - 292) 0 (contents file) blocks /\
    Forall (fun b => length b = Z.to_nat block_size) blocks /\
    standard_output h' = standard_output h ++ concat blocks.
Proof using UL.
  intros Hpath Hc Hmeta Hopen Hbs Hlen Hfuel Hwf Hrun.
  pose proof (file_name_valid path c Hpath Hc) as [name [<- Hscalar]%encode_from_utf8].
  exists name.
  destruct (send_cases fuel fuel (Opened (OutStdout (T := T) (U := S)) h) (new_v4 h) name flen file
    block_size Hscalar Hbs Hlen Hfuel Hwf) as (res & o & Hsend & _ & Hok & _).
  cbn [main command file_path send_address send_block_size] in Hrun.
  unfold send_file, OutputStream_from_uri in Hrun. rewrite decide_True, Hc, Hmeta, Hopen in Hrun by done.
  rewrite Hsend in Hrun.
  apply send_stable with (f := stream) in Hsend as Hstream;
    [| by intros [s0 h0] buf; unfold write; cbn; case_match].
  destruct o as [s' h1]. cbn in Hstream, Hrun. subst s'. cbn in Hrun.
  destruct res as [[] | e |]; simplify_eq/=.
  destruct (Hok eq_refl) as (blocks & Hdata & Hlens & Hwr). by exists blocks.
Qed.

(** What [garuda receive] does with a stream of blocks of a file, in any order. *)
Lemma main_receive fuel dir block_size h fs id name flen content blocks received :
  Forall scalar name -> Forall (fun c => c <> 0%Z) name -> fits 64 flen ->
  (292 < block_size < 2 ^ 32)%Z -> (Z.of_nat (length content) < 2 ^ 63)%Z ->
  let path := join dir (wire_name (Utf8.encode name)) in
  create_dir_error sys dir = None -> open_error sys path = None ->
  (forall o b, write_error sys path o b = None) ->
  datagrams id name flen (Z.to_nat block_size - 292) 0 content blocks ->
  Forall (fun b => length b = Z.to_nat block_size) blocks -> received ≡ₚ blocks ->
  standard_input h = concat received -> 1 < fuel -> length received < fuel ->
  std_read_fuel (Opened (InStdin (T := T) (U := S)) h) (Z.to_nat block_size) <= fuel ->
  exists h', main_on fuel (MkCli (CmdReceive (MkReceiveArgs dir STDIN block_size))) h fs =
    Some (Ok tt, (h', match content with
                      | [] => fs
                      | _ => <[path := content ++
                          drop (length content) (default [] (fs !! path))]> fs
                      end)).
Proof using UL.
  intros Hname Hnull Hflen Hbs Hlen path Hdir Hopen Hwrite Hdata Hlens Hperm Hin Hfuel Hblocks Hr.
  rewrite <- Hperm in Hlens.
  assert (records (Z.to_nat block_size) (standard_input h) = received) as Hrecords.
  { rewrite Hin, <- (app_nil_r (concat received)). apply records_concat; [lia | done | cbn; lia]. }
  destruct fuel as [| [| fuel]]; [lia.. |].
  cbn [main command directory receive_address receive_block_size].
  destruct (receive_stdin (TL := TL) (SL := SL) fuel (2 + fuel) (2 + fuel) sys dir block_size fs h)
    as [h' Hrun]; [done | unfold isize_max; lia | by rewrite <- length_records, Hrecords | done |].
  cbn [Nat.add] in Hrun. exists h'. rewrite Hrun, Hrecords.
  by rewrite (reassemble sys id name flen (Z.to_nat block_size - 292) Hname Hnull Hflen
    ltac:(lia) dir Hopen Hwrite content blocks received fs).
Qed.

(** A file through the whole system; see [file_transfer]. *)
Lemma file_transfer_cases {R1 V1 R2 V2 : Type} `{Feed R1, Sink V1, Feed R2, Sink V2}
    enc dec e first_id (r1 : R1) (v1 v1' : V1) (r2 : R2) (v2 v2' : V2)
    path name flen file dir fuel1 h1 fs1 h1' fs1' fuel2 h2 fs2 :
  let block_size := enc_block_size enc in
  (292 < block_size < 2 ^ 32)%Z ->
  (* The sender: a file of that name, with its length. *)
  valid_utf8 path -> file_name_of path = Ok name -> x00 ∉ name ->
  metadata d path = Ok flen -> fits 64 flen -> open d path = Ok file ->
  (Z.of_nat (length (contents file)) < 2 ^ 63)%Z -> length (contents file) < fuel1 ->
  write_fuel (Opened (OutStdout (T := T) (U := S)) h1) (Z.to_nat block_size) <= fuel1 ->
  standard_output h1 = [] ->
  main_on fuel1 (MkCli (CmdSend (MkSendArgs path STDOUT block_size))) h1 fs1
    = Some (Ok tt, (h1', fs1')) ->
  (* The codec and the link. *)
  matched enc dec e -> fits 8 first_id -> reliable_from v1 -> reliable_from v2 ->
  enc_num_block_encoders enc <= 128 ->
  supply r1 = standard_output h1' -> encoder_runs first_id enc r1 v1 false v1' ->
  written v1' = written v1 ++ supply r2 -> decoder_runs dec r2 v2 false v2' ->
  written v2' = written v2 ++ standard_input h2 ->
  (* The receiver. *)
  let received := join dir (wire_name name) in
  create_dir_error sys dir = None -> open_error sys received = None ->
  (forall o b, write_error sys received o b = None) ->
  1 < fuel2 -> length (standard_input h2) / Z.to_nat block_size < fuel2 ->
  std_read_fuel (Opened (InStdin (T := T) (U := S)) h2) (Z.to_nat block_size) <= fuel2 ->
  exists h2', main_on fuel2 (MkCli (CmdReceive (MkReceiveArgs dir STDIN block_size))) h2 fs2 =
    Some (Ok tt, (h2', match contents file with
                       | [] => fs2
                       | _ => <[received := contents file ++
                           drop (length (contents file)) (default [] (fs2 !! received))]> fs2
                       end)).
Proof.
  intros block_size Hbs Hpath Hc Hnull Hmeta Hflen Hopen Hlen Hf1 Hwf Hempty Hsend
    Hmatch Hid Hrel1 Hrel2 Hn Hr1 Henc Hlink Hdec Hout received Hdir Hcreate Hwrite Hf2 Hblocks Hrf.
  destruct (main_send fuel1 path block_size h1 fs1 h1' fs1' name flen file)
    as (cs & blocks & -> & Hcs & Hdata & Hlens & Hwritten); try done; [lia |].
  rewrite Hempty in Hwritten. cbn [app] in Hwritten.
  assert (records (Z.to_nat block_size) (supply r1) = blocks) as Hrecords.
  { rewrite Hr1, Hwritten, <- (app_nil_r (concat blocks)).
    apply records_concat; [lia | done | cbn; lia]. }
  destruct (system_transmission_cases enc dec e first_id r1 v1 v1' false r2 v2 v2' Hmatch Hid
    Hrel1 Hrel2 Henc Hlink Hdec (or_introl Hn)) as (ds & output & _ & Hds & Hperm & _ & Hv2).
  fold block_size in Hds. rewrite (Hds eq_refl), Hrecords in Hperm.
  rewrite Hout in Hv2. apply app_inv_head in Hv2.
  apply (main_receive fuel2 dir block_size h2 fs2 (new_v4 h1) cs flen (contents file) blocks output);
    try done; [by apply no_null_chars |].
  rewrite Hv2 in Hblocks. rewrite <- length_records in Hblocks.
  rewrite <- (app_nil_r (concat output)), records_concat in Hblocks; [done | lia | | cbn; lia].
  by rewrite Hperm.
Qed.

(** C3 A file goes through the whole system: [garuda send] to its standard output, an
    encoder and a decoder with matching parameters over a lossless link, and [garuda
    receive] from its standard input.  When the sender succeeded, and whatever the
    sizes of the reads and writes, the interruptions and the schedules of both codecs,
    the receiver ends without an error and the file's content is in the output
    directory, although the workers may have changed the order of the blocks. *)
Theorem file_transfer {R1 V1 R2 V2 : Type} `{Feed R1, Sink V1, Feed R2, Sink V2}
    enc dec e first_id (r1 : R1) (v1 v1' : V1) (r2 : R2) (v2 v2' : V2)
    path name flen file dir fuel1 h1 fs1 h1' fs1' fuel2 h2 fs2 :
  let block_size := enc_block_size enc in
  (292 < block_size < 2 ^ 32)%Z ->
  (* The sender: a file of that name, with its length. *)
  valid_utf8 path -> file_name_of path = Ok name -> x00 ∉ name ->
  metadata d path = Ok flen -> fits 64 flen -> open d path = Ok file ->
  (Z.of_nat (length (contents file)) < 2 ^ 63)%Z -> length (contents file) < fuel1 ->
  write_fuel (Opened (OutStdout (T := T) (U := S)) h1) (Z.to_nat block_size) <= fuel1 ->
  standard_output h1 = [] ->
  main_on fuel1 (MkCli (CmdSend (MkSendArgs path STDOUT block_size))) h1 fs1
    = Some (Ok tt, (h1', fs1')) ->
  (* The codec and the link. *)
  matched enc dec e -> fits 8 first_id -> reliable_from v1 -> reliable_from v2 ->
  enc_num_block_encoders enc <= 128 ->
  supply r1 = standard_output h1' -> encoder_runs first_id enc r1 v1 false v1' ->
  written v1' = written v1 ++ supply r2 -> decoder_runs dec r2 v2 false v2' ->
  written v2' = written v2 ++ standard_input h2 ->
  (* The receiver. *)
  let received := join dir (wire_name name) in
  create_dir_error sys dir = None -> open_error sys received = None ->
  (forall o b, write_error sys received o b = None) ->
  1 < fuel2 -> length (standard_input h2) / Z.to_nat block_size < fuel2 ->
  std_read_fuel (Opened (InStdin (T := T) (U := S)) h2) (Z.to_nat block_size) <= fuel2 ->
  exists h2', main_on fuel2 (MkCli (CmdReceive (MkReceiveArgs dir STDIN block_size))) h2 fs2 =
    Some (Ok tt, (h2', match contents file with
                       | [] => fs2
                       | _ => <[received := contents file ++
                           drop (length (contents file)) (default [] (fs2 !! received))]> fs2
                       end)).
Proof. apply file_transfer_cases; done. Qed.
End commands.

(** ** Witness *)
Module FileTransferDemo.
Import SixteenBytes TransferDemo.
#[local] Existing Instance uuid_ops.

(** Blocks of 296 bytes in 37 symbols, two workers on each side. *)
Definition demo_enc : Encoder :=
  (Encoder_new (C := Repetition.code) 296 11 1 2 (Threads [] [])).1.
Definition demo_dec : Decoder :=
  (Decoder_new (C := Repetition.code) 296 2 11 (Threads [] [])).1.
Definition demo_block_encoder : BlockEncoder (C := Repetition.code) :=
  MkBlockEncoder (C := Repetition.code) 296 1 (8%Z : Z) tt.

Lemma demo_enc_matched :
  matched (C := Repetition.code) demo_enc demo_dec demo_block_encoder.
Proof. split; try reflexivity; first [by_compute | unfold repairable; by_compute | cbn; lia]. Qed.

(** The file "d/é.bin" of twelve bytes. *)
Definition demo_path : list byte := [x64; x2f] ++ Utf8.encode demo_name.
Definition demo_disk : disk cursor := Disk (fun _ => Ok 12%Z) (fun _ => Ok (Cursor demo_content)).

Definition demo_main :=
  main (C := Repetition.code) (T := Empty_set) (TL := Empty_set) (U := Empty_set)
    (UL := Empty_set) (fun _ => Ok 7%Z) (fun _ _ _ h => (fun _ => false, h))
    (fun _ _ _ h => (fun _ => false, h)) demo_disk demo_os (fun _ => demo_uuid).

Definition demo_send :=
  demo_main 400 (MkCli (CmdSend (MkSendArgs demo_path STDOUT 296))) (Pipes [] []) ∅.

Lemma demo_send_ok : exists h, demo_send = Some (Ok tt, (h, ∅)).
Proof.
  assert (match demo_send with Some (Ok _, (_, fs)) => size fs =? 0 | _ => false end = true)
    as Hrun by (vm_compute; reflexivity).
  destruct demo_send as [[[[] | e |] [h fs]] |]; try discriminate. exists h.
  apply Nat.eqb_eq, map_size_empty_inv in Hrun. by subst.
Qed.

Lemma file_transfer_witness : exists h1 h2 h2' fuel,
  demo_send = Some (Ok tt, (h1, ∅)) /\
  demo_main fuel (MkCli (CmdReceive (MkReceiveArgs demo_dir STDIN 296))) h2 ∅ =
    Some (Ok tt, (h2', {[ join demo_dir (Utf8.encode demo_name) := demo_content ]})).
Proof.
  destruct demo_send_ok as [h1 Hsend].
  destruct (encoder_runs_total (C := Repetition.code) (R := cursor) (V := vector) demo_enc
    demo_dec demo_block_encoder demo_enc_matched 200 (Cursor (stdout_bytes h1)) (Vector [])
    (fun _ => 0) cursor_patient) as [v1 Henc].
  destruct (decoder_runs_total (C := Repetition.code) (R := cursor) (V := vector) demo_enc
    demo_dec demo_block_encoder demo_enc_matched (Cursor (written v1)) (Vector [])
    (fun _ => 0) cursor_patient) as [v2 Hdec].
  set (fuel := 300 + length (written v2)).
  assert (1 < fuel) as Hf2 by (unfold fuel; lia).
  assert (length (written v2) / 296 < fuel) as Hblocks
    by (pose proof (Nat.Div0.div_le_upper_bound (length (written v2)) 296 (length (written v2)));
        unfold fuel; lia).
  assert (297 <= fuel) as Hrf by (unfold fuel; lia).
  destruct (file_transfer (C := Repetition.code) (T := Empty_set) (TL := Empty_set)
    (S := Empty_set) (SL := Empty_set) (fun _ => Ok 7%Z) (fun _ _ _ h => (fun _ => false, h))
    (fun _ _ _ h => (fun _ => false, h)) demo_disk demo_os (fun _ => demo_uuid)
    demo_enc demo_dec demo_block_encoder 200 (Cursor (stdout_bytes h1)) (Vector []) v1
    (Cursor (written v1)) (Vector []) v2 demo_path (Utf8.encode demo_name) 12 (Cursor demo_content)
    demo_dir 400 (Pipes [] []) ∅ h1 ∅ fuel (Pipes (written v2) []) ∅)
    as [h2' Hrun].
  - by_compute.
  - eexists. vm_compute. reflexivity.
  - vm_compute. reflexivity.
  - refine (bool_decide_unpack (x00 ∉ Utf8.encode demo_name) _). vm_compute. exact I.
  - reflexivity.
  - by_compute.
  - reflexivity.
  - reflexivity.
  - apply Nat.ltb_lt. reflexivity.
  - apply Nat.leb_le. reflexivity.
  - reflexivity.
  - exact Hsend.
  - exact demo_enc_matched.
  - by_compute.
  - exact (reliable_any _ vector_reliable).
  - exact (reliable_any _ vector_reliable).
  - cbn. lia.
  - reflexivity.
  - exact Henc.
  - reflexivity.
  - exact Hdec.
  - reflexivity.
  - reflexivity.
  - reflexivity.
  - done.
  - exact Hf2.
  - exact Hblocks.
  - exact Hrf.
  - exists h1, (Pipes (written v2) []), h2', fuel. split; [exact Hsend |].
    etransitivity; [exact Hrun |]. reflexivity.
Defined.
End FileTransferDemo.
