(* ===== verification/Commands.v ===== *)
(** * [garuda send | garuda encoder | garuda decoder | garuda receive]

    The four commands of [Cli] as a shell runs them, each reading what the one before it
    writes.  What the threads of a session did, which [Cli] leaves to a parameter, is
    here a run of the machine of [System] made of the threads the session spawned
    ([encoder_ran], [decoder_ran]). *)
From stdpp Require Import prelude list strings gmap relations.
From Stdlib Require Import ZArith Lia.
From S2P Require Import Prelude Io Bytes Utf8 Protocol RaptorQ BlockEncoder BlockDecoder.
From S2P Require Import Dispatch Machine Threads Encoder Decoder EndToEnd System.
From S2P Require Import Path Socket IoStream Transfer TransferHost Cli FileTransfer.

Section commands.
Context `{L : RaptorQLaws} `{UL : UuidLaws} {H T TL S SL F : Type}.
Context `{!Kernel H, !Host H, Tcp : !Sockets H T TL, Unix : !Sockets H S SL}.

Abbreviation reader := (opened (InputStream T S) H).
Abbreviation writer := (opened (OutputStream T S) H).

Context `{Src : !Source reader} `{Fd : !Feed reader} `{Snk : !Sink writer} `{Source F}.

Abbreviation from_stdin h := (Opened (InStdin (T := T) (U := S)) h).
Abbreviation to_stdout h := (Opened (OutStdout (T := T) (U := S)) h).

(** ** One session between standard input and standard output *)

(** The host [h'] is what a run of the encoder's threads [ts] to its end has made of [h];
    the program does not call [stop]. *)
Definition encoder_ran (args : EncoderArgs) (ts : list encoder_task) (h h' : H) : Prop :=
  exists m0 m, encoder_machine ts (from_stdin h) (to_stdout h) = Some m0 /\
    rtc (encoder_mstep (block_size (codec_args args)) (workers (codec_args args))) m0 m /\
    halted m /\ should_stop m = false /\
    written (to_stdout h') = written (Machine.output (fthread m)).

Definition decoder_ran (args : CodecArgs) (ts : list decoder_task) (h h' : H) : Prop :=
  exists packet_size m0 m,
    infer_packet_size (block_size args) (max_packet_size args) = Ok packet_size /\
    decoder_machine ts (from_stdin h) (to_stdout h) = Some m0 /\
    rtc (decoder_mstep packet_size (workers args)) m0 m /\
    halted m /\ should_stop m = false /\
    written (to_stdout h') = written (Machine.output (fthread m)).

(** The encoder and the decoder of the first session, and the threads it spawns. *)
Definition first_encoder (args : EncoderArgs) (repair : Z) :=
  Encoder_new (block_size (codec_args args)) (max_packet_size (codec_args args)) repair
    (workers (codec_args args)) (Threads [] []).

Definition encoder_threads (args : EncoderArgs) (repair : Z) (random : outcome ErrorKind Z)
    : list encoder_task :=
  let (encoder, w) := first_encoder args repair in spawned (start_encoding random encoder w).2.

Definition first_decoder (args : CodecArgs) :=
  Decoder_new (block_size args) (workers args) (max_packet_size args) (Threads [] []).

Definition decoder_threads (args : CodecArgs) : list decoder_task :=
  let (decoder, w) := first_decoder args in spawned (start_decoding decoder w).2.

Context (entropy : H -> outcome ErrorKind Z).
Context (encoder_work : list encoder_task -> InputStream T S -> OutputStream T S -> H ->
                        (handle -> bool) * H).
Context (decoder_work : list decoder_task -> InputStream T S -> OutputStream T S -> H ->
                        (handle -> bool) * H).
Context (d : disk F) (sys : os) (new_v4 : H -> Uuid).

Abbreviation main_on := (main entropy encoder_work decoder_work d sys new_v4).

Definition no_panic : handle -> bool := fun _ => false.

(** [garuda encoder] from standard input to standard output. *)
Lemma main_encoder fuel args repair first_id e h h' fs :
  input (codec_args args) = STDIN -> Cli.output (codec_args args) = STDOUT ->
  compute_repair_packets_per_block (block_size (codec_args args))
    (max_packet_size (codec_args args)) (redundancy args) = Ok repair ->
  BlockEncoder_new (block_size (codec_args args)) (max_packet_size (codec_args args)) repair
    = Ok e ->
  entropy h = Ok first_id ->
  let ts := encoder_threads args repair (entropy h) in
  encoder_work ts InStdin OutStdout h = (no_panic, h') -> encoder_ran args ts h h' ->
  main_on (2 + fuel) (MkCli (CmdEncoder args)) h fs = Some (Ok tt, (h', fs)) /\
  exists v', encoder_runs first_id (first_encoder args repair).1 (from_stdin h) (to_stdout h)
      false v' /\ written (to_stdout h') = written v'.
Proof using.
  intros Hin Hout Hrepair Hnew Hrandom ts Hwork Hran.
  destruct (first_encoder args repair) as [encoder w] eqn:Hfirst.
  assert (Hfirst' := Hfirst). unfold first_encoder, Encoder_new in Hfirst'. cbn in Hfirst'.
  injection Hfirst' as Henc Hw.
  destruct (start_encoding_ok first_id encoder w e) as (encoder' & w' & Hstart);
    [by rewrite <- Henc |].
  assert (ts = spawned w') as Hts.
  { unfold ts, encoder_threads. by rewrite Hfirst, Hrandom, Hstart. }
  split.
  - cbn [main command]. unfold run_encoder. rewrite Hrepair, Hin, Hout.
    unfold Listener_from_uri, OutputStream_from_uri. rewrite !decide_True by done.
    unfold serve, incoming, next. cbn [Nat.add listener fst snd].
    unfold encoder_session. unfold first_encoder in Hfirst. rewrite Hfirst.
    cbn [try_clone]. rewrite Hrandom, Hstart.
    replace (drop (length (spawned w)) (spawned w')) with ts by (rewrite Hts, <- Hw; done).
    rewrite Hwork.
    pose proof (Encoder.start_encoding_cases (Ok first_id) encoder w) as Hcases.
    rewrite Hstart in Hcases. destruct Hcases as (es & disp & Hs & _ & _).
    pose proof (Encoder.started_self _ _ _ _ _ _ Hs) as ->.
    set (self' := set_dispatcher _ _).
    pose proof (wait_handles no_panic self' _ _ eq_refl eq_refl) as Hwait.
    set (hs := _ :: _) in Hwait. rewrite (join_each_ok no_panic hs) in Hwait
      by (apply Forall_forall; done).
    destruct Hwait as (self'' & -> & _). done.
  - destruct Hran as (m0 & m & Hm0 & Hrun & Hend & Hstop & Hwr).
    exists (Machine.output (fthread m)). split; [| done].
    exists w, encoder', w', m0, m. split_and!; try done.
    + cbn [fst]. by rewrite <- Hw, <- Hts.
    + cbn [fst]. by rewrite <- Henc.
Qed.

(** [garuda decoder] from standard input to standard output. *)
Lemma main_decoder fuel args d0 size h h' fs :
  input args = STDIN -> Cli.output args = STDOUT ->
  BlockDecoder_new (block_size args) (max_packet_size args) = Ok d0 ->
  infer_packet_size (block_size args) (max_packet_size args) = Ok size ->
  let ts := decoder_threads args in
  decoder_work ts InStdin OutStdout h = (no_panic, h') -> decoder_ran args ts h h' ->
  main_on (2 + fuel) (MkCli (CmdDecoder args)) h fs = Some (Ok tt, (h', fs)) /\
  exists v', decoder_runs (first_decoder args).1 (from_stdin h) (to_stdout h) false v' /\
    written (to_stdout h') = written v'.
Proof using.
  intros Hin Hout Hnew Hsize ts Hwork Hran.
  destruct (first_decoder args) as [decoder w] eqn:Hfirst.
  assert (Hfirst' := Hfirst). unfold first_decoder, Decoder_new in Hfirst'. cbn in Hfirst'.
  injection Hfirst' as Hdec Hw.
  destruct (start_decoding_ok decoder w d0 size) as (decoder' & w' & Hstart);
    [by rewrite <- Hdec.. |].
  assert (ts = spawned w') as Hts.
  { unfold ts, decoder_threads. by rewrite Hfirst, Hstart. }
  split.
  - cbn [main command]. unfold run_decoder. rewrite Hin, Hout.
    unfold Listener_from_uri, OutputStream_from_uri. rewrite !decide_True by done.
    unfold serve, incoming, next. cbn [Nat.add listener fst snd].
    unfold decoder_session. unfold first_decoder in Hfirst. rewrite Hfirst.
    cbn [try_clone]. rewrite Hstart.
    replace (drop (length (spawned w)) (spawned w')) with ts by (rewrite Hts, <- Hw; done).
    rewrite Hwork.
    pose proof (Decoder.start_decoding_cases decoder w) as Hcases.
    rewrite Hstart in Hcases. destruct Hcases as (ds & disp & Hs & _).
    pose proof (Decoder.started_self _ _ _ _ _ _ Hs) as ->.
    set (self' := set_packet_dispatcher _ _).
    pose proof (decoder_wait_handles no_panic self' _ _ eq_refl eq_refl) as Hwait.
    set (hs := _ :: _) in Hwait. rewrite (join_each_ok no_panic hs) in Hwait
      by (apply Forall_forall; done).
    destruct Hwait as (self'' & -> & _). done.
  - destruct Hran as (size' & m0 & m & Hsize' & Hm0 & Hrun & Hend & Hstop & Hwr).
    exists (Machine.output (fthread m)). split; [| done].
    exists size', w, decoder', w', m0, m. split_and!; try done.
    + cbn [fst]. by rewrite <- Hdec.
    + cbn [fst]. by rewrite <- Hw, <- Hts.
    + cbn [fst]. by rewrite <- Hdec.
Qed.

(** What the first sessions of [main] and of the system have in common. *)
Lemma encoder_runs_ran args repair dec e first_id h h' v' :
  matched (first_encoder args repair).1 dec e ->
  encoder_runs first_id (first_encoder args repair).1 (from_stdin h) (to_stdout h) false v' ->
  written (to_stdout h') = written v' ->
  encoder_ran args (encoder_threads args repair (Ok first_id)) h h'.
Proof using.
  intros Hmatch (w0 & enc' & w & m0 & m & Hstart & Hm0 & Hrun & Hend & Hstop & <-) Hwr.
  rewrite (encoder_machine_started _ _ _ Hmatch _ _ _ _ _ _ Hstart) in Hm0.
  destruct (start_encoding_ok first_id (first_encoder args repair).1 (first_encoder args repair).2 e)
    as (enc1 & w1 & Hstart1); [apply (encoder_ok _ _ _ Hmatch) |].
  pose proof (encoder_machine_started _ _ _ Hmatch _ _ _ _ (from_stdin h) (to_stdout h) Hstart1)
    as Hm1.
  exists m0, m. rewrite <- Hm0, <- Hm1. split; [| done].
  unfold encoder_threads. destruct (first_encoder args repair) as [enc w2] eqn:Hfirst.
  cbn [fst snd] in Hstart1 |- *. rewrite Hstart1.
  unfold first_encoder, Encoder_new in Hfirst. cbn in Hfirst. by simplify_eq/=.
Qed.

Lemma decoder_runs_ran args enc e h h' v' :
  matched enc (first_decoder args).1 e ->
  decoder_runs (first_decoder args).1 (from_stdin h) (to_stdout h) false v' ->
  written (to_stdout h') = written v' ->
  decoder_ran args (decoder_threads args) h h'.
Proof using L.
  intros Hmatch (size & w0 & dec' & w & m0 & m & Hsize & Hstart & Hm0 & Hrun & Hend & Hstop & <-) Hwr.
  destruct (matched_decoder _ _ _ Hmatch) as (d0 & Hnew & _).
  rewrite (decoder_machine_started _ _ _ Hmatch _ _ _ _ _ _ Hnew Hstart) in Hm0.
  destruct (start_decoding_ok (first_decoder args).1 (first_decoder args).2 d0 size)
    as (dec1 & w1 & Hstart1); [done.. |].
  pose proof (decoder_machine_started _ _ _ Hmatch _ _ _ _ (from_stdin h) (to_stdout h) Hnew Hstart1)
    as Hm1.
  exists size, m0, m. rewrite <- Hm0, <- Hm1. split; [done |]. split; [| done].
  unfold decoder_threads. destruct (first_decoder args) as [dec w2] eqn:Hfirst.
  cbn [fst snd] in Hstart1 |- *. rewrite Hstart1.
  unfold first_decoder, Decoder_new in Hfirst. cbn in Hfirst. by simplify_eq/=.
Qed.

(** ** The pipeline *)
Abbreviation standard_output h := (written (to_stdout h)).
Abbreviation standard_input h := (contents (from_stdin h)).

(** C4 The four commands as a shell pipeline, from the arguments on: when [garuda send]
    has succeeded and each of the other commands reads what the one before it wrote,
    the encoder and the decoder end without an error once their threads have run to
    their end, under any schedule, and [garuda receive] ends without an error with
    the file's content in its directory. *)
Theorem pipeline enc_args dec_args repair e first_id
    path name flen file dir fuel1 h1 fs1 h1' fs1' fuel he he' fse hd hd' fsd fuel2 hr fsr :
  let block_size := block_size (codec_args enc_args) in
  (292 < block_size < 2 ^ 32)%Z ->
  (* The sender. *)
  valid_utf8 path -> file_name_of path = Ok name -> x00 ∉ name ->
  metadata d path = Ok flen -> fits 64 flen -> open d path = Ok file ->
  (Z.of_nat (length (contents file)) < 2 ^ 63)%Z -> length (contents file) < fuel1 ->
  write_fuel (to_stdout h1) (Z.to_nat block_size) <= fuel1 -> standard_output h1 = [] ->
  main_on fuel1 (MkCli (CmdSend (MkSendArgs path STDOUT block_size))) h1 fs1
    = Some (Ok tt, (h1', fs1')) ->
  (* The encoder and the decoder. *)
  input (codec_args enc_args) = STDIN -> Cli.output (codec_args enc_args) = STDOUT ->
  input dec_args = STDIN -> Cli.output dec_args = STDOUT ->
  compute_repair_packets_per_block block_size (max_packet_size (codec_args enc_args))
    (redundancy enc_args) = Ok repair ->
  matched (first_encoder enc_args repair).1 (first_decoder dec_args).1 e ->
  workers (codec_args enc_args) <= 128 -> fits 8 first_id -> entropy he = Ok first_id ->
  supply (from_stdin he) = standard_output h1' -> reliable_from (to_stdout he) ->
  encoder_work (encoder_threads enc_args repair (entropy he)) InStdin OutStdout he
    = (no_panic, he') ->
  encoder_ran enc_args (encoder_threads enc_args repair (entropy he)) he he' ->
  standard_output he' = standard_output he ++ supply (from_stdin hd) ->
  reliable_from (to_stdout hd) ->
  decoder_work (decoder_threads dec_args) InStdin OutStdout hd = (no_panic, hd') ->
  decoder_ran dec_args (decoder_threads dec_args) hd hd' ->
  standard_output hd' = standard_output hd ++ standard_input hr ->
  (* The receiver. *)
  let received := join dir (wire_name name) in
  create_dir_error sys dir = None -> open_error sys received = None ->
  (forall o b, write_error sys received o b = None) ->
  1 < fuel2 -> length (standard_input hr) / Z.to_nat block_size < fuel2 ->
  std_read_fuel (from_stdin hr) (Z.to_nat block_size) <= fuel2 ->
  main_on (2 + fuel) (MkCli (CmdEncoder enc_args)) he fse = Some (Ok tt, (he', fse)) /\
  main_on (2 + fuel) (MkCli (CmdDecoder dec_args)) hd fsd = Some (Ok tt, (hd', fsd)) /\
  exists hr', main_on fuel2 (MkCli (CmdReceive (MkReceiveArgs dir STDIN block_size))) hr fsr =
    Some (Ok tt, (hr', match contents file with
                       | [] => fsr
                       | _ => <[received := contents file ++
                           drop (length (contents file)) (default [] (fsr !! received))]> fsr
                       end)).
Proof.
  intros bs Hbs Hpath Hc Hnull Hmeta Hflen Hopen Hlen Hf1 Hwf Hempty Hsend
    Hin1 Hout1 Hin2 Hout2 Hrepair Hmatch Hn Hid Hrandom Hpipe1 Hrel1 Hwork1 Hran1 Hpipe2
    Hrel2 Hwork2 Hran2 Hpipe3 received Hdir Hcreate Hwrite Hf2 Hblocks Hrf.
  destruct (matched_decoder _ _ _ Hmatch) as (d0 & Hd0 & _).
  destruct (main_encoder fuel enc_args repair first_id e he he' fse) as [-> (v1 & Henc & Hv1)];
    try done; [apply (encoder_ok _ _ _ Hmatch) |].
  destruct (main_decoder fuel dec_args d0 _ hd hd' fsd Hin2 Hout2 Hd0 (matched_size _ _ _ Hmatch))
    as [-> (v2 & Hdec & Hv2)]; try done.
  do 2 (split; [done |]). rewrite Hv1 in Hpipe2. rewrite Hv2 in Hpipe3.
  by apply (file_transfer_cases entropy encoder_work decoder_work d sys new_v4
    (first_encoder enc_args repair).1 (first_decoder dec_args).1 e first_id
    (from_stdin he) (to_stdout he) v1 (from_stdin hd) (to_stdout hd) v2
    path name flen file dir fuel1 h1 fs1 h1' fs1').
Qed.
End commands.

(** ** Witness *)
#[export] Program Instance pipes_feed : Feed pipe_reader := {| supply := pipe_contents |}.
Next Obligation.
  intros [[| [] | [] | s] [l o]] n b bs r' Hn Hread; unfold read in Hread; cbn in Hread; [| done].
  injection Hread as E <-. unfold pipe_contents. cbn [stream host stdin_bytes].
  rewrite <- E, length_take, take_drop. split; (done || lia).
Qed.
Next Obligation.
  intros [[| [] | [] | s] [[| b l] o]] [| n] r' Hn; unfold read; cbn; intros; (lia || by simplify_eq).
Qed.
Next Obligation.
  intros [[| [] | [] | s] [l o]] n e r' Hn Hread He; unfold read in Hread; cbn in Hread; by simplify_eq.
Qed.
Next Obligation.
  intros [[| [] | [] | s] [l o]] n e r' Hn Hread He; unfold read in Hread; cbn in Hread; by simplify_eq.
Qed.

Lemma pipes_patient : patient (R := pipe_reader) (fun _ => 0).
Proof.
  split; [done |]. intros [[| [] | [] | s] [l o]] n e r' Hread He; unfold read in Hread;
    cbn in Hread; by simplify_eq.
Qed.

Lemma pipes_reliable (h : pipes) :
  reliable_from (Opened (OutStdout (T := Empty_set) (U := Empty_set)) h).
Proof.
  exists (fun w => stream w = OutStdout). split; [done |].
  intros [s0 h0] b buf Hs. cbn in Hs. subst s0. eexists (length buf), _. by split.
Qed.

Module CommandsDemo.
Import SixteenBytes TransferDemo FileTransferDemo.
#[local] Existing Instance uuid_ops.

(** Two percent of 37 symbols: one repair symbol. *)
Definition demo_args : CodecArgs := MkCodecArgs STDIN STDOUT 296 11 2.
Definition demo_encoder_args : EncoderArgs := MkEncoderArgs demo_args 2.

(** The program on hosts of which the threads of a session make [he] and [hd]. *)
Definition main_making (he hd : pipes) :=
  main (C := Repetition.code) (T := Empty_set) (TL := Empty_set) (U := Empty_set)
    (UL := Empty_set) (fun _ => Ok 200%Z) (fun _ _ _ _ => (no_panic, he))
    (fun _ _ _ _ => (no_panic, hd)) demo_disk demo_os (fun _ => demo_uuid).

Abbreviation demo_stdin h := (Opened (InStdin (T := Empty_set) (U := Empty_set)) h).
Abbreviation demo_stdout h := (Opened (OutStdout (T := Empty_set) (U := Empty_set)) h).

(** A run of both sessions. *)
Lemma demo_sessions input : exists he hd,
  encoder_ran (C := Repetition.code) demo_encoder_args
    (encoder_threads (C := Repetition.code) demo_encoder_args 1 (Ok 200%Z)) (Pipes input []) he /\
  decoder_ran (C := Repetition.code) demo_args (decoder_threads (C := Repetition.code) demo_args)
    (Pipes (stdout_bytes he) []) hd.
Proof.
  destruct (encoder_runs_total (C := Repetition.code) demo_enc demo_dec demo_block_encoder
    demo_enc_matched 200 (demo_stdin (Pipes input [])) (demo_stdout (Pipes input []))
    (fun _ => 0) pipes_patient) as [v1 Henc].
  exists (Pipes [] (written v1)).
  destruct (decoder_runs_total (C := Repetition.code) demo_enc demo_dec demo_block_encoder
    demo_enc_matched (demo_stdin (Pipes (written v1) [])) (demo_stdout (Pipes (written v1) []))
    (fun _ => 0) pipes_patient) as [v2 Hdec].
  exists (Pipes [] (written v2)). split.
  - by apply (encoder_runs_ran (C := Repetition.code) demo_encoder_args 1 demo_dec
      demo_block_encoder 200 _ _ v1 demo_enc_matched).
  - by apply (decoder_runs_ran (C := Repetition.code) demo_args demo_enc demo_block_encoder
      _ _ v2 demo_enc_matched).
Qed.

Lemma pipeline_witness : exists h1 he hd hr fuel,
  main_making he hd 400 (MkCli (CmdSend (MkSendArgs demo_path STDOUT 296))) (Pipes [] []) ∅
    = Some (Ok tt, (h1, ∅)) /\
  main_making he hd 2 (MkCli (CmdEncoder demo_encoder_args)) (Pipes (stdout_bytes h1) []) ∅
    = Some (Ok tt, (he, ∅)) /\
  main_making he hd 2 (MkCli (CmdDecoder demo_args)) (Pipes (stdout_bytes he) []) ∅
    = Some (Ok tt, (hd, ∅)) /\
  main_making he hd fuel (MkCli (CmdReceive (MkReceiveArgs demo_dir STDIN 296)))
    (Pipes (stdout_bytes hd) []) ∅ =
    Some (Ok tt, (hr, {[ join demo_dir (Utf8.encode demo_name) := demo_content ]})).
Proof.
  destruct demo_send_ok as [h1 Hsend].
  destruct (demo_sessions (stdout_bytes h1)) as (he & hd & Henc & Hdec).
  set (fuel := 300 + length (stdout_bytes hd)).
  assert (1 < fuel) as Hf2 by (unfold fuel; lia).
  assert (length (stdout_bytes hd) / 296 < fuel) as Hblocks
    by (pose proof (Nat.Div0.div_le_upper_bound (length (stdout_bytes hd)) 296
          (length (stdout_bytes hd))); unfold fuel; lia).
  assert (297 <= fuel) as Hrf by (unfold fuel; lia).
  assert (demo_send = main_making he hd 400 (MkCli (CmdSend (MkSendArgs demo_path STDOUT 296)))
    (Pipes [] []) ∅) as Hsame by reflexivity.
  rewrite Hsame in Hsend.
  destruct (pipeline (C := Repetition.code) (T := Empty_set) (TL := Empty_set)
    (S := Empty_set) (SL := Empty_set) (fun _ => Ok 200%Z) (fun _ _ _ _ => (no_panic, he))
    (fun _ _ _ _ => (no_panic, hd)) demo_disk demo_os (fun _ => demo_uuid)
    demo_encoder_args demo_args 1 demo_block_encoder 200
    demo_path (Utf8.encode demo_name) 12 (Cursor demo_content)
    demo_dir 400 (Pipes [] []) ∅ h1 ∅ 0 (Pipes (stdout_bytes h1) []) he ∅
    (Pipes (stdout_bytes he) []) hd ∅ fuel (Pipes (stdout_bytes hd) []) ∅)
    as (Hencoder & Hdecoder & hr & Hreceive).
  - by_compute.
  - eexists. vm_compute. reflexivity.
  - vm_compute. reflexivity.
  - refine (bool_decide_unpack (x00 ∉ Utf8.encode demo_name) _). vm_compute. exact I.
  - reflexivity.
  - by_compute.
  - reflexivity.
  - reflexivity.
  - apply Nat.ltb_lt. reflexivity.
  - apply Nat.leb_le. reflexivity.
  - reflexivity.
  - exact Hsend.
  - reflexivity.
  - reflexivity.
  - reflexivity.
  - reflexivity.
  - vm_compute. reflexivity.
  - exact demo_enc_matched.
  - apply Nat.leb_le. reflexivity.
  - by_compute.
  - reflexivity.
  - reflexivity.
  - apply pipes_reliable.
  - reflexivity.
  - exact Henc.
  - reflexivity.
  - apply pipes_reliable.
  - reflexivity.
  - exact Hdec.
  - reflexivity.
  - reflexivity.
  - reflexivity.
  - done.
  - exact Hf2.
  - exact Hblocks.
  - exact Hrf.
  - exists h1, he, hd, hr, fuel. split; [exact Hsend |]. split; [exact Hencoder |].
    split; [exact Hdecoder |]. etransitivity; [exact Hreceive |]. reflexivity.
Defined.
End CommandsDemo.
