(* ===== verification/Tests.v ===== *)
(** * The tests of the repository

    The unit tests of the source files, run on the model: what a test computes is a
    definition, with the random data it draws as an argument, and the test is the
    proposition that its assertions hold.  [unit_tests] proves them for all data the
    random generator may return, all random block numbers and all schedules. *)
From stdpp Require Import prelude list strings.
From Stdlib Require Import ZArith Lia.
From S2P Require Import Prelude Vector Io Bytes RaptorQ Chan BlockEncoder BlockDecoder.
From S2P Require Import Pipeline Dispatch Machine Threads Encoder Decoder EndToEnd System.
From S2P Require Import Utf8 Protocol.

(** [unwrap], and an assertion on the value. *)
Definition unwrapped {E A} (c : outcome E A) (assertion : A -> Prop) : Prop :=
  match c with Ok a => assertion a | _ => False end.

(** ** [vector.rs] *)
Definition test_equal_length : Prop :=
  let v1 := [1; 3; 5] in
  let v2 := [2; 4; 6] in
  interleave v1 v2 = [6; 5; 4; 3; 2; 1].

Definition test_different_length : Prop :=
  let v1 := [10; 20; 30; 40; 50] in
  let v2 := [1; 2] in
  interleave v1 v2 = [2; 50; 40; 1; 30; 20; 10].

Definition test_one_empty : Prop :=
  let v1 : list nat := [] in
  let v2 := [1; 2; 3] in
  interleave v1 v2 = [3; 2; 1].

Definition test_both_empty : Prop :=
  let v1 : list nat := [] in
  let v2 : list nat := [] in
  interleave v1 v2 = [].

Lemma vector_tests :
  test_equal_length /\ test_different_length /\ test_one_empty /\ test_both_empty.
Proof. split_and!; by vm_compute. Qed.

(** ** [string.rs] *)
Definition str (s : string) : list byte := String.list_byte_of_string s.

Definition returns_original_if_shorter : Prop :=
  let s := str "hello" in truncate_utf8 s 10 = str "hello".

Definition truncates_on_ascii_boundary : Prop :=
  let s := str "hello world" in truncate_utf8 s 5 = str "hello".

(** "h", "é", "llo". *)
Definition does_not_split_multibyte_char : Prop :=
  let s := encode [104; 233; 108; 108; 111]%Z in
  let t := truncate_utf8 s 2 in
  is_char_boundary t (length t) = true /\ t = str "h".

(** "hi ", a waving hand, " world". *)
Definition handles_emoji : Prop :=
  let s := str "hi " ++ encode [0x1F44B]%Z ++ str " world" in
  let t := truncate_utf8 s 5 in
  is_char_boundary t (length t) = true /\ t = str "hi ".

Definition exact_boundary_is_kept : Prop :=
  let s := str "abcdef" in truncate_utf8 s 3 = str "abc".

Lemma string_tests :
  returns_original_if_shorter /\ truncates_on_ascii_boundary /\
  does_not_split_multibyte_char /\ handles_emoji /\ exact_boundary_is_kept.
Proof. split_and!; vm_compute; by try split. Qed.

(** ** [protocol.rs]

    [id] is the identifier [Uuid::parse_str] makes of the string in the test. *)
Section protocol.
Context `{UuidLaws} (id : Uuid).

Definition make_header (file_name : list byte) : DatagramHeader :=
  DatagramHeader_new id file_name 100 10 1.

Definition test_serialize_deserialize : Prop :=
  let header := make_header (str "test.txt") in
  unwrapped (deserialize (serialize header)) (fun deserialized =>
    file_id deserialized = file_id header /\
    file_length deserialized = file_length header /\
    chunk_offset deserialized = chunk_offset header /\
    payload_length deserialized = payload_length header /\
    file_name deserialized = file_name header).

Definition test_deserialize_buffer_too_small : Prop :=
  let buf := replicate (DATAGRAM_HEADER_LEN - 1) x00 in
  let result := deserialize buf in
  result = Err BufferTooSmall.

Definition test_file_name_truncation : Prop :=
  let long_name := replicate (FILE_NAME_LEN * 2) x61 in
  let header := make_header long_name in
  unwrapped (deserialize (serialize header)) (fun deserialized =>
    length (file_name deserialized) <= FILE_NAME_LEN /\
    file_id deserialized = file_id header).

(** Reading back a header of the test, for a name that is a string. *)
Lemma make_header_read cs :
  Forall scalar cs -> Forall (fun c => c <> 0%Z) cs ->
  deserialize (serialize (make_header (encode cs))) =
    Ok (MkDatagramHeader id 100 10 1 (wire_name (encode cs))).
Proof.
  intros Hcs Hnull. pose proof (header_roundtrip_cases (make_header (encode cs)) cs [] eq_refl
    Hcs Hnull) as Hread. rewrite app_nil_r in Hread. apply Hread; by_compute.
Qed.

Lemma protocol_tests :
  test_serialize_deserialize /\ test_deserialize_buffer_too_small /\ test_file_name_truncation.
Proof.
  split_and!.
  - unfold test_serialize_deserialize.
    change (str "test.txt") with (encode [116; 101; 115; 116; 46; 116; 120; 116]%Z).
    rewrite make_header_read by (repeat constructor; (done || lia || intros []; lia)).
    split_and!; [done.. |]. by vm_compute.
  - unfold test_deserialize_buffer_too_small, deserialize. by rewrite length_replicate.
  - unfold test_file_name_truncation.
    change (replicate (FILE_NAME_LEN * 2) x61) with (encode (replicate 512 97%Z)).
    rewrite make_header_read.
    + split; [| done]. apply Nat.leb_le. by vm_compute.
    + apply Forall_replicate. split; [lia |]. intros []; lia.
    + by apply Forall_replicate.
Qed.
End protocol.

(** ** The core: [block_encoder.rs], [block_decoder.rs], [decoder.rs]

    The tests run at the size of a real configuration; of the crate they rely on the
    symbol size it chooses for packets of 1500 bytes. *)
Definition BLOCK_SIZE : Z := 1496 * 192.
Definition MAX_PACKET_SIZE : Z := 1500.
Definition NUM_REPAIR_PACKETS : Z := 15.

(** What [get_random_vec] returns when it succeeds. *)
Definition random_block (d : list byte) : Prop := Z.of_nat (length d) = BLOCK_SIZE.

Section core.
Context `{L : RaptorQLaws}.
Context (Haccepts : with_defaults_accepts BLOCK_SIZE MAX_PACKET_SIZE = true).
Context (Hsymbol : symbol_size (with_defaults BLOCK_SIZE MAX_PACKET_SIZE) = 1496%Z).

Definition test_encode (data1 data2 : list byte) : Prop :=
  let source_block := MkBlock 1 data1 in
  unwrapped (BlockEncoder_new BLOCK_SIZE MAX_PACKET_SIZE NUM_REPAIR_PACKETS) (fun encoder =>
    unwrapped (BlockEncoder.encode encoder source_block) (fun packets =>
      let expected_num_packets :=
        (BLOCK_SIZE / symbol_size (config encoder) + NUM_REPAIR_PACKETS)%Z in
      Z.of_nat (length packets) = expected_num_packets /\
      let another_block := MkBlock 2 data2 in
      unwrapped (BlockEncoder.encode encoder another_block) (fun _ => True))).

(** The loop of [test_encode_decode]: decoding up to the first block that comes out. *)
Fixpoint decode_until (decoder : BlockDecoder) (packets : list EncodingPacket)
    : list byte * BlockDecoder :=
  match packets with
  | [] => ([], decoder)
  | packet :: packets =>
    match decode decoder packet with
    | (Some v, decoder) => (v, decoder)
    | (None, decoder) => decode_until decoder packets
    end
  end.

Definition test_encode_decode_block (source_block : list byte) : Prop :=
  let size := Z.of_nat (length source_block) in
  unwrapped (BlockEncoder_new size MAX_PACKET_SIZE NUM_REPAIR_PACKETS) (fun encoder =>
  unwrapped (BlockDecoder_new size MAX_PACKET_SIZE) (fun decoder =>
  unwrapped (BlockEncoder.encode encoder (MkBlock 1 source_block)) (fun packets =>
    let drained := length packets - Z.to_nat NUM_REPAIR_PACKETS in
    let (decoded_block, decoder) := decode_until decoder (take drained packets) in
    decoded_block = source_block /\
    match drop drained packets with
    | packet :: _ => (decode decoder packet).1 = None
    | [] => False
    end))).

(** The two threads, one after the other: the blocks fit into the channel they are sent
    to, and into the one they are received from after both threads were joined. *)
Definition test_encode_decode_stream (source_blocks : list (list byte)) : Prop :=
  let NUM_BLOCKS := 10 in
  let input := imap (fun i data => MkBlock (Z.of_nat i) data) source_blocks in
  unwrapped (BlockEncoder_new BLOCK_SIZE MAX_PACKET_SIZE NUM_REPAIR_PACKETS) (fun encoder =>
  unwrapped (BlockDecoder_new BLOCK_SIZE MAX_PACKET_SIZE) (fun decoder =>
    let (encoder_result, forward) := encode_stream encoder input (Sender [] None) in
    let (decoder_result, output) := decode_stream decoder (sent forward) (Sender [] None) in
    encoder_result = Ok tt /\ decoder_result = Ok tt /\
    let decoded_blocks := sent output in
    length decoded_blocks = NUM_BLOCKS /\
    (Z.of_nat <$> (length <$> (decoded_blocks !! 0))) = Some BLOCK_SIZE /\
    decoded_blocks = source_blocks)).

(** Encoder and decoder with three workers each, over pipes.  [w], [w'] are the threads of
    the process before; the threads of both have run to their end, under some schedule,
    and none of them panicked, when the output has been read to its end and [wait]
    returns.  Sorting both lists before they are compared is comparing them up to
    order. *)
Definition test_encode_decode {R1 V1 R2 V2} `{Feed R1, Sink V1, Feed R2, Sink V2}
    (w : threads encoder_task) (w' : threads decoder_task) (source_blocks : list (list byte))
    (first_id : Z) (input_stream : R1) (forward_writer : V1)
    (forward_reader : R2) (output_writer : V2) : Prop :=
  let (encoder, w) := Encoder_new BLOCK_SIZE MAX_PACKET_SIZE NUM_REPAIR_PACKETS 3 w in
  let (decoder, w') := Decoder_new BLOCK_SIZE 3 MAX_PACKET_SIZE w' in
  let '(encoding, encoder, w1) := start_encoding (Ok first_id) encoder w in
  unwrapped encoding (fun _ =>
  let '(decoding, decoder, w1') := start_decoding decoder w' in
  unwrapped decoding (fun _ =>
  exists em0 dm0 packet_size,
    encoder_machine (drop (length (spawned w)) (spawned w1)) input_stream forward_writer = Some em0 /\
    decoder_machine (drop (length (spawned w')) (spawned w1')) forward_reader output_writer
      = Some dm0 /\
    infer_packet_size BLOCK_SIZE MAX_PACKET_SIZE = Ok packet_size /\
    forall em dm,
      rtc (encoder_mstep BLOCK_SIZE 3) em0 em -> halted em -> should_stop em = false ->
      written (output (fthread em)) = written forward_writer ++ supply forward_reader ->
      rtc (decoder_mstep packet_size 3) dm0 dm -> halted dm -> should_stop dm = false ->
      let output_bytes := written (output (fthread dm)) in
      unwrapped (Encoder.wait (fun _ => false) encoder).1.1 (fun _ =>
      unwrapped (Decoder.wait (fun _ => false) decoder).1.1 (fun _ =>
      let decoded_blocks := records (Z.to_nat BLOCK_SIZE) output_bytes in
      concat decoded_blocks = output_bytes /\
      length decoded_blocks = length source_blocks /\
      (Z.of_nat <$> (length <$> (decoded_blocks !! 0))) = Some BLOCK_SIZE /\
      decoded_blocks ≡ₚ source_blocks)))).

(** ** They pass *)

(** The encoder of the tests, for blocks of 192 symbols. *)
Lemma test_encoder_new : exists e,
  BlockEncoder_new BLOCK_SIZE MAX_PACKET_SIZE NUM_REPAIR_PACKETS = Ok e /\
  get_configuration BLOCK_SIZE MAX_PACKET_SIZE = Ok (config e) /\
  symbol_size (config e) = 1496%Z /\ block_size e = BLOCK_SIZE /\
  repair_packets_per_block e = NUM_REPAIR_PACKETS /\ wf_encoder e 192.
Proof using L Haccepts Hsymbol.
  assert (get_configuration BLOCK_SIZE MAX_PACKET_SIZE =
    Ok (with_defaults BLOCK_SIZE MAX_PACKET_SIZE)) as Hconf.
  { unfold get_configuration. change (wrap 64 BLOCK_SIZE) with BLOCK_SIZE.
    by rewrite Haccepts, Hsymbol. }
  eexists. unfold BlockEncoder_new. rewrite Hconf. cbn [omap_err obind]. rewrite Hsymbol.
  change (checked_div BLOCK_SIZE 1496) with (Ok (E := BlockEncoderError) 192%Z). cbn [obind].
  change (try_from 16 192 _) with (Ok (E := BlockEncoderError) 192%Z). cbn [obind].
  rewrite generate_supported by lia. cbn [negb].
  split; [done |]. split; [done |]. cbn [config block_size repair_packets_per_block].
  unfold wf_encoder. cbn [config block_size repair_packets_per_block encoding_plan].
  rewrite Hsymbol. unfold repairable. split_and!; try done; by_compute.
Qed.

Lemma test_encode_passes d1 d2 : random_block d1 -> random_block d2 -> test_encode d1 d2.
Proof using L Haccepts Hsymbol.
  intros H1 H2. destruct test_encoder_new as (e & He & _ & Hss & Hbs & Hr & Hwf).
  unfold test_encode. rewrite He. cbn [unwrapped].
  assert (forall i d, fits 8 i -> random_block d -> wf_block e (MkBlock i d)) as Hb
    by (intros i d Hi Hd; split; [by rewrite Hbs | done]).
  rewrite (encode_wf e 192) by (apply Hwf || (apply Hb; by_compute || done)). cbn [unwrapped].
  rewrite (encode_wf e 192) by (apply Hwf || (apply Hb; by_compute || done)). cbn [unwrapped].
  split; [| done]. rewrite (length_packets_of e 192) by (apply Hwf || (apply Hb; by_compute || done)).
  by rewrite Hss, Hr.
Qed.

(** What the decoder makes of all the packets of blocks with different numbers. *)
Lemma decode_runs_lossless e k (bs : list Block) :
  wf_encoder e k -> fits 64 (block_size e) -> Forall (wf_block e) bs -> NoDup (id <$> bs) ->
  decode_runs (config e) (block_size e) (packets_of_all e bs) = data <$> bs.
Proof using L.
  intros He Hfit Hbs Hdup. set (gs := (fun b => (b, packets_of e b)) <$> bs).
  assert (packets_of_all e bs = gs ≫= snd) as ->.
  { unfold packets_of_all, gs. clear. induction bs as [| b bs IH]; [done |]. cbn. by rewrite IH. }
  assert (Forall (arrives e) gs) as Harr.
  { unfold gs. rewrite Forall_fmap. eapply Forall_impl; [exact Hbs |]. intros b Hb. by split. }
  assert (Forall (recoverable (config e)) gs) as Hrec.
  { rewrite Forall_forall in Harr |- *. intros g Hg. apply (arrives_complete e k He); [by apply Harr |].
    apply list_elem_of_fmap in Hg as (b & -> & Hb). cbn. apply packets_of_sources; [done |].
    rewrite Forall_forall in Hbs. by apply Hbs. }
  assert (gs.*1 = bs) as Hfst.
  { unfold gs. rewrite <- list_fmap_compose. apply list_fmap_id. }
  assert (adjacent_distinct ((fun g => id g.1) <$> survivors gs)) as Hadj.
  { apply NoDup_adjacent_distinct. rewrite <- Hfst, <- list_fmap_compose in Hdup.
    eapply sublist_NoDup; [exact Hdup |]. apply fmap_sublist, sublist_filter. }
  rewrite (decode_runs_arrivals e k) by done.
  rewrite filter_true by done. rewrite <- Hfst. by rewrite <- list_fmap_compose.
Qed.

Lemma imap_numbers (ds : list (list byte)) k :
  id <$> imap (fun i d => MkBlock (Z.of_nat (k + i)) d) ds = Z.of_nat <$> seq k (length ds) /\
  data <$> imap (fun i d => MkBlock (Z.of_nat (k + i)) d) ds = ds.
Proof using.
  revert k. induction ds as [| d ds IH]; intros k; [done |]. cbn.
  destruct (IH (S k)) as [Hid Hdata]. rewrite Nat.add_0_r. split; f_equal.
  - rewrite <- Hid. f_equal. apply imap_ext. intros i x _. cbn. by rewrite Nat.add_succ_r.
  - rewrite <- Hdata at 2. f_equal. apply imap_ext. intros i x _. cbn. by rewrite Nat.add_succ_r.
Qed.

Lemma test_encode_decode_stream_passes ds :
  length ds = 10 -> Forall random_block ds -> test_encode_decode_stream ds.
Proof using L Haccepts Hsymbol.
  intros Hlen Hds. destruct test_encoder_new as (e & He & Hconf & Hss & Hbs & Hr & Hwf).
  unfold test_encode_decode_stream, BlockDecoder_new. rewrite He, Hconf. cbn [omap_err obind unwrapped].
  set (d := MkBlockDecoder _ _ _ _ _). set (input := imap _ ds).
  destruct (imap_numbers ds 0) as [Hids Hdata]. cbn [Nat.add] in Hids, Hdata.
  fold input in Hids, Hdata.
  assert (Forall (wf_block e) input) as Hinput.
  { rewrite Forall_lookup. intros i b Hb. apply list_lookup_imap_Some in Hb as (x & Hx & ->).
    rewrite Forall_lookup in Hds. specialize (Hds i x Hx). apply lookup_lt_Some in Hx.
    split; [by rewrite Hbs | unfold fits; cbn; lia]. }
  pose proof (encode_stream_send e 192 input [] (Sender [] None) Hwf Hinput ltac:(done)) as Henc.
  rewrite app_nil_r, send_each_ok in Henc by done. rewrite Henc. cbn [sent app].
  rewrite decode_stream_all, decode_all_idle by done.
  rewrite <- Hbs. change (dec_config d) with (config e). change (dec_block_size d) with (BLOCK_SIZE).
  rewrite <- Hbs.
  rewrite (decode_runs_lossless e 192) by (first [done | rewrite Hbs; by_compute |
    rewrite Hids; apply NoDup_fmap_2; [apply _ | apply NoDup_seq]]).
  rewrite Hdata, send_each_ok by done. cbn [sent app]. split_and!; try done.
  destruct ds as [| x ds]; [done |]. cbn. apply Forall_cons in Hds as [Hx _]. by rewrite Hx, Hbs.
Qed.

(** Decoding up to the block, when the decoder works on the block of the packets. *)
Lemma decode_until_first d n ps v :
  current_block_id d = Some n -> current_block_is_decoded d = false ->
  Forall (fun p => source_block_number p = n) ps ->
  first_success (current_decoder d) ps = Some v ->
  exists d', decode_until d ps = (v, d') /\ current_block_id d' = Some n /\
    current_block_is_decoded d' = true.
Proof using.
  revert d. induction ps as [| p ps IH]; intros d Hid Hflag Hps Hv; [done |].
  inversion_clear Hps as [| ? ? Hp Hps']. cbn [decode_until first_success] in *.
  unfold decode, try_decode. rewrite Hid, Hp, Z.eqb_refl, Hflag.
  destruct (decoder_decode (current_decoder d) [p]) as [[w |] d1].
  - injection Hv as ->. by eexists.
  - by apply IH.
Qed.

(** Whether the packets that are left after the last fifteen were taken away are enough
    depends on the code. *)
Lemma test_encode_decode_block_passes data :
  random_block data ->
  (forall e, BlockEncoder_new BLOCK_SIZE MAX_PACKET_SIZE NUM_REPAIR_PACKETS = Ok e ->
   recoverable (config e) (MkBlock 1 data, take 192 (packets_of e (MkBlock 1 data)))) ->
  test_encode_decode_block data.
Proof using L Haccepts Hsymbol.
  intros Hdata Hrec. destruct test_encoder_new as (e & He & Hconf & Hss & Hbs & Hr & Hwf).
  specialize (Hrec e He). set (b := MkBlock 1 data) in *.
  assert (wf_block e b) as Hb by (split; [by rewrite Hbs | by_compute]).
  unfold test_encode_decode_block, BlockDecoder_new. rewrite Hdata, He, Hconf. cbn [omap_err obind unwrapped].
  fold b. rewrite (encode_wf e 192) by done. cbn [unwrapped].
  pose proof (length_packets_of e 192 b Hwf Hb) as Hlen. rewrite Hr in Hlen.
  pose proof (packets_of_number e 192 b Hwf Hb) as Hnum. change (id b) with 1%Z in Hnum.
  change (Z.to_nat NUM_REPAIR_PACKETS) with 15. change NUM_REPAIR_PACKETS with 15%Z in Hlen.
  replace (length (packets_of e b) - 15) with 192 by lia.
  destruct Hrec as [v Hv]. cbn [fst snd] in Hv.
  assert (v = data) as ->.
  { apply (decode_sound (config e) (id b) data 192 (take 192 (packets_of e b))); [by_compute | | | done].
    - by apply (wf_supported e 192 b).
    - apply Forall_take. by apply (packets_of_genuine e 192). }
  set (d := MkBlockDecoder _ _ _ _ _).
  assert (decode_until d (take 192 (packets_of e b)) =
    decode_until (reset_current_decoder d 1) (take 192 (packets_of e b))) as ->.
  { destruct (packets_of e b) as [| p ps]; [done |].
    inversion_clear Hnum as [| ? ? Hp _]. cbn [take decode_until]. unfold decode.
    cbn [current_block_id current_block_is_decoded reset_current_decoder d]. by rewrite Hp. }
  destruct (decode_until_first (reset_current_decoder d 1) 1 (take 192 (packets_of e b)) data)
    as (d' & -> & Hid & Hflag); [done | done | by apply Forall_take | |].
  { cbn [reset_current_decoder current_decoder dec_config dec_block_size d].
    change (wrap 64 BLOCK_SIZE) with BLOCK_SIZE. by rewrite <- Hdata. }
  split; [done |]. destruct (drop 192 (packets_of e b)) as [| p ps] eqn:Hdrop.
  { apply (f_equal length) in Hdrop. rewrite length_drop in Hdrop. cbn in Hdrop. lia. }
  unfold decode. rewrite Hid.
  assert (source_block_number p = 1%Z) as ->.
  { apply (Forall_drop _ 192) in Hnum. rewrite Hdrop in Hnum. by inversion Hnum. }
  by rewrite Hflag.
Qed.

(** The blocks that come out, when the threads have run to their end. *)
Lemma test_blocks_pass {R1 V1 R2 V2} `{Feed R1, Sink V1, Feed R2, Sink V2} encoder decoder e
    ds first_id (r1 : R1) (v1 v1' : V1) (r2 : R2) (v2 v2' : V2) :
  matched encoder decoder e -> enc_block_size encoder = BLOCK_SIZE ->
  enc_num_block_encoders encoder = 3 ->
  reliable V1 -> reliable V2 -> fits 8 first_id -> length ds = 10 -> Forall random_block ds ->
  supply r1 = concat ds -> encoder_runs first_id encoder r1 v1 false v1' ->
  written v1' = written v1 ++ supply r2 -> decoder_runs decoder r2 v2 false v2' ->
  written v2 = [] ->
  let decoded_blocks := records (Z.to_nat BLOCK_SIZE) (written v2') in
  concat decoded_blocks = written v2' /\ length decoded_blocks = length ds /\
  (Z.of_nat <$> (length <$> (decoded_blocks !! 0))) = Some BLOCK_SIZE /\
  decoded_blocks ≡ₚ ds.
Proof using L.
  intros Hmatch Hbs Hn Hrel1 Hrel2 Hid Hlen Hds Hr1 Henc Hlink Hdec Hv2.
  assert (0 < Z.to_nat BLOCK_SIZE) as Hpos by (unfold BLOCK_SIZE; lia).
  assert (Forall (fun d => length d = Z.to_nat BLOCK_SIZE) ds) as Hlens.
  { eapply Forall_impl; [exact Hds |]. unfold random_block. intros d Hd. lia. }
  destruct (system_transmission_cases encoder decoder e first_id r1 v1 v1' false r2 v2 v2' Hmatch
    Hid (reliable_any _ Hrel1) (reliable_any _ Hrel2) Henc Hlink Hdec)
    as (ds' & output & _ & Hall & Hperm & _ & Hout); [left; lia |].
  rewrite (Hall eq_refl), Hr1, Hbs in Hperm.
  rewrite <- (app_nil_r (concat ds)), records_concat in Hperm by done.
  rewrite Hv2 in Hout. cbn [app] in Hout. cbv zeta. rewrite Hout.
  assert (Forall (fun d => length d = Z.to_nat BLOCK_SIZE) output) as Houtlens by by rewrite Hperm.
  assert (records (Z.to_nat BLOCK_SIZE) (concat output) = output) as ->.
  { rewrite <- (app_nil_r (concat output)). by apply records_concat. }
  split_and!; [done | by rewrite Hperm | | done].
  apply Permutation_length in Hperm. destruct output as [| x output]; [by rewrite Hlen in Hperm |].
  apply Forall_cons in Houtlens as [Hx _].
  cbn [lookup list_lookup fmap option_fmap option_map]. rewrite Hx.
  apply (f_equal Some), Z2Nat.id. unfold BLOCK_SIZE. lia.
Qed.

(** Both sides start, and their [wait] returns [Ok]. *)
Lemma test_encode_decode_passes {R1 V1 R2 V2} `{Feed R1, Sink V1, Feed R2, Sink V2} w w' ds first_id
    (r1 : R1) (v1 : V1) (r2 : R2) (v2 : V2) :
  reliable V1 -> reliable V2 -> fits 8 first_id -> length ds = 10 -> Forall random_block ds ->
  supply r1 = concat ds -> written v2 = [] ->
  test_encode_decode w w' ds first_id r1 v1 r2 v2.
Proof using L Haccepts Hsymbol.
  intros Hrel1 Hrel2 Hid Hlen Hds Hr1 Hv2.
  destruct test_encoder_new as (e & He & _ & Hss & Hbs & Hr & Hwf).
  unfold test_encode_decode.
  destruct (Encoder_new _ _ _ _ w) as [encoder w0] eqn:Hencoder.
  destruct (Decoder_new _ _ _ w') as [decoder w0'] eqn:Hdecoder.
  assert (matched encoder decoder e) as Hmatch.
  { unfold Encoder_new, Decoder_new in *. cbn in Hencoder, Hdecoder. simplify_eq.
    split; try reflexivity; [cbn; lia | by_compute | unfold repairable; by_compute | exact He |].
    rewrite Hss. by_compute. }
  assert (enc_block_size encoder = BLOCK_SIZE /\ enc_num_block_encoders encoder = 3 /\
    num_block_decoders decoder = 3 /\
    infer_packet_size (decoder_block_size decoder) (decoder_max_packet_size decoder)
      = infer_packet_size BLOCK_SIZE MAX_PACKET_SIZE) as (Hsize & Hn & Hn' & Hinfer).
  { unfold Encoder_new, Decoder_new in *. cbn in Hencoder, Hdecoder. by simplify_eq. }
  destruct (matched_decoder _ _ _ Hmatch) as (d & Hd & _).
  pose proof (matched_size _ _ _ Hmatch) as Hpacket.
  destruct (start_encoding_ok first_id encoder w0 e (encoder_ok _ _ _ Hmatch))
    as (encoder1 & w1 & Hstart).
  destruct (start_decoding_ok decoder w0' d _ Hd Hpacket) as (decoder1 & w1' & Hstart').
  rewrite Hstart, Hstart'. cbn [unwrapped].
  eexists _, _, _. split; [by apply (encoder_machine_started _ _ _ Hmatch _ _ _ _ _ _ Hstart) |].
  split; [by apply (decoder_machine_started _ _ _ Hmatch _ _ _ _ _ _ Hd Hstart') |].
  split; [rewrite <- Hinfer; exact Hpacket |].
  intros em dm Hrun Hend Hstop Hlink Hrun' Hend' Hstop'.
  rewrite (started_waits _ _ _ _ _ Hstart), (decoder_started_waits _ _ _ _ Hstart').
  cbn [unwrapped].
  apply (test_blocks_pass encoder decoder e ds first_id r1 v1 (output (fthread em)) r2 v2); try done.
  - exists w0, encoder1, w1. eexists _, em.
    split; [done |]. split; [by apply (encoder_machine_started _ _ _ Hmatch _ _ _ _ _ _ Hstart) |].
    rewrite Hsize, Hn in *. done.
  - eexists _, w0', decoder1, w1', _, dm. split; [exact Hpacket |]. split; [done |].
    split; [by apply (decoder_machine_started _ _ _ Hmatch _ _ _ _ _ _ Hd Hstart') |].
    rewrite Hn' in *. done.
Qed.
End core.

(** The unit tests of the repository that do not depend on how good the code is
    pass, whatever data and block number the random generator returns, whatever the
    pipes do with reads and writes, and under every schedule of the threads, provided
    the crate chooses symbols of 1496 bytes for packets of 1500. *)
Theorem unit_tests `{L : RaptorQLaws} `{UL : UuidLaws} {R1 V1 R2 V2 : Type}
    `{Feed R1, Sink V1, Feed R2, Sink V2} :
  with_defaults_accepts BLOCK_SIZE MAX_PACKET_SIZE = true ->
  symbol_size (with_defaults BLOCK_SIZE MAX_PACKET_SIZE) = 1496%Z ->
  reliable V1 -> reliable V2 ->
  (test_equal_length /\ test_different_length /\ test_one_empty /\ test_both_empty) /\
  (returns_original_if_shorter /\ truncates_on_ascii_boundary /\
   does_not_split_multibyte_char /\ handles_emoji /\ exact_boundary_is_kept) /\
  (forall id, test_serialize_deserialize id /\ test_deserialize_buffer_too_small /\
     test_file_name_truncation id) /\
  (forall d1 d2, random_block d1 -> random_block d2 -> test_encode d1 d2) /\
  (forall ds, length ds = 10 -> Forall random_block ds ->
     test_encode_decode_stream ds /\
     forall w w' first_id (r1 : R1) (v1 : V1) (r2 : R2) (v2 : V2), fits 8 first_id ->
       supply r1 = concat ds -> written v2 = [] ->
       test_encode_decode w w' ds first_id r1 v1 r2 v2).
Proof.
  intros Haccepts Hsymbol Hrel1 Hrel2.
  split; [exact vector_tests |]. split; [exact string_tests |]. split; [exact protocol_tests |].
  split; [by apply test_encode_passes |]. intros ds Hlen Hds.
  split; [by apply test_encode_decode_stream_passes |]. intros. by apply test_encode_decode_passes.
Qed.

Module TestsDemo.
Import SixteenBytes.
#[local] Existing Instance uuid_ops.

Definition demo_data : list byte := replicate (Z.to_nat BLOCK_SIZE) x2a.

Lemma demo_data_random : random_block demo_data.
Proof. unfold random_block, demo_data. rewrite length_replicate. unfold BLOCK_SIZE. lia. Qed.

Lemma unit_tests_witness :
  test_encode (C := Repetition.code) demo_data demo_data /\ test_file_name_truncation demo_uuid /\
  test_encode_decode_stream (C := Repetition.code) (replicate 10 demo_data).
Proof.
  destruct (unit_tests (C := Repetition.code) (R1 := cursor) (V1 := vector) (R2 := cursor)
    (V2 := vector) eq_refl eq_refl vector_reliable vector_reliable)
    as (_ & _ & Hprotocol & Hencode & Hstream).
  split; [apply Hencode; apply demo_data_random |]. split; [apply Hprotocol |].
  assert (length (replicate 10 demo_data) = 10) as Hlen by apply length_replicate.
  assert (Forall random_block (replicate 10 demo_data)) as Hall
    by exact (Forall_replicate _ 10 _ demo_data_random).
  exact (proj1 (Hstream _ Hlen Hall)).
Defined.
End TestsDemo.
